(** * Memora: message chains, memory provenance and cascading delete

    A shallow embedding of [memora/graph_db/neo4j/interaction.py] (class
    [Neo4jInteraction]) and of [memora/graph_db/neo4j/user.py] (class
    [Neo4jUser]).

    The Python methods are thin wrappers around Cypher queries, so the
    embedding has three layers:

    - a property graph (nodes with a label and properties, typed directed
      relationships with an identity) and the Cypher primitives the queries
      use: CREATE, MERGE, DETACH DELETE, variable-length MATCH, UNWIND,
      COLLECT, list indexing;
    - one Rocq function per query, written clause by clause over tables of
      rows: a clause that writes runs once per row, in row order;
    - the Python control flow around the queries: the comparison loop of
      [update_interaction_and_memories], the transaction functions, and
      [session.execute_write], which commits the work of a transaction
      function that returns and rolls it back when it raises.

    Cypher leaves the order of the rows of a MATCH unspecified.  The model
    fixes it: nodes and relationships are enumerated in creation order and a
    variable-length pattern is expanded depth first.  What a query without
    ORDER BY returns is therefore stated up to order. *)

From Stdlib Require Import List ZArith String Bool Arith Lia Permutation.
Import ListNotations.

Local Open Scope Z_scope.

(** ** Python and driver exceptions *)

Inductive exn : Type :=
| IndexError            (* list index out of range *)
| KeyError              (* dict key absent *)
| CypherError           (* the query failed in the database *)
| ExternalIndexFailure. (* the vector-index callback raised *)

Inductive res (A : Type) : Type :=
| Ok (a : A)
| Raise (e : exn).
Arguments Ok {A} a.
Arguments Raise {A} e.

Definition res_bind {A B} (r : res A) (k : A -> res B) : res B :=
  match r with
  | Ok a => k a
  | Raise e => Raise e
  end.

Declare Scope res_scope.
Delimit Scope res_scope with res.
Notation "x <- r ;; k" := (res_bind r (fun x => k))
  (at level 61, r at next level, right associativity) : res_scope.
Notation "' p <- r ;; k" := (res_bind r (fun x => let 'p := x in k))
  (at level 61, p pattern, r at next level, right associativity) : res_scope.

(** ** The property graph *)

Inductive reltype : Type :=
| BELONGS_TO | INTERACTIONS_IN | HAS_MEMORIES | HAD_INTERACTION
| HAS_OCCURRENCE_ON | FIRST_MESSAGE | IS_NEXT
| INTERACTION_SOURCE | INCLUDES | MESSAGE_SOURCE | CONTRARY_UPDATE.

Definition reltype_eqb (a b : reltype) : bool :=
  match a, b with
  | BELONGS_TO, BELONGS_TO | INTERACTIONS_IN, INTERACTIONS_IN
  | HAS_MEMORIES, HAS_MEMORIES | HAD_INTERACTION, HAD_INTERACTION
  | HAS_OCCURRENCE_ON, HAS_OCCURRENCE_ON | FIRST_MESSAGE, FIRST_MESSAGE
  | IS_NEXT, IS_NEXT | INTERACTION_SOURCE, INTERACTION_SOURCE
  | INCLUDES, INCLUDES | MESSAGE_SOURCE, MESSAGE_SOURCE
  | CONTRARY_UPDATE, CONTRARY_UPDATE => true
  | _, _ => false
  end.

(** A timestamp as Cypher's [datetime(...)] reads it from the ISO string:
    the calendar day and the time within that day.  [date(datetime(s))] is
    the day. *)
Record datetime : Type := { dt_day : Z; dt_clock : Z }.

(** A node is one of the labelled shapes the queries create.  Cypher does
    not store a property whose value is null, hence the optional [role] and
    [content] of a MessageBlock. *)
Inductive node_data : Type :=
| Org (org_id : string)
| User (org_id user_id user_name : string) (created_at : datetime)
| InteractionCollection (org_id user_id : string)
| MemoryCollection (org_id user_id : string)
| Interaction (org_id user_id agent_id interaction_id : string)
              (created_at updated_at : datetime)
| Date (org_id user_id : string) (date : Z)
| MessageBlock (msg_position : Z) (role content : option string)
| Memory (org_id user_id agent_id interaction_id memory_id memory : string)
         (obtained_at : datetime).

Record node : Type := { n_id : nat; n_data : node_data }.
Record rel : Type := { r_id : nat; r_src : nat; r_ty : reltype; r_dst : nat }.

(** Nodes and relationships in creation order; [next_id] is the next unused
    identity. *)
Record graph : Type :=
  { nodes : list node; rels : list rel; next_id : nat }.

Definition empty_graph : graph := {| nodes := []; rels := []; next_id := 0 |}.

Definition node_of (g : graph) (x : nat) : option node_data :=
  option_map n_data (find (fun n => Nat.eqb (n_id n) x) (nodes g)).

(** CREATE (n:Label {...}) *)
Definition create_node (g : graph) (d : node_data) : graph * nat :=
  ({| nodes := nodes g ++ [{| n_id := next_id g; n_data := d |}];
      rels := rels g;
      next_id := S (next_id g) |}, next_id g).

(** CREATE (a)-[:T]->(b) on bound nodes *)
Definition create_rel (g : graph) (a : nat) (t : reltype) (b : nat) : graph :=
  {| nodes := nodes g;
     rels := rels g ++ [{| r_id := next_id g; r_src := a; r_ty := t; r_dst := b |}];
     next_id := S (next_id g) |}.

(** CREATE of a relationship whose end points come from expressions that may
    be null: the database refuses a missing end point. *)
Definition create_rel_opt (g : graph) (a : option nat) (t : reltype)
    (b : option nat) : res graph :=
  match a, b with
  | Some a, Some b => Ok (create_rel g a t b)
  | _, _ => Raise CypherError
  end.

Definition mem_nat (x : nat) (l : list nat) : bool := existsb (Nat.eqb x) l.

(** DETACH DELETE: the nodes go, and with them every relationship that
    starts or ends at one of them. *)
Definition detach_delete (g : graph) (dead : list nat) : graph :=
  {| nodes := filter (fun n => negb (mem_nat (n_id n) dead)) (nodes g);
     rels := filter (fun e => negb (mem_nat (r_src e) dead)
                              && negb (mem_nat (r_dst e) dead)) (rels g);
     next_id := next_id g |}.

(** SET on the properties of one node *)
Definition set_node (g : graph) (x : nat) (f : node_data -> node_data) : graph :=
  {| nodes := map (fun n => if Nat.eqb (n_id n) x
                            then {| n_id := n_id n; n_data := f (n_data n) |}
                            else n) (nodes g);
     rels := rels g;
     next_id := next_id g |}.

(** ** Tables of rows *)

(** A writing clause runs once per row, in row order, each run seeing the
    graph the previous one left. *)
Fixpoint for_rows {R S : Type} (f : graph -> R -> res (graph * S))
    (g : graph) (rows : list R) : res (graph * list S) :=
  match rows with
  | [] => Ok (g, [])
  | r :: rest =>
      ('(g1, s) <- f g r ;;
       '(g2, ss) <- for_rows f g1 rest ;;
       Ok (g2, s :: ss))%res
  end.

(** The same for a clause that cannot fail.  The clause may keep a row
    (CREATE, SET) or turn it into several (MERGE). *)
Fixpoint each_row {R S : Type} (f : graph -> R -> graph * list S)
    (g : graph) (rows : list R) : graph * list S :=
  match rows with
  | [] => (g, [])
  | r :: rest =>
      let '(g1, ss) := f g r in
      let '(g2, ss') := each_row f g1 rest in
      (g2, ss ++ ss')
  end.

(** RANGE(a, b): the integers from [a] to [b], both included. *)
Definition RANGE (a b : Z) : list Z :=
  map (fun i => a + Z.of_nat i) (seq 0 (Z.to_nat (b - a + 1))).

Definition SIZE {A} (l : list A) : Z := Z.of_nat (List.length l).

(** [l[i]] in Cypher: null out of range, a negative index counts from the
    end. *)
Definition list_at {A} (l : list A) (i : Z) : option A :=
  if 0 <=? i then nth_error l (Z.to_nat i)
  else if 0 <=? SIZE l + i then nth_error l (Z.to_nat (SIZE l + i))
  else None.

(** Keys of a grouping, in order of first appearance. *)
Fixpoint distinct {K} (eqb : K -> K -> bool) (l : list K) : list K :=
  match l with
  | [] => []
  | x :: r => x :: filter (fun y => negb (eqb y x)) (distinct eqb r)
  end.

(** WITH k, COLLECT(v): one row per key that has rows, the values in row
    order. *)
Definition collect_by {K V} (eqb : K -> K -> bool) (rows : list (K * V))
    : list (K * list V) :=
  map (fun k => (k, map snd (filter (fun r => eqb (fst r) k) rows)))
      (distinct eqb (map fst rows)).

Definition pair_eqb (a b : nat * nat) : bool :=
  Nat.eqb (fst a) (fst b) && Nat.eqb (snd a) (snd b).

(** ** Pattern matching *)

Definition has_type (tys : list reltype) (e : rel) : bool :=
  existsb (reltype_eqb (r_ty e)) tys.

Definition drop_rel (e : rel) (avail : list rel) : list rel :=
  filter (fun e' => negb (Nat.eqb (r_id e') (r_id e))) avail.

(** Depth-first expansion of a variable-length pattern from [cur] over the
    relationships [avail]: every path of one hop or more, reported as its
    number of hops and its end node.  A relationship occurs at most once on a
    path, so each hop removes it from [avail]; [fuel] only has to reach the
    length of [avail] (see [walk_fuel]). *)
Fixpoint walk (fuel : nat) (avail : list rel) (depth : nat) (cur : nat)
    : list (nat * nat) :=
  match fuel with
  | O => []
  | S f =>
      flat_map (fun e => (S depth, r_dst e)
                           :: walk f (drop_rel e avail) (S depth) (r_dst e))
               (filter (fun e => Nat.eqb (r_src e) cur) avail)
  end.

(** (x)-[:T1|T2*]->(y): hop counts and end nodes of all paths from [x]. *)
Definition var_length (g : graph) (tys : list reltype) (x : nat)
    : list (nat * nat) :=
  let rs := filter (has_type tys) (rels g) in
  walk (List.length rs) rs 0 x.

Definition is_MessageBlock (g : graph) (x : nat) : bool :=
  match node_of g x with Some (MessageBlock _ _ _) => true | _ => false end.

Definition is_Memory (g : graph) (x : nat) : bool :=
  match node_of g x with Some (Memory _ _ _ _ _ _ _) => true | _ => false end.

Definition is_Date (g : graph) (x : nat) : bool :=
  match node_of g x with Some (Date _ _ _) => true | _ => false end.

(** MATCH (interaction:Interaction {org_id, user_id, interaction_id}) *)
Definition match_interaction (g : graph) (org user iid : string) : list nat :=
  map n_id
    (filter (fun n => match n_data n with
                      | Interaction o u _ i _ _ =>
                          String.eqb o org && String.eqb u user && String.eqb i iid
                      | _ => false
                      end) (nodes g)).

(** MATCH (interaction {...})-[:FIRST_MESSAGE|IS_NEXT*]->(m:MessageBlock):
    rows (interaction, hops, m). *)
Definition match_messages (g : graph) (org user iid : string)
    : list (nat * nat * nat) :=
  flat_map (fun i =>
      map (fun p => (i, fst p, snd p))
          (filter (fun p => is_MessageBlock g (snd p))
                  (var_length g [FIRST_MESSAGE; IS_NEXT] i)))
    (match_interaction g org user iid).

(** (x)-[:T]->() and (x)<-[:T]-() as predicates in a WHERE: a test on the
    whole graph, independent of the relationships the MATCH has bound. *)
Definition has_outgoing (g : graph) (x : nat) (t : reltype) : bool :=
  existsb (fun e => Nat.eqb (r_src e) x && reltype_eqb (r_ty e) t) (rels g).

Definition has_incoming (g : graph) (x : nat) (t : reltype) : bool :=
  existsb (fun e => Nat.eqb (r_dst e) x && reltype_eqb (r_ty e) t) (rels g).

(** (x)-[:T]->(y) and (x)<-[:T]-(y) with [x] bound: the candidates for y. *)
Definition targets (g : graph) (x : nat) (t : reltype) : list nat :=
  map r_dst (filter (fun e => Nat.eqb (r_src e) x && reltype_eqb (r_ty e) t) (rels g)).

Definition sources (g : graph) (x : nat) (t : reltype) : list nat :=
  map r_src (filter (fun e => Nat.eqb (r_dst e) x && reltype_eqb (r_ty e) t) (rels g)).

(** OPTIONAL MATCH: the matches, or one null when there is none. *)
Definition optional {A} (l : list A) : list (option A) :=
  match l with
  | [] => [None]
  | _ => map Some l
  end.

(** ** Inputs of the Python methods *)

(** One entry of a transcript, a dict with the keys "role" and "content". *)
Record message : Type := { role : string; content : string }.

(** Modelled from the spec: the schema [MemoriesAndInteraction] of
    [memora/schema/save_memory_schema.py] is not among the sources.  The
    records carry the attributes the methods read: a memory has its text and
    the positions of its source messages, a contrary memory also the id of
    the memory it supersedes ([existing_contrary_memory_id] is read for
    contrary memories only). *)
Record MemoryObj : Type :=
  { memory : string;
    source_msg_block_pos : list Z;
    existing_contrary_memory_id : string }.

Record MemoriesAndInteraction : Type :=
  { interaction : list message;
    memories : list MemoryObj;
    contrary_memories : list MemoryObj;
    interaction_date : datetime }.

(** What [m{.*}] returns for a MessageBlock: all its stored properties. *)
Record block : Type :=
  { msg_position : Z; b_role : option string; b_content : option string }.

(** What [m{.memory_id, .memory, obtained_at: ...}] returns for a Memory. *)
Record memory_row : Type :=
  { memory_id : string; memory_text : string; obtained_at : datetime }.

(** [$messages[idx].role] and [$messages[idx].content]: null when the index
    is out of range. *)
Definition msg_role (messages : list message) (idx : Z) : option string :=
  option_map role (list_at messages idx).

Definition msg_content (messages : list message) (idx : Z) : option string :=
  option_map content (list_at messages idx).

(** [m.msg_position] *)
Definition position_of (g : graph) (m : nat) : option Z :=
  match node_of g m with
  | Some (MessageBlock p _ _) => Some p
  | _ => None
  end.

(** UNWIND RANGE(1, SIZE(nodeList) - 1) AS idx
    WITH nodeList[idx] AS currentNode, nodeList[idx - 1] AS previousNode
    CREATE (previousNode)-[:IS_NEXT]->(currentNode) *)
Definition link_consecutive (g : graph) (rows : list (list nat)) : res graph :=
  let rows := flat_map (fun nodeList =>
                 map (fun idx => (list_at nodeList idx, list_at nodeList (idx - 1)))
                     (RANGE 1 (SIZE nodeList - 1))) rows in
  ('(g, _) <- for_rows (fun g '(currentNode, previousNode) =>
                 g' <- create_rel_opt g previousNode IS_NEXT currentNode ;;
                 Ok (g', tt)) g rows ;;
   Ok g)%res.

(** CREATE (msg:MessageBlock {msg_position: idx, role: $messages[idx].role,
    content: $messages[idx].content}), once per row (key, idx). *)
Definition create_blocks (g : graph) (messages : list message)
    (rows : list (nat * Z)) : graph * list (nat * nat) :=
  each_row (fun g '(key, idx) =>
      let '(g', msg) := create_node g
          (MessageBlock idx (msg_role messages idx) (msg_content messages idx)) in
      (g', [(key, msg)])) g rows.

(** ** The queries of [Neo4jInteraction] *)

Definition _add_messages_to_interaction_from_top (g : graph)
    (org_id user_id interaction_id : string) (messages : list message)
    : res graph :=
  let rows := match_interaction g org_id user_id interaction_id in
  (* CREATE (msg1:MessageBlock {msg_position: 0, role: $messages[0].role, ...}) *)
  let '(g, rows) := each_row (fun g interaction =>
        let '(g', msg1) := create_node g
            (MessageBlock 0 (msg_role messages 0) (msg_content messages 0)) in
        (g', [(interaction, msg1)])) g rows in
  (* CREATE (interaction)-[:FIRST_MESSAGE]->(msg1)  WITH msg1 *)
  let '(g, rows) := each_row (fun g '(interaction, msg1) =>
        (create_rel g interaction FIRST_MESSAGE msg1, [msg1])) g rows in
  (* UNWIND RANGE(1, SIZE($messages) - 1) AS idx *)
  let rows := flat_map (fun msg1 =>
        map (fun idx => (msg1, idx)) (RANGE 1 (SIZE messages - 1))) rows in
  let '(g, rows) := create_blocks g messages rows in
  (* WITH msg1, COLLECT(msg) AS nodeList  WITH [msg1] + nodeList AS nodeList *)
  let rows := map (fun '(msg1, nodeList) => [msg1] ++ nodeList)
                  (collect_by Nat.eqb rows) in
  link_consecutive g rows.

Definition _append_messages_to_interaction (g : graph)
    (org_id user_id interaction_id : string) (messages : list message)
    : res graph :=
  (* MATCH ...-[r:FIRST_MESSAGE|IS_NEXT*]->(m:MessageBlock)
     WHERE NOT (m)-[:IS_NEXT]->() *)
  let rows := filter (fun '(_, _, m) => negb (has_outgoing g m IS_NEXT))
                     (match_messages g org_id user_id interaction_id) in
  (* UNWIND RANGE(m.msg_position+1, SIZE($messages) - 1) AS idx *)
  let rows := flat_map (fun '(_, _, m) =>
        match position_of g m with
        | Some p => map (fun idx => (m, idx)) (RANGE (p + 1) (SIZE messages - 1))
        | None => []
        end) rows in
  let '(g, rows) := create_blocks g messages rows in
  (* WITH m, COLLECT(msg) AS nodeList  WITH [m] + nodeList AS nodeList *)
  let rows := map (fun '(m, nodeList) => [m] ++ nodeList)
                  (collect_by Nat.eqb rows) in
  link_consecutive g rows.

(** The truncation query of [update_tx]:
    MATCH (interaction {...})-[r:FIRST_MESSAGE|IS_NEXT*{truncate_from}]->(m:MessageBlock)
    MATCH (m)-[:IS_NEXT*]->(n)
    DETACH DELETE n *)
Definition truncate_messages (g : graph) (org_id user_id interaction_id : string)
    (truncate_from : Z) : graph :=
  let rows := filter (fun '(_, hops, _) => Z.of_nat hops =? truncate_from)
                     (match_messages g org_id user_id interaction_id) in
  let rows := flat_map (fun '(_, _, m) => map snd (var_length g [IS_NEXT] m)) rows in
  detach_delete g rows.

Definition block_of (g : graph) (m : nat) : list block :=
  match node_of g m with
  | Some (MessageBlock p r c) =>
      [{| msg_position := p; b_role := r; b_content := c |}]
  | _ => []
  end.

(** The read transaction of [get_interaction_messages]. *)
Definition get_interaction_messages (g : graph)
    (org_id user_id interaction_id : string) : list block :=
  flat_map (fun '(_, _, m) => block_of g m)
           (match_messages g org_id user_id interaction_id).

Definition memory_row_of (g : graph) (m : nat) : list memory_row :=
  match node_of g m with
  | Some (Memory _ _ _ _ mid txt at_) =>
      [{| memory_id := mid; memory_text := txt; obtained_at := at_ |}]
  | _ => []
  end.

(** The read transaction of [get_all_interaction_memories]:
    MATCH (i:Interaction {...})<-[:INTERACTION_SOURCE]-(m:Memory)
    The query has no ORDER BY; the rows come in the order of the model. *)
Definition get_all_interaction_memories (g : graph)
    (org_id user_id interaction_id : string) : list memory_row :=
  flat_map (fun i =>
      flat_map (memory_row_of g) (sources g i INTERACTION_SOURCE))
    (match_interaction g org_id user_id interaction_id).

(** MATCH (u:User {org_id, user_id}) *)
Definition match_user (g : graph) (org user : string) : list nat :=
  map n_id
    (filter (fun n => match n_data n with
                      | User o u _ _ => String.eqb o org && String.eqb u user
                      | _ => false
                      end) (nodes g)).

(** MATCH (m:Memory {org_id, user_id, memory_id}) *)
Definition match_memory (g : graph) (org user mid : string) : list nat :=
  map n_id
    (filter (fun n => match n_data n with
                      | Memory o u _ _ i _ _ =>
                          String.eqb o org && String.eqb u user && String.eqb i mid
                      | _ => false
                      end) (nodes g)).

(** MATCH (d:Date {org_id, user_id, date}) *)
Definition match_date (g : graph) (org user : string) (day : Z) : list nat :=
  map n_id
    (filter (fun n => match n_data n with
                      | Date o u d => String.eqb o org && String.eqb u user && (d =? day)
                      | _ => false
                      end) (nodes g)).

(** MERGE (d:Date {org_id, user_id, date}): the Date nodes that match, or a
    new one when there is none. *)
Definition merge_date (g : graph) (org user : string) (day : Z)
    : graph * list nat :=
  match match_date g org user day with
  | [] => let '(g', d) := create_node g (Date org user day) in (g', [d])
  | ds => (g, ds)
  end.

Definition has_rel (g : graph) (a : nat) (t : reltype) (b : nat) : bool :=
  existsb (fun e => Nat.eqb (r_src e) a && reltype_eqb (r_ty e) t
                    && Nat.eqb (r_dst e) b) (rels g).

(** MERGE (a)-[:T]->(b) on bound nodes: nothing when such a relationship
    exists, otherwise CREATE. *)
Definition merge_rel (g : graph) (a : nat) (t : reltype) (b : nat) : graph :=
  if has_rel g a t b then g else create_rel g a t b.

(** The argument [memories_and_source] of the query below: the tuples
    (memory_id, memory, source_msg_block_pos) of the zip of all ids with all
    memories. *)
Definition memories_and_source (mi : MemoriesAndInteraction)
    (new_memory_ids new_contrary_memory_ids : list string)
    : list (string * string * list Z) :=
  map (fun '(mid, obj) => (mid, memory obj, source_msg_block_pos obj))
      (combine (new_memory_ids ++ new_contrary_memory_ids)
               (memories mi ++ contrary_memories mi)).

Definition _add_memories_with_their_source_links (g : graph)
    (org_id user_id agent_id interaction_id : string)
    (mi : MemoriesAndInteraction)
    (new_memory_ids new_contrary_memory_ids : list string) : res graph :=
  (* MATCH (interaction {...})-[r:FIRST_MESSAGE|IS_NEXT*]->(m:MessageBlock)
     MATCH (user:User {...})-[:HAS_MEMORIES]->(mc) *)
  let rows := flat_map (fun '(i, _, m) =>
        map (fun mc => ((i, mc), m))
            (flat_map (fun u => targets g u HAS_MEMORIES)
                      (match_user g org_id user_id)))
      (match_messages g org_id user_id interaction_id) in
  (* WITH collect(m) as messages, interaction, mc *)
  let rows := collect_by pair_eqb rows in
  (* UNWIND $memories_and_source as memory_tuple *)
  let rows := flat_map (fun '((i, mc), messages) =>
        map (fun tuple => (i, mc, messages, tuple))
            (memories_and_source mi new_memory_ids new_contrary_memory_ids))
      rows in
  (* CREATE (memory:Memory {...}) *)
  let '(g, rows) := each_row (fun g '(i, mc, messages, (mid, txt, all_pos)) =>
        let '(g, mem) := create_node g
            (Memory org_id user_id agent_id interaction_id mid txt
                    (interaction_date mi)) in
        (g, [(i, mc, messages, all_pos, mem)])) g rows in
  (* CREATE (interaction)<-[:INTERACTION_SOURCE]-(memory) *)
  let '(g, rows) := each_row (fun g '(i, mc, messages, all_pos, mem) =>
        (create_rel g mem INTERACTION_SOURCE i, [(mc, messages, all_pos, mem)]))
      g rows in
  (* CREATE (mc)-[:INCLUDES]->(memory)
     WITH memory, memory_tuple[2] as all_memory_source_msg_pos, messages *)
  let '(g, rows) := each_row (fun g '(mc, messages, all_pos, mem) =>
        (create_rel g mc INCLUDES mem, [(mem, all_pos, messages)])) g rows in
  (* UNWIND all_memory_source_msg_pos as source_msg_pos
     WITH messages[source_msg_pos] as message_node, memory *)
  let rows := flat_map (fun '(mem, all_pos, messages) =>
        map (fun source_msg_pos => (list_at messages source_msg_pos, mem)) all_pos)
      rows in
  (* CREATE (message_node)<-[:MESSAGE_SOURCE]-(memory) *)
  ('(g, _) <- for_rows (fun g '(message_node, mem) =>
        g' <- create_rel_opt g (Some mem) MESSAGE_SOURCE message_node ;;
        Ok (g', tt)) g rows ;;
   Ok g)%res.

(** The argument [contrary_and_existing_ids]: the pairs (id of the new
    contrary memory, id of the memory it contradicts). *)
Definition contrary_and_existing_ids (mi : MemoriesAndInteraction)
    (new_contrary_memory_ids : list string) : list (string * string) :=
  map (fun '(cid, obj) => (cid, existing_contrary_memory_id obj))
      (combine new_contrary_memory_ids (contrary_memories mi)).

(** UNWIND the pairs, MATCH both memories: rows (new_contrary_memory,
    old_memory). *)
Definition contrary_rows (g : graph) (org_id user_id : string)
    (pairs : list (string * string)) : list (nat * nat) :=
  flat_map (fun '(cid, eid) =>
      flat_map (fun new_contrary_memory =>
          map (fun old_memory => (new_contrary_memory, old_memory))
              (match_memory g org_id user_id eid))
        (match_memory g org_id user_id cid)) pairs.

(** MERGE (new_contrary_memory)<-[:CONTRARY_UPDATE]-(old_memory), row by
    row. *)
Definition merge_contrary (g : graph) (rows : list (nat * nat)) : graph :=
  fold_left (fun g '(new_contrary_memory, old_memory) =>
               merge_rel g old_memory CONTRARY_UPDATE new_contrary_memory)
            rows g.

Definition _link_update_contrary_memories_to_existing_memories (g : graph)
    (org_id user_id : string) (new_contrary_memory_ids : list string)
    (mi : MemoriesAndInteraction) : graph :=
  merge_contrary g
    (contrary_rows g org_id user_id
       (contrary_and_existing_ids mi new_contrary_memory_ids)).

(** The first query of [save_tx]: create the interaction under the user's
    interaction collection and connect it to the Date of its day. *)
Definition create_interaction (g : graph)
    (org_id user_id agent_id interaction_id : string) (date : datetime)
    : graph :=
  (* MATCH (u:User {...})-[:INTERACTIONS_IN]->(ic) *)
  let rows := flat_map (fun u => map (fun ic => (u, ic)) (targets g u INTERACTIONS_IN))
                       (match_user g org_id user_id) in
  (* CREATE (interaction:Interaction {...}) *)
  let '(g, rows) := each_row (fun g '(u, ic) =>
        let '(g, i) := create_node g
            (Interaction org_id user_id agent_id interaction_id date date) in
        (g, [(u, ic, i)])) g rows in
  (* CREATE (ic)-[:HAD_INTERACTION]->(interaction)  WITH interaction, u *)
  let '(g, rows) := each_row (fun g '(u, ic, i) =>
        (create_rel g ic HAD_INTERACTION i, [(i, u)])) g rows in
  (* MERGE (d:Date {...}) *)
  let '(g, rows) := each_row (fun g '(i, u) =>
        let '(g, ds) := merge_date g org_id user_id (dt_day date) in
        (g, map (fun d => (i, d)) ds)) g rows in
  (* CREATE (interaction)-[:HAS_OCCURRENCE_ON]->(d) *)
  fold_left (fun g '(i, d) => create_rel g i HAS_OCCURRENCE_ON d) rows g.

(** The last query of [update_tx]: SET the agent and the update time, MERGE
    the Date of the new day and the occurrence on it. *)
Definition touch_interaction (g : graph)
    (org_id user_id agent_id interaction_id : string) (updated_date : datetime)
    : graph :=
  let rows := match_interaction g org_id user_id interaction_id in
  (* SET i.updated_at = datetime($updated_date), i.agent_id = $agent_id *)
  let '(g, rows) := each_row (fun g i =>
        (set_node g i (fun d => match d with
                                | Interaction o u _ iid c _ =>
                                    Interaction o u agent_id iid c updated_date
                                | other => other
                                end), [i])) g rows in
  (* MERGE (d:Date {...}) *)
  let '(g, rows) := each_row (fun g i =>
        let '(g, ds) := merge_date g org_id user_id (dt_day updated_date) in
        (g, map (fun d => (i, d)) ds)) g rows in
  (* MERGE (i)-[:HAS_OCCURRENCE_ON]->(d) *)
  fold_left (fun g '(i, d) => merge_rel g i HAS_OCCURRENCE_ON d) rows g.

Definition opt_list {A} (o : option A) : list A :=
  match o with Some a => [a] | None => [] end.

(** The query of [delete_tx]:
    MATCH (interaction {...})-[r:FIRST_MESSAGE|IS_NEXT*]->(message:MessageBlock)
    OPTIONAL MATCH (interaction)<-[:MESSAGE_SOURCE]-(memory)
    OPTIONAL MATCH (interaction)-[:HAS_OCCURRENCE_ON]->(date:Date)
      WHERE NOT (date)<-[:HAS_OCCURRENCE_ON]-()
    DETACH DELETE interaction, message, memory, date *)
Definition delete_rows (g : graph) (org_id user_id interaction_id : string)
    : list (nat * nat * option nat * option nat) :=
  flat_map (fun '(i, _, message) =>
      flat_map (fun mem =>
          map (fun date => (i, message, mem, date))
              (optional
                 (filter (fun d => is_Date g d
                                   && negb (has_incoming g d HAS_OCCURRENCE_ON))
                         (targets g i HAS_OCCURRENCE_ON))))
        (optional (sources g i MESSAGE_SOURCE)))
    (match_messages g org_id user_id interaction_id).

Definition delete_interaction (g : graph) (org_id user_id interaction_id : string)
    : graph :=
  detach_delete g
    (flat_map (fun '(i, message, mem, date) =>
         [i; message] ++ opt_list mem ++ opt_list date)
       (delete_rows g org_id user_id interaction_id)).

(** The query of [delete_all_tx]:
    MATCH (u:User {...})-[:INTERACTIONS_IN]->(ic)-[:HAD_INTERACTION]->(interaction:Interaction)
    OPTIONAL MATCH (interaction)<-[:INTERACTION_SOURCE]-(memory:Memory)
    OPTIONAL MATCH (interaction)-[:HAS_OCCURRENCE_ON]->(date:Date)
    OPTIONAL MATCH (interaction)-[:FIRST_MESSAGE|IS_NEXT*]->(messages:MessageBlock)
    DETACH DELETE interaction, memory, date, messages *)
Definition is_Interaction (g : graph) (x : nat) : bool :=
  match node_of g x with Some (Interaction _ _ _ _ _ _) => true | _ => false end.

Definition delete_all_interactions (g : graph) (org_id user_id : string) : graph :=
  let rows := flat_map (fun u =>
        flat_map (fun ic => filter (is_Interaction g) (targets g ic HAD_INTERACTION))
                 (targets g u INTERACTIONS_IN))
      (match_user g org_id user_id) in
  detach_delete g
    (List.concat (flat_map (fun i =>
         flat_map (fun mem =>
             flat_map (fun date =>
                 map (fun messages => [i] ++ opt_list mem ++ opt_list date
                                          ++ opt_list messages)
                     (optional (map snd
                        (filter (fun p => is_MessageBlock g (snd p))
                                (var_length g [FIRST_MESSAGE; IS_NEXT] i)))))
               (optional (filter (is_Date g) (targets g i HAS_OCCURRENCE_ON))))
           (optional (filter (is_Memory g) (sources g i INTERACTION_SOURCE))))
       rows)).

(** The query of [create_user_tx] in [user.py]; [user_id] is the minted id
    and [now] the value of [datetime()]. *)
Definition create_user_tx (g : graph) (org_id user_id user_name : string)
    (now : datetime) : graph :=
  (* MATCH (o:Org {org_id: $org_id}) *)
  let rows := map n_id
      (filter (fun n => match n_data n with
                        | Org o => String.eqb o org_id
                        | _ => false
                        end) (nodes g)) in
  (* CREATE (u:User {...}) *)
  let '(g, rows) := each_row (fun g o =>
        let '(g, u) := create_node g (User org_id user_id user_name now) in
        (g, [(o, u)])) g rows in
  (* CREATE (u)-[:BELONGS_TO]->(o) *)
  let '(g, rows) := each_row (fun g '(o, u) =>
        (create_rel g u BELONGS_TO o, [u])) g rows in
  (* CREATE (ic:InteractionCollection {...}) *)
  let '(g, rows) := each_row (fun g u =>
        let '(g, ic) := create_node g (InteractionCollection org_id user_id) in
        (g, [(u, ic)])) g rows in
  (* CREATE (mc:MemoryCollection {...}) *)
  let '(g, rows) := each_row (fun g '(u, ic) =>
        let '(g, mc) := create_node g (MemoryCollection org_id user_id) in
        (g, [(u, ic, mc)])) g rows in
  (* CREATE (u)-[:INTERACTIONS_IN]->(ic) *)
  let '(g, rows) := each_row (fun g '(u, ic, mc) =>
        (create_rel g u INTERACTIONS_IN ic, [(u, mc)])) g rows in
  (* CREATE (u)-[:HAS_MEMORIES]->(mc) *)
  fold_left (fun g '(u, mc) => create_rel g u HAS_MEMORIES mc) rows g.

(** ** The vector index and transactions *)

(** A call of one of the callbacks the methods receive, with its
    arguments. *)
Inductive vcall : Type :=
| vector_db_add_memories (org_id user_id agent_id : string)
    (memory_ids memories : list string) (obtained_at : datetime)
| vector_db_delete_memories_by_id (ids : list string)
| vector_db_delete_all_user_memories (org_id user_id : string).

(** A callback either returns ([None]) or raises. *)
Definition callback : Type := vcall -> option exn.

(** The structural store and the calls the vector index has received. *)
Record world : Type := { db : graph; vector_calls : list vcall }.

(** A transaction function: it runs against the world and returns or
    raises. *)
Definition tx (A : Type) : Type := world -> world * res A.

Definition tx_ret {A} (a : A) : tx A := fun w => (w, Ok a).

Definition tx_bind {A B} (m : tx A) (k : A -> tx B) : tx B :=
  fun w => match m w with
           | (w1, Ok a) => k a w1
           | (w1, Raise e) => (w1, Raise e)
           end.

Declare Scope tx_scope.
Delimit Scope tx_scope with tx.
Notation "x <- m ;; k" := (tx_bind m (fun x => k))
  (at level 61, m at next level, right associativity) : tx_scope.
Notation "m ;; k" := (tx_bind m (fun _ => k))
  (at level 61, right associativity) : tx_scope.

(** [await tx.run(query)].  A query that fails raises here, at the statement
    that runs it. *)
Definition tx_run (q : graph -> res graph) : tx unit :=
  fun w => match q (db w) with
           | Ok g => ({| db := g; vector_calls := vector_calls w |}, Ok tt)
           | Raise e => (w, Raise e)
           end.

(** [await callback(...)]: the vector index sees the call whether or not the
    callback then raises. *)
Definition await (fn : callback) (c : vcall) : tx unit :=
  fun w => ({| db := db w; vector_calls := vector_calls w ++ [c] |},
            match fn c with None => Ok tt | Some e => Raise e end).

Definition tx_when (b : bool) (m : tx unit) : tx unit :=
  if b then m else tx_ret tt.

(** [session.execute_write(work)]: the driver commits when [work] returns
    and rolls the graph back when it raises.  The vector index is outside
    the transaction: what it received stays. *)
Definition execute_write {A} (work : tx A) (w : world) : world * res A :=
  match work w with
  | (w1, Ok a) => (w1, Ok a)
  | (w1, Raise e) =>
      ({| db := db w; vector_calls := vector_calls w1 |}, Raise e)
  end.

(** The identifiers a call mints: one [shortuuid.uuid()] and a supply of
    [uuid.uuid4()]. *)
Record entropy : Type := { shortuuid_uuid : string; uuid4 : nat -> string }.

Definition nonempty {A} (l : list A) : bool :=
  match l with [] => false | _ => true end.

(** ** The methods of [Neo4jInteraction] *)

Section Methods.

Variables org_id agent_id user_id : string.

Definition save_tx (interaction_id : string) (mi : MemoriesAndInteraction)
    (new_memory_ids new_contrary_memory_ids : list string)
    (vector_db_add_memories_fn : callback) : tx (string * datetime) :=
  (tx_run (fun g => Ok (create_interaction g org_id user_id agent_id
                          interaction_id (interaction_date mi))) ;;
   tx_run (fun g => _add_messages_to_interaction_from_top g org_id user_id
                      interaction_id (interaction mi)) ;;
   tx_when (nonempty new_memory_ids || nonempty new_contrary_memory_ids)
     (tx_run (fun g => _add_memories_with_their_source_links g org_id user_id
                         agent_id interaction_id mi
                         new_memory_ids new_contrary_memory_ids)) ;;
   tx_when (nonempty new_contrary_memory_ids)
     (tx_run (fun g => Ok (_link_update_contrary_memories_to_existing_memories
                             g org_id user_id new_contrary_memory_ids mi))) ;;
   tx_when (nonempty new_memory_ids || nonempty new_contrary_memory_ids)
     (await vector_db_add_memories_fn
        (vector_db_add_memories org_id user_id agent_id
           (new_memory_ids ++ new_contrary_memory_ids)
           (map memory (memories mi ++ contrary_memories mi))
           (interaction_date mi))) ;;
   tx_ret (interaction_id, interaction_date mi))%tx.

Definition save_interaction_with_memories (rnd : entropy)
    (mi : MemoriesAndInteraction) (vector_db_add_memories_fn : callback)
    (w : world) : world * res (string * datetime) :=
  let interaction_id := shortuuid_uuid rnd in
  let new_memory_ids :=
    map (uuid4 rnd) (seq 0 (List.length (memories mi))) in
  let new_contrary_memory_ids :=
    map (uuid4 rnd) (seq (List.length (memories mi))
                         (List.length (contrary_memories mi))) in
  execute_write
    (save_tx interaction_id mi new_memory_ids new_contrary_memory_ids
             vector_db_add_memories_fn) w.

(** [l[i]] and [d[key]] in Python. *)
Definition py_index {A} (l : list A) (i : nat) : res A :=
  match nth_error l i with Some a => Ok a | None => Raise IndexError end.

Definition py_key {A} (v : option A) : res A :=
  match v with Some a => Ok a | None => Raise KeyError end.

(** The comparison loop of [update_interaction_and_memories]:
    [for i in range(len(existing_messages))], leaving with [break] at the
    first position whose role or content differs. *)
Fixpoint compare_messages (existing_messages : list block)
    (incoming : list message) (range : list nat) (truncate_from : Z)
    : res Z :=
  match range with
  | [] => Ok truncate_from
  | i :: rest =>
      (e <- py_index existing_messages i ;;
       e_role <- py_key (b_role e) ;;
       u <- py_index incoming i ;;
       if negb (String.eqb e_role (role u)) then Ok (Z.of_nat i)
       else
         e_content <- py_key (b_content e) ;;
         if negb (String.eqb e_content (content u)) then Ok (Z.of_nat i)
         else compare_messages existing_messages incoming rest truncate_from)%res
  end.

(** [truncate_from] as the method computes it before the transaction. *)
Definition compute_truncate_from (existing_messages : list block)
    (incoming : list message) : res Z :=
  let truncate_from := if nonempty existing_messages then -1 else 0 in
  compare_messages existing_messages incoming
    (seq 0 (List.length existing_messages)) truncate_from.

(** The first statement of [update_tx]: the branch on [truncate_from]. *)
Definition update_chain (interaction_id : string) (incoming : list message)
    (truncate_from : Z) (g : graph) : res graph :=
  if truncate_from =? -1 then
    _append_messages_to_interaction g org_id user_id interaction_id incoming
  else if truncate_from =? 0 then
    _add_messages_to_interaction_from_top g org_id user_id interaction_id incoming
  else if truncate_from >? 0 then
    _append_messages_to_interaction
      (truncate_messages g org_id user_id interaction_id truncate_from)
      org_id user_id interaction_id incoming
  else Ok g.

Definition update_tx (interaction_id : string) (mi : MemoriesAndInteraction)
    (new_memory_ids new_contrary_memory_ids : list string)
    (truncate_from : Z) (vector_db_add_memories_fn : callback)
    : tx (string * datetime) :=
  (tx_run (update_chain interaction_id (interaction mi) truncate_from) ;;
   tx_when (nonempty new_memory_ids || nonempty new_contrary_memory_ids)
     (tx_run (fun g => _add_memories_with_their_source_links g org_id user_id
                         agent_id interaction_id mi
                         new_memory_ids new_contrary_memory_ids)) ;;
   tx_when (nonempty new_contrary_memory_ids)
     (tx_run (fun g => Ok (_link_update_contrary_memories_to_existing_memories
                             g org_id user_id new_contrary_memory_ids mi))) ;;
   tx_run (fun g => Ok (touch_interaction g org_id user_id agent_id
                          interaction_id (interaction_date mi))) ;;
   tx_when (nonempty new_memory_ids || nonempty new_contrary_memory_ids)
     (await vector_db_add_memories_fn
        (vector_db_add_memories org_id user_id agent_id
           (new_memory_ids ++ new_contrary_memory_ids)
           (map memory (memories mi ++ contrary_memories mi))
           (interaction_date mi))) ;;
   tx_ret (interaction_id, interaction_date mi))%tx.

Definition update_interaction_and_memories (rnd : entropy)
    (interaction_id : string) (mi : MemoriesAndInteraction)
    (vector_db_add_memories_fn : callback) (w : world)
    : world * res (string * datetime) :=
  let new_memory_ids :=
    map (uuid4 rnd) (seq 0 (List.length (memories mi))) in
  let new_contrary_memory_ids :=
    map (uuid4 rnd) (seq (List.length (memories mi))
                         (List.length (contrary_memories mi))) in
  let existing_messages :=
    get_interaction_messages (db w) org_id user_id interaction_id in
  match compute_truncate_from existing_messages (interaction mi) with
  | Raise e => (w, Raise e)
  | Ok truncate_from =>
      execute_write
        (update_tx interaction_id mi new_memory_ids new_contrary_memory_ids
                   truncate_from vector_db_add_memories_fn) w
  end.

Definition delete_tx (interaction_id : string)
    (interaction_memories_ids : list string)
    (vector_db_delete_memories_by_id_fn : callback) : tx unit :=
  (tx_run (fun g => Ok (delete_interaction g org_id user_id interaction_id)) ;;
   await vector_db_delete_memories_by_id_fn
     (vector_db_delete_memories_by_id interaction_memories_ids))%tx.

Definition delete_user_interaction_and_its_memories (interaction_id : string)
    (vector_db_delete_memories_by_id_fn : callback) (w : world)
    : world * res unit :=
  let interaction_memories :=
    get_all_interaction_memories (db w) org_id user_id interaction_id in
  let interaction_memories_ids := map memory_id interaction_memories in
  execute_write
    (delete_tx interaction_id interaction_memories_ids
               vector_db_delete_memories_by_id_fn) w.

Definition delete_all_user_interactions_and_their_memories
    (vector_db_delete_all_user_memories_fn : callback) (w : world)
    : world * res unit :=
  execute_write
    (tx_run (fun g => Ok (delete_all_interactions g org_id user_id)) ;;
     await vector_db_delete_all_user_memories_fn
       (vector_db_delete_all_user_memories org_id user_id))%tx w.

End Methods.

(** ** The methods of [Neo4jUser] *)

(** What [u{.org_id, .user_id, .user_name, created_at: toString(u.created_at)}]
    returns for a User. *)
Record user_row : Type :=
  { u_org_id : string; u_user_id : string; u_user_name : string;
    u_created_at : datetime }.

Definition user_row_of (g : graph) (u : nat) : list user_row :=
  match node_of g u with
  | Some (User o uid name at_) =>
      [{| u_org_id := o; u_user_id := uid; u_user_name := name;
          u_created_at := at_ |}]
  | _ => []
  end.

(** MATCH (o:Org {org_id: $org_id}) *)
Definition match_org (g : graph) (org : string) : list nat :=
  map n_id
    (filter (fun n => match n_data n with
                      | Org o => String.eqb o org
                      | _ => false
                      end) (nodes g)).

(** The query of [create_user_tx] with the records it returns, one per
    matched Org; the graph is the one of [create_user_tx] above (see
    [create_user_query_graph]). *)
Definition create_user_query (g : graph) (org_id user_id user_name : string)
    (now : datetime) : graph * list user_row :=
  let rows := match_org g org_id in
  (* CREATE (u:User {...}) *)
  let '(g, rows) := each_row (fun g o =>
        let '(g, u) := create_node g (User org_id user_id user_name now) in
        (g, [(o, u)])) g rows in
  (* CREATE (u)-[:BELONGS_TO]->(o) *)
  let '(g, rows) := each_row (fun g '(o, u) =>
        (create_rel g u BELONGS_TO o, [u])) g rows in
  (* CREATE (ic:InteractionCollection {...}) *)
  let '(g, rows) := each_row (fun g u =>
        let '(g, ic) := create_node g (InteractionCollection org_id user_id) in
        (g, [(u, ic)])) g rows in
  (* CREATE (mc:MemoryCollection {...}) *)
  let '(g, rows) := each_row (fun g '(u, ic) =>
        let '(g, mc) := create_node g (MemoryCollection org_id user_id) in
        (g, [(u, ic, mc)])) g rows in
  (* CREATE (u)-[:INTERACTIONS_IN]->(ic) *)
  let '(g, rows) := each_row (fun g '(u, ic, mc) =>
        (create_rel g u INTERACTIONS_IN ic, [(u, mc)])) g rows in
  (* CREATE (u)-[:HAS_MEMORIES]->(mc) *)
  let '(g, rows) := each_row (fun g '(u, mc) =>
        (create_rel g u HAS_MEMORIES mc, [u])) g rows in
  (* RETURN u{.org_id, .user_id, .user_name, created_at: ...} as user *)
  (g, flat_map (user_row_of g) rows).

(** [await result.single()] with the driver's default [strict=False]: the
    first record, None when the result has none. *)
Definition single {A} (records : list A) : option A := hd_error records.

(** [record["user"]] when [single()] gave None: 'NoneType' object is not
    subscriptable. *)
Inductive user_exn : Type := TypeError.

(** [create_user]: [user_id] is minted with [shortuuid.uuid()], [now] is the
    value of [datetime()].  The transaction function runs the query and
    indexes the single record; [execute_write] commits when it returns the
    user and rolls back when it raises. *)
Definition create_user (rnd : entropy) (org_id user_name : string)
    (now : datetime) (w : world) : world * (user_row + user_exn) :=
  let user_id := shortuuid_uuid rnd in
  let '(g, records) := create_user_query (db w) org_id user_id user_name now in
  match single records with
  | Some record => ({| db := g; vector_calls := vector_calls w |}, inl record)
  | None => (w, inr TypeError)
  end.

(** OPTIONAL MATCH (x)-[...]->(y) when [x] itself comes from an OPTIONAL
    MATCH: a null [x] gives a null [y]. *)
Definition optional_from (x : option nat) (next : nat -> list nat)
    : list (option nat) :=
  match x with
  | Some a => optional (next a)
  | None => [None]
  end.

(** The rows of the query of [delete_user_tx]:
    MATCH (u:User {org_id: $org_id, user_id: $user_id})
    OPTIONAL MATCH (u)-[:INTERACTIONS_IN]->(interactioncollection)
    OPTIONAL MATCH (interactioncollection)-[:HAD_INTERACTION]->(interaction)
    OPTIONAL MATCH (interaction)-[:FIRST_MESSAGE|IS_NEXT*]->(message)
    OPTIONAL MATCH (u)-[:HAS_MEMORIES]->(memcollection)
    OPTIONAL MATCH (memcollection)-[:INCLUDES]->(memory)
    OPTIONAL MATCH (interaction)-[:HAS_OCCURRENCE_ON]->(date)
    each row as the list u, interactioncollection, interaction, message,
    memcollection, memory, date. *)
Definition delete_user_rows (g : graph) (org_id user_id : string)
    : list (list (option nat)) :=
  flat_map (fun u =>
    flat_map (fun interactioncollection =>
      flat_map (fun interaction =>
        flat_map (fun message =>
          flat_map (fun memcollection =>
            flat_map (fun memory =>
              map (fun date =>
                     [Some u; interactioncollection; interaction; message;
                      memcollection; memory; date])
                  (optional_from interaction
                     (fun i => targets g i HAS_OCCURRENCE_ON)))
              (optional_from memcollection (fun mc => targets g mc INCLUDES)))
            (optional (targets g u HAS_MEMORIES)))
          (optional_from interaction
             (fun i => map snd (var_length g [FIRST_MESSAGE; IS_NEXT] i))))
        (optional_from interactioncollection
           (fun ic => targets g ic HAD_INTERACTION)))
      (optional (targets g u INTERACTIONS_IN)))
    (match_user g org_id user_id).

(** DETACH DELETE u, interactioncollection, interaction, message,
    memcollection, memory, date *)
Definition delete_user_query (g : graph) (org_id user_id : string) : graph :=
  detach_delete g
    (flat_map (fun row => flat_map opt_list row)
              (delete_user_rows g org_id user_id)).

Definition delete_user (org_id user_id : string) (w : world)
    : world * res unit :=
  execute_write
    (tx_run (fun g => Ok (delete_user_query g org_id user_id))) w.

(** The query of [get_users_tx]:
    MATCH (o:Org {org_id: $org_id})<-[:BELONGS_TO]-(u:User)
    RETURN u{.org_id, .user_id, .user_name, created_at: ...} as user *)
Definition get_users_query (g : graph) (org_id : string) : list user_row :=
  flat_map (fun o => flat_map (user_row_of g) (sources g o BELONGS_TO))
           (match_org g org_id).

(** [result.fetch(n)] of the driver takes the next [n] records; [n] is a
    required parameter, and a call that leaves it out is a TypeError in
    Python. *)
Definition fetch {A} (result : list A) (n : option nat) : list A + user_exn :=
  match n with
  | Some k => inl (firstn k result)
  | None => inr TypeError
  end.

(** [get_all_users]: the transaction function runs the query and then
    calls [result.fetch()] without the argument; nothing catches the
    exception. *)
Definition get_all_users (g : graph) (org_id : string)
    : list user_row + user_exn :=
  let result := get_users_query g org_id in
  match fetch result None with
  | inl records => inl records
  | inr e => inr e
  end.

(** * Vocabulary of the statements *)

(** ** What a stored transcript reads back as *)

(** The blocks a chain holds for [msgs] when its first block has position
    [p]: each block carries its position and both properties of its
    message. *)
Fixpoint blocks_from (p : Z) (msgs : list message) : list block :=
  match msgs with
  | [] => []
  | m :: rest =>
      {| msg_position := p; b_role := Some (role m); b_content := Some (content m) |}
        :: blocks_from (p + 1) rest
  end.

Definition stored (msgs : list message) : list block := blocks_from 0 msgs.

Definition message_eqb (a b : message) : bool :=
  String.eqb (role a) (role b) && String.eqb (content a) (content b).

(** ** Well-formed stores and message chains *)

(** Identities are handed out in increasing order: every relationship has
    its own, and nothing in the graph reaches [next_id]. *)
Record wf_graph (g : graph) : Prop :=
  { wf_rel_ids : NoDup (map r_id (rels g));
    wf_rels : forall e, In e (rels g) ->
                (r_id e < next_id g /\ r_src e < next_id g /\ r_dst e < next_id g)%nat;
    wf_nodes : forall n, In n (nodes g) -> (n_id n < next_id g)%nat }.

(** The relationships a message chain is made of. *)
Definition chain_rels (g : graph) : list rel :=
  filter (has_type [FIRST_MESSAGE; IS_NEXT]) (rels g).

(** The relationships of [rs] that leave [x]. *)
Definition out (rs : list rel) (x : nat) : list rel :=
  filter (fun e => Nat.eqb (r_src e) x) rs.

(** [x] is followed by exactly the nodes [ys], one after the other: [x] has
    a single relationship in [rs], of type [t], to the head of [ys]; from
    there on every node has a single IS_NEXT to its successor; the last node
    has none. *)
Fixpoint linked (rs : list rel) (t : reltype) (x : nat) (ys : list nat) : Prop :=
  match ys with
  | [] => out rs x = []
  | y :: ys' =>
      (exists k, out rs x = [{| r_id := k; r_src := x; r_ty := t; r_dst := y |}])
      /\ linked rs IS_NEXT y ys'
  end.

Definition node_of_block (b : block) : node_data :=
  MessageBlock (msg_position b) (b_role b) (b_content b).

(** The chain invariant: interaction node [i] owns the blocks [bs], in
    order, and they hold [blocks].  One FIRST_MESSAGE leads to the first
    block, one IS_NEXT from each block to the next, no node occurs twice. *)
Record chain (g : graph) (i : nat) (bs : list nat) (blocks : list block) : Prop :=
  { chain_linked : linked (chain_rels g) FIRST_MESSAGE i bs;
    chain_nodup : NoDup (i :: bs);
    chain_holds : map (node_of g) bs = map (fun b => Some (node_of_block b)) blocks }.

(** ** What the block-creating clauses leave in the graph *)

(** The nodes that CREATE makes for the positions [idxs], from identity [k]
    on. *)
Fixpoint block_nodes (k : nat) (messages : list message) (idxs : list Z)
    : list node :=
  match idxs with
  | [] => []
  | idx :: rest =>
      {| n_id := k;
         n_data := MessageBlock idx (msg_role messages idx) (msg_content messages idx) |}
        :: block_nodes (S k) messages rest
  end.

(** The IS_NEXT relationships between the listed pairs, from identity [k]
    on. *)
Fixpoint next_rels (k : nat) (pairs : list (nat * nat)) : list rel :=
  match pairs with
  | [] => []
  | (a, b) :: rest =>
      {| r_id := k; r_src := a; r_ty := IS_NEXT; r_dst := b |}
        :: next_rels (S k) rest
  end.

(** Consecutive elements of a list. *)
Definition consecutive (l : list nat) : list (nat * nat) := combine l (tl l).

(** The graph after [_append_messages_to_interaction] found the tail [tl_]
    and created blocks for the positions [idxs]. *)
Definition appended (g : graph) (messages : list message) (tl_ : nat)
    (idxs : list Z) : graph :=
  {| nodes := nodes g ++ block_nodes (next_id g) messages idxs;
     rels := rels g
             ++ next_rels (next_id g + List.length idxs)
                  (consecutive (tl_ :: seq (next_id g) (List.length idxs)));
     next_id := next_id g + List.length idxs + List.length idxs |}.

(** The block that CREATE makes for position [idx] of [messages]. *)
Definition block_at (messages : list message) (idx : Z) : block :=
  {| msg_position := idx;
     b_role := msg_role messages idx;
     b_content := msg_content messages idx |}.

(** Two graphs with the same message chains: the same interactions under
    every key, the same chain relationships, the same blocks. *)
Definition same_chains (g g' : graph) : Prop :=
  (forall org_id user_id interaction_id,
     match_interaction g' org_id user_id interaction_id
     = match_interaction g org_id user_id interaction_id)
  /\ chain_rels g' = chain_rels g
  /\ (forall x, block_of g' x = block_of g x).

(** The labels a message chain is read through. *)
Definition chain_label (d : node_data) : bool :=
  match d with
  | Interaction _ _ _ _ _ _ | MessageBlock _ _ _ => true
  | _ => false
  end.

Definition chain_type (t : reltype) : bool :=
  match t with
  | FIRST_MESSAGE | IS_NEXT => true
  | _ => false
  end.

(** [m] relates the store it starts from to the store it returns in. *)
Definition db_rel {A} (R : graph -> graph -> Prop) (m : tx A) : Prop :=
  forall w w' a, m w = (w', Ok a) -> R (db w) (db w').

(** The number of relationships of type [t] from [a] to [b]. *)
Definition count_rel (g : graph) (a : nat) (t : reltype) (b : nat) : nat :=
  List.length
    (filter (fun e => Nat.eqb (r_src e) a && reltype_eqb (r_ty e) t
                      && Nat.eqb (r_dst e) b) (rels g)).

(** The graph after [_add_messages_to_interaction_from_top] ran for the one
    interaction node [i]: a first block, one block per further position, the
    FIRST_MESSAGE relationship and the IS_NEXT relationships between
    them. *)
Definition built_from_top (g : graph) (messages : list message) (i : nat) : graph :=
  let n0 := next_id g in
  let idxs := RANGE 1 (SIZE messages - 1) in
  {| nodes := nodes g
              ++ {| n_id := n0;
                    n_data := MessageBlock 0 (msg_role messages 0)
                                             (msg_content messages 0) |}
                 :: block_nodes (n0 + 2) messages idxs;
     rels := rels g
             ++ {| r_id := n0 + 1; r_src := i; r_ty := FIRST_MESSAGE; r_dst := n0 |}
                :: next_rels (n0 + 2 + List.length idxs)
                     (consecutive (n0 :: seq (n0 + 2) (List.length idxs)));
     next_id := n0 + 2 + List.length idxs + List.length idxs |}.

Definition alive (dead : list nat) (e : rel) : bool :=
  negb (mem_nat (r_src e) dead) && negb (mem_nat (r_dst e) dead).


(** ** Rows that name nodes of the graph *)

(** A table is fit for a graph when the node identities in its rows are
    older than [next_id]; [ok] says which components of a row are node
    identities.  [good ok g out] is what a writing clause owes: a
    well-formed graph, no identity taken back, and a table fit for it. *)
Definition good {S} (ok : nat -> S -> Prop) (g : graph) (out_ : graph * list S)
    : Prop :=
  wf_graph (fst out_)
  /\ (next_id g <= next_id (fst out_))%nat
  /\ Forall (ok (next_id (fst out_))) (snd out_).

Definition rising {S} (ok : nat -> S -> Prop) : Prop :=
  forall n m s, (n <= m)%nat -> ok n s -> ok m s.

Definition old1 (n : nat) (x : nat) : Prop := (x < n)%nat.
Definition old2 (n : nat) (p : nat * nat) : Prop := (fst p < n /\ snd p < n)%nat.
Definition old_list (n : nat) (l : list nat) : Prop := Forall (old1 n) l.
Definition old_opt (n : nat) (o : option nat) : Prop :=
  match o with Some x => (x < n)%nat | None => True end.

(** A transaction function keeps the store well formed, whether it returns
    or raises. *)
Definition keeps {A} (m : tx A) : Prop :=
  forall w, wf_graph (db w) -> wf_graph (db (fst (m w))).

(** ** Accounts *)

(** The graph after [create_user] ran against the one Org node [o]: the
    User, its two collections and the three relationships, in the order the
    query creates them. *)
Definition with_user (g : graph) (org_id user_id user_name : string)
    (now : datetime) (o : nat) : graph :=
  let n := next_id g in
  {| nodes := ((nodes g
                 ++ [{| n_id := n; n_data := User org_id user_id user_name now |}])
                 ++ [{| n_id := n + 2;
                        n_data := InteractionCollection org_id user_id |}])
                 ++ [{| n_id := n + 3;
                        n_data := MemoryCollection org_id user_id |}];
     rels := ((rels g
                ++ [{| r_id := n + 1; r_src := n; r_ty := BELONGS_TO; r_dst := o |}])
                ++ [{| r_id := n + 4; r_src := n; r_ty := INTERACTIONS_IN;
                       r_dst := n + 2 |}])
                ++ [{| r_id := n + 5; r_src := n; r_ty := HAS_MEMORIES;
                       r_dst := n + 3 |}];
     next_id := n + 6 |}.

(** What the query of [delete_user] reaches from the user node [u]: the
    collections, the interactions in the interaction collections with their
    messages and dates, and the memories in the memory collections. *)
Inductive reached_from_user (g : graph) (u : nat) : nat -> Prop :=
| reached_user : reached_from_user g u u
| reached_interactions ic :
    In ic (targets g u INTERACTIONS_IN) -> reached_from_user g u ic
| reached_interaction ic i :
    In ic (targets g u INTERACTIONS_IN) -> In i (targets g ic HAD_INTERACTION) ->
    reached_from_user g u i
| reached_message ic i m :
    In ic (targets g u INTERACTIONS_IN) -> In i (targets g ic HAD_INTERACTION) ->
    In m (map snd (var_length g [FIRST_MESSAGE; IS_NEXT] i)) ->
    reached_from_user g u m
| reached_date ic i d :
    In ic (targets g u INTERACTIONS_IN) -> In i (targets g ic HAD_INTERACTION) ->
    In d (targets g i HAS_OCCURRENCE_ON) ->
    reached_from_user g u d
| reached_memories mc :
    In mc (targets g u HAS_MEMORIES) -> reached_from_user g u mc
| reached_memory mc m :
    In mc (targets g u HAS_MEMORIES) -> In m (targets g mc INCLUDES) ->
    reached_from_user g u m.

(** ** What the memory-creating clauses leave in the graph *)

(** The Memory nodes that CREATE makes for the tuples (memory_id, memory,
    source positions), from identity [k] on. *)
Fixpoint memory_nodes (k : nat) (org_id user_id agent_id interaction_id : string)
    (date : datetime) (tuples : list (string * string * list Z)) : list node :=
  match tuples with
  | [] => []
  | (mid, txt, _) :: rest =>
      {| n_id := k;
         n_data := Memory org_id user_id agent_id interaction_id mid txt date |}
        :: memory_nodes (S k) org_id user_id agent_id interaction_id date rest
  end.

(** Relationships of type [t] between the listed pairs (source, target),
    from identity [k] on. *)
Fixpoint rels_from (k : nat) (t : reltype) (pairs : list (nat * nat)) : list rel :=
  match pairs with
  | [] => []
  | (a, b) :: rest =>
      {| r_id := k; r_src := a; r_ty := t; r_dst := b |} :: rels_from (S k) t rest
  end.

(** The rows of the last clause of the memory query: for every memory, in
    order, one row per source position with the message at that position
    of the collected list, null when the position is out of range. *)
Definition source_rows (messages : list nat)
    (mems : list (nat * (string * string * list Z))) : list (option nat * nat) :=
  flat_map (fun '(mem, (_, _, all_pos)) =>
              map (fun source_msg_pos => (list_at messages source_msg_pos, mem))
                  all_pos) mems.

(** The pairs (memory, message) of rows whose message is bound; None when
    one of them is null. *)
Fixpoint bound_rows (rows : list (option nat * nat)) : option (list (nat * nat)) :=
  match rows with
  | [] => Some []
  | (Some b, mem) :: rest => option_map (cons (mem, b)) (bound_rows rest)
  | (None, _) :: _ => None
  end.

(** The graph after [_add_memories_with_their_source_links] ran for the one
    interaction node [i] and the one memory collection [mc], when the
    source positions gave the pairs [links]. *)
Definition with_memories (g : graph)
    (org_id user_id agent_id interaction_id : string) (date : datetime)
    (i mc : nat) (tuples : list (string * string * list Z))
    (links : list (nat * nat)) : graph :=
  let n0 := next_id g in
  let k := List.length tuples in
  let mems := seq n0 k in
  {| nodes := nodes g
              ++ memory_nodes n0 org_id user_id agent_id interaction_id date tuples;
     rels := ((rels g
                ++ rels_from (n0 + k) INTERACTION_SOURCE
                     (map (fun m => (m, i)) mems))
                ++ rels_from (n0 + k + k) INCLUDES (map (fun m => (mc, m)) mems))
                ++ rels_from (n0 + k + k + k) MESSAGE_SOURCE links;
     next_id := n0 + k + k + k + List.length links |}.


(** The position [p] of a Cypher list of length [n] is in range: negative
    positions count from the end. *)
Definition in_range (n : nat) (p : Z) : Prop := - Z.of_nat n <= p < Z.of_nat n.


(** ** What the interaction queries write *)

(** The labels of the nodes the queries of [Neo4jInteraction] create, and
    the types of the relationships they create. *)
Definition content_label (d : node_data) : bool :=
  match d with
  | Interaction _ _ _ _ _ _ | Date _ _ _ | MessageBlock _ _ _
  | Memory _ _ _ _ _ _ _ => true
  | _ => false
  end.

Definition content_type (t : reltype) : bool :=
  match t with
  | BELONGS_TO | INTERACTIONS_IN | HAS_MEMORIES => false
  | _ => true
  end.

(** Two graphs with the same accounts: the same organisations and users
    under every key, the same relationships between users, organisations
    and collections, the same user records. *)
Definition same_accounts (g g' : graph) : Prop :=
  (forall org_id, match_org g' org_id = match_org g org_id)
  /\ (forall org_id user_id,
        match_user g' org_id user_id = match_user g org_id user_id)
  /\ filter (fun e => negb (content_type (r_ty e))) (rels g')
     = filter (fun e => negb (content_type (r_ty e))) (rels g)
  /\ (forall x, user_row_of g' x = user_row_of g x).

(** Two graphs with the same INTERACTION_SOURCE relationships. *)
Definition same_sources (g g' : graph) : Prop :=
  filter (fun e => reltype_eqb (r_ty e) INTERACTION_SOURCE) (rels g')
  = filter (fun e => reltype_eqb (r_ty e) INTERACTION_SOURCE) (rels g).


(** Two graphs that differ at most in their CONTRARY_UPDATE
    relationships. *)
Definition same_but_contrary (g g' : graph) : Prop :=
  nodes g' = nodes g
  /\ filter (fun e => negb (reltype_eqb (r_ty e) CONTRARY_UPDATE)) (rels g')
     = filter (fun e => negb (reltype_eqb (r_ty e) CONTRARY_UPDATE)) (rels g).

(** The blocks at the positions [ps] of a transcript, as Cypher indexes a
    list: positions out of range select nothing. *)
Definition blocks_at (blocks : list block) (ps : list Z) : list block :=
  flat_map (fun p => opt_list (list_at blocks p)) ps.

(** ** The schema of the graph *)

Inductive label : Type :=
| L_Org | L_User | L_InteractionCollection | L_MemoryCollection
| L_Interaction | L_Date | L_MessageBlock | L_Memory.

Definition label_of (d : node_data) : label :=
  match d with
  | Org _ => L_Org
  | User _ _ _ _ => L_User
  | InteractionCollection _ _ => L_InteractionCollection
  | MemoryCollection _ _ => L_MemoryCollection
  | Interaction _ _ _ _ _ _ => L_Interaction
  | Date _ _ _ => L_Date
  | MessageBlock _ _ _ => L_MessageBlock
  | Memory _ _ _ _ _ _ _ => L_Memory
  end.

(** The labels a relationship of each type starts from and ends at, as the
    queries create them. *)
Definition source_label (t : reltype) : label :=
  match t with
  | BELONGS_TO | INTERACTIONS_IN | HAS_MEMORIES => L_User
  | HAD_INTERACTION => L_InteractionCollection
  | HAS_OCCURRENCE_ON | FIRST_MESSAGE => L_Interaction
  | IS_NEXT => L_MessageBlock
  | INCLUDES => L_MemoryCollection
  | INTERACTION_SOURCE | MESSAGE_SOURCE | CONTRARY_UPDATE => L_Memory
  end.

Definition target_label (t : reltype) : label :=
  match t with
  | BELONGS_TO => L_Org
  | INTERACTIONS_IN => L_InteractionCollection
  | HAS_MEMORIES => L_MemoryCollection
  | HAD_INTERACTION | INTERACTION_SOURCE => L_Interaction
  | HAS_OCCURRENCE_ON => L_Date
  | FIRST_MESSAGE | IS_NEXT | MESSAGE_SOURCE => L_MessageBlock
  | INCLUDES | CONTRARY_UPDATE => L_Memory
  end.

Definition has_label (g : graph) (x : nat) (l : label) : Prop :=
  option_map label_of (node_of g x) = Some l.

(** Every node has its own identity, and every relationship joins two
    nodes of the graph that carry the labels of its type. *)
Record schema (g : graph) : Prop :=
  { schema_node_ids : NoDup (map n_id (nodes g));
    schema_ends : forall e, In e (rels g) ->
                    has_label g (r_src e) (source_label (r_ty e))
                    /\ has_label g (r_dst e) (target_label (r_ty e)) }.

Definition sound (g : graph) : Prop := wf_graph g /\ schema g.

(** The nodes of [g] are in [g'] with their labels. *)
Definition grows (g g' : graph) : Prop :=
  forall x l, has_label g x l -> has_label g' x l.

(** A table whose rows satisfy [ok] in the graph it comes with; [ok] says
    which components of a row are nodes of which label. *)
Definition fit {S} (ok : graph -> S -> Prop) (g : graph)
    (out_ : graph * list S) : Prop :=
  sound (fst out_) /\ grows g (fst out_) /\ Forall (ok (fst out_)) (snd out_).

Definition stable {S} (ok : graph -> S -> Prop) : Prop :=
  forall g g' s, grows g g' -> ok g s -> ok g' s.

(** What a call does to a sound store: the store stays sound, and [R]
    relates the store before and the store after, whether the call returns
    or raises. *)
Definition steady (R : graph -> graph -> Prop) {A} (m : world -> world * A)
    : Prop :=
  forall w, sound (db w) ->
    sound (db (fst (m w))) /\ R (db w) (db (fst (m w))).

(** A node of [g] whose label is none of [ls]. *)
Definition spared (ls : list label) (g : graph) (x : nat) : Prop :=
  exists l, has_label g x l /\ ~ In l ls.

(** [g'] is [g] without some nodes labelled in [ls] and without the
    relationships at those nodes: the other nodes are as they were, with
    every relationship between two of them, and nothing is new. *)
Definition deletes_only (ls : list label) (g g' : graph) : Prop :=
  (forall x, spared ls g x -> node_of g' x = node_of g x)
  /\ (forall e, In e (rels g) -> spared ls g (r_src e) ->
                 spared ls g (r_dst e) -> In e (rels g'))
  /\ (forall e, In e (rels g') -> In e (rels g))
  /\ (forall x d, node_of g' x = Some d -> node_of g x = Some d).

(** Every memory that [get_all_interaction_memories] returns in [g], under
    whatever keys, it returns in [g']. *)
Definition keeps_memories (g g' : graph) : Prop :=
  forall org_id user_id interaction_id row,
    In row (get_all_interaction_memories g org_id user_id interaction_id) ->
    In row (get_all_interaction_memories g' org_id user_id interaction_id).

(** The labels of the nodes the interaction queries create and delete. *)
Definition content_labels : list label :=
  [L_Interaction; L_Date; L_MessageBlock; L_Memory].

(** The row predicates of the queries: which components are nodes of which
    label. *)
Definition is_a (l : label) (g : graph) (x : nat) : Prop := has_label g x l.

Definition are_a (l : label) (g : graph) (xs : list nat) : Prop :=
  Forall (fun x => has_label g x l) xs.

Definition maybe_a (l : label) (g : graph) (o : option nat) : Prop :=
  match o with Some x => has_label g x l | None => True end.

(** The nodes listed for deletion exist and carry labels among [ls]. *)
Definition labelled_in (ls : list label) (g : graph) (dead : list nat) : Prop :=
  forall x, In x dead -> exists l, has_label g x l /\ In l ls.

(** ** A small deployment *)

(** One organisation with one user, as [create_user] leaves them, and the
    values the examples below run the methods on. *)
Local Open Scope string_scope.

Definition ex_day : datetime := {| dt_day := 19000; dt_clock := 0 |}.

Definition ex_org : graph := fst (create_node empty_graph (Org "org")).

Definition ex_user : graph := create_user_tx ex_org "org" "u1" "Ada" ex_day.

Definition ex_world : world := {| db := ex_user; vector_calls := [] |}.

Definition returns : callback := fun _ => None.

Definition ex_rnd : entropy :=
  {| shortuuid_uuid := "i1";
     uuid4 := fun n => match n with O => "m0" | S _ => "m1" end |}.

Definition ex_rnd2 : entropy :=
  {| shortuuid_uuid := "i2";
     uuid4 := fun n => match n with O => "m2" | S _ => "m3" end |}.

Definition msg_A : message := {| role := "user"; content := "a" |}.
Definition msg_B : message := {| role := "assistant"; content := "b" |}.
Definition msg_C : message := {| role := "user"; content := "c" |}.
Definition msg_D : message := {| role := "user"; content := "d" |}.
Definition msg_E : message := {| role := "assistant"; content := "e" |}.

Definition transcript (msgs : list message) : MemoriesAndInteraction :=
  {| interaction := msgs; memories := []; contrary_memories := [];
     interaction_date := ex_day |}.

(** A transcript with one memory drawn from its first message. *)
Definition with_memory (msgs : list message) : MemoriesAndInteraction :=
  {| interaction := msgs;
     memories := [{| memory := "likes a"; source_msg_block_pos := [0];
                     existing_contrary_memory_id := "" |}];
     contrary_memories := [];
     interaction_date := ex_day |}.

(** A transcript with one memory that contradicts memory "m0". *)
Definition with_contrary (msgs : list message) : MemoriesAndInteraction :=
  {| interaction := msgs;
     memories := [];
     contrary_memories := [{| memory := "dislikes a"; source_msg_block_pos := [0];
                              existing_contrary_memory_id := "m0" |}];
     interaction_date := ex_day |}.

(** The world after saving [A] with its memory. *)
Definition ex_saved_A : world :=
  Eval vm_compute in
    fst (save_interaction_with_memories "org" "agent" "u1" ex_rnd
           (with_memory [msg_A]) returns ex_world).

(** The world after saving [A; B; C]. *)
Definition ex_saved_ABC : world :=
  Eval vm_compute in
    fst (save_interaction_with_memories "org" "agent" "u1" ex_rnd
           (transcript [msg_A; msg_B; msg_C]) returns ex_world).

(** The world after saving [A] with its memory and then, as a second
    interaction of the same day, [B] with a memory that contradicts it. *)
Definition ex_saved_twice : world :=
  Eval vm_compute in
    fst (save_interaction_with_memories "org" "agent" "u1" ex_rnd2
           (with_contrary [msg_B]) returns ex_saved_A).

(** An interaction that has its Date and a memory but no MessageBlock: the
    first query of [save_tx] alone, and a Memory linked to the interaction. *)
Definition ex_no_blocks : world :=
  Eval vm_compute in
    let g := create_interaction ex_user "org" "u1" "agent" "i1" ex_day in
    let '(g, m) := create_node g (Memory "org" "u1" "agent" "i1" "m0" "likes a" ex_day) in
    {| db := create_rel g m INTERACTION_SOURCE 7; vector_calls := [] |}.

Local Close Scope string_scope.

(** ** More of the small deployment *)

Local Open Scope string_scope.

(** The organisation before any user was created. *)
Definition ex_org_world : world := {| db := ex_org; vector_calls := [] |}.

Definition ex_rnd3 : entropy :=
  {| shortuuid_uuid := "i3";
     uuid4 := fun n => match n with
                       | O => "m0"
                       | S O => "m1"
                       | S (S _) => "m2"
                       end |}.

(** [A; B; C] with two memories, one drawn from the first and the last
    message, one from the last, and a contrary memory drawn from the second
    message. *)
Definition with_memories_ABC : MemoriesAndInteraction :=
  {| interaction := [msg_A; msg_B; msg_C];
     memories := [{| memory := "likes a"; source_msg_block_pos := [0; -1];
                     existing_contrary_memory_id := "" |};
                  {| memory := "asked c"; source_msg_block_pos := [2];
                     existing_contrary_memory_id := "" |}];
     contrary_memories := [{| memory := "dislikes b";
                              source_msg_block_pos := [1];
                              existing_contrary_memory_id := "m9" |}];
     interaction_date := ex_day |}.


(** A second user of the organisation, beside the user with the saved
    interaction. *)
Definition ex_two_users : world :=
  Eval vm_compute in
    {| db := create_user_tx (db ex_saved_A) "org" "u2" "Bob" ex_day;
       vector_calls := [] |}.

Local Close Scope string_scope.

(** * Properties *)

Lemma message_eqb_eq (a b : message) : message_eqb a b = true <-> a = b.
Proof.
  unfold message_eqb. rewrite andb_true_iff, !String.eqb_eq.
  destruct a, b; simpl; split.
  - intros [-> ->]; reflexivity.
  - intros H; inversion H; auto.
Qed.

Lemma blocks_from_length p msgs : List.length (blocks_from p msgs) = List.length msgs.
Proof. revert p; induction msgs; simpl; intros; [|rewrite IHmsgs]; reflexivity. Qed.

Lemma blocks_from_nth msgs : forall p i m,
  nth_error msgs i = Some m ->
  nth_error (blocks_from p msgs) i
  = Some {| msg_position := p + Z.of_nat i;
            b_role := Some (role m); b_content := Some (content m) |}.
Proof.
  induction msgs as [|a msgs IH]; intros p [|i] m H;
    cbn [nth_error blocks_from] in *; try discriminate.
  - inversion H; subst. now rewrite Z.add_0_r.
  - rewrite (IH _ _ _ H).
    replace (p + 1 + Z.of_nat i) with (p + Z.of_nat (S i)) by lia. reflexivity.
Qed.

Lemma blocks_from_app msgs1 msgs2 p :
  blocks_from p (msgs1 ++ msgs2)
  = blocks_from p msgs1 ++ blocks_from (p + Z.of_nat (List.length msgs1)) msgs2.
Proof.
  revert p; induction msgs1 as [|a l IH]; intros p;
    cbn [blocks_from app List.length].
  - now rewrite Z.add_0_r.
  - rewrite IH.
    replace (p + 1 + Z.of_nat (List.length l))
      with (p + Z.of_nat (S (List.length l))) by lia. reflexivity.
Qed.

(** ** The comparison loop *)

Section Compare.

Variables (existing incoming : list message) (p : Z).

(** One turn of the loop at a position both transcripts have. *)
Lemma compare_messages_step i rest tf a b :
  nth_error existing i = Some a ->
  nth_error incoming i = Some b ->
  compare_messages (blocks_from p existing) incoming (i :: rest) tf
  = if message_eqb a b
    then compare_messages (blocks_from p existing) incoming rest tf
    else Ok (Z.of_nat i).
Proof.
  intros Ha Hb. simpl. unfold py_index.
  rewrite (blocks_from_nth _ _ _ _ Ha), Hb. simpl.
  unfold message_eqb.
  destruct (String.eqb (role a) (role b)); simpl; [|reflexivity].
  destruct (String.eqb (content a) (content b)); reflexivity.
Qed.

(** One turn at a position the incoming transcript does not have. *)
Lemma compare_messages_short i rest tf a :
  nth_error existing i = Some a ->
  nth_error incoming i = None ->
  compare_messages (blocks_from p existing) incoming (i :: rest) tf
  = Raise IndexError.
Proof.
  intros Ha Hb. simpl. unfold py_index.
  rewrite (blocks_from_nth _ _ _ _ Ha), Hb. reflexivity.
Qed.

(** The loop passes over a run of positions at which the transcripts
    agree. *)
Lemma compare_messages_agree range rest tf :
  (forall i, In i range ->
     exists a, nth_error existing i = Some a /\ nth_error incoming i = Some a) ->
  compare_messages (blocks_from p existing) incoming (range ++ rest) tf
  = compare_messages (blocks_from p existing) incoming rest tf.
Proof.
  induction range as [|i range IH]; intros H; [reflexivity|].
  destruct (H i (or_introl eq_refl)) as (a & Ha & Hb).
  rewrite <- app_comm_cons, (compare_messages_step _ _ _ _ _ Ha Hb).
  replace (message_eqb a a) with true
    by (symmetry; now apply message_eqb_eq).
  apply IH. intros j Hj. apply H. now right.
Qed.

End Compare.

Lemma firstn_agree {A} (l1 l2 : list A) k i :
  firstn k l1 = firstn k l2 -> (i < k)%nat -> (k <= List.length l2)%nat ->
  exists a, nth_error l2 i = Some a /\ nth_error l1 i = Some a.
Proof.
  intros E Hi Hk.
  destruct (nth_error l2 i) as [a|] eqn:Ha.
  - exists a; split; [reflexivity|].
    assert (Hlt : Nat.ltb i k = true) by (apply Nat.ltb_lt; lia).
    pose proof (nth_error_firstn k l1 i) as H1.
    pose proof (nth_error_firstn k l2 i) as H2.
    rewrite Hlt in H1, H2. rewrite <- H1, E, H2. exact Ha.
  - apply nth_error_None in Ha. lia.
Qed.

Lemma stored_nonempty (msgs : list message) :
  msgs <> [] -> nonempty (stored msgs) = true.
Proof. destruct msgs; [congruence | reflexivity]. Qed.

Lemma messages_differ (a b : message) :
  role a <> role b \/ content a <> content b -> message_eqb a b = false.
Proof.
  intros H. destruct (message_eqb a b) eqn:E; [|reflexivity].
  apply message_eqb_eq in E; subst. destruct H as [H|H]; congruence.
Qed.

(** The loop stops at the first position [k] where the transcripts differ,
    whatever follows. *)
Lemma compute_truncate_from_mismatch (existing incoming : list message) k a b :
  nth_error existing k = Some a ->
  nth_error incoming k = Some b ->
  role a <> role b \/ content a <> content b ->
  firstn k incoming = firstn k existing ->
  compute_truncate_from (stored existing) incoming = Ok (Z.of_nat k).
Proof.
  intros Ha Hb Hab Hpre. unfold compute_truncate_from, stored.
  rewrite blocks_from_length.
  assert (Hk : (k < List.length existing)%nat)
    by (apply nth_error_Some; congruence).
  replace (List.length existing) with (k + S (List.length existing - S k))%nat by lia.
  rewrite seq_app. cbn [seq].
  rewrite compare_messages_agree.
  - rewrite (compare_messages_step _ _ _ _ _ _ _ _ Ha Hb).
    now rewrite (messages_differ _ _ Hab).
  - intros i Hi. apply in_seq in Hi.
    apply (firstn_agree incoming existing k i Hpre); lia.
Qed.

(** No position differs: the loop runs to its end and leaves
    [truncate_from] as initialised. *)
Lemma compute_truncate_from_agree (existing incoming : list message) :
  firstn (List.length existing) incoming = existing ->
  compute_truncate_from (stored existing) incoming
  = Ok (if nonempty (stored existing) then -1 else 0).
Proof.
  intros Hpre. unfold compute_truncate_from.
  generalize (if nonempty (stored existing) then -1 else 0); intros tf.
  unfold stored. rewrite blocks_from_length.
  rewrite <- (app_nil_r (seq 0 _)).
  rewrite compare_messages_agree; [reflexivity|].
  intros i Hi. apply in_seq in Hi.
  apply (firstn_agree incoming existing (List.length existing) i); try lia.
  now rewrite firstn_all.
Qed.

(** The loop reaches a position the incoming transcript lacks. *)
Lemma compute_truncate_from_short (existing incoming : list message) :
  (List.length incoming < List.length existing)%nat ->
  incoming = firstn (List.length incoming) existing ->
  compute_truncate_from (stored existing) incoming = Raise IndexError.
Proof.
  intros Hlen Hpre. unfold compute_truncate_from, stored.
  rewrite blocks_from_length.
  set (n := List.length incoming) in *.
  replace (List.length existing) with (n + S (List.length existing - S n))%nat by lia.
  rewrite seq_app. cbn [seq].
  rewrite compare_messages_agree.
  - destruct (nth_error existing n) as [a|] eqn:Ha.
    + apply (compare_messages_short _ _ _ _ _ _ _ Ha).
      apply nth_error_None. subst n. lia.
    + apply nth_error_None in Ha. lia.
  - intros i Hi. apply in_seq in Hi.
    apply (firstn_agree incoming existing n i); try lia.
    rewrite <- Hpre. subst n. now rewrite firstn_all.
Qed.

(** ** Lists *)

Lemma filter_filter_absorb {A} (p q : A -> bool) (l : list A) :
  (forall a, In a l -> p a = true -> q a = true) ->
  filter p (filter q l) = filter p l.
Proof.
  induction l as [|a l IH]; intros H; [reflexivity|]. simpl.
  destruct (q a) eqn:Q, (p a) eqn:P; simpl; rewrite ?P.
  - f_equal. apply IH. intros; apply H; simpl; auto.
  - apply IH. intros; apply H; simpl; auto.
  - rewrite (H a (or_introl eq_refl) P) in Q. discriminate.
  - apply IH. intros; apply H; simpl; auto.
Qed.

Lemma filter_comm {A} (p q : A -> bool) (l : list A) :
  filter p (filter q l) = filter q (filter p l).
Proof.
  induction l as [|a l IH]; [reflexivity|]. simpl.
  destruct (q a) eqn:Q, (p a) eqn:P; simpl; rewrite ?P, ?Q, IH; reflexivity.
Qed.

Lemma filter_all {A} (p : A -> bool) (l : list A) :
  (forall a, In a l -> p a = true) -> filter p l = l.
Proof.
  induction l as [|a l IH]; intros H; [reflexivity|]. simpl.
  rewrite (H a (or_introl eq_refl)). f_equal. apply IH. intros; apply H; simpl; auto.
Qed.

Lemma filter_none {A} (p : A -> bool) (l : list A) :
  (forall a, In a l -> p a = false) -> filter p l = [].
Proof.
  induction l as [|a l IH]; intros H; [reflexivity|]. simpl.
  rewrite (H a (or_introl eq_refl)). apply IH. intros; apply H; simpl; auto.
Qed.

Lemma filter_drops {A} (p : A -> bool) (l : list A) a :
  In a l -> p a = false -> (List.length (filter p l) < List.length l)%nat.
Proof.
  induction l as [|b l IH]; intros Hin Hp; [contradiction|]. simpl.
  destruct Hin as [->|Hin].
  - rewrite Hp. pose proof (filter_length_le p l). lia.
  - specialize (IH Hin Hp). destruct (p b); simpl; lia.
Qed.

Lemma NoDup_map_inj {A B} (f : A -> B) (l : list A) a b :
  NoDup (map f l) -> In a l -> In b l -> f a = f b -> a = b.
Proof.
  induction l as [|c l IH]; intros Hnd Ha Hb E; [contradiction|].
  simpl in Hnd. inversion Hnd as [|? ? Hnot Hnd']; subst.
  destruct Ha as [->|Ha], Hb as [->|Hb]; auto.
  - exfalso. apply Hnot. rewrite E. now apply in_map.
  - exfalso. apply Hnot. rewrite <- E. now apply in_map.
Qed.

(** Filtering keeps the images under [key] distinct. *)
Lemma NoDup_map_filter {A B} (key : A -> B) (keep : A -> bool) :
  forall xs, NoDup (map key xs) -> NoDup (map key (filter keep xs)).
Proof.
  intros xs. induction xs as [|x xs IH]; intros H; [constructor|].
  cbn [map filter] in *. apply NoDup_cons_iff in H as [Hx Hxs].
  destruct (keep x); [|now apply IH].
  cbn [map]. apply NoDup_cons; [|now apply IH].
  intros Hin. apply Hx.
  apply in_map_iff in Hin as (y & <- & Hy).
  apply in_map. now apply filter_In in Hy.
Qed.

Lemma mem_nat_In x l : mem_nat x l = true <-> In x l.
Proof.
  unfold mem_nat. rewrite existsb_exists. split.
  - intros (y & Hy & E). apply Nat.eqb_eq in E. now subst.
  - intros H. exists x. split; [assumption | apply Nat.eqb_refl].
Qed.

Lemma mem_nat_not_In x l : mem_nat x l = false <-> ~ In x l.
Proof.
  rewrite <- mem_nat_In. destruct (mem_nat x l); split; intros; congruence.
Qed.

Lemma flat_map_ext_in {A B} (f g : A -> list B) (l : list A) :
  (forall a, In a l -> f a = g a) -> flat_map f l = flat_map g l.
Proof.
  induction l as [|a l IH]; intros H; [reflexivity|]. simpl.
  rewrite (H a (or_introl eq_refl)). f_equal. apply IH. intros; apply H; simpl; auto.
Qed.

(** ** Variable-length patterns on a chain *)

Lemma drop_rel_shorter e avail :
  In e avail -> (List.length (drop_rel e avail) < List.length avail)%nat.
Proof.
  intros H. apply (filter_drops _ _ e H). now rewrite Nat.eqb_refl.
Qed.

(** [walk] does not depend on its fuel once the fuel covers the available
    relationships: every hop consumes one of them. *)
Lemma walk_fuel : forall f1 f2 avail depth cur,
  (List.length avail <= f1)%nat -> (List.length avail <= f2)%nat ->
  walk f1 avail depth cur = walk f2 avail depth cur.
Proof.
  induction f1 as [|f1 IH]; intros f2 avail depth cur H1 H2.
  - destruct avail; [|simpl in H1; lia]. destruct f2; reflexivity.
  - destruct f2 as [|f2].
    + destruct avail; [reflexivity | simpl in H2; lia].
    + simpl. apply flat_map_ext_in. intros e He.
      apply filter_In in He as [He _].
      pose proof (drop_rel_shorter e avail He).
      f_equal. apply IH; lia.
Qed.

(** Dropping a relationship does not change what leaves another node. *)
Lemma out_drop_rel rs e z :
  NoDup (map r_id rs) -> In e rs -> r_src e <> z ->
  out (drop_rel e rs) z = out rs z.
Proof.
  intros Hnd He Hz. unfold out, drop_rel.
  apply filter_filter_absorb. intros e' He' Hsrc.
  apply Nat.eqb_eq in Hsrc.
  destruct (Nat.eqb (r_id e') (r_id e)) eqn:E; [|reflexivity].
  apply Nat.eqb_eq in E.
  pose proof (NoDup_map_inj r_id rs e' e Hnd He' He E). subst. contradiction.
Qed.

Lemma linked_drop_rel : forall ys rs t y e,
  NoDup (map r_id rs) -> In e rs -> ~ In (r_src e) (y :: ys) ->
  linked rs t y ys -> linked (drop_rel e rs) t y ys.
Proof.
  induction ys as [|y' ys IH]; intros rs t y e Hnd He Hnot H; simpl in *.
  - rewrite out_drop_rel; auto.
  - destruct H as [[k Hk] H]. split.
    + exists k. rewrite out_drop_rel; auto.
    + apply IH; auto; intros [E|Hin]; apply Hnot; auto.
Qed.

(** From the head of a chain the walk reports the chain, hop by hop. *)
Lemma walk_linked : forall ys rs t x depth fuel,
  NoDup (map r_id rs) -> NoDup (x :: ys) -> linked rs t x ys ->
  (List.length rs <= fuel)%nat ->
  walk fuel rs depth x = combine (seq (S depth) (List.length ys)) ys.
Proof.
  induction ys as [|y ys IH]; intros rs t x depth fuel Hids Hnd H Hfuel.
  - simpl in H. destruct fuel; [reflexivity|].
    cbn [walk]. fold (out rs x). rewrite H. reflexivity.
  - destruct H as [[k Hk] H].
    set (e := {| r_id := k; r_src := x; r_ty := t; r_dst := y |}) in *.
    assert (He : In e rs).
    { assert (Hin : In e (out rs x)) by (rewrite Hk; now left).
      now apply filter_In in Hin. }
    pose proof (drop_rel_shorter e rs He) as Hshort.
    destruct fuel as [|fuel]; [lia|].
    cbn [walk]. fold (out rs x). rewrite Hk.
    cbn [flat_map List.length seq combine]. rewrite app_nil_r. f_equal.
    inversion Hnd as [|? ? Hx Hnd']; subst.
    apply (IH (drop_rel e rs) IS_NEXT y (S depth) fuel).
    + now apply NoDup_map_filter.
    + assumption.
    + apply linked_drop_rel; auto.
    + lia.
Qed.

(** Restricting the relationships by type keeps a chain of that type. *)
Lemma out_filter (p : rel -> bool) rs x :
  out (filter p rs) x = filter p (out rs x).
Proof. unfold out. apply filter_comm. Qed.

Lemma linked_is_next : forall ys rs y,
  linked rs IS_NEXT y ys ->
  linked (filter (has_type [IS_NEXT]) rs) IS_NEXT y ys.
Proof.
  induction ys as [|y' ys IH]; intros rs y H; simpl in *.
  - rewrite out_filter, H. reflexivity.
  - destruct H as [[k Hk] H]. split; [|now apply IH].
    exists k. rewrite out_filter, Hk. reflexivity.
Qed.

Lemma is_next_rels g :
  filter (has_type [IS_NEXT]) (chain_rels g) = filter (has_type [IS_NEXT]) (rels g).
Proof.
  unfold chain_rels. apply filter_filter_absorb.
  intros e _. unfold has_type. simpl. destruct (r_ty e); simpl; congruence.
Qed.

(** ** Reading a chain *)

Lemma chain_length g i bs blocks :
  chain g i bs blocks -> List.length bs = List.length blocks.
Proof.
  intros [_ _ H]. apply (f_equal (@List.length _)) in H.
  now rewrite !length_map in H.
Qed.

Lemma holds_block_of g : forall bs blocks,
  map (node_of g) bs = map (fun b => Some (node_of_block b)) blocks ->
  flat_map (block_of g) bs = blocks
  /\ forall b, In b bs -> is_MessageBlock g b = true.
Proof.
  induction bs as [|b bs IH]; intros [|blk blocks] H; simpl in H; try discriminate.
  - split; [reflexivity | contradiction].
  - inversion H as [[Hb Hrest]]. destruct (IH _ Hrest) as [IH1 IH2]. split.
    + simpl. unfold block_of at 1. rewrite Hb, IH1. now destruct blk.
    + intros b' [<-|Hin]; [|now apply IH2].
      unfold is_MessageBlock. now rewrite Hb.
Qed.

Lemma in_combine_seq_r {A} (l : list A) s p :
  In p (combine (seq s (List.length l)) l) -> In (snd p) l.
Proof. destruct p as [h b]. apply in_combine_r. Qed.

Lemma flat_map_combine_seq {A B} (F : A -> list B) : forall (l : list A) s,
  flat_map (fun p => F (snd p)) (combine (seq s (List.length l)) l) = flat_map F l.
Proof.
  induction l as [|a l IH]; intros s; [reflexivity|].
  simpl. now rewrite IH.
Qed.

Lemma flat_map_map {A B C} (f : B -> list C) (g : A -> B) (l : list A) :
  flat_map f (map g l) = flat_map (fun a => f (g a)) l.
Proof. induction l; simpl; [|rewrite IHl]; reflexivity. Qed.

Section ReadChain.

Variables (g : graph) (org_id user_id interaction_id : string).
Variables (i : nat) (bs : list nat) (blocks : list block).
Hypothesis Hids : NoDup (map r_id (rels g)).
Hypothesis Hmatch : match_interaction g org_id user_id interaction_id = [i].
Hypothesis Hchain : chain g i bs blocks.

Lemma var_length_chain :
  var_length g [FIRST_MESSAGE; IS_NEXT] i
  = combine (seq 1 (List.length bs)) bs.
Proof.
  destruct Hchain as [Hl Hnd _]. unfold var_length.
  apply (walk_linked bs _ FIRST_MESSAGE); auto.
  now apply NoDup_map_filter.
Qed.

Lemma match_messages_chain :
  match_messages g org_id user_id interaction_id
  = map (fun p => (i, fst p, snd p)) (combine (seq 1 (List.length bs)) bs).
Proof.
  unfold match_messages. rewrite Hmatch. cbn [flat_map]. rewrite app_nil_r.
  rewrite var_length_chain. f_equal. apply filter_all.
  intros p Hp. apply in_combine_seq_r in Hp.
  destruct Hchain as [_ _ Hh]. now apply (holds_block_of g bs blocks Hh).
Qed.

(** The read returns the blocks of the chain, head first. *)
Lemma get_interaction_messages_chain :
  get_interaction_messages g org_id user_id interaction_id = blocks.
Proof.
  unfold get_interaction_messages. rewrite match_messages_chain, flat_map_map.
  cbn [snd]. rewrite (flat_map_combine_seq (block_of g)).
  destruct Hchain as [_ _ Hh]. now apply (holds_block_of g bs blocks Hh).
Qed.

End ReadChain.

(** ** The clauses that create blocks and link them *)

Lemma graph_eq (g : graph) ns rs k :
  ns = nodes g -> rs = rels g -> k = next_id g ->
  {| nodes := ns; rels := rs; next_id := k |} = g.
Proof. intros -> -> ->. now destruct g. Qed.

Lemma create_blocks_spec messages key : forall idxs g,
  create_blocks g messages (map (fun idx => (key, idx)) idxs)
  = ({| nodes := nodes g ++ block_nodes (next_id g) messages idxs;
        rels := rels g;
        next_id := next_id g + List.length idxs |},
     map (fun b => (key, b)) (seq (next_id g) (List.length idxs))).
Proof.
  unfold create_blocks.
  induction idxs as [|idx idxs IH]; intros g.
  - simpl. f_equal. symmetry. apply graph_eq; simpl;
      [apply app_nil_r | reflexivity | apply Nat.add_0_r].
  - cbn [map each_row]. cbn [create_node]. rewrite IH.
    cbn [nodes rels next_id block_nodes List.length seq map app].
    rewrite <- app_assoc. cbn [app].
    now rewrite Nat.add_succ_r.
Qed.

Lemma RANGE_nat a n :
  RANGE a (a + Z.of_nat n - 1) = map (fun j => a + Z.of_nat j) (seq 0 n).
Proof.
  unfold RANGE. replace (a + Z.of_nat n - 1 - a + 1) with (Z.of_nat n) by lia.
  now rewrite Nat2Z.id.
Qed.

Lemma RANGE_empty a b : b < a -> RANGE a b = [].
Proof.
  intros H. unfold RANGE. replace (Z.to_nat (b - a + 1)) with 0%nat by lia.
  reflexivity.
Qed.

Lemma list_at_nat {A} (l : list A) (j : nat) :
  list_at l (Z.of_nat j) = nth_error l j.
Proof.
  unfold list_at. destruct (0 <=? Z.of_nat j) eqn:E; [|apply Z.leb_gt in E; lia].
  now rewrite Nat2Z.id.
Qed.

Lemma nth_pairs : forall (r : list nat) a,
  map (fun j => (nth_error r j, nth_error (a :: r) j)) (seq 0 (List.length r))
  = map (fun p => (Some (snd p), Some (fst p))) (combine (a :: r) r).
Proof.
  induction r as [|b r IH]; intros a; [reflexivity|].
  cbn [List.length seq map combine]. f_equal.
  rewrite <- seq_shift, map_map. cbn [nth_error]. apply IH.
Qed.

(** The rows of [link_consecutive] for one node list: its consecutive
    elements, as (currentNode, previousNode). *)
Lemma link_rows (l : list nat) :
  map (fun idx => (list_at l idx, list_at l (idx - 1))) (RANGE 1 (SIZE l - 1))
  = map (fun p => (Some (snd p), Some (fst p))) (consecutive l).
Proof.
  destruct l as [|a r].
  - reflexivity.
  - unfold SIZE, consecutive. cbn [List.length tl].
    replace (Z.of_nat (S (List.length r)) - 1)
      with (1 + Z.of_nat (List.length r) - 1) by lia.
    rewrite RANGE_nat, map_map, <- nth_pairs.
    apply map_ext. intros j.
    replace (1 + Z.of_nat j) with (Z.of_nat (S j)) by lia.
    rewrite list_at_nat.
    replace (Z.of_nat (S j) - 1) with (Z.of_nat j) by lia.
    now rewrite list_at_nat.
Qed.

Lemma link_pairs_spec : forall pairs g,
  for_rows (fun g '(currentNode, previousNode) =>
              (g' <- create_rel_opt g previousNode IS_NEXT currentNode ;;
               Ok (g', tt))%res) g
           (map (fun p => (Some (snd p), Some (fst p))) pairs)
  = Ok ({| nodes := nodes g;
           rels := rels g ++ next_rels (next_id g) pairs;
           next_id := next_id g + List.length pairs |},
        map (fun _ => tt) pairs).
Proof.
  induction pairs as [|[a b] pairs IH]; intros g.
  - simpl. do 2 f_equal. symmetry. apply graph_eq; simpl;
      [reflexivity | apply app_nil_r | apply Nat.add_0_r].
  - cbn [map for_rows fst snd create_rel_opt res_bind]. rewrite IH.
    cbn [res_bind create_rel nodes rels next_id next_rels List.length map].
    rewrite <- app_assoc. cbn [app]. now rewrite Nat.add_succ_r.
Qed.

Lemma link_consecutive_one g (l : list nat) :
  link_consecutive g [l]
  = Ok {| nodes := nodes g;
          rels := rels g ++ next_rels (next_id g) (consecutive l);
          next_id := next_id g + List.length (consecutive l) |}.
Proof.
  unfold link_consecutive. cbn [flat_map]. rewrite app_nil_r, link_rows.
  now rewrite link_pairs_spec.
Qed.

Lemma link_consecutive_none g : link_consecutive g [] = Ok g.
Proof. reflexivity. Qed.

(** Rows that share one key collect into a single row. *)
Lemma distinct_one (k : nat) : forall (n : nat),
  distinct Nat.eqb (repeat k (S n)) = [k].
Proof.
  induction n as [|n IH]; [reflexivity|].
  change (repeat k (S (S n))) with (k :: repeat k (S n)).
  cbn [distinct]. rewrite IH. cbn [filter]. now rewrite Nat.eqb_refl.
Qed.

Lemma collect_by_one (k : nat) (vs : list nat) :
  vs <> [] ->
  collect_by Nat.eqb (map (fun v => (k, v)) vs) = [(k, vs)].
Proof.
  intros Hne. unfold collect_by.
  assert (Hkeys : distinct Nat.eqb (map fst (map (fun v => (k, v)) vs)) = [k]).
  { rewrite map_map. cbn [fst].
    replace (map (fun _ : nat => k) vs) with (repeat k (List.length vs))
      by (clear Hne; induction vs; simpl; congruence).
    destruct vs as [|v vs]; [congruence|]. apply distinct_one. }
  rewrite Hkeys. cbn [map]. do 2 f_equal.
  rewrite filter_all.
  - rewrite map_map. cbn [snd]. apply map_id.
  - intros p Hp. apply in_map_iff in Hp as (x & <- & _). apply Nat.eqb_refl.
Qed.

(** ** Extending a chain at its tail *)

Lemma out_app rs1 rs2 x : out (rs1 ++ rs2) x = out rs1 x ++ out rs2 x.
Proof. apply filter_app. Qed.

Lemma out_none rs x : (forall e, In e rs -> r_src e <> x) -> out rs x = [].
Proof.
  intros H. apply filter_none. intros e He.
  apply Nat.eqb_neq. now apply H.
Qed.

Lemma out_src rs x e : In e (out rs x) -> In e rs /\ r_src e = x.
Proof.
  intros H. apply filter_In in H as [H E]. split; [assumption|].
  now apply Nat.eqb_eq.
Qed.

(** Every node of a chain but its head is the end of one of the
    relationships, and the head is the start of one unless the chain is
    empty. *)
Lemma linked_dst : forall ys rs t x y,
  linked rs t x ys -> In y ys -> exists e, In e rs /\ r_dst e = y.
Proof.
  induction ys as [|y' ys IH]; intros rs t x y H Hin; [contradiction|].
  destruct H as [[k Hk] H]. destruct Hin as [<-|Hin].
  - exists {| r_id := k; r_src := x; r_ty := t; r_dst := y' |}.
    split; [|reflexivity].
    apply (out_src rs x). rewrite Hk. now left.
  - eapply IH; eauto.
Qed.

Lemma linked_src rs t x y ys :
  linked rs t x (y :: ys) -> exists e, In e rs /\ r_src e = x.
Proof.
  intros [[k Hk] _].
  exists {| r_id := k; r_src := x; r_ty := t; r_dst := y |}.
  split; [|reflexivity].
  apply (out_src rs x). rewrite Hk. now left.
Qed.

Lemma last_cons {A} : forall (ys : list A) x y, last (y :: ys) x = last ys y.
Proof.
  induction ys as [|y' ys IH]; intros x y; [reflexivity|].
  change (last (y :: y' :: ys) x) with (last (y' :: ys) x).
  now rewrite !IH.
Qed.

Lemma last_in {A} : forall (ys : list A) x, In (last ys x) (x :: ys).
Proof.
  induction ys as [|y ys IH]; intros x; [now left|].
  rewrite last_cons. right. apply IH.
Qed.

Lemma linked_app_new : forall zs rs new t y,
  linked new t y zs ->
  (forall z, In z (y :: zs) -> out rs z = []) ->
  linked (rs ++ new) t y zs.
Proof.
  induction zs as [|z zs IH]; intros rs new t y H Hrs; simpl in *.
  - rewrite out_app, H, (Hrs y); auto.
  - destruct H as [[k Hk] H]. split.
    + exists k. rewrite out_app, Hk, (Hrs y); auto.
    + apply IH; auto.
Qed.

(** A chain [ys] from [x] in [rs], continued by a chain [zs] from its last
    node in [new], is a chain in [rs ++ new], as long as [new] only leaves
    that last node and [zs], and [rs] never leaves [zs]. *)
Lemma linked_app : forall ys rs new t x zs,
  ys <> [] ->
  NoDup (x :: ys) ->
  linked rs t x ys ->
  linked new IS_NEXT (last ys x) zs ->
  (forall e, In e new -> r_src e = last ys x \/ In (r_src e) zs) ->
  (forall e, In e rs -> ~ In (r_src e) zs) ->
  linked (rs ++ new) t x (ys ++ zs).
Proof.
  induction ys as [|y ys IH]; intros rs new t x zs Hne Hnd H Hnew Hsrc Hold;
    [congruence|].
  rewrite last_cons in Hnew, Hsrc.
  destruct H as [[k Hk] H].
  assert (He : In {| r_id := k; r_src := x; r_ty := t; r_dst := y |} rs)
    by (apply (out_src rs x); rewrite Hk; now left).
  assert (Hx : out new x = []).
  { apply out_none. intros e He' E. destruct (Hsrc e He') as [E'|Hin].
    - inversion Hnd as [|? ? Hnot _]; subst. apply Hnot.
      rewrite E'. apply last_in.
    - apply (Hold _ He). simpl. now rewrite <- E. }
  cbn [app linked]. split.
  - exists k. now rewrite out_app, Hk, Hx.
  - inversion Hnd as [|? ? _ Hnd']; subst.
    destruct ys as [|y' ys].
    + cbn [app]. simpl in H, Hnew. apply linked_app_new; auto.
      intros z [<-|Hz]; [assumption|].
      apply out_none. intros e He' E. apply (Hold e He'). now rewrite E.
    + apply IH; auto. congruence.
Qed.

Lemma linked_cons_other : forall ys rs t y e,
  ~ In (r_src e) (y :: ys) -> linked rs t y ys -> linked (e :: rs) t y ys.
Proof.
  intros ys rs t y e Hnot H.
  change (e :: rs) with ([e] ++ rs).
  apply linked_app_new; auto.
  intros z Hz. apply out_none. intros e' [<-|[]] E. apply Hnot. now rewrite E.
Qed.

Lemma consecutive_cons a b l : consecutive (a :: b :: l) = (a, b) :: consecutive (b :: l).
Proof. reflexivity. Qed.

Lemma next_rels_src : forall l k e,
  In e (next_rels k (consecutive l)) -> In (r_src e) l /\ r_ty e = IS_NEXT.
Proof.
  induction l as [|a l IH]; intros k e H; [contradiction|].
  destruct l as [|b l]; [contradiction|].
  rewrite consecutive_cons in H. cbn [next_rels] in H.
  destruct H as [<-|H].
  - split; [now left | reflexivity].
  - destruct (IH _ _ H). split; [now right | assumption].
Qed.

(** The relationships that [link_consecutive] creates for a list without
    repetition chain its head to the rest. *)
Lemma linked_next_rels : forall l a k,
  NoDup (a :: l) -> linked (next_rels k (consecutive (a :: l))) IS_NEXT a l.
Proof.
  induction l as [|b l IH]; intros a k Hnd.
  - reflexivity.
  - rewrite consecutive_cons. cbn [next_rels linked].
    inversion Hnd as [|? ? Hnot Hnd']; subst. split.
    + exists k. unfold out. cbn [filter r_src]. rewrite Nat.eqb_refl. f_equal.
      apply out_none. intros e He E. apply next_rels_src in He as [He _].
      apply Hnot. now rewrite <- E.
    + apply linked_cons_other; [exact Hnot | now apply IH].
Qed.

Lemma next_rels_dst : forall l k e,
  In e (next_rels k (consecutive l)) -> In (r_dst e) l.
Proof.
  induction l as [|a l IH]; intros k e H; [contradiction|].
  destruct l as [|b l]; [contradiction|].
  rewrite consecutive_cons in H. cbn [next_rels] in H.
  destruct H as [<-|H].
  - right. now left.
  - right. eapply IH; eauto.
Qed.

(** ** [_append_messages_to_interaction] on a chain *)

Lemma existsb_filter {A} (f q : A -> bool) (l : list A) :
  existsb f (filter q l) = existsb (fun a => q a && f a) l.
Proof.
  induction l as [|a l IH]; [reflexivity|]. simpl.
  destruct (q a); simpl; now rewrite IH.
Qed.

Lemma existsb_pointwise {A} (f h : A -> bool) (l : list A) :
  (forall a, f a = h a) -> existsb f l = existsb h l.
Proof. intros H. induction l; simpl; [|rewrite H, IHl]; reflexivity. Qed.

Lemma has_outgoing_out g x :
  has_outgoing g x IS_NEXT
  = existsb (fun e => reltype_eqb (r_ty e) IS_NEXT) (out (chain_rels g) x).
Proof.
  unfold has_outgoing, out, chain_rels. rewrite !existsb_filter.
  apply existsb_pointwise. intros e. unfold has_type. simpl.
  destruct (Nat.eqb (r_src e) x), (r_ty e); reflexivity.
Qed.

Lemma has_outgoing_linked g x ys :
  linked (chain_rels g) IS_NEXT x ys ->
  has_outgoing g x IS_NEXT = nonempty ys.
Proof.
  intros H. rewrite has_outgoing_out. destruct ys as [|y ys]; simpl in H.
  - now rewrite H.
  - destruct H as [[k ->] _]. reflexivity.
Qed.

Lemma length_consecutive a (l : list nat) :
  List.length (consecutive (a :: l)) = List.length l.
Proof.
  unfold consecutive. cbn [tl]. rewrite length_combine. cbn [List.length]. lia.
Qed.

Section AppendRows.

Variables (g : graph) (i : nat).

(** Of the rows of the MATCH, the WHERE keeps the one of the tail. *)
Lemma tail_row : forall bs t x s,
  bs <> [] ->
  linked (chain_rels g) t x bs ->
  filter (fun '(_, _, m) => negb (has_outgoing g m IS_NEXT))
         (map (fun p => (i, fst p, snd p)) (combine (seq s (List.length bs)) bs))
  = [(i, (s + List.length bs - 1)%nat, last bs x)].
Proof.
  induction bs as [|b bs IH]; intros t x s Hne H; [congruence|].
  destruct H as [_ H]. rewrite last_cons.
  cbn [List.length seq combine map filter fst snd].
  rewrite (has_outgoing_linked g b bs H).
  destruct bs as [|b' bs].
  - cbn. do 3 f_equal. lia.
  - cbn [nonempty negb].
    rewrite (IH IS_NEXT b (S s)); [|congruence|assumption].
    do 3 f_equal. cbn [List.length]. lia.
Qed.

End AppendRows.

Section AppendChain.

Variables (g : graph) (org_id user_id interaction_id : string).
Variables (i : nat) (bs : list nat) (blocks : list block) (p : Z).
Variable messages : list message.
Hypothesis Hids : NoDup (map r_id (rels g)).
Hypothesis Hmatch : match_interaction g org_id user_id interaction_id = [i].
Hypothesis Hchain : chain g i bs blocks.
Hypothesis Hne : bs <> [].
Hypothesis Hpos : position_of g (last bs i) = Some p.

(** The query finds the tail and hangs one block per remaining position
    under it. *)
Lemma append_computes :
  _append_messages_to_interaction g org_id user_id interaction_id messages
  = Ok (appended g messages (last bs i) (RANGE (p + 1) (SIZE messages - 1))).
Proof.
  unfold _append_messages_to_interaction.
  rewrite (match_messages_chain g org_id user_id interaction_id i bs blocks
             Hids Hmatch Hchain).
  rewrite (tail_row g i bs FIRST_MESSAGE i 1 Hne (chain_linked _ _ _ _ Hchain)).
  cbn [flat_map]. rewrite Hpos, app_nil_r.
  set (idxs := RANGE (p + 1) (SIZE messages - 1)).
  rewrite create_blocks_spec.
  destruct idxs as [|idx rest].
  - cbn [List.length seq map]. unfold collect_by. cbn [map distinct].
    rewrite link_consecutive_none. f_equal. unfold appended.
    cbn [List.length seq block_nodes consecutive tl combine next_rels].
    now rewrite !app_nil_r, !Nat.add_0_r.
  - rewrite collect_by_one by (cbn; congruence).
    cbn [map app]. rewrite link_consecutive_one.
    cbn [nodes rels next_id]. rewrite length_consecutive, length_seq.
    reflexivity.
Qed.

End AppendChain.

(** ** The chain after an append *)

Lemma find_app_some {A} (f : A -> bool) (l1 l2 : list A) a :
  find f l1 = Some a -> find f (l1 ++ l2) = Some a.
Proof.
  induction l1 as [|b l1 IH]; simpl; [discriminate|].
  destruct (f b); auto.
Qed.

Lemma find_app_none {A} (f : A -> bool) (l1 l2 : list A) :
  (forall a, In a l1 -> f a = false) -> find f (l1 ++ l2) = find f l2.
Proof.
  induction l1 as [|b l1 IH]; intros H; simpl; [reflexivity|].
  rewrite (H b (or_introl eq_refl)). apply IH. intros; apply H; simpl; auto.
Qed.

Lemma node_of_app_old g new x d rs k :
  node_of g x = Some d ->
  node_of {| nodes := nodes g ++ new; rels := rs; next_id := k |} x = Some d.
Proof.
  unfold node_of. cbn [nodes].
  destruct (find _ (nodes g)) as [n|] eqn:E; [|discriminate].
  intros H. now rewrite (find_app_some _ _ new _ E).
Qed.

Lemma map_id_next_rels : forall pairs k,
  map r_id (next_rels k pairs) = seq k (List.length pairs).
Proof.
  induction pairs as [|[a b] pairs IH]; intros k; [reflexivity|].
  cbn [next_rels map List.length seq r_id]. now rewrite IH.
Qed.

Lemma block_nodes_ids messages : forall idxs k n,
  In n (block_nodes k messages idxs) ->
  (k <= n_id n < k + List.length idxs)%nat
  /\ exists idx, n_data n = node_of_block (block_at messages idx).
Proof.
  induction idxs as [|idx idxs IH]; intros k n H; [contradiction|].
  cbn [block_nodes List.length] in *. destruct H as [<-|H].
  - split; [simpl; lia | now exists idx].
  - destruct (IH _ _ H) as [Hk Hd]. split; [lia | exact Hd].
Qed.

(** The new nodes hold the blocks of their positions. *)
Lemma node_of_block_nodes messages rs k' : forall idxs k pre,
  (forall n, In n pre -> (n_id n < k)%nat) ->
  map (node_of {| nodes := pre ++ block_nodes k messages idxs;
                  rels := rs; next_id := k' |})
      (seq k (List.length idxs))
  = map (fun idx => Some (node_of_block (block_at messages idx))) idxs.
Proof.
  induction idxs as [|idx idxs IH]; intros k pre Hpre; [reflexivity|].
  cbn [List.length seq map block_nodes]. f_equal.
  - unfold node_of. cbn [nodes]. rewrite find_app_none.
    + cbn [find n_id]. now rewrite Nat.eqb_refl.
    + intros n Hn. apply Nat.eqb_neq. specialize (Hpre n Hn). lia.
  - specialize (IH (S k) (pre ++ [{| n_id := k; n_data :=
        MessageBlock idx (msg_role messages idx) (msg_content messages idx) |}])).
    rewrite <- app_assoc in IH. cbn [app] in IH. apply IH.
    intros n Hn. apply in_app_or in Hn as [Hn|[<-|[]]].
    + specialize (Hpre n Hn). lia.
    + simpl. lia.
Qed.

(** The blocks created for the positions from [k] on are the blocks of the
    messages from [k] on. *)
Lemma block_at_suffix : forall (suffix pre : list message),
  map (block_at (pre ++ suffix))
      (map (fun j => Z.of_nat (List.length pre) + Z.of_nat j)
           (seq 0 (List.length suffix)))
  = blocks_from (Z.of_nat (List.length pre)) suffix.
Proof.
  induction suffix as [|a suffix IH]; intros pre; [reflexivity|].
  cbn [List.length seq map blocks_from]. f_equal.
  - unfold block_at, msg_role, msg_content.
    replace (Z.of_nat (List.length pre) + Z.of_nat 0)
      with (Z.of_nat (List.length pre)) by lia.
    rewrite list_at_nat, nth_error_app2, Nat.sub_diag by lia. reflexivity.
  - specialize (IH (pre ++ [a])).
    rewrite <- app_assoc, length_app in IH. cbn [app List.length] in IH.
    rewrite <- seq_shift, (map_map S).
    replace (Z.of_nat (List.length pre) + 1)
      with (Z.of_nat (List.length pre + 1)) by lia.
    rewrite <- IH. f_equal. apply map_ext. intros j. lia.
Qed.

Lemma block_at_range (messages : list message) (k : nat) :
  map (block_at messages) (RANGE (Z.of_nat k) (SIZE messages - 1))
  = blocks_from (Z.of_nat k) (skipn k messages).
Proof.
  destruct (Nat.le_gt_cases (List.length messages) k) as [Hk|Hk].
  - rewrite skipn_all2 by assumption.
    rewrite RANGE_empty by (unfold SIZE; lia). reflexivity.
  - pose proof (firstn_skipn k messages) as E.
    assert (Hlen : List.length (firstn k messages) = k)
      by (rewrite length_firstn; lia).
    replace (SIZE messages - 1)
      with (Z.of_nat k + Z.of_nat (List.length (skipn k messages)) - 1)
      by (unfold SIZE; rewrite length_skipn; lia).
    rewrite RANGE_nat.
    pose proof (block_at_suffix (skipn k messages) (firstn k messages)) as H.
    rewrite E, Hlen in H. exact H.
Qed.

(** The nodes of a non-empty chain are end points of relationships of the
    graph, hence older than [next_id]. *)
Lemma chain_nodes_old g i bs blocks :
  wf_graph g -> chain g i bs blocks -> bs <> [] ->
  forall x, In x (i :: bs) -> (x < next_id g)%nat.
Proof.
  intros Hwf [Hl _ _] Hne x [<-|Hx].
  - destruct bs as [|b bs']; [congruence|].
    destruct (linked_src _ _ _ _ _ Hl) as (e & He & <-).
    apply filter_In in He as [He _]. now apply (wf_rels g Hwf).
  - destruct (linked_dst _ _ _ _ _ Hl Hx) as (e & He & <-).
    apply filter_In in He as [He _]. now apply (wf_rels g Hwf).
Qed.

Section Appended.

Variables (g : graph) (messages : list message).
Variables (i : nat) (bs : list nat) (blocks : list block) (idxs : list Z).
Hypothesis Hwf : wf_graph g.
Hypothesis Hchain : chain g i bs blocks.
Hypothesis Hne : bs <> [].

Let g' := appended g messages (last bs i) idxs.
Let fresh := seq (next_id g) (List.length idxs).

Lemma chain_nodes_fresh x : In x (i :: bs) -> (x < next_id g)%nat.
Proof. now apply (chain_nodes_old g i bs blocks). Qed.

Lemma chain_rels_appended :
  chain_rels g'
  = chain_rels g
    ++ next_rels (next_id g + List.length idxs) (consecutive (last bs i :: fresh)).
Proof.
  unfold chain_rels, g', appended. cbn [rels]. rewrite filter_app. f_equal.
  apply filter_all. intros e He. apply next_rels_src in He as [_ E].
  unfold has_type. now rewrite E.
Qed.

Lemma fresh_not_old x : In x fresh -> ~ In x (i :: bs).
Proof.
  intros Hx Hin. apply in_seq in Hx. apply chain_nodes_fresh in Hin. lia.
Qed.

Lemma appended_chain :
  chain g' i (bs ++ fresh) (blocks ++ map (block_at messages) idxs).
Proof.
  pose proof Hchain as [Hl Hnd Hh]. split.
  - rewrite chain_rels_appended. apply linked_app; auto.
    + apply linked_next_rels. constructor; [|apply seq_NoDup].
      intros Hin. apply (fresh_not_old _ Hin). apply last_in.
    + intros e He. apply next_rels_src in He as [[E|Hin] _]; auto.
    + intros e He Hin. apply filter_In in He as [He _].
      apply in_seq in Hin. pose proof (wf_rels g Hwf e He). lia.
  - rewrite app_comm_cons. apply NoDup_app; auto; [apply seq_NoDup|].
    intros x Hx Hin. now apply (fresh_not_old x Hin).
  - rewrite !map_app. f_equal.
    + rewrite <- Hh. apply map_ext_in. intros b Hb.
      assert (Hb' : In (node_of g b) (map (node_of g) bs)) by now apply in_map.
      rewrite Hh in Hb'. apply in_map_iff in Hb' as (blk & E & _).
      symmetry in E. rewrite E. now apply node_of_app_old.
    + rewrite map_map. apply node_of_block_nodes.
      intros n Hn. now apply (wf_nodes g Hwf).
Qed.

Lemma match_interaction_appended org_id user_id interaction_id :
  match_interaction g' org_id user_id interaction_id
  = match_interaction g org_id user_id interaction_id.
Proof.
  unfold match_interaction, g', appended. cbn [nodes].
  rewrite filter_app, map_app.
  rewrite (filter_none _ (block_nodes _ _ _)); [apply app_nil_r|].
  intros n Hn. apply block_nodes_ids in Hn as [_ [idx ->]]. reflexivity.
Qed.

Lemma wf_appended : wf_graph g'.
Proof.
  pose proof (chain_nodes_fresh (last bs i) (last_in bs i)) as Hlast.
  split; unfold g', appended; cbn [nodes rels next_id].
  - rewrite map_app, map_id_next_rels. apply NoDup_app.
    + apply (wf_rel_ids g Hwf).
    + apply seq_NoDup.
    + intros k Hk Hin. apply in_seq in Hin.
      apply in_map_iff in Hk as (e & <- & He).
      pose proof (wf_rels g Hwf e He). lia.
  - intros e He. apply in_app_or in He as [He|He].
    + pose proof (wf_rels g Hwf e He). lia.
    + assert (Hid : In (r_id e) (map r_id (next_rels (next_id g + List.length idxs)
                       (consecutive (last bs i :: fresh)))))
        by now apply in_map.
      rewrite map_id_next_rels, length_consecutive in Hid.
      apply in_seq in Hid. unfold fresh in Hid. rewrite length_seq in Hid.
      pose proof (next_rels_src _ _ _ He) as [Hs _].
      pose proof (next_rels_dst _ _ _ He) as Hd.
      assert (Hb : forall x, In x (last bs i :: fresh) ->
                     (x < next_id g + List.length idxs)%nat).
      { intros x [<-|Hx]; [lia|]. apply in_seq in Hx. lia. }
      pose proof (Hb _ Hs). pose proof (Hb _ Hd). lia.
  - intros n Hn. apply in_app_or in Hn as [Hn|Hn].
    + pose proof (wf_nodes g Hwf n Hn). lia.
    + apply block_nodes_ids in Hn as [Hn _]. lia.
Qed.

End Appended.

(** ** The truncation query on a chain *)

Lemma find_filter {A} (f q : A -> bool) (l : list A) :
  (forall a, f a = true -> q a = true) -> find f (filter q l) = find f l.
Proof.
  intros H. induction l as [|a l IH]; [reflexivity|]. simpl.
  destruct (q a) eqn:Q; simpl.
  - now rewrite IH.
  - destruct (f a) eqn:F; [|assumption].
    rewrite (H a F) in Q. discriminate.
Qed.

Lemma node_of_detach_alive g dead x :
  ~ In x dead -> node_of (detach_delete g dead) x = node_of g x.
Proof.
  intros H. unfold node_of, detach_delete. cbn [nodes]. f_equal.
  apply find_filter. intros n E. apply Nat.eqb_eq in E. subst.
  apply mem_nat_not_In in H. now rewrite H.
Qed.

Lemma node_of_detach_dead g dead x :
  In x dead -> node_of (detach_delete g dead) x = None.
Proof.
  intros H. unfold node_of, detach_delete. cbn [nodes].
  destruct (find _ _) as [n|] eqn:E; [|reflexivity].
  apply find_some in E as [Hn E]. apply Nat.eqb_eq in E. subst.
  apply filter_In in Hn as [_ Hn]. apply mem_nat_In in H.
  rewrite H in Hn. discriminate.
Qed.

Lemma wf_detach_delete g dead : wf_graph g -> wf_graph (detach_delete g dead).
Proof.
  intros [H1 H2 H3]. split; unfold detach_delete; cbn [nodes rels next_id].
  - now apply NoDup_map_filter.
  - intros e He. apply filter_In in He as [He _]. auto.
  - intros n Hn. apply filter_In in Hn as [Hn _]. auto.
Qed.

Lemma match_interaction_detach g dead org_id user_id interaction_id :
  match_interaction (detach_delete g dead) org_id user_id interaction_id
  = filter (fun x => negb (mem_nat x dead))
           (match_interaction g org_id user_id interaction_id).
Proof.
  unfold match_interaction, detach_delete. cbn [nodes].
  now rewrite filter_comm, filter_map_swap.
Qed.

Lemma chain_rels_detach g dead :
  chain_rels (detach_delete g dead) = filter (alive dead) (chain_rels g).
Proof. unfold chain_rels, detach_delete. cbn [rels]. apply filter_comm. Qed.

(** The part of a chain before the deleted blocks is still a chain. *)
Lemma linked_prefix rs dead : forall bs k t x,
  dead = skipn k bs -> NoDup (x :: bs) -> linked rs t x bs ->
  linked (filter (alive dead) rs) t x (firstn k bs).
Proof.
  induction bs as [|b bs IH]; intros k t x Hd Hnd H.
  - rewrite firstn_nil. simpl in *. now rewrite out_filter, H.
  - destruct H as [[j Hj] H]. inversion Hnd as [|? ? Hx Hnd']; subst.
    destruct k as [|k].
    + cbn [firstn linked skipn]. rewrite out_filter, Hj. cbn [filter].
      unfold alive. cbn [r_src r_dst].
      replace (mem_nat b (b :: bs)) with true
        by (symmetry; apply mem_nat_In; now left).
      now rewrite andb_false_r.
    + cbn [firstn linked skipn]. split.
      * exists j. rewrite out_filter, Hj. cbn [filter]. unfold alive.
        cbn [r_src r_dst].
        assert (Hsub : forall z, In z (skipn k bs) -> In z bs).
        { intros z Hz. rewrite <- (firstn_skipn k bs). apply in_or_app. now right. }
        replace (mem_nat x (skipn k bs)) with false.
        2:{ symmetry. apply mem_nat_not_In. intros Hin. apply Hx. right. auto. }
        replace (mem_nat b (skipn k bs)) with false.
        2:{ symmetry. apply mem_nat_not_In. intros Hin.
            inversion Hnd' as [|? ? Hb _]; subst. apply Hb. auto. }
        reflexivity.
      * apply IH; auto.
Qed.

(** From the block before position [k] the rest of the chain hangs by
    IS_NEXT. *)
Lemma linked_suffix rs d : forall bs k t x,
  (1 <= k <= List.length bs)%nat -> linked rs t x bs ->
  linked rs IS_NEXT (nth (k - 1) bs d) (skipn k bs).
Proof.
  induction bs as [|b bs IH]; intros k t x Hk H; [simpl in Hk; lia|].
  destruct H as [_ H]. destruct k as [|[|k]]; [lia| exact H |].
  cbn [List.length] in Hk.
  specialize (IH (S k) IS_NEXT b ltac:(lia) H).
  replace (S (S k) - 1)%nat with (S k) by lia.
  replace (S k - 1)%nat with k in IH by lia.
  exact IH.
Qed.

Lemma hops_row (i : nat) (k : nat) (d : nat) : forall bs s,
  (s <= k < s + List.length bs)%nat ->
  filter (fun '(_, hops, _) => Z.of_nat hops =? Z.of_nat k)
         (map (fun p : nat * nat => (i, fst p, snd p))
              (combine (seq s (List.length bs)) bs))
  = [(i, k, nth (k - s) bs d)].
Proof.
  induction bs as [|b bs IH]; intros s Hk; [simpl in Hk; lia|].
  cbn [List.length seq combine map filter fst snd] in *.
  destruct (Z.of_nat s =? Z.of_nat k) eqn:E.
  - apply Z.eqb_eq in E. apply Nat2Z.inj in E. subst s.
    rewrite Nat.sub_diag. cbn [nth]. f_equal.
    apply filter_none. intros [[i' h] m] Hin.
    apply in_map_iff in Hin as ([h' m'] & E & Hin). inversion E; subst.
    apply in_combine_l in Hin. apply in_seq in Hin.
    cbn [fst]. apply Z.eqb_neq. lia.
  - apply Z.eqb_neq in E.
    rewrite (IH (S s)) by lia.
    replace (k - s)%nat with (S (k - S s)) by lia. reflexivity.
Qed.

Lemma map_snd_combine_seq {A} : forall (l : list A) s,
  map snd (combine (seq s (List.length l)) l) = l.
Proof.
  induction l as [|a l IH]; intros s; [reflexivity|].
  cbn [List.length seq combine map snd]. now rewrite IH.
Qed.

Lemma NoDup_suffix {A} (l : list A) k d :
  (1 <= k <= List.length l)%nat -> NoDup l -> NoDup (nth (k - 1) l d :: skipn k l).
Proof.
  intros Hk Hnd.
  assert (E : skipn (k - 1) l = nth (k - 1) l d :: skipn k l).
  { revert k Hk. clear Hnd. induction l as [|a l IH]; intros k Hk; [simpl in Hk; lia|].
    destruct k as [|[|k]]; [lia | reflexivity |].
    cbn [List.length] in Hk. specialize (IH (S k) ltac:(lia)).
    replace (S (S k) - 1)%nat with (S k) by lia.
    replace (S k - 1)%nat with k in IH by lia.
    cbn [skipn nth]. destruct l; [simpl in Hk; lia|]. exact IH. }
  rewrite <- E. rewrite <- (firstn_skipn (k - 1) l) in Hnd.
  now apply NoDup_app_remove_l in Hnd.
Qed.

Lemma NoDup_app_disjoint {A} (l1 l2 : list A) x :
  NoDup (l1 ++ l2) -> In x l1 -> ~ In x l2.
Proof.
  induction l1 as [|a l1 IH]; intros Hnd H1 H2; [contradiction|].
  simpl in Hnd. inversion Hnd as [|? ? Ha Hnd']; subst.
  destruct H1 as [->|H1].
  - apply Ha. apply in_or_app. now right.
  - now apply IH.
Qed.

Section Truncate.

Variables (g : graph) (org_id user_id interaction_id : string).
Variables (i : nat) (bs : list nat) (blocks : list block) (k : nat).
Hypothesis Hwf : wf_graph g.
Hypothesis Hmatch : match_interaction g org_id user_id interaction_id = [i].
Hypothesis Hchain : chain g i bs blocks.
Hypothesis Hk : (1 <= k <= List.length bs)%nat.

(** The query deletes the blocks from position [k] on. *)
Lemma truncate_computes :
  truncate_messages g org_id user_id interaction_id (Z.of_nat k)
  = detach_delete g (skipn k bs).
Proof.
  pose proof Hchain as [Hl Hnd _].
  unfold truncate_messages.
  rewrite (match_messages_chain g org_id user_id interaction_id i bs blocks
             (wf_rel_ids g Hwf) Hmatch Hchain).
  rewrite (hops_row i k i bs 1) by lia.
  cbn [flat_map]. rewrite app_nil_r. f_equal.
  unfold var_length.
  rewrite (walk_linked (skipn k bs) _ IS_NEXT).
  - apply map_snd_combine_seq.
  - apply NoDup_map_filter, (wf_rel_ids g Hwf).
  - apply NoDup_suffix; [assumption | now inversion Hnd].
  - rewrite <- is_next_rels. apply linked_is_next.
    now apply (linked_suffix _ i bs k FIRST_MESSAGE i).
  - apply Nat.le_refl.
Qed.

Lemma dead_in_chain x : In x (skipn k bs) -> In x bs.
Proof.
  intros Hx. rewrite <- (firstn_skipn k bs). apply in_or_app. now right.
Qed.

Lemma kept_not_dead x : In x (i :: firstn k bs) -> ~ In x (skipn k bs).
Proof.
  pose proof Hchain as [_ Hnd _]. intros Hx Hd.
  inversion Hnd as [|? ? Hi Hnd']; subst. destruct Hx as [<-|Hx].
  - apply Hi. now apply dead_in_chain.
  - rewrite <- (firstn_skipn k bs) in Hnd'.
    now apply (NoDup_app_disjoint _ _ x Hnd' Hx).
Qed.

Lemma truncated_chain :
  chain (detach_delete g (skipn k bs)) i (firstn k bs) (firstn k blocks).
Proof.
  pose proof Hchain as [Hl Hnd Hh]. split.
  - rewrite chain_rels_detach. now apply linked_prefix.
  - inversion Hnd as [|? ? Hi Hnd']; subst. constructor.
    + intros Hin. apply Hi. rewrite <- (firstn_skipn k bs).
      apply in_or_app. now left.
    + rewrite <- (firstn_skipn k bs) in Hnd'. now apply NoDup_app_remove_r in Hnd'.
  - rewrite <- !firstn_map, <- Hh, !firstn_map. apply map_ext_in.
    intros b Hb. apply node_of_detach_alive, kept_not_dead. now right.
Qed.

Lemma truncated_match :
  match_interaction (detach_delete g (skipn k bs)) org_id user_id interaction_id
  = [i].
Proof.
  rewrite match_interaction_detach, Hmatch. cbn [filter].
  replace (mem_nat i (skipn k bs)) with false; [reflexivity|].
  symmetry. apply mem_nat_not_In, kept_not_dead. now left.
Qed.

End Truncate.

(** ** Steps that leave the message chains alone *)

Lemma same_chains_refl g : same_chains g g.
Proof. repeat split. Qed.

Lemma same_chains_trans g1 g2 g3 :
  same_chains g1 g2 -> same_chains g2 g3 -> same_chains g1 g3.
Proof.
  intros (A1 & B1 & C1) (A2 & B2 & C2). repeat split.
  - intros. now rewrite A2, A1.
  - now rewrite B2, B1.
  - intros. now rewrite C2, C1.
Qed.

Lemma is_MessageBlock_block_of g x :
  is_MessageBlock g x = nonempty (block_of g x).
Proof.
  unfold is_MessageBlock, block_of.
  destruct (node_of g x) as [[]|]; reflexivity.
Qed.

Lemma block_of_node g x b :
  block_of g x = [b] <-> node_of g x = Some (node_of_block b).
Proof.
  unfold block_of. destruct (node_of g x) as [[]|]; split; intros H;
    try discriminate; destruct b; inversion H; subst; reflexivity.
Qed.

Lemma same_chains_match g g' org_id user_id interaction_id :
  same_chains g g' ->
  match_messages g' org_id user_id interaction_id
  = match_messages g org_id user_id interaction_id.
Proof.
  intros (A & B & C). unfold match_messages. rewrite A.
  apply flat_map_ext. intros i. f_equal.
  unfold var_length. change (filter (has_type [FIRST_MESSAGE; IS_NEXT]) (rels g'))
    with (chain_rels g').
  change (filter (has_type [FIRST_MESSAGE; IS_NEXT]) (rels g)) with (chain_rels g).
  rewrite B. apply filter_ext. intros p.
  now rewrite !is_MessageBlock_block_of, C.
Qed.

Lemma same_chains_read g g' org_id user_id interaction_id :
  same_chains g g' ->
  get_interaction_messages g' org_id user_id interaction_id
  = get_interaction_messages g org_id user_id interaction_id.
Proof.
  intros H. unfold get_interaction_messages.
  rewrite (same_chains_match g g' _ _ _ H).
  apply flat_map_ext. intros [[i h] m]. apply H.
Qed.

Lemma holds_transfer g g' :
  (forall x, block_of g' x = block_of g x) ->
  forall bs blocks,
    map (node_of g) bs = map (fun b => Some (node_of_block b)) blocks ->
    map (node_of g') bs = map (fun b => Some (node_of_block b)) blocks.
Proof.
  intros C. induction bs as [|b bs IH]; intros [|blk blocks] Hh;
    simpl in *; try discriminate; [reflexivity|].
  inversion Hh as [[Hb Hrest]]. rewrite Hb, Hrest. f_equal.
  - apply block_of_node. rewrite C. now apply block_of_node.
  - now apply IH.
Qed.

Lemma same_chains_chain g g' i bs blocks :
  same_chains g g' -> chain g i bs blocks -> chain g' i bs blocks.
Proof.
  intros (A & B & C) [Hl Hnd Hh]. split; [now rewrite B | assumption |].
  now apply (holds_transfer g g').
Qed.

Lemma same_chains_create_node g d :
  chain_label d = false -> same_chains g (fst (create_node g d)).
Proof.
  intros Hd. unfold create_node. cbn [fst]. repeat split.
  - intros. unfold match_interaction. cbn [nodes].
    rewrite filter_app, map_app. cbn [filter n_data].
    destruct d; try discriminate; apply app_nil_r.
  - intros x. unfold block_of, node_of. cbn [nodes].
    destruct (find _ (nodes g)) as [n|] eqn:E.
    + now rewrite (find_app_some _ _ _ _ E).
    + rewrite find_app_none by (intros a Ha; exact (find_none _ _ E a Ha)).
      cbn [find n_id]. destruct (Nat.eqb (next_id g) x); [|reflexivity].
      destruct d; try discriminate; reflexivity.
Qed.

Lemma same_chains_create_rel g a t b :
  chain_type t = false -> same_chains g (create_rel g a t b).
Proof.
  intros Ht. unfold create_rel. repeat split.
  unfold chain_rels. cbn [rels]. rewrite filter_app. cbn [filter].
  unfold has_type. cbn [r_ty existsb].
  destruct t; try discriminate; apply app_nil_r.
Qed.

Lemma same_chains_merge_rel g a t b :
  chain_type t = false -> same_chains g (merge_rel g a t b).
Proof.
  intros Ht. unfold merge_rel. destruct (has_rel g a t b).
  - apply same_chains_refl.
  - now apply same_chains_create_rel.
Qed.

Lemma same_chains_merge_date g org_id user_id day :
  same_chains g (fst (merge_date g org_id user_id day)).
Proof.
  unfold merge_date. destruct (match_date g org_id user_id day).
  - apply (same_chains_create_node g (Date org_id user_id day)). reflexivity.
  - apply same_chains_refl.
Qed.

Lemma find_map_id (upd : node -> node) x : forall l,
  (forall n, n_id (upd n) = n_id n) ->
  find (fun n => Nat.eqb (n_id n) x) (map upd l)
  = option_map upd (find (fun n => Nat.eqb (n_id n) x) l).
Proof.
  intros l H. induction l as [|n l IH]; [reflexivity|]. simpl.
  rewrite H. destruct (Nat.eqb (n_id n) x); [reflexivity | exact IH].
Qed.

(** The SET of [touch_interaction] changes the agent and the update time of
    an interaction, nothing a chain is read through. *)
Lemma same_chains_set_node g x agent_id updated_date :
  same_chains g
    (set_node g x (fun d => match d with
                            | Interaction o u _ iid c _ =>
                                Interaction o u agent_id iid c updated_date
                            | other => other
                            end)).
Proof.
  unfold set_node. repeat split.
  - intros. unfold match_interaction. cbn [nodes].
    induction (nodes g) as [|n l IH]; [reflexivity|]. cbn [map filter].
    destruct (Nat.eqb (n_id n) x); cbn [n_data].
    + destruct (n_data n); cbn [filter map]; try exact IH.
      destruct (_ && _); cbn [map n_id]; now rewrite IH.
    + destruct (match n_data n with Interaction _ _ _ _ _ _ => _ | _ => false end);
        cbn [map]; now rewrite IH.
  - intros y. unfold block_of, node_of. cbn [nodes].
    rewrite find_map_id by (intros n; destruct (Nat.eqb (n_id n) x); reflexivity).
    destruct (find _ (nodes g)) as [n|]; [|reflexivity]. cbn [option_map].
    destruct (Nat.eqb (n_id n) x); [|reflexivity]. cbn [n_data].
    destruct (n_data n); reflexivity.
Qed.

Lemma fold_left_inv {S X} (P : S -> Prop) (f : S -> X -> S) (l : list X) :
  (forall s x, P s -> P (f s x)) -> forall s, P s -> P (fold_left f l s).
Proof.
  intros H. induction l as [|x l IH]; intros s Hs; [assumption|].
  simpl. apply IH, H, Hs.
Qed.

Lemma each_row_inv {R S} (P : graph -> Prop) (f : graph -> R -> graph * list S) :
  (forall g r, P g -> P (fst (f g r))) ->
  forall rows g, P g -> P (fst (each_row f g rows)).
Proof.
  intros Hf. induction rows as [|r rows IH]; intros g Hg; [assumption|].
  cbn [each_row]. specialize (Hf g r Hg).
  destruct (f g r) as [g1 ss]. cbn [fst] in Hf. specialize (IH g1 Hf).
  destruct (each_row f g1 rows) as [g2 ss']. exact IH.
Qed.

Lemma same_chains_touch g org_id user_id agent_id interaction_id updated_date :
  same_chains g
    (touch_interaction g org_id user_id agent_id interaction_id updated_date).
Proof.
  unfold touch_interaction.
  set (rows := match_interaction g org_id user_id interaction_id).
  match goal with |- context [each_row ?f g rows] =>
    pose proof (each_row_inv (same_chains g) f) as H1 end.
  specialize (H1 (fun s x Hs => same_chains_trans _ _ _ Hs
                                  (same_chains_set_node s x agent_id updated_date))
                 rows g (same_chains_refl g)).
  destruct (each_row _ g rows) as [g1 rows1]. cbn [fst] in H1.
  match goal with |- context [each_row ?f g1 rows1] =>
    pose proof (each_row_inv (same_chains g) f) as H2 end.
  assert (H2' : same_chains g (fst (each_row
            (fun g0 i => let '(g2, ds) := merge_date g0 org_id user_id
                                            (dt_day updated_date) in
                         (g2, map (fun d => (i, d)) ds)) g1 rows1))).
  { apply H2; [|exact H1]. intros s x Hs.
    pose proof (same_chains_merge_date s org_id user_id (dt_day updated_date)) as Hm.
    destruct (merge_date s org_id user_id (dt_day updated_date)) as [s' ds].
    cbn [fst] in *. eapply same_chains_trans; eauto. }
  clear H2. destruct (each_row _ g1 rows1) as [g2 rows2]. cbn [fst] in H2'.
  apply (fold_left_inv (same_chains g)); [|exact H2'].
  intros s [x d] Hs. eapply same_chains_trans; [exact Hs|].
  now apply same_chains_merge_rel.
Qed.

Lemma for_rows_inv {R S} (P : graph -> Prop)
    (f : graph -> R -> res (graph * S)) :
  (forall g r g' s, P g -> f g r = Ok (g', s) -> P g') ->
  forall rows g g' ss, P g -> for_rows f g rows = Ok (g', ss) -> P g'.
Proof.
  intros Hf. induction rows as [|r rows IH]; intros g g' ss Hg H.
  - simpl in H. inversion H; now subst.
  - cbn [for_rows] in H. unfold res_bind in H.
    destruct (f g r) as [[g1 s]|] eqn:E1; [|discriminate].
    destruct (for_rows f g1 rows) as [[g2 ss2]|] eqn:E2; [|discriminate].
    inversion H; subst. eapply IH; [|exact E2]. eapply Hf; eauto.
Qed.

Lemma same_chains_add_memories g g' org_id user_id agent_id interaction_id mi
    ids cids :
  _add_memories_with_their_source_links g org_id user_id agent_id
    interaction_id mi ids cids = Ok g' ->
  same_chains g g'.
Proof.
  unfold _add_memories_with_their_source_links.
  set (rows := flat_map _ (collect_by pair_eqb _)).
  match goal with |- context [each_row ?f g rows] =>
    pose proof (each_row_inv (same_chains g) f) as H1 end.
  assert (Hg1 : same_chains g (fst (each_row
            (fun g0 '(i, mc, messages, (mid, txt, all_pos)) =>
               let '(g1, mem) := create_node g0
                   (Memory org_id user_id agent_id interaction_id mid txt
                           (interaction_date mi)) in
               (g1, [(i, mc, messages, all_pos, mem)])) g rows))).
  { apply H1; [|apply same_chains_refl].
    intros s [[[i mc] messages] [[mid txt] all_pos]] Hs.
    eapply same_chains_trans; [exact Hs|].
    apply (same_chains_create_node s
             (Memory org_id user_id agent_id interaction_id mid txt
                     (interaction_date mi))). reflexivity. }
  clear H1. destruct (each_row _ g rows) as [g1 rows1]. cbn [fst] in Hg1.
  match goal with |- context [each_row ?f g1 rows1] =>
    pose proof (each_row_inv (same_chains g) f) as H2 end.
  assert (Hg2 : same_chains g (fst (each_row
            (fun g0 '(i, mc, messages, all_pos, mem) =>
               (create_rel g0 mem INTERACTION_SOURCE i,
                [(mc, messages, all_pos, mem)])) g1 rows1))).
  { apply H2; [|exact Hg1].
    intros s [[[[i mc] messages] all_pos] mem] Hs.
    eapply same_chains_trans; [exact Hs|]. now apply same_chains_create_rel. }
  clear H2. destruct (each_row _ g1 rows1) as [g2 rows2]. cbn [fst] in Hg2.
  match goal with |- context [each_row ?f g2 rows2] =>
    pose proof (each_row_inv (same_chains g) f) as H3 end.
  assert (Hg3 : same_chains g (fst (each_row
            (fun g0 '(mc, messages, all_pos, mem) =>
               (create_rel g0 mc INCLUDES mem, [(mem, all_pos, messages)]))
            g2 rows2))).
  { apply H3; [|exact Hg2].
    intros s [[[mc messages] all_pos] mem] Hs.
    eapply same_chains_trans; [exact Hs|]. now apply same_chains_create_rel. }
  clear H3. destruct (each_row _ g2 rows2) as [g3 rows3]. cbn [fst] in Hg3.
  set (rows4 := flat_map _ rows3). unfold res_bind.
  destruct (for_rows _ g3 rows4) as [[g4 u]|] eqn:E4; [|discriminate].
  intros H; inversion H; subst g'. clear H.
  apply (same_chains_trans g g3 g4); [exact Hg3|].
  refine (for_rows_inv (same_chains g3) _ _ _ _ _ _ (same_chains_refl g3) E4).
  intros s [message_node mem] s' out_ Hs Hstep.
  destruct message_node as [m|]; cbn in Hstep; [|discriminate].
  inversion Hstep; subst. eapply same_chains_trans; [exact Hs|].
  now apply same_chains_create_rel.
Qed.

Lemma same_chains_link g org_id user_id cids mi :
  same_chains g
    (_link_update_contrary_memories_to_existing_memories g org_id user_id cids mi).
Proof.
  unfold _link_update_contrary_memories_to_existing_memories, merge_contrary.
  apply (fold_left_inv (same_chains g)); [|apply same_chains_refl].
  intros s [n o] Hs. eapply same_chains_trans; [exact Hs|].
  now apply same_chains_merge_rel.
Qed.

(** *** Transaction functions *)

Lemma db_rel_ret {A} (R : graph -> graph -> Prop) (a : A) :
  (forall g, R g g) -> db_rel R (tx_ret a).
Proof. intros HR w w' b H. inversion H; subst. apply HR. Qed.

Lemma db_rel_bind {A B} (R : graph -> graph -> Prop) (m : tx A) (k : A -> tx B) :
  (forall g1 g2 g3, R g1 g2 -> R g2 g3 -> R g1 g3) ->
  db_rel R m -> (forall a, db_rel R (k a)) -> db_rel R (tx_bind m k).
Proof.
  intros Ht Hm Hk w w' b H. unfold tx_bind in H.
  destruct (m w) as [w1 [a|e]] eqn:E; [|discriminate].
  eapply Ht; [eapply Hm; eauto | eapply Hk; eauto].
Qed.

Lemma db_rel_run (R : graph -> graph -> Prop) (q : graph -> res graph) :
  (forall g g', q g = Ok g' -> R g g') -> db_rel R (tx_run q).
Proof.
  intros Hq w w' u H. unfold tx_run in H.
  destruct (q (db w)) as [g'|e] eqn:E; [|discriminate].
  inversion H; subst. cbn [db]. now apply Hq.
Qed.

Lemma db_rel_await (R : graph -> graph -> Prop) fn c :
  (forall g, R g g) -> db_rel R (await fn c).
Proof.
  intros HR w w' u H. unfold await in H. inversion H; subst. apply HR.
Qed.

Lemma db_rel_when (R : graph -> graph -> Prop) b m :
  (forall g, R g g) -> db_rel R m -> db_rel R (tx_when b m).
Proof.
  intros HR Hm. destruct b; [exact Hm | now apply db_rel_ret].
Qed.

Lemma tx_bind_ok {A B} (m : tx A) (k : A -> tx B) w w' b :
  tx_bind m k w = (w', Ok b) ->
  exists w1 a, m w = (w1, Ok a) /\ k a w1 = (w', Ok b).
Proof.
  unfold tx_bind. destruct (m w) as [w1 [a|e]]; intros H; [|discriminate].
  now exists w1, a.
Qed.

(** [execute_write] leaves the store of a transaction function that
    returns, and the store it started from when the function raises. *)
Lemma execute_write_ok {A} (work : tx A) w w' a :
  execute_write work w = (w', Ok a) -> work w = (w', Ok a).
Proof.
  unfold execute_write. destruct (work w) as [w1 [b|e]]; intros H;
    inversion H; subst; reflexivity.
Qed.

Lemma execute_write_raise {A} (work : tx A) w w' e :
  execute_write work w = (w', Raise e) -> db w' = db w.
Proof.
  unfold execute_write. destruct (work w) as [w1 [b|e']]; intros H;
    inversion H; subst; reflexivity.
Qed.

(** After its first statement [update_tx] no longer touches the message
    chains. *)
Lemma update_tx_chain org_id agent_id user_id interaction_id mi ids cids
    truncate_from fn w w' ret :
  update_tx org_id agent_id user_id interaction_id mi ids cids truncate_from fn w
  = (w', Ok ret) ->
  exists g1,
    update_chain org_id user_id interaction_id (interaction mi) truncate_from (db w)
    = Ok g1
    /\ same_chains g1 (db w').
Proof.
  unfold update_tx. intros H. unfold tx_bind at 1 in H.
  destruct (tx_run _ w) as [w1 [u|e]] eqn:E1; [|discriminate].
  unfold tx_run in E1.
  destruct (update_chain _ _ _ _ _ (db w)) as [g1|e] eqn:Ec; [|discriminate].
  inversion E1; subst. clear E1. exists g1. split; [reflexivity|].
  revert H. match goal with |- ?m _ = _ -> _ => set (rest := m) end.
  intros H. change g1 with (db {| db := g1; vector_calls := vector_calls w |}).
  revert H. generalize {| db := g1; vector_calls := vector_calls w |}.
  intros w1 H. revert w1 w' ret H.
  change (db_rel same_chains rest). unfold rest.
  pose proof same_chains_refl as Hr. pose proof same_chains_trans as Ht.
  repeat (apply db_rel_bind; [exact Ht | | intros _]);
    try (apply db_rel_when; [exact Hr|]);
    try (apply db_rel_await; exact Hr);
    try (apply db_rel_ret; exact Hr);
    apply db_rel_run; intros g g' Hq.
  - eapply same_chains_add_memories; eauto.
  - inversion Hq; subst. apply same_chains_link.
  - inversion Hq; subst. apply same_chains_touch.
Qed.

(** ** Truncate, then append *)

Lemma firstn_blocks_from : forall msgs k p,
  firstn k (blocks_from p msgs) = blocks_from p (firstn k msgs).
Proof.
  induction msgs as [|m msgs IH]; intros [|k] p; try reflexivity.
  cbn [blocks_from firstn]. now rewrite IH.
Qed.

Lemma last_blocks_from : forall msgs p d,
  msgs <> [] ->
  msg_position (last (blocks_from p msgs) d) = p + Z.of_nat (List.length msgs) - 1.
Proof.
  induction msgs as [|m msgs IH]; intros p d Hne; [congruence|].
  cbn [blocks_from]. rewrite last_cons.
  destruct msgs as [|m' msgs].
  - cbn. lia.
  - rewrite IH by congruence. cbn [List.length]. lia.
Qed.

Lemma map_last {A B} (f : A -> B) : forall (l : list A) d,
  l <> [] -> last (map f l) (f d) = f (last l d).
Proof.
  induction l as [|a l IH]; intros d Hne; [congruence|].
  cbn [map]. rewrite !last_cons. destruct l as [|a' l]; [reflexivity|].
  apply IH. congruence.
Qed.

(** The tail of a chain that holds [msgs] from position [q] on sits at the
    last position. *)
Lemma chain_tail_position g i bs q msgs :
  chain g i bs (blocks_from q msgs) -> bs <> [] ->
  position_of g (last bs i) = Some (q + Z.of_nat (List.length msgs) - 1).
Proof.
  intros Hc Hne. pose proof (chain_length _ _ _ _ Hc) as Hlen.
  destruct Hc as [_ _ Hh].
  assert (Hm : msgs <> []).
  { intros ->. destruct bs; [congruence | discriminate]. }
  assert (Hb : blocks_from q msgs <> []) by (destruct msgs; [congruence | discriminate]).
  pose (d := {| msg_position := 0; b_role := None; b_content := None |}).
  apply (f_equal (fun l => last l (node_of g i))) in Hh.
  rewrite (map_last (node_of g) bs i Hne) in Hh.
  assert (E : last (map (fun b => Some (node_of_block b)) (blocks_from q msgs))
                   (node_of g i)
              = Some (node_of_block (last (blocks_from q msgs) d))).
  { rewrite <- (map_last (fun b => Some (node_of_block b)) _ d Hb).
    destruct (blocks_from q msgs) as [|b0 l]; [congruence|].
    cbn [map]. now rewrite !last_cons. }
  rewrite E in Hh. unfold position_of. rewrite Hh. cbn [node_of_block].
  now rewrite (last_blocks_from msgs q d Hm).
Qed.

Lemma node_of_appended_none g messages tl_ idxs x :
  (forall n, In n (nodes g) -> (n_id n < next_id g)%nat) ->
  node_of g x = None -> (x < next_id g)%nat ->
  node_of (appended g messages tl_ idxs) x = None.
Proof.
  intros Hwf Hx Hlt. unfold node_of, appended in *. cbn [nodes].
  destruct (find _ (nodes g)) as [n|] eqn:E; [discriminate|].
  rewrite find_app_none by (intros a Ha; exact (find_none _ _ E a Ha)).
  destruct (find _ (block_nodes _ _ _)) as [n|] eqn:E'; [|reflexivity].
  apply find_some in E' as [Hn E']. apply Nat.eqb_eq in E'.
  apply block_nodes_ids in Hn as [Hn _]. lia.
Qed.

Section TruncateAndReplace.

Variables (g : graph) (org_id user_id interaction_id : string).
Variables (i : nat) (bs : list nat) (existing incoming : list message) (k : nat).
Hypothesis Hwf : wf_graph g.
Hypothesis Hmatch : match_interaction g org_id user_id interaction_id = [i].
Hypothesis Hchain : chain g i bs (stored existing).
Hypothesis Hk : (0 < k < List.length existing)%nat.
Hypothesis Hlen : (k <= List.length incoming)%nat.
Hypothesis Hpre : firstn k incoming = firstn k existing.

Let g1 := detach_delete g (skipn k bs).
Let idxs := RANGE (Z.of_nat k) (SIZE incoming - 1).
Let g2 := appended g1 incoming (last (firstn k bs) i) idxs.
Let fresh := seq (next_id g) (List.length idxs).

Lemma cut_in_chain : (1 <= k <= List.length bs)%nat.
Proof.
  pose proof (chain_length _ _ _ _ Hchain) as E.
  unfold stored in E. rewrite blocks_from_length in E. lia.
Qed.

Lemma kept_nonempty : firstn k bs <> [].
Proof.
  pose proof cut_in_chain. intros E. apply (f_equal (@List.length _)) in E.
  rewrite length_firstn in E. simpl in E. lia.
Qed.

Lemma kept_chain : chain g1 i (firstn k bs) (blocks_from 0 (firstn k existing)).
Proof.
  rewrite <- firstn_blocks_from. apply truncated_chain; auto.
Qed.

(** The first statement of [update_tx] at [truncate_from = k]. *)
Lemma update_chain_truncates :
  update_chain org_id user_id interaction_id incoming (Z.of_nat k) g = Ok g2.
Proof.
  unfold update_chain.
  destruct (Z.of_nat k =? -1) eqn:E1; [lia|].
  destruct (Z.of_nat k =? 0) eqn:E2; [lia|].
  destruct (Z.of_nat k >? 0) eqn:E3; [|lia].
  rewrite (truncate_computes g org_id user_id interaction_id i bs
             (stored existing) k Hwf Hmatch Hchain cut_in_chain).
  fold g1.
  rewrite (append_computes g1 org_id user_id interaction_id i (firstn k bs)
             (blocks_from 0 (firstn k existing)) (Z.of_nat k - 1) incoming).
  - unfold g2, idxs. now replace (Z.of_nat k - 1 + 1) with (Z.of_nat k) by lia.
  - apply (wf_rel_ids _ (wf_detach_delete g (skipn k bs) Hwf)).
  - apply truncated_match with (blocks := stored existing); auto.
  - apply kept_chain.
  - apply kept_nonempty.
  - rewrite (chain_tail_position g1 i (firstn k bs) 0 (firstn k existing)
               kept_chain kept_nonempty).
    rewrite length_firstn. f_equal. lia.
Qed.

(** Afterwards the chain is the kept blocks followed by new ones and holds
    the incoming transcript. *)
Lemma replaced_chain : chain g2 i (firstn k bs ++ fresh) (stored incoming).
Proof.
  pose proof (appended_chain g1 incoming i (firstn k bs)
                (blocks_from 0 (firstn k existing)) idxs
                (wf_detach_delete g (skipn k bs) Hwf) kept_chain kept_nonempty) as H.
  unfold g2, fresh. cbn [g1 detach_delete next_id] in H.
  replace (stored incoming)
    with (blocks_from 0 (firstn k existing) ++ map (block_at incoming) idxs);
    [exact H|].
  unfold idxs. rewrite block_at_range, <- Hpre. unfold stored.
  pose proof (blocks_from_app (firstn k incoming) (skipn k incoming) 0) as E.
  rewrite firstn_skipn, length_firstn in E. rewrite E.
  do 2 f_equal. lia.
Qed.

Lemma replaced_wf : wf_graph g2.
Proof.
  apply (wf_appended g1 incoming i (firstn k bs) (blocks_from 0 (firstn k existing))).
  - apply wf_detach_delete, Hwf.
  - apply kept_chain.
  - apply kept_nonempty.
Qed.

Lemma replaced_match : match_interaction g2 org_id user_id interaction_id = [i].
Proof.
  unfold g2. rewrite match_interaction_appended.
  apply truncated_match with (blocks := stored existing); auto.
Qed.

Lemma replaced_reads :
  get_interaction_messages g2 org_id user_id interaction_id = stored incoming.
Proof.
  apply (get_interaction_messages_chain g2 _ _ _ i (firstn k bs ++ fresh)).
  - apply (wf_rel_ids _ replaced_wf).
  - apply replaced_match.
  - apply replaced_chain.
Qed.

Lemma fresh_new x : In x fresh -> node_of g x = None.
Proof.
  intros Hx. apply in_seq in Hx. unfold node_of.
  destruct (find _ (nodes g)) as [n|] eqn:E; [|reflexivity].
  apply find_some in E as [Hn E]. apply Nat.eqb_eq in E.
  pose proof (wf_nodes g Hwf n Hn). lia.
Qed.

Lemma kept_untouched x : In x (firstn k bs) -> node_of g2 x = node_of g x.
Proof.
  intros Hx.
  assert (H1 : node_of g1 x = node_of g x).
  { apply node_of_detach_alive.
    apply (kept_not_dead g i bs (stored existing) k Hchain). now right. }
  destruct (node_of g x) as [d|] eqn:E.
  - now apply node_of_app_old.
  - exfalso. destruct Hchain as [_ _ Hh].
    assert (Hin : In x bs).
    { rewrite <- (firstn_skipn k bs). apply in_or_app. now left. }
    apply (in_map (node_of g)) in Hin. rewrite Hh, E in Hin.
    apply in_map_iff in Hin as (blk & Hb & _). discriminate.
Qed.

Lemma dropped_gone x : In x (skipn k bs) -> node_of g2 x = None.
Proof.
  intros Hx. apply node_of_appended_none.
  - apply (wf_nodes _ (wf_detach_delete g (skipn k bs) Hwf)).
  - now apply node_of_detach_dead.
  - cbn [g1 detach_delete next_id].
    apply (chain_nodes_old g i bs (stored existing) Hwf Hchain).
    + intros E. pose proof cut_in_chain as Hc. rewrite E in Hc. simpl in Hc. lia.
    + right. rewrite <- (firstn_skipn k bs). apply in_or_app. now right.
Qed.

End TruncateAndReplace.

(** ** Append only *)

Section AppendSuffix.

Variables (g : graph) (org_id user_id interaction_id : string).
Variables (i : nat) (bs : list nat) (existing incoming : list message).
Hypothesis Hwf : wf_graph g.
Hypothesis Hmatch : match_interaction g org_id user_id interaction_id = [i].
Hypothesis Hchain : chain g i bs (stored existing).
Hypothesis Hne : existing <> [].

Let n := List.length existing.
Let idxs := RANGE (Z.of_nat n) (SIZE incoming - 1).
Let g' := appended g incoming (last bs i) idxs.
Let fresh := seq (next_id g) (List.length idxs).

Lemma chain_nonempty : bs <> [].
Proof.
  pose proof (chain_length _ _ _ _ Hchain) as E.
  unfold stored in E. rewrite blocks_from_length in E.
  intros ->. destruct existing; [congruence | discriminate].
Qed.

(** The first statement of [update_tx] at [truncate_from = -1]: blocks for
    the positions from [len(existing)] on are hung under the tail. *)
Lemma update_chain_appends :
  update_chain org_id user_id interaction_id incoming (-1) g = Ok g'.
Proof.
  unfold update_chain. cbn [Z.eqb].
  rewrite (append_computes g org_id user_id interaction_id i bs
             (stored existing) (Z.of_nat n - 1) incoming
             (wf_rel_ids g Hwf) Hmatch Hchain chain_nonempty).
  - unfold g', idxs. now replace (Z.of_nat n - 1 + 1) with (Z.of_nat n) by lia.
  - rewrite (chain_tail_position g i bs 0 existing Hchain chain_nonempty).
    f_equal.
Qed.

Hypothesis Hpre : firstn n incoming = existing.

Lemma appended_holds_incoming : chain g' i (bs ++ fresh) (stored incoming).
Proof.
  pose proof (appended_chain g incoming i bs (stored existing) idxs
                Hwf Hchain chain_nonempty) as H.
  replace (stored incoming)
    with (stored existing ++ map (block_at incoming) idxs); [exact H|].
  unfold idxs. rewrite block_at_range. unfold stored.
  pose proof (blocks_from_app (firstn n incoming) (skipn n incoming) 0) as E.
  rewrite firstn_skipn, Hpre in E. rewrite E. reflexivity.
Qed.

Lemma appended_reads :
  get_interaction_messages g' org_id user_id interaction_id = stored incoming.
Proof.
  apply (get_interaction_messages_chain g' _ _ _ i (bs ++ fresh)).
  - apply (wf_rel_ids _ (wf_appended g incoming i bs (stored existing) idxs
                           Hwf Hchain chain_nonempty)).
  - unfold g'. rewrite match_interaction_appended. exact Hmatch.
  - apply appended_holds_incoming.
Qed.

Lemma appended_untouched x : In x bs -> node_of g' x = node_of g x.
Proof.
  intros Hx. destruct (node_of g x) as [d|] eqn:E.
  - now apply node_of_app_old.
  - exfalso. destruct Hchain as [_ _ Hh].
    apply (in_map (node_of g)) in Hx. rewrite Hh, E in Hx.
    apply in_map_iff in Hx as (blk & Hb & _). discriminate.
Qed.

End AppendSuffix.

(** ** [_add_messages_to_interaction_from_top] on an interaction without
       messages *)

Lemma node_of_block_nodes_cons messages rs k' idxs k pre x :
  (forall n, In n pre -> (n_id n < k)%nat) -> (n_id x < k)%nat ->
  map (node_of {| nodes := pre ++ x :: block_nodes k messages idxs;
                  rels := rs; next_id := k' |})
      (seq k (List.length idxs))
  = map (fun idx => Some (node_of_block (block_at messages idx))) idxs.
Proof.
  intros Hpre Hx.
  replace (pre ++ x :: block_nodes k messages idxs)
    with ((pre ++ [x]) ++ block_nodes k messages idxs)
    by (now rewrite <- app_assoc).
  apply node_of_block_nodes.
  intros n Hn. apply in_app_or in Hn as [Hn|[<-|[]]]; auto.
Qed.

Section FromTop.

Variables (g : graph) (org_id user_id interaction_id : string).
Variables (i : nat) (messages : list message).
Hypothesis Hmatch : match_interaction g org_id user_id interaction_id = [i].

(** The query creates the first block whatever [messages] holds, then one
    block per further message. *)
Lemma from_top_computes :
  _add_messages_to_interaction_from_top g org_id user_id interaction_id messages
  = Ok (built_from_top g messages i).
Proof.
  unfold _add_messages_to_interaction_from_top. rewrite Hmatch.
  cbn [each_row create_node app flat_map]. unfold create_rel.
  cbn [nodes rels next_id]. rewrite app_nil_r.
  set (idxs := RANGE 1 (SIZE messages - 1)).
  rewrite create_blocks_spec. cbn [nodes rels next_id].
  unfold built_from_top. fold idxs.
  replace (S (S (next_id g))) with (next_id g + 2)%nat by lia.
  replace (S (next_id g)) with (next_id g + 1)%nat by lia.
  destruct idxs as [|idx rest].
  - cbn [List.length seq map]. unfold collect_by. cbn [map distinct].
    rewrite link_consecutive_none.
    cbn [block_nodes consecutive tl combine next_rels].
    now rewrite !app_nil_r, !Nat.add_0_r.
  - rewrite collect_by_one by (cbn; congruence).
    cbn [map app]. rewrite link_consecutive_one.
    cbn [nodes rels next_id]. rewrite length_consecutive, length_seq.
    rewrite <- !app_assoc. reflexivity.
Qed.

Hypothesis Hwf : wf_graph g.
Hypothesis Hi : (i < next_id g)%nat.
Hypothesis Hfree : out (chain_rels g) i = [].

Let n0 := next_id g.
Let idxs := RANGE 1 (SIZE messages - 1).
Let ids := seq (n0 + 2) (List.length idxs).
Let e0 := {| r_id := n0 + 1; r_src := i; r_ty := FIRST_MESSAGE; r_dst := n0 |}.
Let new := next_rels (n0 + 2 + List.length idxs) (consecutive (n0 :: ids)).

Lemma chain_rels_built :
  chain_rels (built_from_top g messages i) = (chain_rels g ++ [e0]) ++ new.
Proof.
  unfold chain_rels, built_from_top. cbn [rels].
  rewrite filter_app. cbn [filter]. unfold has_type at 2. cbn [r_ty existsb reltype_eqb orb].
  rewrite <- app_assoc. cbn [app]. do 2 f_equal.
  apply filter_all. intros e He. apply next_rels_src in He as [_ E].
  unfold has_type. now rewrite E.
Qed.

Lemma built_nodup : NoDup (i :: n0 :: ids).
Proof.
  constructor; [|constructor; [|apply seq_NoDup]].
  - intros [E|Hin]; [unfold n0 in E; lia|].
    apply in_seq in Hin. unfold n0 in Hin. lia.
  - intros Hin. apply in_seq in Hin. lia.
Qed.

Lemma built_linked :
  linked (chain_rels (built_from_top g messages i)) FIRST_MESSAGE i (n0 :: ids).
Proof.
  rewrite chain_rels_built. cbn [linked]. split.
  - exists (n0 + 1)%nat. rewrite !out_app, Hfree.
    unfold out at 1. cbn [filter r_src]. rewrite Nat.eqb_refl. cbn [app]. f_equal.
    apply out_none. intros e He E. apply next_rels_src in He as [He _].
    pose proof built_nodup as Hnd. apply NoDup_cons_iff in Hnd as [Hnot _].
    apply Hnot. now rewrite <- E.
  - apply linked_app_new.
    + apply linked_next_rels. pose proof built_nodup as Hnd.
      now apply NoDup_cons_iff in Hnd as [_ Hnd].
    + intros z Hz. apply out_none. intros e He E.
      assert (Hlt : (r_src e < n0)%nat).
      { apply in_app_or in He as [He|[<-|[]]]; [|exact Hi].
        apply filter_In in He as [He _]. apply (wf_rels g Hwf e He). }
      destruct Hz as [Hz|Hz]; [lia|]. apply in_seq in Hz. lia.
Qed.

Lemma built_match :
  match_interaction (built_from_top g messages i) org_id user_id interaction_id
  = [i].
Proof.
  unfold match_interaction, built_from_top. cbn [nodes].
  rewrite filter_app, map_app. fold (match_interaction g org_id user_id interaction_id).
  rewrite Hmatch. cbn [filter n_data].
  rewrite (filter_none _ (block_nodes _ _ _)); [reflexivity|].
  intros n Hn. apply block_nodes_ids in Hn as [_ [idx ->]]. reflexivity.
Qed.

Lemma built_wf : wf_graph (built_from_top g messages i).
Proof.
  split; unfold built_from_top; cbn [nodes rels next_id]; fold n0 idxs ids.
  - rewrite map_app. cbn [map r_id]. rewrite map_id_next_rels. apply NoDup_app.
    + apply (wf_rel_ids g Hwf).
    + constructor; [|apply seq_NoDup]. intros Hin. apply in_seq in Hin. lia.
    + intros k Hk Hin. apply in_map_iff in Hk as (e & <- & He).
      pose proof (wf_rels g Hwf e He) as Hb. fold n0 in Hb.
      destruct Hin as [E|Hin]; [lia|]. apply in_seq in Hin. lia.
  - intros e He. apply in_app_or in He as [He|[<-|He]].
    + pose proof (wf_rels g Hwf e He) as Hb. fold n0 in Hb. lia.
    + cbn. lia.
    + assert (Hid : In (r_id e) (map r_id (next_rels (n0 + 2 + List.length idxs)
                                            (consecutive (n0 :: ids)))))
        by now apply in_map.
      rewrite map_id_next_rels, length_consecutive in Hid.
      apply in_seq in Hid. unfold ids in Hid. rewrite length_seq in Hid.
      pose proof (next_rels_src _ _ _ He) as [Hs _].
      pose proof (next_rels_dst _ _ _ He) as Hd.
      assert (Hb : forall x, In x (n0 :: ids) ->
                     (x < n0 + 2 + List.length idxs)%nat).
      { intros x [<-|Hx]; [lia|]. apply in_seq in Hx. lia. }
      pose proof (Hb _ Hs). pose proof (Hb _ Hd). lia.
  - intros n Hn. apply in_app_or in Hn as [Hn|[<-|Hn]].
    + pose proof (wf_nodes g Hwf n Hn) as Hb. fold n0 in Hb. lia.
    + cbn. lia.
    + apply block_nodes_ids in Hn as [Hn _]. lia.
Qed.

Hypothesis Hne : messages <> [].

(** For a transcript with at least one message the interaction now owns a
    chain that holds it. *)
Lemma built_chain :
  chain (built_from_top g messages i) i (n0 :: ids) (stored messages).
Proof.
  split; [apply built_linked | apply built_nodup |].
  destruct messages as [|m0 rest] eqn:Em; [congruence|].
  unfold stored. cbn [map blocks_from]. f_equal.
  - unfold node_of, built_from_top. cbn [nodes]. rewrite find_app_none.
    + cbn [find n_id]. rewrite Nat.eqb_refl. reflexivity.
    + intros n Hn. apply Nat.eqb_neq. pose proof (wf_nodes g Hwf n Hn). lia.
  - pose proof (block_at_range (m0 :: rest) 1) as Hb.
    cbn [skipn] in Hb. change (Z.of_nat 1) with 1 in Hb.
    change (0 + 1) with 1. rewrite <- Hb, map_map.
    unfold built_from_top. apply node_of_block_nodes_cons.
    + intros n Hn. pose proof (wf_nodes g Hwf n Hn) as Hlt. lia.
    + cbn. lia.
Qed.

Lemma built_reads :
  get_interaction_messages (built_from_top g messages i)
    org_id user_id interaction_id = stored messages.
Proof.
  apply (get_interaction_messages_chain _ _ _ _ i (n0 :: ids)).
  - apply (wf_rel_ids _ built_wf).
  - apply built_match.
  - apply built_chain.
Qed.

End FromTop.

(** ** Well-formedness is kept by the writing primitives *)

Lemma wf_empty_graph : wf_graph empty_graph.
Proof. split; cbn; [constructor | contradiction | contradiction]. Qed.

Lemma wf_create_node g d : wf_graph g -> wf_graph (fst (create_node g d)).
Proof.
  intros [H1 H2 H3]. split; cbn [create_node fst nodes rels next_id].
  - assumption.
  - intros e He. specialize (H2 e He). lia.
  - intros n Hn. apply in_app_or in Hn as [Hn|[<-|[]]].
    + specialize (H3 n Hn). lia.
    + cbn. lia.
Qed.

Lemma wf_create_rel g a t b :
  wf_graph g -> (a < next_id g)%nat -> (b < next_id g)%nat ->
  wf_graph (create_rel g a t b).
Proof.
  intros [H1 H2 H3] Ha Hb. split; cbn [create_rel nodes rels next_id].
  - rewrite map_app. cbn [map r_id]. apply NoDup_app; auto.
    + constructor; [intros [] | constructor].
    + intros k Hk [<-|[]]. apply in_map_iff in Hk as (e & E & He).
      specialize (H2 e He). lia.
  - intros e He. apply in_app_or in He as [He|[<-|[]]].
    + specialize (H2 e He). lia.
    + cbn. lia.
  - intros n Hn. specialize (H3 n Hn). lia.
Qed.

Lemma wf_merge_rel g a t b :
  wf_graph g -> (a < next_id g)%nat -> (b < next_id g)%nat ->
  wf_graph (merge_rel g a t b).
Proof.
  intros H Ha Hb. unfold merge_rel. destruct (has_rel g a t b); [assumption|].
  now apply wf_create_rel.
Qed.

Lemma wf_set_node g x f : wf_graph g -> wf_graph (set_node g x f).
Proof.
  intros [H1 H2 H3]. split; cbn [set_node nodes rels next_id]; auto.
  intros n Hn. apply in_map_iff in Hn as (n' & <- & Hn').
  specialize (H3 n' Hn'). destruct (Nat.eqb (n_id n') x); exact H3.
Qed.

Lemma match_date_old g org_id user_id day d :
  wf_graph g -> In d (match_date g org_id user_id day) -> (d < next_id g)%nat.
Proof.
  intros Hwf Hd. unfold match_date in Hd.
  apply in_map_iff in Hd as (n & <- & Hn). apply filter_In in Hn as [Hn _].
  now apply (wf_nodes g Hwf).
Qed.

Lemma wf_merge_date g org_id user_id day :
  wf_graph g ->
  wf_graph (fst (merge_date g org_id user_id day))
  /\ (next_id g <= next_id (fst (merge_date g org_id user_id day)))%nat
  /\ forall d, In d (snd (merge_date g org_id user_id day)) ->
               (d < next_id (fst (merge_date g org_id user_id day)))%nat.
Proof.
  intros Hwf. unfold merge_date.
  destruct (match_date g org_id user_id day) as [|d0 ds] eqn:E.
  - cbn [create_node fst snd next_id]. split; [|split].
    + apply (wf_create_node g (Date org_id user_id day) Hwf).
    + lia.
    + intros d [<-|[]]. lia.
  - cbn [fst snd]. split; [assumption | split; [lia|]].
    intros d Hd. rewrite <- E in Hd. now apply (match_date_old g org_id user_id day).
Qed.

Lemma fold_create_rel_wf t : forall rows g,
  wf_graph g ->
  (forall a b, In (a, b) rows -> (a < next_id g)%nat /\ (b < next_id g)%nat) ->
  wf_graph (fold_left (fun g '(a, b) => create_rel g a t b) rows g).
Proof.
  induction rows as [|[a b] rows IH]; intros g Hwf Hrows; [assumption|].
  cbn [fold_left]. destruct (Hrows a b (or_introl eq_refl)) as [Ha Hb].
  apply IH; [now apply wf_create_rel|].
  intros a' b' Hin. destruct (Hrows a' b' (or_intror Hin)). cbn [create_rel next_id]. lia.
Qed.

Lemma fold_create_rel_same t : forall (rows : list (nat * nat)) g,
  chain_type t = false ->
  same_chains g (fold_left (fun g '(a, b) => create_rel g a t b) rows g).
Proof.
  intros rows g Ht. apply (fold_left_inv (same_chains g)); [|apply same_chains_refl].
  intros s [a b] Hs. eapply same_chains_trans; [exact Hs|].
  now apply same_chains_create_rel.
Qed.

(** ** The first query of [save_tx] *)

Section CreateInteraction.

Variables (g : graph) (org_id user_id agent_id interaction_id : string).
Variables (date : datetime) (u ic : nat).
Hypothesis Hwf : wf_graph g.
Hypothesis Huser :
  flat_map (fun u => map (fun ic => (u, ic)) (targets g u INTERACTIONS_IN))
           (match_user g org_id user_id) = [(u, ic)].
Hypothesis Hfresh : match_interaction g org_id user_id interaction_id = [].

Let g' := create_interaction g org_id user_id agent_id interaction_id date.

Lemma collection_old : (ic < next_id g)%nat.
Proof.
  assert (Hin : In (u, ic) [(u, ic)]) by now left.
  rewrite <- Huser in Hin. apply in_flat_map in Hin as (u' & _ & Hin).
  apply in_map_iff in Hin as (ic' & E & Hin). inversion E; subst.
  unfold targets in Hin. apply in_map_iff in Hin as (e & <- & He).
  apply filter_In in He as [He _]. now apply (wf_rels g Hwf).
Qed.

(** The query leaves a well-formed graph in which the minted id names one
    interaction node, the new one, which has no message yet. *)
Lemma create_interaction_spec :
  wf_graph g'
  /\ match_interaction g' org_id user_id interaction_id = [next_id g]
  /\ out (chain_rels g') (next_id g) = []
  /\ (next_id g < next_id g')%nat.
Proof.
  unfold g', create_interaction. rewrite Huser.
  cbn [each_row create_node app].
  set (d := Interaction org_id user_id agent_id interaction_id date date).
  set (g1 := {| nodes := nodes g ++ [{| n_id := next_id g; n_data := d |}];
                rels := rels g; next_id := S (next_id g) |}).
  set (g2 := create_rel g1 ic HAD_INTERACTION (next_id g)).
  assert (Hwf1 : wf_graph g1) by apply (wf_create_node g d Hwf).
  assert (Hwf2 : wf_graph g2).
  { apply wf_create_rel; [assumption | | cbn; lia].
    pose proof collection_old. cbn. lia. }
  destruct (wf_merge_date g2 org_id user_id (dt_day date) Hwf2) as (Hwf3 & Hle & Hds).
  pose proof (same_chains_merge_date g2 org_id user_id (dt_day date)) as Hsame3.
  destruct (merge_date g2 org_id user_id (dt_day date)) as [g3 ds].
  cbn [fst snd] in *. rewrite app_nil_r.
  set (rows := map (fun d0 => (next_id g, d0)) ds).
  pose proof (fold_create_rel_same HAS_OCCURRENCE_ON rows g3 eq_refl) as Hsame.
  assert (Hwf' : wf_graph (fold_left
            (fun g0 '(a, b) => create_rel g0 a HAS_OCCURRENCE_ON b) rows g3)).
  { apply fold_create_rel_wf; [assumption|]. intros a b Hin.
    apply in_map_iff in Hin as (d0 & E & Hd0). inversion E; subst.
    split; [cbn in Hle; lia | now apply Hds]. }
  set (gf := fold_left _ rows g3) in *.
  assert (Hsame2 : same_chains g2 gf) by (eapply same_chains_trans; eauto).
  destruct Hsame2 as (Hm & Hr & _).
  split; [exact Hwf'|]. split; [|split].
  - rewrite Hm. unfold match_interaction. cbn [g2 create_rel g1 nodes].
    rewrite filter_app, map_app.
    fold (match_interaction g org_id user_id interaction_id). rewrite Hfresh.
    cbn [filter n_data d]. now rewrite !String.eqb_refl.
  - rewrite Hr. apply out_none. intros e He E.
    unfold chain_rels in He. apply filter_In in He as [He Ht].
    cbn [g2 create_rel g1 rels] in He. apply in_app_or in He as [He|[<-|[]]].
    + pose proof (wf_rels g Hwf e He). lia.
    + discriminate.
  - assert (Hmono : forall (rows0 : list (nat * nat)) s,
              (next_id s <= next_id (fold_left
                 (fun g0 '(a, b) => create_rel g0 a HAS_OCCURRENCE_ON b) rows0 s))%nat).
    { induction rows0 as [|[a b] rows0 IH]; intros s; [cbn; lia|].
      cbn [fold_left]. specialize (IH (create_rel s a HAS_OCCURRENCE_ON b)).
      cbn [create_rel next_id] in IH. lia. }
    specialize (Hmono rows g3). fold gf in Hmono. cbn in Hle. lia.
Qed.

End CreateInteraction.

(** After its first two statements [save_tx] no longer touches the message
    chains. *)
Lemma save_tx_chain org_id agent_id user_id interaction_id mi ids cids fn w w' ret :
  save_tx org_id agent_id user_id interaction_id mi ids cids fn w = (w', Ok ret) ->
  exists g2,
    _add_messages_to_interaction_from_top
      (create_interaction (db w) org_id user_id agent_id interaction_id
         (interaction_date mi))
      org_id user_id interaction_id (interaction mi) = Ok g2
    /\ same_chains g2 (db w').
Proof.
  unfold save_tx. intros H.
  apply tx_bind_ok in H as (w1 & u1 & E1 & H).
  unfold tx_run in E1. inversion E1; subst w1 u1. clear E1. cbn [db] in H.
  apply tx_bind_ok in H as (w2 & u2 & E2 & H).
  unfold tx_run in E2. cbn [db] in E2.
  destruct (_add_messages_to_interaction_from_top _ _ _ _ _) as [g2|e] eqn:Et;
    [|discriminate].
  inversion E2; subst w2 u2. clear E2. exists g2. split; [reflexivity|].
  revert H. match goal with |- ?m _ = _ -> _ => set (rest := m) end.
  intros H. change g2 with (db {| db := g2; vector_calls := vector_calls w |}).
  revert H. generalize {| db := g2; vector_calls := vector_calls w |}.
  intros w2 H. revert w2 w' ret H.
  change (db_rel same_chains rest). unfold rest.
  pose proof same_chains_refl as Hr. pose proof same_chains_trans as Ht.
  repeat (apply db_rel_bind; [exact Ht | | intros _]);
    try (apply db_rel_when; [exact Hr|]);
    try (apply db_rel_await; exact Hr);
    try (apply db_rel_ret; exact Hr);
    apply db_rel_run; intros g g' Hq.
  - eapply same_chains_add_memories; eauto.
  - inversion Hq; subst. apply same_chains_link.
Qed.

(** X1: Round trip through the methods: a saved transcript with at least one
    message reads back as saved.  The save returns when it brings no
    memory; whenever it returns, the interaction owns a chain that holds the
    transcript. *)
Theorem save_then_read
    (org_id agent_id user_id : string) (rnd : entropy)
    (mi : MemoriesAndInteraction) (fn : callback) (w : world) (u ic : nat) :
  wf_graph (db w) ->
  flat_map (fun u => map (fun ic => (u, ic)) (targets (db w) u INTERACTIONS_IN))
           (match_user (db w) org_id user_id) = [(u, ic)] ->
  match_interaction (db w) org_id user_id (shortuuid_uuid rnd) = [] ->
  interaction mi <> [] ->
  (memories mi = [] -> contrary_memories mi = [] ->
   exists w',
     save_interaction_with_memories org_id agent_id user_id rnd mi fn w
     = (w', Ok (shortuuid_uuid rnd, interaction_date mi)))
  /\ forall w' ret,
       save_interaction_with_memories org_id agent_id user_id rnd mi fn w
       = (w', Ok ret) ->
       get_interaction_messages (db w') org_id user_id (shortuuid_uuid rnd)
       = stored (interaction mi)
       /\ exists bs, chain (db w') (next_id (db w)) bs (stored (interaction mi)).
Proof.
  intros Hwf Huser Hfresh Hne.
  destruct (create_interaction_spec (db w) org_id user_id agent_id
              (shortuuid_uuid rnd) (interaction_date mi) u ic Hwf Huser Hfresh)
    as (Hwf1 & Hm1 & Hfree1 & Hlt1).
  set (g1 := create_interaction (db w) org_id user_id agent_id
               (shortuuid_uuid rnd) (interaction_date mi)) in *.
  pose proof (from_top_computes g1 org_id user_id (shortuuid_uuid rnd)
                (next_id (db w)) (interaction mi) Hm1) as Htop.
  split.
  - intros Hm Hc. unfold save_interaction_with_memories.
    rewrite Hm, Hc. cbn [List.length seq map].
    unfold save_tx, execute_write, tx_when, tx_bind, tx_ret. cbn [nonempty orb].
    unfold tx_run at 1. cbn [db vector_calls]. fold g1.
    unfold tx_run at 1. cbn [db vector_calls]. rewrite Htop.
    eexists. reflexivity.
  - intros w' ret H. unfold save_interaction_with_memories in H.
    apply execute_write_ok in H.
    apply save_tx_chain in H as (g2 & Hg2 & Hsame).
    fold g1 in Hg2. rewrite Htop in Hg2. inversion Hg2; subst g2. clear Hg2.
    split.
    + rewrite (same_chains_read _ _ _ _ _ Hsame).
      now apply built_reads.
    + eexists. apply (same_chains_chain _ _ _ _ _ Hsame).
      now apply built_chain.
Qed.

(** ** A mismatch at the first message *)

Lemma filter_and {A} (p q : A -> bool) (l : list A) :
  filter (fun a => p a && q a) l = filter q (filter p l).
Proof.
  induction l as [|a l IH]; [reflexivity|]. cbn [filter].
  destruct (p a); cbn [andb filter]; [destruct (q a)|]; now rewrite IH.
Qed.

Lemma first_targets g i :
  targets g i FIRST_MESSAGE
  = map r_dst (filter (fun e => reltype_eqb (r_ty e) FIRST_MESSAGE)
                      (out (chain_rels g) i)).
Proof.
  unfold targets, out, chain_rels. f_equal.
  rewrite filter_and.
  rewrite (filter_comm (fun e => Nat.eqb (r_src e) i)).
  symmetry. apply filter_filter_absorb.
  intros e _ He. unfold has_type. cbn [existsb].
  destruct (r_ty e); try discriminate; reflexivity.
Qed.

(** On any interaction that has a chain, [truncate_from = 0] builds a second
    chain from the top beside the stored one: the interaction then has two
    FIRST_MESSAGE relationships. *)
Lemma update_chain_at_0_forks (g : graph) (org_id user_id interaction_id : string)
    (i b0 : nat) (bs : list nat) (blocks : list block) (incoming : list message) :
  match_interaction g org_id user_id interaction_id = [i] ->
  chain g i (b0 :: bs) blocks ->
  update_chain org_id user_id interaction_id incoming 0 g
  = Ok (built_from_top g incoming i)
  /\ targets (built_from_top g incoming i) i FIRST_MESSAGE = [b0; next_id g].
Proof.
  intros Hmatch [Hl _ _]. split.
  - apply from_top_computes, Hmatch.
  - destruct Hl as [[k Hk] _].
    pose proof (first_targets g i) as Hold. rewrite Hk in Hold. cbn in Hold.
    unfold targets in *. unfold built_from_top. cbn [rels].
    rewrite filter_app, map_app, Hold. cbn [filter r_src r_ty].
    rewrite Nat.eqb_refl. cbn [reltype_eqb andb map r_dst app]. do 2 f_equal.
    replace (filter _ (next_rels _ _)) with (@nil rel); [reflexivity|].
    symmetry. apply filter_none. intros e He.
    apply next_rels_src in He as [_ E]. rewrite E. now rewrite andb_false_r.
Qed.

(** ** The merge directive *)

(** The scan, case by case.  For transcripts with
    [len(incoming) >= len(existing)] the scan of
    [update_interaction_and_memories] leaves in [truncate_from]: 0 (add
    from the top) when nothing is stored; -1 (append) when every stored
    position has the same role and the same content in the incoming
    transcript, and the append then creates blocks for exactly
    [incoming[len(existing):]] under the tail of the chain; otherwise the
    first index [k] at which role or content differ.  The comparison is
    string equality on both fields.  The last part records the branch
    [update_chain] takes on 0 and on a positive [k]: a first mismatch at
    index 0 takes the branch of the empty chain. *)
Theorem compute_truncate_from_directive (existing incoming : list message) :
  (List.length existing <= List.length incoming)%nat ->
  (existing = [] ->
     compute_truncate_from (stored existing) incoming = Ok 0)
  /\ (existing <> [] ->
      firstn (List.length existing) incoming = existing ->
      compute_truncate_from (stored existing) incoming = Ok (-1)
      /\ forall g org_id user_id interaction_id i bs,
           wf_graph g ->
           match_interaction g org_id user_id interaction_id = [i] ->
           chain g i bs (stored existing) ->
           let idxs := RANGE (Z.of_nat (List.length existing)) (SIZE incoming - 1) in
           update_chain org_id user_id interaction_id incoming (-1) g
           = Ok (appended g incoming (last bs i) idxs)
           /\ map (block_at incoming) idxs
              = blocks_from (Z.of_nat (List.length existing))
                            (skipn (List.length existing) incoming))
  /\ (forall k a b,
        nth_error existing k = Some a ->
        nth_error incoming k = Some b ->
        role a <> role b \/ content a <> content b ->
        firstn k incoming = firstn k existing ->
        compute_truncate_from (stored existing) incoming = Ok (Z.of_nat k))
  /\ (forall org_id user_id interaction_id g,
        update_chain org_id user_id interaction_id incoming 0 g
        = _add_messages_to_interaction_from_top g org_id user_id
            interaction_id incoming
        /\ forall k, 0 < k ->
             update_chain org_id user_id interaction_id incoming k g
             = _append_messages_to_interaction
                 (truncate_messages g org_id user_id interaction_id k)
                 org_id user_id interaction_id incoming).
Proof.
  intros _. split; [|split; [|split]].
  - intros ->. reflexivity.
  - intros Hne Hpre. split.
    + rewrite (compute_truncate_from_agree _ _ Hpre).
      now rewrite (stored_nonempty _ Hne).
    + intros g org_id user_id interaction_id i bs Hwf Hmatch Hchain idxs. split.
      * now apply (update_chain_appends g org_id user_id interaction_id i bs existing).
      * apply block_at_range.
  - intros k a b. apply compute_truncate_from_mismatch.
  - intros org_id user_id interaction_id g. split; [reflexivity|].
    intros k Hk. unfold update_chain.
    destruct (k =? -1) eqn:E1; [lia|].
    destruct (k =? 0) eqn:E2; [lia|].
    destruct (k >? 0) eqn:E3; [reflexivity|lia].
Qed.

(** X2: An update whose transcript continues the stored one appends: the stored
    blocks stay as they are and the chain then holds, and reads back as,
    the incoming transcript. *)
Theorem update_appends
    (org_id agent_id user_id interaction_id : string) (rnd : entropy)
    (mi : MemoriesAndInteraction) (fn : callback) (w : world)
    (i : nat) (bs : list nat) (existing : list message) :
  wf_graph (db w) ->
  match_interaction (db w) org_id user_id interaction_id = [i] ->
  chain (db w) i bs (stored existing) ->
  existing <> [] ->
  firstn (List.length existing) (interaction mi) = existing ->
  (memories mi = [] -> contrary_memories mi = [] ->
   exists w',
     update_interaction_and_memories org_id agent_id user_id rnd
       interaction_id mi fn w = (w', Ok (interaction_id, interaction_date mi)))
  /\ forall w' ret,
       update_interaction_and_memories org_id agent_id user_id rnd
         interaction_id mi fn w = (w', Ok ret) ->
       get_interaction_messages (db w') org_id user_id interaction_id
       = stored (interaction mi)
       /\ (exists fresh, chain (db w') i (bs ++ fresh) (stored (interaction mi)))
       /\ (forall x, In x bs -> block_of (db w') x = block_of (db w) x).
Proof.
  intros Hwf Hmatch Hchain Hne Hpre.
  pose proof (get_interaction_messages_chain (db w) org_id user_id interaction_id
                i bs (stored existing) (wf_rel_ids _ Hwf) Hmatch Hchain) as Hread.
  assert (Hscan : compute_truncate_from (stored existing) (interaction mi) = Ok (-1)).
  { rewrite (compute_truncate_from_agree _ _ Hpre).
    now rewrite (stored_nonempty _ Hne). }
  pose proof (update_chain_appends (db w) org_id user_id interaction_id i bs
                existing (interaction mi) Hwf Hmatch Hchain Hne) as Hstep.
  split.
  - intros Hm Hc. unfold update_interaction_and_memories.
    rewrite Hread, Hscan, Hm, Hc. cbn [List.length seq map nonempty orb].
    unfold update_tx, execute_write, tx_when, tx_bind, tx_ret.
    unfold tx_run at 1. rewrite Hstep. cbn [tx_run db vector_calls].
    eexists. reflexivity.
  - intros w' ret H. unfold update_interaction_and_memories in H.
    rewrite Hread, Hscan in H. apply execute_write_ok in H.
    apply update_tx_chain in H as (g2 & Hg2 & Hsame).
    rewrite Hstep in Hg2. inversion Hg2; subst g2. clear Hg2.
    split; [|split].
    + rewrite (same_chains_read _ _ _ _ _ Hsame).
      now apply (appended_reads (db w) org_id user_id interaction_id i bs existing).
    + eexists. apply (same_chains_chain _ _ _ _ _ Hsame).
      now apply (appended_holds_incoming (db w) i bs existing).
    + intros x Hx. destruct Hsame as (_ & _ & Hblocks). rewrite Hblocks.
      unfold block_of.
      now rewrite (appended_untouched (db w) i bs existing (interaction mi) Hchain x Hx).
Qed.

(** C6: When the first mismatch is at [k > 0] the method computes
    [truncate_from = k] and [update_tx] removes the stored blocks from
    position [k] on, leaves the blocks before [k] as they are and appends
    blocks for [incoming[k:]] after them: the chain then holds the incoming
    transcript and reads back as it.  The method returns whenever the
    transaction function does, and it does when the update brings no new
    memory. *)
Theorem update_truncate_and_replace
    (org_id agent_id user_id interaction_id : string) (rnd : entropy)
    (mi : MemoriesAndInteraction) (fn : callback) (w : world)
    (i : nat) (bs : list nat) (existing : list message) (k : nat)
    (a b : message) :
  wf_graph (db w) ->
  match_interaction (db w) org_id user_id interaction_id = [i] ->
  chain (db w) i bs (stored existing) ->
  (0 < k)%nat ->
  nth_error existing k = Some a ->
  nth_error (interaction mi) k = Some b ->
  role a <> role b \/ content a <> content b ->
  firstn k (interaction mi) = firstn k existing ->
  compute_truncate_from
    (get_interaction_messages (db w) org_id user_id interaction_id)
    (interaction mi) = Ok (Z.of_nat k)
  /\ (memories mi = [] -> contrary_memories mi = [] ->
      exists w',
        update_interaction_and_memories org_id agent_id user_id rnd
          interaction_id mi fn w = (w', Ok (interaction_id, interaction_date mi)))
  /\ forall w' ret,
       update_interaction_and_memories org_id agent_id user_id rnd
         interaction_id mi fn w = (w', Ok ret) ->
       get_interaction_messages (db w') org_id user_id interaction_id
       = stored (interaction mi)
       /\ (exists fresh,
             chain (db w') i (firstn k bs ++ fresh) (stored (interaction mi))
             /\ forall x, In x fresh -> node_of (db w) x = None)
       /\ (forall x, In x (firstn k bs) -> block_of (db w') x = block_of (db w) x)
       /\ (forall x, In x (skipn k bs) -> block_of (db w') x = []).
Proof.
  intros Hwf Hmatch Hchain Hk Ha Hb Hab Hpre.
  assert (Hke : (0 < k < List.length existing)%nat).
  { split; [assumption|]. apply nth_error_Some. congruence. }
  assert (Hki : (k <= List.length (interaction mi))%nat).
  { apply Nat.lt_le_incl, nth_error_Some. congruence. }
  pose proof (get_interaction_messages_chain (db w) org_id user_id interaction_id
                i bs (stored existing) (wf_rel_ids _ Hwf) Hmatch Hchain) as Hread.
  pose proof (compute_truncate_from_mismatch existing (interaction mi) k a b
                Ha Hb Hab Hpre) as Hscan.
  pose proof (update_chain_truncates (db w) org_id user_id interaction_id i bs
                existing (interaction mi) k Hwf Hmatch Hchain Hke Hki) as Hstep.
  rewrite Hread. split; [exact Hscan|]. split.
  - intros Hm Hc. unfold update_interaction_and_memories.
    rewrite Hread, Hscan, Hm, Hc. cbn [List.length seq map nonempty orb].
    unfold update_tx, execute_write, tx_when, tx_bind, tx_ret.
    unfold tx_run at 1. rewrite Hstep. cbn [tx_run db vector_calls].
    eexists. reflexivity.
  - intros w' ret H. unfold update_interaction_and_memories in H.
    rewrite Hread, Hscan in H. apply execute_write_ok in H.
    apply update_tx_chain in H as (g2 & Hg2 & Hsame).
    rewrite Hstep in Hg2. inversion Hg2; subst g2. clear Hg2.
    split; [|split; [|split]].
    + rewrite (same_chains_read _ _ _ _ _ Hsame).
      now apply (replaced_reads (db w) org_id user_id interaction_id i bs existing).
    + eexists. split.
      * apply (same_chains_chain _ _ _ _ _ Hsame).
        now apply (replaced_chain (db w) i bs existing).
      * intros x Hx. now apply (fresh_new (db w) existing (interaction mi) k).
    + intros x Hx. destruct Hsame as (_ & _ & Hblocks). rewrite Hblocks.
      unfold block_of.
      now rewrite (kept_untouched (db w) i bs existing (interaction mi) k Hchain x Hx).
    + intros x Hx. destruct Hsame as (_ & _ & Hblocks). rewrite Hblocks.
      unfold block_of.
      now rewrite (dropped_gone (db w) i bs existing (interaction mi) k Hwf Hchain
                     Hke Hki x Hx).
Qed.

(** The scan on a shorter transcript.  When the incoming transcript is
    strictly shorter than the stored one and agrees with it on every
    position it has, the scan does not complete: it indexes the incoming
    transcript at [len(incoming)] and raises IndexError.  The method raises
    before it opens the write transaction, so the store, with the excess
    tail, and the vector index stay as they were. *)
Theorem update_with_shorter_transcript_raises
    (org_id agent_id user_id interaction_id : string) (rnd : entropy)
    (mi : MemoriesAndInteraction) (fn : callback) (w : world)
    (existing : list message) :
  get_interaction_messages (db w) org_id user_id interaction_id = stored existing ->
  (List.length (interaction mi) < List.length existing)%nat ->
  interaction mi = firstn (List.length (interaction mi)) existing ->
  compute_truncate_from (stored existing) (interaction mi) = Raise IndexError
  /\ update_interaction_and_memories org_id agent_id user_id rnd
       interaction_id mi fn w = (w, Raise IndexError).
Proof.
  intros Hread Hlen Hpre.
  pose proof (compute_truncate_from_short _ _ Hlen Hpre) as H.
  split; [exact H|].
  unfold update_interaction_and_memories. now rewrite Hread, H.
Qed.

(** ** Linking contrary memories *)

Lemma has_rel_count g a t b :
  has_rel g a t b = negb (Nat.eqb (count_rel g a t b) 0).
Proof.
  unfold has_rel, count_rel. induction (rels g) as [|e l IH]; [reflexivity|].
  simpl. destruct (_ && _); simpl; [reflexivity | exact IH].
Qed.

Lemma nodes_merge_contrary rows : forall g, nodes (merge_contrary g rows) = nodes g.
Proof.
  unfold merge_contrary.
  induction rows as [|[n o] rows IH]; intros g; [reflexivity|].
  cbn [fold_left]. rewrite IH. unfold merge_rel.
  destruct (has_rel g o CONTRARY_UPDATE n); reflexivity.
Qed.

Lemma contrary_rows_nodes g g' org_id user_id pairs :
  nodes g' = nodes g ->
  contrary_rows g' org_id user_id pairs = contrary_rows g org_id user_id pairs.
Proof.
  intros H. unfold contrary_rows, match_memory. now rewrite H.
Qed.

Lemma count_rel_create g a t b a' t' b' :
  count_rel (create_rel g a t b) a' t' b'
  = (count_rel g a' t' b'
     + if Nat.eqb a a' && reltype_eqb t t' && Nat.eqb b b' then 1 else 0)%nat.
Proof.
  unfold count_rel, create_rel. cbn [rels].
  rewrite filter_app, length_app. f_equal. cbn [filter r_src r_ty r_dst].
  destruct (_ && _); reflexivity.
Qed.

Lemma reltype_eqb_eq t t' : reltype_eqb t t' = true <-> t = t'.
Proof. destruct t, t'; simpl; split; congruence. Qed.

(** A MERGE never removes a relationship, and adds one only between nodes
    that had none of the type. *)
Lemma count_rel_merge g a t b a' t' b' :
  count_rel (merge_rel g a t b) a' t' b' = count_rel g a' t' b'
  \/ (count_rel g a' t' b' = 0 /\ count_rel (merge_rel g a t b) a' t' b' = 1)%nat.
Proof.
  unfold merge_rel. rewrite has_rel_count.
  destruct (Nat.eqb (count_rel g a t b) 0) eqn:E; cbn [negb]; [|now left].
  apply Nat.eqb_eq in E. rewrite count_rel_create.
  destruct (Nat.eqb a a' && reltype_eqb t t' && Nat.eqb b b') eqn:T.
  - apply andb_true_iff in T as [T Tb]. apply andb_true_iff in T as [Ta Tt].
    apply Nat.eqb_eq in Ta, Tb. apply reltype_eqb_eq in Tt. subst.
    right. split; [assumption | lia].
  - left. lia.
Qed.

Lemma has_rel_merge_self g a t b : has_rel (merge_rel g a t b) a t b = true.
Proof.
  unfold merge_rel. destruct (has_rel g a t b) eqn:E; [assumption|].
  rewrite has_rel_count, count_rel_create.
  replace (reltype_eqb t t) with true by (now destruct t).
  rewrite !Nat.eqb_refl. cbn [andb].
  destruct (count_rel g a t b + 1)%nat eqn:N; [lia | reflexivity].
Qed.

Lemma has_rel_merge_mono g a t b a' t' b' :
  has_rel g a' t' b' = true -> has_rel (merge_rel g a t b) a' t' b' = true.
Proof.
  rewrite !has_rel_count.
  destruct (count_rel_merge g a t b a' t' b') as [->|[_ ->]]; auto.
Qed.

Lemma has_rel_merge_contrary_mono rows : forall g a t b,
  has_rel g a t b = true -> has_rel (merge_contrary g rows) a t b = true.
Proof.
  unfold merge_contrary.
  induction rows as [|[n o] rows IH]; intros g a t b H; [assumption|].
  cbn [fold_left]. apply IH. now apply has_rel_merge_mono.
Qed.

(** After the MERGE clause every row has its relationship. *)
Lemma merge_contrary_links rows : forall g n o,
  In (n, o) rows -> has_rel (merge_contrary g rows) o CONTRARY_UPDATE n = true.
Proof.
  induction rows as [|[n' o'] rows IH]; intros g n o Hin; [contradiction|].
  destruct Hin as [E|Hin].
  - inversion E; subst. unfold merge_contrary. cbn [fold_left].
    apply (has_rel_merge_contrary_mono rows). apply has_rel_merge_self.
  - unfold merge_contrary. cbn [fold_left]. now apply IH.
Qed.

(** On a graph in which every row is linked the clause changes nothing. *)
Lemma merge_contrary_fixpoint rows : forall g,
  (forall n o, In (n, o) rows -> has_rel g o CONTRARY_UPDATE n = true) ->
  merge_contrary g rows = g.
Proof.
  unfold merge_contrary.
  induction rows as [|[n o] rows IH]; intros g H; [reflexivity|].
  cbn [fold_left]. unfold merge_rel at 2.
  rewrite (H n o (or_introl eq_refl)). apply IH.
  intros n' o' Hin. apply H. now right.
Qed.

Lemma count_rel_merge_contrary_le rows : forall g a t b,
  (count_rel g a t b <= 1)%nat -> (count_rel (merge_contrary g rows) a t b <= 1)%nat.
Proof.
  unfold merge_contrary.
  induction rows as [|[n o] rows IH]; intros g a t b H; [assumption|].
  cbn [fold_left]. apply IH.
  destruct (count_rel_merge g o CONTRARY_UPDATE n a t b) as [->|[_ ->]]; lia.
Qed.

Section LinkContrary.

Variables (org_id user_id : string) (new_contrary_memory_ids : list string).
Variable mi : MemoriesAndInteraction.

Let link (g : graph) : graph :=
  _link_update_contrary_memories_to_existing_memories g org_id user_id
    new_contrary_memory_ids mi.

Lemma link_twice g : link (link g) = link g.
Proof.
  unfold link, _link_update_contrary_memories_to_existing_memories.
  set (pairs := contrary_and_existing_ids mi new_contrary_memory_ids).
  rewrite (contrary_rows_nodes g (merge_contrary g _) org_id user_id pairs)
    by apply nodes_merge_contrary.
  apply merge_contrary_fixpoint. intros n o. apply merge_contrary_links.
Qed.

Lemma link_iter g n : Nat.iter (S n) link g = link g.
Proof.
  induction n as [|n IH]; [reflexivity|].
  change (Nat.iter (S (S n)) link g) with (link (Nat.iter (S n) link g)).
  rewrite IH. apply link_twice.
Qed.

End LinkContrary.

(** C9: Linking contrary memories is idempotent: any number of runs of
    [_link_update_contrary_memories_to_existing_memories] with the same
    pairs leaves the graph of the first run, and a pair of memories the
    query matches, not linked more than once before, has exactly one
    CONTRARY_UPDATE relationship from the old memory to the new one
    afterwards. *)
Theorem link_contrary_idempotent
    (org_id user_id : string) (new_contrary_memory_ids : list string)
    (mi : MemoriesAndInteraction) (g : graph) (n : nat) :
  let link := fun g =>
    _link_update_contrary_memories_to_existing_memories g org_id user_id
      new_contrary_memory_ids mi in
  Nat.iter (S n) link g = link g
  /\ forall new_contrary_memory old_memory,
       In (new_contrary_memory, old_memory)
          (contrary_rows g org_id user_id
             (contrary_and_existing_ids mi new_contrary_memory_ids)) ->
       (count_rel g old_memory CONTRARY_UPDATE new_contrary_memory <= 1)%nat ->
       count_rel (Nat.iter (S n) link g)
                 old_memory CONTRARY_UPDATE new_contrary_memory = 1%nat.
Proof.
  intros link.
  pose proof (link_iter org_id user_id new_contrary_memory_ids mi g n) as Hiter.
  fold link in Hiter. split; [exact Hiter|].
  intros nw od Hin Hle. rewrite Hiter.
  unfold link, _link_update_contrary_memories_to_existing_memories.
  pose proof (merge_contrary_links _ g nw od Hin) as H1.
  pose proof (count_rel_merge_contrary_le
                (contrary_rows g org_id user_id
                   (contrary_and_existing_ids mi new_contrary_memory_ids))
                g od CONTRARY_UPDATE nw Hle) as H2.
  rewrite has_rel_count in H1.
  destruct (count_rel (merge_contrary _ _) od CONTRARY_UPDATE nw) as [|[|c]];
    [simpl in H1; discriminate | reflexivity | lia].
Qed.

(** ** Deleting an interaction *)

Lemma detach_delete_nil g : detach_delete g [] = g.
Proof.
  unfold detach_delete. apply graph_eq; cbn [mem_nat existsb negb andb];
    [apply filter_all | apply filter_all | ]; reflexivity.
Qed.

(** An empty read means the MATCH of the chain has no row. *)
Lemma no_messages_no_rows g org_id user_id interaction_id :
  get_interaction_messages g org_id user_id interaction_id = [] ->
  match_messages g org_id user_id interaction_id = [].
Proof.
  unfold get_interaction_messages.
  destruct (match_messages g org_id user_id interaction_id) as [|[[i h] m] rows] eqn:E;
    [reflexivity|].
  assert (Hin : In (i, h, m) (match_messages g org_id user_id interaction_id))
    by (rewrite E; now left).
  unfold match_messages in Hin. apply in_flat_map in Hin as (i' & _ & Hin).
  apply in_map_iff in Hin as ([h' m'] & Heq & Hin). inversion Heq; subst.
  apply filter_In in Hin as [_ Hb]. cbn [snd] in Hb.
  rewrite is_MessageBlock_block_of in Hb.
  cbn [flat_map]. destruct (block_of g m); discriminate.
Qed.

(** The OPTIONAL MATCH of the Date never binds: a Date that the interaction
    occurs on has that very relationship coming in, so the WHERE rejects
    it. *)
Lemma delete_rows_no_date g org_id user_id interaction_id row :
  In row (delete_rows g org_id user_id interaction_id) -> snd row = None.
Proof.
  unfold delete_rows. intros H.
  apply in_flat_map in H as ([[i h] m] & _ & H).
  apply in_flat_map in H as (mem & _ & H).
  replace (filter _ (targets g i HAS_OCCURRENCE_ON)) with (@nil nat) in H.
  - cbn in H. destruct H as [<-|[]]. reflexivity.
  - symmetry. apply filter_none. intros d Hd.
    replace (has_incoming g d HAS_OCCURRENCE_ON) with true;
      [now rewrite andb_false_r|].
    symmetry. unfold targets in Hd. apply in_map_iff in Hd as (e & <- & He).
    apply filter_In in He as [He Hf]. apply andb_true_iff in Hf as [_ Ht].
    unfold has_incoming. apply existsb_exists. exists e. split; [assumption|].
    now rewrite Nat.eqb_refl, Ht.
Qed.

(** C10: When the interaction exists and its chain has no MessageBlock,
    [delete_user_interaction_and_its_memories] leaves the structural store as
    it is (interaction, memories and Date included), and still calls the
    delete-by-ids callback with the ids of the interaction's memories as
    read before the transaction; the method returns or raises as the
    callback does. *)
Theorem delete_without_blocks_changes_nothing
    (org_id user_id interaction_id : string) (fn : callback) (w : world) (i : nat) :
  In i (match_interaction (db w) org_id user_id interaction_id) ->
  get_interaction_messages (db w) org_id user_id interaction_id = [] ->
  let ids := map memory_id
               (get_all_interaction_memories (db w) org_id user_id interaction_id) in
  let r := delete_user_interaction_and_its_memories org_id user_id
             interaction_id fn w in
  db (fst r) = db w
  /\ vector_calls (fst r)
     = vector_calls w ++ [vector_db_delete_memories_by_id ids]
  /\ snd r = match fn (vector_db_delete_memories_by_id ids) with
             | None => Ok tt
             | Some e => Raise e
             end.
Proof.
  intros _ Hempty ids r. subst r.
  unfold delete_user_interaction_and_its_memories, delete_tx, execute_write,
    tx_bind, tx_run, await. fold ids. cbn [db vector_calls].
  unfold delete_interaction, delete_rows.
  rewrite (no_messages_no_rows _ _ _ _ Hempty). cbn [flat_map].
  rewrite detach_delete_nil.
  destruct (fn (vector_db_delete_memories_by_id ids)); cbn; auto.
Qed.

(** ** Saving when the vector index refuses *)






(** * Well-formedness is an invariant of the methods *)

Lemma rising_old1 : rising old1.
Proof. intros n m x H Hx. unfold old1 in *. lia. Qed.

Lemma rising_old2 : rising old2.
Proof. intros n m [a b] H [Ha Hb]. unfold old2 in *. cbn in *. lia. Qed.

Lemma rising_old_list : rising old_list.
Proof.
  intros n m l H Hl. unfold old_list in *.
  eapply Forall_impl; [|exact Hl]. intros x Hx. unfold old1 in *. lia.
Qed.

Lemma Forall_rising {S} (ok : nat -> S -> Prop) n m (l : list S) :
  rising ok -> (n <= m)%nat -> Forall (ok n) l -> Forall (ok m) l.
Proof.
  intros Hr Hnm Hl. eapply Forall_impl; [|exact Hl]. intros s. now apply Hr.
Qed.

(** A clause that is good on every fit row is good on a fit table. *)
Lemma each_row_good {R S} (okR : nat -> R -> Prop) (okS : nat -> S -> Prop)
    (f : graph -> R -> graph * list S) :
  rising okR -> rising okS ->
  (forall g r, wf_graph g -> okR (next_id g) r -> good okS g (f g r)) ->
  forall rows g, wf_graph g -> Forall (okR (next_id g)) rows ->
    good okS g (each_row f g rows).
Proof.
  intros HR HS Hf. induction rows as [|r rows IH]; intros g Hwf Hrows.
  - unfold good. cbn. split; [assumption | split; [lia | constructor]].
  - inversion Hrows as [|? ? Hr Hrest]; subst. cbn [each_row].
    destruct (Hf g r Hwf Hr) as (Hwf1 & Hle1 & Hss).
    destruct (f g r) as [g1 ss]. cbn [fst snd] in *.
    destruct (IH g1 Hwf1 (Forall_rising okR _ _ _ HR Hle1 Hrest)) as (Hwf2 & Hle2 & Hss').
    destruct (each_row f g1 rows) as [g2 ss']. cbn [fst snd] in *.
    unfold good. cbn [fst snd]. split; [assumption | split; [lia|]].
    apply Forall_app. split; [|assumption].
    now apply (Forall_rising okS _ _ _ HS Hle2).
Qed.

Lemma for_rows_good {R S} (okR : nat -> R -> Prop) (okS : nat -> S -> Prop)
    (f : graph -> R -> res (graph * S)) :
  rising okR -> rising okS ->
  (forall g r g' s, wf_graph g -> okR (next_id g) r -> f g r = Ok (g', s) ->
     wf_graph g' /\ (next_id g <= next_id g')%nat /\ okS (next_id g') s) ->
  forall rows g g' ss, wf_graph g -> Forall (okR (next_id g)) rows ->
    for_rows f g rows = Ok (g', ss) -> good okS g (g', ss).
Proof.
  intros HR HS Hf. induction rows as [|r rows IH]; intros g g' ss Hwf Hrows H.
  - cbn in H. inversion H; subst. unfold good. cbn.
    split; [assumption | split; [lia | constructor]].
  - inversion Hrows as [|? ? Hr Hrest]; subst. cbn [for_rows] in H.
    unfold res_bind in H.
    destruct (f g r) as [[g1 s]|] eqn:E1; [|discriminate].
    destruct (for_rows f g1 rows) as [[g2 ss2]|] eqn:E2; [|discriminate].
    inversion H; subst. clear H.
    destruct (Hf g r g1 s Hwf Hr E1) as (Hwf1 & Hle1 & Hs).
    destruct (IH g1 g' ss2 Hwf1 (Forall_rising okR _ _ _ HR Hle1 Hrest) E2)
      as (Hwf2 & Hle2 & Hss).
    cbn [fst snd] in *. unfold good. cbn [fst snd].
    split; [assumption | split; [lia|]].
    constructor; [|assumption]. now apply (HS _ _ _ Hle2).
Qed.

Lemma fold_left_good {R} (okR : nat -> R -> Prop) (f : graph -> R -> graph) :
  rising okR ->
  (forall g r, wf_graph g -> okR (next_id g) r ->
     wf_graph (f g r) /\ (next_id g <= next_id (f g r))%nat) ->
  forall rows g, wf_graph g -> Forall (okR (next_id g)) rows ->
    wf_graph (fold_left f rows g) /\ (next_id g <= next_id (fold_left f rows g))%nat.
Proof.
  intros HR Hf. induction rows as [|r rows IH]; intros g Hwf Hrows.
  - cbn. split; [assumption | lia].
  - inversion Hrows as [|? ? Hr Hrest]; subst. cbn [fold_left].
    destruct (Hf g r Hwf Hr) as (Hwf1 & Hle1).
    destruct (IH (f g r) Hwf1 (Forall_rising okR _ _ _ HR Hle1 Hrest)) as (Hwf2 & Hle2).
    split; [assumption | lia].
Qed.

(** What a MATCH binds is in the graph. *)
Lemma nodes_old g (p : node -> bool) :
  wf_graph g -> Forall (old1 (next_id g)) (map n_id (filter p (nodes g))).
Proof.
  intros Hwf. apply Forall_forall. intros x Hx.
  apply in_map_iff in Hx as (n & <- & Hn). apply filter_In in Hn as [Hn _].
  now apply (wf_nodes g Hwf).
Qed.

Lemma targets_old g x t :
  wf_graph g -> Forall (old1 (next_id g)) (targets g x t).
Proof.
  intros Hwf. apply Forall_forall. intros y Hy. unfold targets in Hy.
  apply in_map_iff in Hy as (e & <- & He). apply filter_In in He as [He _].
  now apply (wf_rels g Hwf).
Qed.


Lemma walk_ends : forall fuel avail depth cur p,
  In p (walk fuel avail depth cur) -> exists e, In e avail /\ r_dst e = snd p.
Proof.
  induction fuel as [|fuel IH]; intros avail depth cur p Hp; [contradiction|].
  cbn [walk] in Hp. apply in_flat_map in Hp as (e & He & Hp).
  apply filter_In in He as [He _]. destruct Hp as [<-|Hp].
  - now exists e.
  - destruct (IH _ _ _ _ Hp) as (e' & He' & E). exists e'. split; [|assumption].
    now apply filter_In in He' as [He' _].
Qed.

Lemma var_length_old g tys x :
  wf_graph g -> Forall (fun p => old1 (next_id g) (snd p)) (var_length g tys x).
Proof.
  intros Hwf. apply Forall_forall. intros p Hp. unfold var_length in Hp.
  apply walk_ends in Hp as (e & He & <-). apply filter_In in He as [He _].
  now apply (wf_rels g Hwf).
Qed.

Lemma match_messages_old g org_id user_id interaction_id :
  wf_graph g ->
  Forall (fun '(i, _, m) => old1 (next_id g) i /\ old1 (next_id g) m)
         (match_messages g org_id user_id interaction_id).
Proof.
  intros Hwf. apply Forall_forall. intros [[i h] m] Hin.
  unfold match_messages in Hin. apply in_flat_map in Hin as (i' & Hi & Hin).
  apply in_map_iff in Hin as ([h' m'] & E & Hin). inversion E; subst.
  apply filter_In in Hin as [Hin _]. split.
  - unfold match_interaction in Hi.
    apply in_map_iff in Hi as (n & <- & Hn). apply filter_In in Hn as [Hn _].
    now apply (wf_nodes g Hwf).
  - pose proof (var_length_old g [FIRST_MESSAGE; IS_NEXT] i Hwf) as Hv.
    rewrite Forall_forall in Hv. now apply (Hv (h, m)).
Qed.

Lemma distinct_incl {K} (eqb : K -> K -> bool) : forall l x,
  In x (distinct eqb l) -> In x l.
Proof.
  induction l as [|a l IH]; intros x Hx; [contradiction|].
  cbn [distinct] in Hx. destruct Hx as [<-|Hx]; [now left|].
  right. apply IH. now apply filter_In in Hx as [Hx _].
Qed.

(** COLLECT gathers what the rows hold. *)
Lemma collect_by_fit {K V} (eqb : K -> K -> bool)
    (PK : K -> Prop) (PV : V -> Prop) (rows : list (K * V)) :
  Forall (fun r => PK (fst r) /\ PV (snd r)) rows ->
  Forall (fun kv => PK (fst kv) /\ Forall PV (snd kv)) (collect_by eqb rows).
Proof.
  intros H. rewrite Forall_forall in H. apply Forall_forall.
  intros [k vs] Hin. unfold collect_by in Hin.
  apply in_map_iff in Hin as (k' & E & Hk). inversion E; subst. clear E.
  cbn [fst snd]. split.
  - apply distinct_incl in Hk. apply in_map_iff in Hk as (r & <- & Hr).
    now apply H.
  - apply Forall_forall. intros v Hv. apply in_map_iff in Hv as (r & <- & Hr).
    apply filter_In in Hr as [Hr _]. now apply H.
Qed.

Lemma list_at_In {A} (l : list A) idx x : list_at l idx = Some x -> In x l.
Proof.
  unfold list_at. destruct (0 <=? idx); [apply nth_error_In|].
  destruct (0 <=? SIZE l + idx); [apply nth_error_In | discriminate].
Qed.

Lemma create_blocks_good g messages rows :
  wf_graph g -> Forall (fun r => old1 (next_id g) (fst r)) rows ->
  good old2 g (create_blocks g messages rows).
Proof.
  intros Hwf Hrows. unfold create_blocks.
  apply (each_row_good (fun n (r : nat * Z) => old1 n (fst r)) old2);
    try assumption.
  - intros n m r Hnm. apply rising_old1. exact Hnm.
  - exact rising_old2.
  - intros s [key idx] Hs Hkey. unfold good, old2, old1 in *.
    cbn [create_node fst snd next_id] in *.
    split; [apply (wf_create_node s _ Hs) | split; [lia|]].
    constructor; [cbn; lia | constructor].
Qed.

Lemma link_consecutive_good g g' rows :
  wf_graph g -> Forall (old_list (next_id g)) rows ->
  link_consecutive g rows = Ok g' ->
  wf_graph g' /\ (next_id g <= next_id g')%nat.
Proof.
  intros Hwf Hrows. unfold link_consecutive, res_bind.
  set (pairs := flat_map _ rows).
  destruct (for_rows _ g pairs) as [[g1 u]|] eqn:E; [|discriminate].
  intros H. inversion H; subst g'. clear H.
  assert (Hpairs : Forall (fun p => old_opt (next_id g) (fst p)
                                    /\ old_opt (next_id g) (snd p)) pairs).
  { apply Forall_forall. intros [c p] Hin. unfold pairs in Hin.
    apply in_flat_map in Hin as (l & Hl & Hin).
    apply in_map_iff in Hin as (idx & Heq & _). inversion Heq; subst. clear Heq.
    rewrite Forall_forall in Hrows. specialize (Hrows l Hl).
    unfold old_list in Hrows. rewrite Forall_forall in Hrows.
    cbn [fst snd]. split.
    - destruct (list_at l idx) as [x|] eqn:Ex; [|exact I].
      apply (Hrows x). eapply list_at_In; eauto.
    - destruct (list_at l (idx - 1)) as [x|] eqn:Ex; [|exact I].
      apply (Hrows x). eapply list_at_In; eauto. }
  assert (Hgood : good (fun _ (_ : unit) => True) g (g1, u)).
  { refine (for_rows_good
              (fun n (p : option nat * option nat) =>
                 old_opt n (fst p) /\ old_opt n (snd p))
              (fun _ (_ : unit) => True) _ _ _ _ pairs g g1 u Hwf Hpairs E).
    - intros n m [a b] Hnm [Ha Hb]. cbn [fst snd] in *.
      destruct a, b; cbn in *; split; auto; lia.
    - intros n m s _ _. exact I.
    - intros s [[c|] [p|]] s' t Hs [Hc Hp] Hstep; cbn in Hstep;
        try discriminate.
      inversion Hstep; subst. cbn in Hc, Hp.
      split; [now apply wf_create_rel | split; [cbn; lia | exact I]]. }
  destruct Hgood as (Hw & Hle & _). cbn [fst] in *. now split.
Qed.

(** The tail the two chain-writing queries share: CREATE the blocks, COLLECT
    them per key, link neighbours. *)
Lemma blocks_then_links_wf g g' messages (rows : list (nat * Z)) :
  wf_graph g -> Forall (fun r => old1 (next_id g) (fst r)) rows ->
  (let '(g1, made) := create_blocks g messages rows in
   link_consecutive g1
     (map (fun '(key, nodeList) => [key] ++ nodeList)
          (collect_by Nat.eqb made))) = Ok g' ->
  wf_graph g' /\ (next_id g <= next_id g')%nat.
Proof.
  intros Hwf Hrows.
  pose proof (create_blocks_good g messages rows Hwf Hrows) as Hgood.
  destruct (create_blocks g messages rows) as [g1 made].
  destruct Hgood as (Hwf1 & Hle1 & Hmade). cbn [fst snd] in *.
  intros Hlink. apply link_consecutive_good in Hlink; [| assumption |].
  - destruct Hlink as [Hw Hle]. split; [assumption | lia].
  - pose proof (collect_by_fit Nat.eqb (old1 (next_id g1)) (old1 (next_id g1))
                  made) as Hfit.
    apply Forall_forall. intros l Hl.
    apply in_map_iff in Hl as ([key nodeList] & <- & Hin).
    assert (Hm : Forall (fun r => old1 (next_id g1) (fst r)
                                  /\ old1 (next_id g1) (snd r)) made).
    { eapply Forall_impl; [|exact Hmade]. intros a Ha. exact Ha. }
    specialize (Hfit Hm). rewrite Forall_forall in Hfit.
    destruct (Hfit _ Hin) as [Hk Hv]. cbn [fst snd] in *.
    unfold old_list. cbn [app]. constructor; assumption.
Qed.

Lemma from_top_wf g g' org_id user_id interaction_id messages :
  wf_graph g ->
  _add_messages_to_interaction_from_top g org_id user_id interaction_id messages
    = Ok g' ->
  wf_graph g' /\ (next_id g <= next_id g')%nat.
Proof.
  intros Hwf. unfold _add_messages_to_interaction_from_top.
  pose proof (each_row_good old1 old2
     (fun g interaction =>
        let '(g', msg1) := create_node g
            (MessageBlock 0 (msg_role messages 0) (msg_content messages 0)) in
        (g', [(interaction, msg1)])) rising_old1 rising_old2) as H1.
  specialize (H1 ltac:(intros s r Hs Hr; unfold good, old1, old2 in *;
                       cbn [create_node fst snd next_id] in *;
                       split; [apply (wf_create_node s _ Hs) | split; [lia|]];
                       constructor; [cbn; lia | constructor])
                 (match_interaction g org_id user_id interaction_id) g Hwf
                 (nodes_old g _ Hwf)).
  destruct (each_row _ g (match_interaction g org_id user_id interaction_id))
    as [g1 rows1].
  destruct H1 as (Hwf1 & Hle1 & Hrows1). cbn [fst snd] in *.
  pose proof (each_row_good old2 old1
     (fun g '(interaction, msg1) =>
        (create_rel g interaction FIRST_MESSAGE msg1, [msg1]))
     rising_old2 rising_old1) as H2.
  specialize (H2 ltac:(intros s [i m] Hs [Hi Hm]; unfold good, old1 in *;
                       cbn [fst snd] in *;
                       split; [now apply wf_create_rel | split; [cbn; lia|]];
                       constructor; [cbn; lia | constructor])
                 rows1 g1 Hwf1 Hrows1).
  destruct (each_row _ g1 rows1) as [g2 rows2].
  destruct H2 as (Hwf2 & Hle2 & Hrows2). cbn [fst snd] in *.
  intros Hrest. apply blocks_then_links_wf in Hrest; [| assumption |].
  - destruct Hrest as [Hw Hle]. split; [assumption | lia].
  - apply Forall_forall. intros [k idx] Hin.
    apply in_flat_map in Hin as (m & Hm & Hin).
    apply in_map_iff in Hin as (j & E & _). inversion E; subst.
    rewrite Forall_forall in Hrows2. now apply Hrows2.
Qed.

Lemma append_wf g g' org_id user_id interaction_id messages :
  wf_graph g ->
  _append_messages_to_interaction g org_id user_id interaction_id messages
    = Ok g' ->
  wf_graph g' /\ (next_id g <= next_id g')%nat.
Proof.
  intros Hwf. unfold _append_messages_to_interaction.
  intros Hrest. apply blocks_then_links_wf in Hrest; [assumption.. |].
  apply Forall_forall. intros [k idx] Hin.
  apply in_flat_map in Hin as ([[i h] m] & Hm & Hin).
  apply filter_In in Hm as [Hm _].
  destruct (position_of g m); [|contradiction].
  apply in_map_iff in Hin as (j & E & _). inversion E; subst.
  pose proof (match_messages_old g org_id user_id interaction_id Hwf) as Hall.
  rewrite Forall_forall in Hall. now destruct (Hall _ Hm).
Qed.

Lemma truncate_wf g org_id user_id interaction_id k :
  wf_graph g -> wf_graph (truncate_messages g org_id user_id interaction_id k).
Proof. intros Hwf. now apply wf_detach_delete. Qed.

(** One writing clause of a query: the facts [each_row_good] gives for the
    clause the goal runs next, with its graph and table named. *)
Ltac clause okR okS g1 rows1 Hwf1 Hle1 Hrows1 :=
  match goal with
  | |- context [each_row ?f ?g ?rows] =>
      let H := fresh "Hclause" in
      assert (H : good okS g (each_row f g rows));
      [ apply (each_row_good okR okS f)
      | destruct (each_row f g rows) as [g1 rows1];
        destruct H as (Hwf1 & Hle1 & Hrows1); cbn [fst snd] in Hwf1, Hle1, Hrows1 ]
  end.

Lemma add_memories_wf g g' org_id user_id agent_id interaction_id mi ids cids :
  wf_graph g ->
  _add_memories_with_their_source_links g org_id user_id agent_id
    interaction_id mi ids cids = Ok g' ->
  wf_graph g' /\ (next_id g <= next_id g')%nat.
Proof.
  intros Hwf. unfold _add_memories_with_their_source_links.
  set (ok0 := fun n (r : nat * nat * list nat * (string * string * list Z)) =>
                let '(i, mc, messages, _) := r in
                old1 n i /\ old1 n mc /\ old_list n messages).
  set (ok1 := fun n (r : nat * nat * list nat * list Z * nat) =>
                let '(i, mc, messages, _, mem) := r in
                old1 n i /\ old1 n mc /\ old_list n messages /\ old1 n mem).
  set (ok2 := fun n (r : nat * list nat * list Z * nat) =>
                let '(mc, messages, _, mem) := r in
                old1 n mc /\ old_list n messages /\ old1 n mem).
  set (ok3 := fun n (r : nat * list Z * list nat) =>
                let '(mem, _, messages) := r in
                old1 n mem /\ old_list n messages).
  assert (R0 : rising ok0).
  { intros n m [[[i mc] ms] t] Hnm (Hi & Hmc & Hms). unfold ok0, old1 in *.
    repeat split; try lia. eapply rising_old_list; eauto. }
  assert (R1 : rising ok1).
  { intros n m [[[[i mc] ms] t] mem] Hnm (Hi & Hmc & Hms & Hmem).
    unfold ok1, old1 in *.
    repeat split; try lia. eapply rising_old_list; eauto. }
  assert (R2 : rising ok2).
  { intros n m [[[mc ms] t] mem] Hnm (Hmc & Hms & Hmem). unfold ok2, old1 in *.
    repeat split; try lia. eapply rising_old_list; eauto. }
  assert (R3 : rising ok3).
  { intros n m [[mem t] ms] Hnm (Hmem & Hms). unfold ok3, old1 in *.
    repeat split; try lia. eapply rising_old_list; eauto. }
  clause ok0 ok1 g1 rows1 Hwf1 Hle1 Hrows1; try assumption.
  { intros s [[[i mc] ms] [[mid txt] all_pos]] Hs (Hi & Hmc & Hms).
    unfold good, ok1, old1 in *. cbn [create_node fst snd next_id] in *.
    split; [apply (wf_create_node s _ Hs) | split; [lia|]].
    constructor; [|constructor]. repeat split; try lia.
    eapply rising_old_list; [|exact Hms]. lia. }
  { apply Forall_forall. intros [[[i mc] ms] t] Hin.
    apply in_flat_map in Hin as ([[i' mc'] ms'] & Hc & Hin).
    apply in_map_iff in Hin as (t' & E & _). inversion E; subst. clear E.
    pose proof (collect_by_fit pair_eqb
                  (fun k : nat * nat => old1 (next_id g) (fst k)
                                        /\ old1 (next_id g) (snd k))
                  (old1 (next_id g))) as Hfit.
    match type of Hc with In _ (collect_by _ ?rows) =>
      specialize (Hfit rows) end.
    assert (Hfit' := Hfit ltac:(
      apply Forall_forall; intros [[a b] c] Hr;
      apply in_flat_map in Hr as ([[i0 h0] m0] & Hm0 & Hr);
      apply in_map_iff in Hr as (mc0 & E0 & Hmc0); inversion E0; subst;
      pose proof (match_messages_old g org_id user_id interaction_id Hwf) as Hall;
      rewrite Forall_forall in Hall; destruct (Hall _ Hm0) as [Hi0 Hm0'];
      apply in_flat_map in Hmc0 as (u & _ & Hmc0);
      pose proof (targets_old g u HAS_MEMORIES Hwf) as Ht;
      rewrite Forall_forall in Ht; cbn [fst snd];
      repeat split; auto)).
    rewrite Forall_forall in Hfit'.
    destruct (Hfit' _ Hc) as [[Hi Hmc] Hms]. cbn [fst snd] in *.
    unfold ok0. repeat split; assumption. }
  clause ok1 ok2 g2 rows2 Hwf2 Hle2 Hrows2; try assumption.
  { intros s [[[[i mc] ms] all_pos] mem] Hs (Hi & Hmc & Hms & Hmem).
    unfold good, ok2, old1 in *. cbn [fst snd] in *.
    split; [now apply wf_create_rel | split; [cbn; lia|]].
    constructor; [|constructor]. cbn. repeat split; try lia.
    eapply rising_old_list; [|exact Hms]. lia. }
  clause ok2 ok3 g3 rows3 Hwf3 Hle3 Hrows3; try assumption.
  { intros s [[[mc ms] all_pos] mem] Hs (Hmc & Hms & Hmem).
    unfold good, ok3, old1 in *. cbn [fst snd] in *.
    split; [now apply wf_create_rel | split; [cbn; lia|]].
    constructor; [|constructor]. cbn. repeat split; try lia.
    eapply rising_old_list; [|exact Hms]. lia. }
  unfold res_bind.
  match goal with
  | |- context [for_rows ?f ?g ?rows] =>
      destruct (for_rows f g rows) as [[g4 u]|] eqn:E; [|discriminate];
      assert (Hgood : good (fun _ (_ : unit) => True) g3 (g4, u));
      [ refine (for_rows_good
                  (fun n (p : option nat * nat) =>
                     old_opt n (fst p) /\ old1 n (snd p))
                  (fun _ (_ : unit) => True) f _ _ _ rows g3 g4 u Hwf3 _ E) |]
  end.
  - intros n m [[a|] b] Hnm [Ha Hb]; unfold old1 in *; cbn in *; split; auto; lia.
  - intros n m s _ _. exact I.
  - intros s [[c|] mem] s' t Hs [Hc Hm] Hstep; cbn in Hstep; try discriminate.
    inversion Hstep; subst. cbn in Hc, Hm.
    split; [now apply wf_create_rel | split; [cbn; lia | exact I]].
  - apply Forall_forall. intros [c mem] Hin.
    apply in_flat_map in Hin as ([[mem' all_pos] ms] & Hr & Hin).
    apply in_map_iff in Hin as (pos & E' & _). inversion E'; subst. clear E'.
    rewrite Forall_forall in Hrows3. destruct (Hrows3 _ Hr) as [Hmem Hms].
    cbn [fst snd]. split; [|assumption].
    destruct (list_at ms pos) as [x|] eqn:Ex; [|exact I].
    unfold old_list in Hms. rewrite Forall_forall in Hms.
    apply (Hms x). eapply list_at_In; eauto.
  - intros H. inversion H; subst g'. destruct Hgood as (Hw & Hle & _).
    cbn [fst] in *. split; [assumption | lia].
Qed.

Lemma matched_old g (p : node -> bool) x :
  wf_graph g -> In x (map n_id (filter p (nodes g))) -> old1 (next_id g) x.
Proof.
  intros Hwf Hx. pose proof (nodes_old g p Hwf) as H.
  rewrite Forall_forall in H. now apply H.
Qed.

Lemma merge_rel_rises g a t b : (next_id g <= next_id (merge_rel g a t b))%nat.
Proof.
  unfold merge_rel. destruct (has_rel g a t b); cbn [create_rel next_id]; lia.
Qed.

Lemma link_contrary_wf g org_id user_id cids mi :
  wf_graph g ->
  wf_graph (_link_update_contrary_memories_to_existing_memories
              g org_id user_id cids mi).
Proof.
  intros Hwf.
  unfold _link_update_contrary_memories_to_existing_memories, merge_contrary.
  apply (fold_left_good old2
           (fun g '(new_contrary_memory, old_memory) =>
              merge_rel g old_memory CONTRARY_UPDATE new_contrary_memory)
           rising_old2); [| assumption |].
  - intros s [a b] Hs [Ha Hb]. cbn [fst snd] in *.
    split; [now apply wf_merge_rel | apply merge_rel_rises].
  - apply Forall_forall. intros [a b] Hin. unfold contrary_rows in Hin.
    apply in_flat_map in Hin as ([cid eid] & _ & Hin).
    apply in_flat_map in Hin as (a' & Ha & Hin).
    apply in_map_iff in Hin as (b' & E & Hb). inversion E; subst. clear E.
    unfold match_memory in Ha, Hb.
    split; cbn [fst snd];
      [exact (matched_old g _ a Hwf Ha) | exact (matched_old g _ b Hwf Hb)].
Qed.

Lemma merge_date_good g org_id user_id day (i : nat) :
  wf_graph g -> old1 (next_id g) i ->
  good old2 g (let '(g1, ds) := merge_date g org_id user_id day in
               (g1, map (fun d => (i, d)) ds)).
Proof.
  intros Hwf Hi. destruct (wf_merge_date g org_id user_id day Hwf)
    as (Hw & Hle & Hds).
  destruct (merge_date g org_id user_id day) as [g1 ds]. cbn [fst snd] in *.
  unfold good. cbn [fst snd]. split; [assumption | split; [assumption|]].
  apply Forall_forall. intros [i' d] Hin.
  apply in_map_iff in Hin as (d' & E & Hd). inversion E; subst.
  unfold old2, old1 in *. cbn [fst snd]. split; [lia | now apply Hds].
Qed.

Lemma create_interaction_wf g org_id user_id agent_id interaction_id date :
  wf_graph g ->
  wf_graph (create_interaction g org_id user_id agent_id interaction_id date).
Proof.
  intros Hwf. unfold create_interaction.
  set (ok3 := fun n (r : nat * nat * nat) =>
                let '(u, ic, i) := r in old1 n u /\ old1 n ic /\ old1 n i).
  assert (R3 : rising ok3).
  { intros n m [[u ic] i] Hnm (Hu & Hic & Hi). unfold ok3, old1 in *. lia. }
  clause old2 ok3 g1 rows1 Hwf1 Hle1 Hrows1; try assumption;
    try exact rising_old2.
  { intros s [u ic] Hs [Hu Hic]. unfold good, ok3, old1 in *.
    cbn [create_node fst snd next_id] in *.
    split; [apply (wf_create_node s _ Hs) | split; [lia|]].
    constructor; [lia | constructor]. }
  { apply Forall_forall. intros [u ic] Hin.
    apply in_flat_map in Hin as (u' & Hu & Hin).
    apply in_map_iff in Hin as (ic' & E & Hic). inversion E; subst. clear E.
    unfold match_user in Hu.
    pose proof (targets_old g u INTERACTIONS_IN Hwf) as Ht.
    rewrite Forall_forall in Ht. split; cbn [fst snd].
    - exact (matched_old g _ u Hwf Hu).
    - exact (Ht ic Hic). }
  clause ok3 old2 g2 rows2 Hwf2 Hle2 Hrows2; try assumption;
    try exact rising_old2.
  { intros s [[u ic] i] Hs (Hu & Hic & Hi). unfold good, old2, old1 in *.
    cbn [fst snd] in *.
    split; [now apply wf_create_rel | split; [cbn; lia|]].
    constructor; [cbn; lia | constructor]. }
  clause old2 old2 g3 rows3 Hwf3 Hle3 Hrows3; try assumption;
    try exact rising_old2.
  { intros s [i u] Hs [Hi Hu]. cbn [fst snd] in *.
    now apply merge_date_good. }
  apply (fold_left_good old2
           (fun g '(i, d) => create_rel g i HAS_OCCURRENCE_ON d)
           rising_old2); try assumption.
  intros s [i d] Hs [Hi Hd]. cbn [fst snd] in *.
  split; [now apply wf_create_rel | cbn; lia].
Qed.

Lemma touch_interaction_wf g org_id user_id agent_id interaction_id date :
  wf_graph g ->
  wf_graph (touch_interaction g org_id user_id agent_id interaction_id date).
Proof.
  intros Hwf. unfold touch_interaction.
  clause old1 old1 g1 rows1 Hwf1 Hle1 Hrows1; try assumption;
    try exact rising_old1.
  { intros s i Hs Hi. unfold good. cbn [fst snd set_node next_id].
    split; [now apply wf_set_node | split; [lia|]].
    constructor; [exact Hi | constructor]. }
  { apply (nodes_old g _ Hwf). }
  clause old1 old2 g2 rows2 Hwf2 Hle2 Hrows2; try assumption;
    try exact rising_old1; try exact rising_old2.
  { intros s i Hs Hi. now apply merge_date_good. }
  apply (fold_left_good old2
           (fun g '(i, d) => merge_rel g i HAS_OCCURRENCE_ON d)
           rising_old2); try assumption.
  intros s [i d] Hs [Hi Hd]. cbn [fst snd] in *.
  split; [now apply wf_merge_rel | apply merge_rel_rises].
Qed.

Lemma delete_interaction_wf g org_id user_id interaction_id :
  wf_graph g -> wf_graph (delete_interaction g org_id user_id interaction_id).
Proof. intros Hwf. now apply wf_detach_delete. Qed.

Lemma delete_all_interactions_wf g org_id user_id :
  wf_graph g -> wf_graph (delete_all_interactions g org_id user_id).
Proof. intros Hwf. now apply wf_detach_delete. Qed.

Lemma create_user_tx_wf g org_id user_id user_name now :
  wf_graph g -> wf_graph (create_user_tx g org_id user_id user_name now).
Proof.
  intros Hwf. unfold create_user_tx.
  set (ok3 := fun n (r : nat * nat * nat) =>
                let '(u, ic, mc) := r in old1 n u /\ old1 n ic /\ old1 n mc).
  assert (R3 : rising ok3).
  { intros n m [[u ic] mc] Hnm (Hu & Hic & Hmc). unfold ok3, old1 in *. lia. }
  clause old1 old2 g1 rows1 Hwf1 Hle1 Hrows1; try assumption;
    try exact rising_old1; try exact rising_old2.
  { intros s o Hs Ho. unfold good, old2, old1 in *.
    cbn [create_node fst snd next_id] in *.
    split; [apply (wf_create_node s _ Hs) | split; [lia|]].
    constructor; [cbn; lia | constructor]. }
  { apply (nodes_old g _ Hwf). }
  clause old2 old1 g2 rows2 Hwf2 Hle2 Hrows2; try assumption;
    try exact rising_old1; try exact rising_old2.
  { intros s [o u] Hs [Ho Hu]. unfold good, old1 in *. cbn [fst snd] in *.
    split; [now apply wf_create_rel | split; [cbn; lia|]].
    constructor; [cbn; lia | constructor]. }
  clause old1 old2 g3 rows3 Hwf3 Hle3 Hrows3; try assumption;
    try exact rising_old1; try exact rising_old2.
  { intros s u Hs Hu. unfold good, old2, old1 in *.
    cbn [create_node fst snd next_id] in *.
    split; [apply (wf_create_node s _ Hs) | split; [lia|]].
    constructor; [cbn; lia | constructor]. }
  clause old2 ok3 g4 rows4 Hwf4 Hle4 Hrows4; try assumption;
    try exact rising_old2.
  { intros s [u ic] Hs [Hu Hic]. unfold good, ok3, old1 in *.
    cbn [create_node fst snd next_id] in *.
    split; [apply (wf_create_node s _ Hs) | split; [lia|]].
    constructor; [lia | constructor]. }
  clause ok3 old2 g5 rows5 Hwf5 Hle5 Hrows5; try assumption;
    try exact rising_old2.
  { intros s [[u ic] mc] Hs (Hu & Hic & Hmc). unfold good, old2, old1 in *.
    cbn [fst snd] in *.
    split; [now apply wf_create_rel | split; [cbn; lia|]].
    constructor; [cbn; lia | constructor]. }
  apply (fold_left_good old2
           (fun g '(u, mc) => create_rel g u HAS_MEMORIES mc)
           rising_old2); try assumption.
  intros s [u mc] Hs [Hu Hmc]. cbn [fst snd] in *.
  split; [now apply wf_create_rel | cbn; lia].
Qed.

(** ** The methods keep the store well formed *)

Lemma keeps_ret {A} (a : A) : keeps (tx_ret a).
Proof. intros w Hw. exact Hw. Qed.

Lemma keeps_bind {A B} (m : tx A) (k : A -> tx B) :
  keeps m -> (forall a, keeps (k a)) -> keeps (tx_bind m k).
Proof.
  intros Hm Hk w Hw. unfold tx_bind. specialize (Hm w Hw).
  destruct (m w) as [w1 [a|e]]; cbn [fst] in *; [now apply Hk | assumption].
Qed.

Lemma keeps_run (q : graph -> res graph) :
  (forall g g', wf_graph g -> q g = Ok g' -> wf_graph g') -> keeps (tx_run q).
Proof.
  intros Hq w Hw. unfold tx_run. destruct (q (db w)) as [g'|e] eqn:E; cbn.
  - now apply (Hq (db w)).
  - assumption.
Qed.

Lemma keeps_run_total (q : graph -> graph) :
  (forall g, wf_graph g -> wf_graph (q g)) -> keeps (tx_run (fun g => Ok (q g))).
Proof.
  intros Hq. apply keeps_run. intros g g' Hg E. inversion E; subst.
  now apply Hq.
Qed.

Lemma keeps_await fn c : keeps (await fn c).
Proof. intros w Hw. exact Hw. Qed.

Lemma keeps_when b m : keeps m -> keeps (tx_when b m).
Proof. intros Hm. destruct b; [exact Hm | apply keeps_ret]. Qed.

Lemma keeps_execute_write {A} (work : tx A) :
  keeps work -> keeps (execute_write work).
Proof.
  intros Hm w Hw. unfold execute_write. specialize (Hm w Hw).
  destruct (work w) as [w1 [a|e]]; cbn [fst db] in *; assumption.
Qed.

Lemma update_chain_wf org_id user_id interaction_id incoming k g g' :
  wf_graph g ->
  update_chain org_id user_id interaction_id incoming k g = Ok g' ->
  wf_graph g'.
Proof.
  intros Hwf. unfold update_chain.
  destruct (k =? -1).
  { intros H. now apply append_wf in H as [H _]. }
  destruct (k =? 0).
  { intros H. now apply from_top_wf in H as [H _]. }
  destruct (k >? 0).
  - intros H. apply append_wf in H as [H _]; [assumption|].
    now apply truncate_wf.
  - intros H. now inversion H; subst.
Qed.

Lemma save_tx_keeps org_id agent_id user_id interaction_id mi ids cids fn :
  keeps (save_tx org_id agent_id user_id interaction_id mi ids cids fn).
Proof.
  unfold save_tx.
  apply keeps_bind; [|intros _].
  { apply keeps_run_total. intros g. apply create_interaction_wf. }
  apply keeps_bind; [|intros _].
  { apply keeps_run. intros g g' Hg H. now apply from_top_wf in H as [H _]. }
  apply keeps_bind; [|intros _].
  { apply keeps_when, keeps_run. intros g g' Hg H.
    now apply add_memories_wf in H as [H _]. }
  apply keeps_bind; [|intros _].
  { apply keeps_when, keeps_run_total. intros g. apply link_contrary_wf. }
  apply keeps_bind; [|intros _].
  { apply keeps_when, keeps_await. }
  apply keeps_ret.
Qed.

Lemma update_tx_keeps org_id agent_id user_id interaction_id mi ids cids k fn :
  keeps (update_tx org_id agent_id user_id interaction_id mi ids cids k fn).
Proof.
  unfold update_tx.
  apply keeps_bind; [|intros _].
  { apply keeps_run. intros g g' Hg H. now apply update_chain_wf in H. }
  apply keeps_bind; [|intros _].
  { apply keeps_when, keeps_run. intros g g' Hg H.
    now apply add_memories_wf in H as [H _]. }
  apply keeps_bind; [|intros _].
  { apply keeps_when, keeps_run_total. intros g. apply link_contrary_wf. }
  apply keeps_bind; [|intros _].
  { apply keeps_run_total. intros g. apply touch_interaction_wf. }
  apply keeps_bind; [|intros _].
  { apply keeps_when, keeps_await. }
  apply keeps_ret.
Qed.

(** Whatever the callbacks do and whether a method returns or raises, it
    leaves a well-formed store well formed.  With [wf_empty_graph] and
    [create_user_tx_wf], every store the methods can reach from the empty
    one is well formed. *)
Theorem methods_keep_wf org_id agent_id user_id :
  (forall rnd mi fn,
     keeps (save_interaction_with_memories org_id agent_id user_id rnd mi fn))
  /\ (forall rnd interaction_id mi fn,
        keeps (update_interaction_and_memories org_id agent_id user_id rnd
                 interaction_id mi fn))
  /\ (forall interaction_id fn,
        keeps (delete_user_interaction_and_its_memories org_id user_id
                 interaction_id fn))
  /\ (forall fn,
        keeps (delete_all_user_interactions_and_their_memories org_id user_id fn)).
Proof.
  split; [|split; [|split]].
  - intros rnd mi fn. unfold save_interaction_with_memories.
    apply keeps_execute_write, save_tx_keeps.
  - intros rnd interaction_id mi fn w Hw.
    unfold update_interaction_and_memories.
    destruct (compute_truncate_from _ _) as [k|e]; [|exact Hw].
    now apply keeps_execute_write; [apply update_tx_keeps|].
  - intros interaction_id fn w Hw.
    unfold delete_user_interaction_and_its_memories.
    apply keeps_execute_write; [|exact Hw]. unfold delete_tx.
    apply keeps_bind; [|intros _; apply keeps_await].
    apply keeps_run_total. intros g. apply delete_interaction_wf.
  - intros fn.
    unfold delete_all_user_interactions_and_their_memories.
    apply keeps_execute_write.
    apply keeps_bind; [|intros _; apply keeps_await].
    apply keeps_run_total. intros g. apply delete_all_interactions_wf.
Qed.

(** * Keys that name nothing *)

(** The queries start from a MATCH on the keys they are given; a key that
    names no node leaves them without a row, and a query without a row
    writes nothing and does not fail. *)


Lemma no_interaction_no_rows g org_id user_id interaction_id :
  match_interaction g org_id user_id interaction_id = [] ->
  match_messages g org_id user_id interaction_id = [].
Proof. intros H. unfold match_messages. now rewrite H. Qed.

Lemma append_no_interaction g org_id user_id interaction_id messages :
  match_interaction g org_id user_id interaction_id = [] ->
  _append_messages_to_interaction g org_id user_id interaction_id messages
  = Ok g.
Proof.
  intros H. unfold _append_messages_to_interaction.
  now rewrite (no_interaction_no_rows _ _ _ _ H).
Qed.












(** X5: A delete under an interaction id that names no interaction leaves
    the store as it is and still calls the delete-by-ids callback, with the
    empty list of ids; the method returns or raises as the callback does. *)
Theorem delete_of_unknown_interaction
    (org_id user_id interaction_id : string) (fn : callback) (w : world) :
  match_interaction (db w) org_id user_id interaction_id = [] ->
  let r := delete_user_interaction_and_its_memories org_id user_id
             interaction_id fn w in
  db (fst r) = db w
  /\ vector_calls (fst r)
     = vector_calls w ++ [vector_db_delete_memories_by_id []]
  /\ snd r = match fn (vector_db_delete_memories_by_id []) with
             | None => Ok tt
             | Some e => Raise e
             end.
Proof.
  intros Hno r. subst r.
  unfold delete_user_interaction_and_its_memories, delete_tx, execute_write,
    tx_bind, tx_run, await.
  unfold get_all_interaction_memories. rewrite Hno. cbn [flat_map map].
  cbn [db vector_calls].
  unfold delete_interaction, delete_rows.
  rewrite (no_interaction_no_rows _ _ _ _ Hno). cbn [flat_map].
  rewrite detach_delete_nil.
  destruct (fn (vector_db_delete_memories_by_id [])); cbn; auto.
Qed.

(** * What the queries leave alone *)

(** A relation between the graph before and the graph after that holds
    across every primitive step of the interaction queries holds across the
    queries. *)
Section Frame.

Variable R : graph -> graph -> Prop.
Variable okd : node_data -> bool.
Variable okt : reltype -> bool.
Hypothesis R_refl : forall g, R g g.
Hypothesis R_trans : forall g1 g2 g3, R g1 g2 -> R g2 g3 -> R g1 g3.
Hypothesis R_node :
  forall g d, okd d = true -> R g (fst (create_node g d)).
Hypothesis R_rel :
  forall g a t b, okt t = true -> R g (create_rel g a t b).

Lemma frame_merge_rel g a t b :
  okt t = true -> R g (merge_rel g a t b).
Proof.
  intros Ht. unfold merge_rel. destruct (has_rel g a t b); auto.
Qed.

Lemma frame_merge_date g org_id user_id day :
  okd (Date org_id user_id day) = true ->
  R g (fst (merge_date g org_id user_id day)).
Proof.
  intros Hd. unfold merge_date.
  destruct (match_date g org_id user_id day); [|apply R_refl].
  now apply (R_node g (Date org_id user_id day)).
Qed.

Lemma frame_each_row {X S} (f : graph -> X -> graph * list S) :
  (forall s x, R s (fst (f s x))) ->
  forall rows g0 g, R g0 g -> R g0 (fst (each_row f g rows)).
Proof.
  intros Hf rows g0 g Hg.
  apply (each_row_inv (R g0) f); [|exact Hg].
  intros s x Hs. eapply R_trans; [exact Hs | apply Hf].
Qed.

Lemma frame_fold {X} (f : graph -> X -> graph) :
  (forall s x, R s (f s x)) ->
  forall rows g0 g, R g0 g -> R g0 (fold_left f rows g).
Proof.
  intros Hf rows g0 g Hg.
  apply (fold_left_inv (R g0) f); [|exact Hg].
  intros s x Hs. eapply R_trans; [exact Hs | apply Hf].
Qed.

Lemma frame_for_rows {X S} (f : graph -> X -> res (graph * S)) :
  (forall s x s' y, f s x = Ok (s', y) -> R s s') ->
  forall rows g0 g g' ss,
    R g0 g -> for_rows f g rows = Ok (g', ss) -> R g0 g'.
Proof.
  intros Hf rows g0 g g' ss Hg H.
  refine (for_rows_inv (R g0) f _ rows g g' ss Hg H).
  intros s x s' y Hs E. eapply R_trans; [exact Hs | eapply Hf; eauto].
Qed.

(** The queries that write message chains. *)
Section Chains.

Hypothesis ok_block : forall p r c, okd (MessageBlock p r c) = true.
Hypothesis ok_first : okt FIRST_MESSAGE = true.
Hypothesis ok_next : okt IS_NEXT = true.

Lemma frame_create_blocks g0 g messages (rows : list (nat * Z)) :
  R g0 g -> R g0 (fst (create_blocks g messages rows)).
Proof.
  intros Hg. unfold create_blocks. apply frame_each_row; [|exact Hg].
  intros s [key idx]. apply (R_node s (MessageBlock idx _ _)), ok_block.
Qed.

Lemma frame_link_consecutive g0 g g' rows :
  R g0 g -> link_consecutive g rows = Ok g' -> R g0 g'.
Proof.
  intros Hg. unfold link_consecutive, res_bind.
  destruct (for_rows _ g _) as [[g1 u]|] eqn:E; [|discriminate].
  intros H. inversion H; subst g'. clear H.
  refine (frame_for_rows _ _ _ g0 g g1 u Hg E).
  intros s [[c|] [p|]] s' y Hq; cbn in Hq; try discriminate.
  inversion Hq; subst. now apply R_rel.
Qed.

Lemma frame_from_top g g' org_id user_id interaction_id messages :
  _add_messages_to_interaction_from_top g org_id user_id interaction_id
    messages = Ok g' ->
  R g g'.
Proof.
  unfold _add_messages_to_interaction_from_top.
  match goal with
  | |- context [each_row ?f g ?rows] =>
      pose proof (frame_each_row f) as H1;
      specialize (H1 ltac:(intros s x;
                           apply (R_node s (MessageBlock 0 _ _)), ok_block)
                     rows g g (R_refl g));
      destruct (each_row f g rows) as [g1 rows1]
  end.
  cbn [fst] in H1.
  match goal with
  | |- context [each_row ?f g1 rows1] =>
      pose proof (frame_each_row f) as H2;
      specialize (H2 ltac:(intros s [x m]; now apply R_rel)
                     rows1 g g1 H1);
      destruct (each_row f g1 rows1) as [g2 rows2]
  end.
  cbn [fst] in H2.
  match goal with
  | |- context [create_blocks g2 messages ?rows] =>
      pose proof (frame_create_blocks g g2 messages rows H2) as H3;
      destruct (create_blocks g2 messages rows) as [g3 rows3]
  end.
  cbn [fst] in H3. now apply frame_link_consecutive.
Qed.

Lemma frame_append g g' org_id user_id interaction_id messages :
  _append_messages_to_interaction g org_id user_id interaction_id messages
  = Ok g' ->
  R g g'.
Proof.
  unfold _append_messages_to_interaction.
  match goal with
  | |- context [create_blocks g messages ?rows] =>
      pose proof (frame_create_blocks g g messages rows (R_refl g)) as H3;
      destruct (create_blocks g messages rows) as [g3 rows3]
  end.
  cbn [fst] in H3. now apply frame_link_consecutive.
Qed.

End Chains.

(** The queries that write memories. *)
Section Memories.

Hypothesis ok_memory : forall o u a i m t d, okd (Memory o u a i m t d) = true.
Hypothesis ok_source : okt INTERACTION_SOURCE = true.
Hypothesis ok_includes : okt INCLUDES = true.
Hypothesis ok_message : okt MESSAGE_SOURCE = true.

Lemma frame_add_memories g g' org_id user_id agent_id interaction_id mi
    ids cids :
  _add_memories_with_their_source_links g org_id user_id agent_id
    interaction_id mi ids cids = Ok g' ->
  R g g'.
Proof.
  unfold _add_memories_with_their_source_links.
  match goal with
  | |- context [each_row ?f g ?rows] =>
      pose proof (frame_each_row f) as H1;
      specialize (H1 ltac:(intros s [[[i mc] ms] [[mid txt] ps]];
                           apply (R_node s (Memory _ _ _ _ mid txt _)),
                             ok_memory)
                     rows g g (R_refl g));
      destruct (each_row f g rows) as [g1 rows1]
  end.
  cbn [fst] in H1.
  match goal with
  | |- context [each_row ?f g1 rows1] =>
      pose proof (frame_each_row f) as H2;
      specialize (H2 ltac:(intros s [[[[i mc] ms] ps] mem]; now apply R_rel)
                     rows1 g g1 H1);
      destruct (each_row f g1 rows1) as [g2 rows2]
  end.
  cbn [fst] in H2.
  match goal with
  | |- context [each_row ?f g2 rows2] =>
      pose proof (frame_each_row f) as H3;
      specialize (H3 ltac:(intros s [[[mc ms] ps] mem]; now apply R_rel)
                     rows2 g g2 H2);
      destruct (each_row f g2 rows2) as [g3 rows3]
  end.
  cbn [fst] in H3. unfold res_bind.
  destruct (for_rows _ g3 _) as [[g4 u]|] eqn:E; [|discriminate].
  intros H. inversion H; subst g'. clear H.
  refine (frame_for_rows _ _ _ g g3 g4 u H3 E).
  intros s [[c|] mem] s' y Hq; cbn in Hq; try discriminate.
  inversion Hq; subst. now apply R_rel.
Qed.

End Memories.

Lemma frame_link g org_id user_id cids mi :
  okt CONTRARY_UPDATE = true ->
  R g (_link_update_contrary_memories_to_existing_memories g org_id user_id
         cids mi).
Proof.
  intros Ht.
  unfold _link_update_contrary_memories_to_existing_memories, merge_contrary.
  apply frame_fold; [|apply R_refl].
  intros s [a b]. now apply frame_merge_rel.
Qed.

(** The queries that write the interaction itself. *)
Section Interactions.

Hypothesis ok_date : forall o u d, okd (Date o u d) = true.
Hypothesis ok_occurrence : okt HAS_OCCURRENCE_ON = true.

Lemma frame_merge_date_rows s org_id user_id day (i : nat) :
  R s (fst (let '(g1, ds) := merge_date s org_id user_id day in
            (g1, map (fun d => (i, d)) ds))).
Proof.
  pose proof (frame_merge_date s org_id user_id day (ok_date _ _ _)) as H.
  now destruct (merge_date s org_id user_id day).
Qed.

Lemma frame_create_interaction g org_id user_id agent_id interaction_id date :
  (forall o u a i c d, okd (Interaction o u a i c d) = true) ->
  okt HAD_INTERACTION = true ->
  R g (create_interaction g org_id user_id agent_id interaction_id date).
Proof.
  intros ok_interaction ok_had. unfold create_interaction.
  match goal with
  | |- context [each_row ?f g ?rows] =>
      pose proof (frame_each_row f) as H1;
      specialize (H1 ltac:(intros s [u ic];
                           apply (R_node s (Interaction _ _ _ _ _ _)),
                             ok_interaction)
                     rows g g (R_refl g));
      destruct (each_row f g rows) as [g1 rows1]
  end.
  cbn [fst] in H1.
  match goal with
  | |- context [each_row ?f g1 rows1] =>
      pose proof (frame_each_row f) as H2;
      specialize (H2 ltac:(intros s [[u ic] i]; now apply R_rel)
                     rows1 g g1 H1);
      destruct (each_row f g1 rows1) as [g2 rows2]
  end.
  cbn [fst] in H2.
  match goal with
  | |- context [each_row ?f g2 rows2] =>
      pose proof (frame_each_row f) as H3;
      specialize (H3 ltac:(intros s [i u]; apply frame_merge_date_rows)
                     rows2 g g2 H2);
      destruct (each_row f g2 rows2) as [g3 rows3]
  end.
  cbn [fst] in H3.
  apply frame_fold; [|exact H3].
  intros s [i d]. now apply R_rel.
Qed.

Lemma frame_touch g org_id user_id agent_id interaction_id date :
  (forall s x,
     R s (set_node s x (fun d => match d with
                                 | Interaction o u _ iid c _ =>
                                     Interaction o u agent_id iid c date
                                 | other => other
                                 end))) ->
  R g (touch_interaction g org_id user_id agent_id interaction_id date).
Proof.
  intros R_set. unfold touch_interaction.
  match goal with
  | |- context [each_row ?f g ?rows] =>
      pose proof (frame_each_row f) as H1;
      specialize (H1 ltac:(intros s x; apply R_set)
                     rows g g (R_refl g));
      destruct (each_row f g rows) as [g1 rows1]
  end.
  cbn [fst] in H1.
  match goal with
  | |- context [each_row ?f g1 rows1] =>
      pose proof (frame_each_row f) as H2;
      specialize (H2 ltac:(intros s i; apply frame_merge_date_rows)
                     rows1 g g1 H1);
      destruct (each_row f g1 rows1) as [g2 rows2]
  end.
  cbn [fst] in H2.
  apply frame_fold; [|exact H2].
  intros s [i d]. now apply frame_merge_rel.
Qed.

End Interactions.

End Frame.

(** ** The accounts *)

Lemma same_accounts_refl g : same_accounts g g.
Proof. repeat split. Qed.

Lemma same_accounts_trans g1 g2 g3 :
  same_accounts g1 g2 -> same_accounts g2 g3 -> same_accounts g1 g3.
Proof.
  intros (A1 & B1 & C1 & D1) (A2 & B2 & C2 & D2). repeat split.
  - intros o. now rewrite A2.
  - intros o u. now rewrite B2.
  - now rewrite C2.
  - intros x. now rewrite D2.
Qed.

Lemma same_accounts_create_node g d :
  content_label d = true -> same_accounts g (fst (create_node g d)).
Proof.
  intros Hd. unfold create_node. cbn [fst]. repeat split.
  - intros o. unfold match_org. cbn [nodes].
    rewrite filter_app, map_app. cbn [filter n_data].
    destruct d; try discriminate; apply app_nil_r.
  - intros o u. unfold match_user. cbn [nodes].
    rewrite filter_app, map_app. cbn [filter n_data].
    destruct d; try discriminate; apply app_nil_r.
  - intros x. unfold user_row_of, node_of. cbn [nodes].
    destruct (find _ (nodes g)) as [n|] eqn:E.
    + now rewrite (find_app_some _ _ _ _ E).
    + rewrite find_app_none by (intros a Ha; exact (find_none _ _ E a Ha)).
      cbn [find n_id]. destruct (Nat.eqb (next_id g) x); [|reflexivity].
      destruct d; try discriminate; reflexivity.
Qed.

Lemma same_accounts_create_rel g a t b :
  content_type t = true -> same_accounts g (create_rel g a t b).
Proof.
  intros Ht. unfold create_rel. repeat split.
  cbn [rels]. rewrite filter_app. cbn [filter r_ty]. rewrite Ht.
  apply app_nil_r.
Qed.

Lemma same_accounts_set_node g x agent_id updated_date :
  same_accounts g
    (set_node g x (fun d => match d with
                            | Interaction o u _ iid c _ =>
                                Interaction o u agent_id iid c updated_date
                            | other => other
                            end)).
Proof.
  unfold set_node. repeat split.
  - intros o. unfold match_org. cbn [nodes].
    induction (nodes g) as [|n l IH]; [reflexivity|]. cbn [map filter].
    destruct (Nat.eqb (n_id n) x); cbn [n_data].
    + destruct (n_data n); cbn [filter map]; try exact IH.
      destruct (String.eqb _ _); cbn [map n_id]; now rewrite IH.
    + destruct (n_data n); cbn [filter map]; try exact IH.
      destruct (String.eqb _ _); cbn [map n_id]; now rewrite IH.
  - intros o u. unfold match_user. cbn [nodes].
    induction (nodes g) as [|n l IH]; [reflexivity|]. cbn [map filter].
    destruct (Nat.eqb (n_id n) x); cbn [n_data].
    + destruct (n_data n); cbn [filter map]; try exact IH.
      destruct (_ && _); cbn [map n_id]; now rewrite IH.
    + destruct (n_data n); cbn [filter map]; try exact IH.
      destruct (_ && _); cbn [map n_id]; now rewrite IH.
  - intros y. unfold user_row_of, node_of. cbn [nodes].
    rewrite find_map_id by (intros n; now destruct (Nat.eqb (n_id n) x)).
    destruct (find _ (nodes g)) as [n|]; [|reflexivity].
    cbn [option_map]. destruct (Nat.eqb (n_id n) x); [|reflexivity].
    cbn [n_data]. now destruct (n_data n).
Qed.

(** With the same accounts, the users have the same collections and
    the users query has the same rows. *)
Lemma same_accounts_targets g g' x t :
  same_accounts g g' -> content_type t = false ->
  targets g' x t = targets g x t.
Proof.
  intros (_ & _ & C & _) Ht. unfold targets.
  rewrite <- (filter_filter_absorb _
                (fun e => negb (content_type (r_ty e))) (rels g')).
  - rewrite <- (filter_filter_absorb _
                  (fun e => negb (content_type (r_ty e))) (rels g)).
    + now rewrite C.
    + intros e _ He. apply andb_true_iff in He as [_ He].
      destruct (r_ty e), t; try discriminate; reflexivity.
  - intros e _ He. apply andb_true_iff in He as [_ He].
    destruct (r_ty e), t; try discriminate; reflexivity.
Qed.

Lemma same_accounts_sources g g' x t :
  same_accounts g g' -> content_type t = false ->
  sources g' x t = sources g x t.
Proof.
  intros (_ & _ & C & _) Ht. unfold sources.
  rewrite <- (filter_filter_absorb _
                (fun e => negb (content_type (r_ty e))) (rels g')).
  - rewrite <- (filter_filter_absorb _
                  (fun e => negb (content_type (r_ty e))) (rels g)).
    + now rewrite C.
    + intros e _ He. apply andb_true_iff in He as [_ He].
      destruct (r_ty e), t; try discriminate; reflexivity.
  - intros e _ He. apply andb_true_iff in He as [_ He].
    destruct (r_ty e), t; try discriminate; reflexivity.
Qed.

Lemma same_accounts_users g g' org_id :
  same_accounts g g' -> get_users_query g' org_id = get_users_query g org_id.
Proof.
  intros H. unfold get_users_query.
  destruct H as (A & B & C & D). rewrite A.
  apply flat_map_ext. intros o.
  rewrite (same_accounts_sources g g' o BELONGS_TO
             (conj A (conj B (conj C D))) eq_refl).
  apply flat_map_ext. intros x. apply D.
Qed.

(** The writing queries of a save leave the accounts alone. *)
Lemma accounts_create_interaction g org_id user_id agent_id interaction_id date :
  same_accounts g
    (create_interaction g org_id user_id agent_id interaction_id date).
Proof.
  apply (frame_create_interaction same_accounts content_label content_type);
    auto using same_accounts_refl, same_accounts_create_node,
      same_accounts_create_rel.
  exact same_accounts_trans.
Qed.

Lemma accounts_from_top g g' org_id user_id interaction_id messages :
  _add_messages_to_interaction_from_top g org_id user_id interaction_id messages
  = Ok g' ->
  same_accounts g g'.
Proof.
  apply (frame_from_top same_accounts content_label content_type);
    auto using same_accounts_refl, same_accounts_create_node,
      same_accounts_create_rel.
  exact same_accounts_trans.
Qed.

Lemma accounts_append g g' org_id user_id interaction_id messages :
  _append_messages_to_interaction g org_id user_id interaction_id messages
  = Ok g' ->
  same_accounts g g'.
Proof.
  apply (frame_append same_accounts content_label content_type);
    auto using same_accounts_refl, same_accounts_create_node,
      same_accounts_create_rel.
  exact same_accounts_trans.
Qed.

Lemma accounts_add_memories g g' org_id user_id agent_id interaction_id mi
    ids cids :
  _add_memories_with_their_source_links g org_id user_id agent_id
    interaction_id mi ids cids = Ok g' ->
  same_accounts g g'.
Proof.
  apply (frame_add_memories same_accounts content_label content_type);
    auto using same_accounts_refl, same_accounts_create_node,
      same_accounts_create_rel.
  exact same_accounts_trans.
Qed.

Lemma accounts_link g org_id user_id cids mi :
  same_accounts g
    (_link_update_contrary_memories_to_existing_memories g org_id user_id
       cids mi).
Proof.
  apply (frame_link same_accounts content_type);
    auto using same_accounts_refl, same_accounts_create_rel.
  exact same_accounts_trans.
Qed.

Lemma accounts_touch g org_id user_id agent_id interaction_id date :
  same_accounts g
    (touch_interaction g org_id user_id agent_id interaction_id date).
Proof.
  apply (frame_touch same_accounts content_label content_type);
    auto using same_accounts_refl, same_accounts_create_node,
      same_accounts_create_rel, same_accounts_set_node.
  exact same_accounts_trans.
Qed.

(** * Accounts: [create_user] and [delete_user] *)

Lemma each_row_fold {R S} (h : graph -> R -> graph) (k : R -> list S) :
  forall rows g,
    fst (each_row (fun g r => (h g r, k r)) g rows) = fold_left h rows g.
Proof.
  induction rows as [|r rows IH]; intros g; [reflexivity|].
  cbn [each_row fold_left]. specialize (IH (h g r)).
  destruct (each_row _ (h g r) rows) as [g2 ss]. exact IH.
Qed.

Lemma each_row_ext {R S} (f f' : graph -> R -> graph * list S) :
  (forall g r, f g r = f' g r) ->
  forall rows g, each_row f g rows = each_row f' g rows.
Proof.
  intros H. induction rows as [|r rows IH]; intros g; [reflexivity|].
  cbn [each_row]. rewrite H. destruct (f' g r) as [g1 ss]. now rewrite IH.
Qed.

(** The query with its records writes what the query of the scenario
    writes. *)
Lemma create_user_query_graph g org_id user_id user_name now :
  fst (create_user_query g org_id user_id user_name now)
  = create_user_tx g org_id user_id user_name now.
Proof.
  unfold create_user_query, create_user_tx, match_org.
  do 5 match goal with
       | |- context [let '(_, _) := each_row ?f ?g ?rows in _] =>
           destruct (each_row f g rows) as [? ?]
       end.
  match goal with
  | |- context [fold_left ?h ?rows ?g] =>
      rewrite <- (each_row_fold h (fun r : nat * nat => let '(u, mc) := r in [u])
                    rows g)
  end.
  match goal with
  | |- fst (let '(_, _) := ?a in _) = fst ?b => replace b with a
  end.
  - now destruct (each_row _ _ _).
  - apply each_row_ext. now intros s [u mc].
Qed.

Section OneOrg.

Variables (g : graph) (org_id user_id user_name : string) (now : datetime).
Variable o : nat.
Hypothesis Hwf : wf_graph g.
Hypothesis Horg : match_org g org_id = [o].

Let n := next_id g.
Let g' := with_user g org_id user_id user_name now o.
Let record := {| u_org_id := org_id; u_user_id := user_id;
                 u_user_name := user_name; u_created_at := now |}.

Lemma old_nodes_miss x :
  (n <= x)%nat ->
  forall a, In a (nodes g) -> Nat.eqb (n_id a) x = false.
Proof.
  intros Hx a Ha. apply Nat.eqb_neq. pose proof (wf_nodes g Hwf a Ha).
  unfold n in Hx. lia.
Qed.

Lemma node_of_with_user_old x :
  (x < n)%nat -> node_of g' x = node_of g x.
Proof.
  intros Hx. unfold node_of, g', with_user. cbn [nodes]. f_equal.
  rewrite <- !app_assoc.
  destruct (find (fun a => Nat.eqb (n_id a) x) (nodes g)) as [a|] eqn:E.
  - now apply find_app_some.
  - rewrite find_app_none
      by (intros a Ha; exact (find_none _ _ E a Ha)).
    cbn [app find n_id]. fold n.
    replace (Nat.eqb n x) with false by (symmetry; apply Nat.eqb_neq; lia).
    replace (Nat.eqb (n + 2) x) with false
      by (symmetry; apply Nat.eqb_neq; lia).
    replace (Nat.eqb (n + 3) x) with false
      by (symmetry; apply Nat.eqb_neq; lia).
    reflexivity.
Qed.

Lemma node_of_with_user_new :
  node_of g' n = Some (User org_id user_id user_name now).
Proof.
  unfold node_of, g', with_user. cbn [nodes]. rewrite <- !app_assoc.
  rewrite find_app_none by (apply old_nodes_miss; lia).
  cbn [app find n_id]. fold n. now rewrite Nat.eqb_refl.
Qed.

Lemma create_user_query_one :
  create_user_query g org_id user_id user_name now = (g', [record]).
Proof.
  unfold create_user_query. rewrite Horg.
  cbn [each_row create_node create_rel app nodes rels next_id flat_map].
  match goal with
  | |- (?a, _) = _ => replace a with g'
  end.
  - unfold user_row_of. fold n. now rewrite node_of_with_user_new.
  - unfold g', with_user. fold n.
    replace (n + 2)%nat with (S (S n)) by lia.
    replace (n + 3)%nat with (S (S (S n))) by lia.
    replace (n + 1)%nat with (S n) by lia.
    replace (n + 4)%nat with (S (S (S (S n)))) by lia.
    replace (n + 5)%nat with (S (S (S (S (S n))))) by lia.
    replace (n + 6)%nat with (S (S (S (S (S (S n)))))) by lia.
    reflexivity.
Qed.

Lemma wf_with_user : wf_graph g'.
Proof.
  pose proof (create_user_tx_wf g org_id user_id user_name now Hwf) as H.
  rewrite <- create_user_query_graph, create_user_query_one in H. exact H.
Qed.

Lemma old_rels_miss_src x :
  (n <= x)%nat ->
  forall e, In e (rels g) -> Nat.eqb (r_src e) x = false.
Proof.
  intros Hx e He. apply Nat.eqb_neq. pose proof (wf_rels g Hwf e He).
  unfold n in Hx. lia.
Qed.

Lemma org_old : (o < n)%nat.
Proof.
  assert (Hin : In o (match_org g org_id)) by (rewrite Horg; now left).
  exact (matched_old g _ o Hwf Hin).
Qed.

Lemma targets_with_user_new x t :
  (n <= x)%nat ->
  targets g' x t
  = map r_dst (filter (fun e => Nat.eqb (r_src e) x && reltype_eqb (r_ty e) t)
      [{| r_id := n + 1; r_src := n; r_ty := BELONGS_TO; r_dst := o |};
       {| r_id := n + 4; r_src := n; r_ty := INTERACTIONS_IN; r_dst := n + 2 |};
       {| r_id := n + 5; r_src := n; r_ty := HAS_MEMORIES; r_dst := n + 3 |}]).
Proof.
  intros Hx. unfold targets, g', with_user. cbn [rels]. fold n.
  rewrite <- !app_assoc, filter_app. cbn [app].
  rewrite filter_none; [reflexivity|].
  intros e He. now rewrite (old_rels_miss_src x Hx e He).
Qed.

Lemma sources_with_user_old x t :
  (x < n)%nat ->
  sources g' x t
  = sources g x t
    ++ (if Nat.eqb o x && reltype_eqb BELONGS_TO t then [n] else []).
Proof.
  intros Hx. unfold sources, g', with_user. cbn [rels]. fold n.
  rewrite <- !app_assoc, filter_app, map_app. f_equal.
  cbn [app filter r_dst r_ty].
  replace (Nat.eqb (n + 2) x) with false
    by (symmetry; apply Nat.eqb_neq; lia).
  replace (Nat.eqb (n + 3) x) with false
    by (symmetry; apply Nat.eqb_neq; lia).
  cbn [andb]. now destruct (Nat.eqb o x && reltype_eqb BELONGS_TO t).
Qed.

Lemma match_org_with_user org : match_org g' org = match_org g org.
Proof.
  unfold match_org, g', with_user. cbn [nodes].
  rewrite !filter_app. cbn [filter n_data]. now rewrite !app_nil_r.
Qed.

Lemma match_user_with_user :
  match_user g' org_id user_id = match_user g org_id user_id ++ [n].
Proof.
  unfold match_user, g', with_user. cbn [nodes]. fold n.
  rewrite !filter_app, !map_app. cbn [filter n_data].
  rewrite !String.eqb_refl. cbn [andb map n_id app].
  now rewrite <- !app_assoc.
Qed.

End OneOrg.

(** X6: In an organisation that exists (one Org node carries the id),
    [create_user] returns the record of the new user with the minted id.
    The user is a new User node that belongs to the organisation, beside the
    users that belonged to it before.  The store stays well formed and the
    vector index is not called.  When the minted id is new, the user is the
    only one of that id and has one interaction collection and one memory
    collection, which is what the queries of a later save start from. *)
Theorem create_user_in_org
    (rnd : entropy) (org_id user_name : string) (now : datetime) (w : world)
    (o : nat) :
  wf_graph (db w) ->
  match_org (db w) org_id = [o] ->
  let user_id := shortuuid_uuid rnd in
  let record := {| u_org_id := org_id; u_user_id := user_id;
                   u_user_name := user_name; u_created_at := now |} in
  let r := create_user rnd org_id user_name now w in
  snd r = inl record
  /\ wf_graph (db (fst r))
  /\ vector_calls (fst r) = vector_calls w
  /\ node_of (db (fst r)) (next_id (db w))
     = Some (User org_id user_id user_name now)
  /\ (forall u, In u (sources (db (fst r)) o BELONGS_TO)
                <-> In u (sources (db w) o BELONGS_TO) \/ u = next_id (db w))
  /\ (match_user (db w) org_id user_id = [] ->
      flat_map (fun u => map (fun ic => (u, ic))
                             (targets (db (fst r)) u INTERACTIONS_IN))
               (match_user (db (fst r)) org_id user_id)
      = [(next_id (db w), next_id (db w) + 2)%nat]
      /\ flat_map (fun u => targets (db (fst r)) u HAS_MEMORIES)
                  (match_user (db (fst r)) org_id user_id)
         = [(next_id (db w) + 3)%nat]).
Proof.
  intros Hwf Horg user_id record r. subst r. unfold create_user.
  fold user_id.
  rewrite (create_user_query_one _ _ _ _ _ _ Hwf Horg).
  cbn [single hd_error fst snd db vector_calls].
  split; [reflexivity|].
  split; [now apply wf_with_user|].
  split; [reflexivity|].
  split; [now apply node_of_with_user_new|].
  split.
  { intros u.
    rewrite (sources_with_user_old (db w) org_id user_id user_name now o
               o BELONGS_TO (org_old (db w) org_id o Hwf Horg)).
    rewrite Nat.eqb_refl. cbn [reltype_eqb andb]. rewrite in_app_iff.
    cbn [In]. intuition. }
  intros Hnew. rewrite match_user_with_user, Hnew. cbn [app flat_map].
  rewrite !(targets_with_user_new _ _ _ _ _ _ Hwf) by lia.
  cbn [filter r_src r_ty r_dst]. rewrite Nat.eqb_refl.
  cbn [reltype_eqb andb map r_dst app]. split; reflexivity.
Qed.

(** [get_all_users] never returns a list: the call of [fetch] without its
    argument raises whatever the query found. *)
Lemma get_all_users_raises g org_id : get_all_users g org_id = inr TypeError.
Proof. reflexivity. Qed.

(** X7: In an organisation that does not exist the query of [create_user]
    has no row; [single()] gives None and indexing it raises TypeError
    inside the transaction function.  Nothing is written. *)
Theorem create_user_without_org
    (rnd : entropy) (org_id user_name : string) (now : datetime) (w : world) :
  match_org (db w) org_id = [] ->
  create_user rnd org_id user_name now w = (w, inr TypeError).
Proof.
  intros Horg. unfold create_user, create_user_query. now rewrite Horg.
Qed.

Lemma optional_some {A} (l : list A) a : In a l -> In (Some a) (optional l).
Proof.
  intros H. destruct l as [|b l]; [contradiction|]. now apply in_map.
Qed.

Lemma optional_inhabited {A} (l : list A) : exists y, In y (optional l).
Proof.
  destruct l as [|a l]; [exists None | exists (Some a)]; now left.
Qed.

Lemma optional_from_some x next a :
  In a (next x) -> In (Some a) (optional_from (Some x) next).
Proof. apply optional_some. Qed.

Lemma optional_from_inhabited x next : exists y, In y (optional_from x next).
Proof.
  destruct x as [a|]; [apply optional_inhabited | exists None; now left].
Qed.

(** A row of the query of [delete_user], built from a choice at every
    OPTIONAL MATCH. *)
Lemma delete_user_row g org_id user_id u ic i m mc mem d :
  In u (match_user g org_id user_id) ->
  In ic (optional (targets g u INTERACTIONS_IN)) ->
  In i (optional_from ic (fun c => targets g c HAD_INTERACTION)) ->
  In m (optional_from i
          (fun i => map snd (var_length g [FIRST_MESSAGE; IS_NEXT] i))) ->
  In mc (optional (targets g u HAS_MEMORIES)) ->
  In mem (optional_from mc (fun c => targets g c INCLUDES)) ->
  In d (optional_from i (fun i => targets g i HAS_OCCURRENCE_ON)) ->
  In [Some u; ic; i; m; mc; mem; d] (delete_user_rows g org_id user_id).
Proof.
  intros Hu Hic Hi Hm Hmc Hmem Hd. unfold delete_user_rows.
  apply in_flat_map. exists u. split; [assumption|].
  apply in_flat_map. exists ic. split; [assumption|].
  apply in_flat_map. exists i. split; [assumption|].
  apply in_flat_map. exists m. split; [assumption|].
  apply in_flat_map. exists mc. split; [assumption|].
  apply in_flat_map. exists mem. split; [assumption|].
  apply in_map_iff. now exists d.
Qed.

Lemma dead_of_row (rows : list (list (option nat))) row x :
  In row rows -> In (Some x) row ->
  In x (flat_map (fun row => flat_map opt_list row) rows).
Proof.
  intros Hrow Hx. apply in_flat_map. exists row. split; [assumption|].
  apply in_flat_map. exists (Some x). split; [assumption | now left].
Qed.

(** Everything the query reaches from a matched user is deleted. *)
Lemma reached_is_dead g org_id user_id u x :
  In u (match_user g org_id user_id) ->
  reached_from_user g u x ->
  In x (flat_map (fun row => flat_map opt_list row)
                 (delete_user_rows g org_id user_id)).
Proof.
  intros Hu Hx.
  pose proof (optional_inhabited (targets g u INTERACTIONS_IN)) as [ic0 Hic0].
  pose proof (optional_inhabited (targets g u HAS_MEMORIES)) as [mc0 Hmc0].
  assert (Hrest : forall ic i,
            In ic (optional (targets g u INTERACTIONS_IN)) ->
            In i (optional_from ic (fun c => targets g c HAD_INTERACTION)) ->
            forall m d,
              In m (optional_from i
                (fun i => map snd (var_length g [FIRST_MESSAGE; IS_NEXT] i))) ->
              In d (optional_from i (fun i => targets g i HAS_OCCURRENCE_ON)) ->
              forall mc mem,
                In mc (optional (targets g u HAS_MEMORIES)) ->
                In mem (optional_from mc (fun c => targets g c INCLUDES)) ->
                forall y, In (Some y) [Some u; ic; i; m; mc; mem; d] ->
                  In y (flat_map (fun row => flat_map opt_list row)
                          (delete_user_rows g org_id user_id))).
  { intros ic i Hic Hi m d Hm Hd mc mem Hmc Hmem y Hy.
    eapply dead_of_row; [|exact Hy].
    now apply delete_user_row. }
  assert (Hpick : forall ic i,
            In ic (optional (targets g u INTERACTIONS_IN)) ->
            In i (optional_from ic (fun c => targets g c HAD_INTERACTION)) ->
            forall y, In (Some y) [Some u; ic; i] ->
              In y (flat_map (fun row => flat_map opt_list row)
                      (delete_user_rows g org_id user_id))).
  { intros ic i Hic Hi y Hy.
    destruct (optional_from_inhabited i
      (fun i => map snd (var_length g [FIRST_MESSAGE; IS_NEXT] i))) as [m Hm].
    destruct (optional_from_inhabited i
      (fun i => targets g i HAS_OCCURRENCE_ON)) as [d Hd].
    destruct (optional_from_inhabited mc0
      (fun c => targets g c INCLUDES)) as [mem Hmem].
    apply (Hrest ic i Hic Hi m d Hm Hd mc0 mem Hmc0 Hmem).
    cbn [In] in *. intuition. }
  destruct (optional_from_inhabited ic0
    (fun c => targets g c HAD_INTERACTION)) as [i0 Hi0].
  destruct Hx as [|ic Hic|ic i Hic Hi|ic i m Hic Hi Hm|ic i d Hic Hi Hd
                  |mc Hmc|mc mem Hmc Hmem].
  - apply (Hpick ic0 i0 Hic0 Hi0). now left.
  - apply optional_some in Hic.
    destruct (optional_from_inhabited (Some ic)
      (fun c => targets g c HAD_INTERACTION)) as [i1 Hi1].
    apply (Hpick (Some ic) i1 Hic Hi1). right. now left.
  - apply optional_some in Hic.
    apply (Hpick (Some ic) (Some i) Hic (optional_from_some _ _ _ Hi)).
    right. right. now left.
  - apply optional_some in Hic.
    pose proof (optional_from_some ic
      (fun c => targets g c HAD_INTERACTION) i Hi) as Hi'.
    destruct (optional_from_inhabited (Some i)
      (fun i => targets g i HAS_OCCURRENCE_ON)) as [d Hd].
    destruct (optional_from_inhabited mc0
      (fun c => targets g c INCLUDES)) as [mem Hmem].
    apply (Hrest (Some ic) (Some i) Hic Hi' (Some m) d
             (optional_from_some i _ m Hm) Hd mc0 mem Hmc0 Hmem).
    cbn [In]. intuition.
  - apply optional_some in Hic.
    pose proof (optional_from_some ic
      (fun c => targets g c HAD_INTERACTION) i Hi) as Hi'.
    destruct (optional_from_inhabited (Some i)
      (fun i => map snd (var_length g [FIRST_MESSAGE; IS_NEXT] i))) as [m Hm].
    destruct (optional_from_inhabited mc0
      (fun c => targets g c INCLUDES)) as [mem Hmem].
    apply (Hrest (Some ic) (Some i) Hic Hi' m (Some d) Hm
             (optional_from_some i _ d Hd) mc0 mem Hmc0 Hmem).
    cbn [In]. intuition.
  - apply optional_some in Hmc.
    destruct (optional_from_inhabited i0
      (fun i => map snd (var_length g [FIRST_MESSAGE; IS_NEXT] i))) as [m Hm].
    destruct (optional_from_inhabited i0
      (fun i => targets g i HAS_OCCURRENCE_ON)) as [d Hd].
    destruct (optional_from_inhabited (Some mc)
      (fun c => targets g c INCLUDES)) as [mem Hmem].
    apply (Hrest ic0 i0 Hic0 Hi0 m d Hm Hd (Some mc) mem Hmc Hmem).
    cbn [In]. intuition.
  - apply optional_some in Hmc.
    destruct (optional_from_inhabited i0
      (fun i => map snd (var_length g [FIRST_MESSAGE; IS_NEXT] i))) as [m Hm].
    destruct (optional_from_inhabited i0
      (fun i => targets g i HAS_OCCURRENCE_ON)) as [d Hd].
    apply (Hrest ic0 i0 Hic0 Hi0 m d Hm Hd (Some mc) (Some mem) Hmc
             (optional_from_some mc _ mem Hmem)).
    cbn [In]. intuition.
Qed.

Lemma delete_user_no_match g org_id user_id :
  match_user (delete_user_query g org_id user_id) org_id user_id = [].
Proof.
  unfold match_user at 1, delete_user_query, detach_delete. cbn [nodes].
  rewrite filter_none; [reflexivity|].
  intros a Ha. apply filter_In in Ha as [Ha Hkeep].
  destruct (match n_data a with
            | User o u _ _ => String.eqb o org_id && String.eqb u user_id
            | _ => false
            end) eqn:E; [|reflexivity].
  assert (Hu : In (n_id a) (match_user g org_id user_id)).
  { unfold match_user. apply in_map, filter_In. now split. }
  pose proof (reached_is_dead g org_id user_id (n_id a) (n_id a) Hu
                (reached_user g (n_id a))) as Hdead.
  apply mem_nat_In in Hdead. rewrite Hdead in Hkeep. discriminate.
Qed.

(** X8: [delete_user] removes the user node and everything its query
    reaches from it: the collections, the interactions in them with their
    messages and dates, the memories.  Afterwards no user of that id is
    matched; a user id that names no user leaves the store as it is.  The
    method takes no callback: the vector index is not told. *)
Theorem delete_user_removes_account
    (org_id user_id : string) (w : world) :
  let r := delete_user org_id user_id w in
  snd r = Ok tt
  /\ vector_calls (fst r) = vector_calls w
  /\ match_user (db (fst r)) org_id user_id = []
  /\ (forall u x, In u (match_user (db w) org_id user_id) ->
                  reached_from_user (db w) u x ->
                  node_of (db (fst r)) x = None)
  /\ (match_user (db w) org_id user_id = [] -> db (fst r) = db w).
Proof.
  intros r. subst r. unfold delete_user, execute_write, tx_run.
  cbn [fst snd db vector_calls].
  split; [reflexivity|]. split; [reflexivity|].
  split; [apply delete_user_no_match|].
  split.
  - intros u x Hu Hx. apply node_of_detach_dead.
    now apply (reached_is_dead _ _ _ u).
  - intros Hno. unfold delete_user_query, delete_user_rows.
    rewrite Hno. cbn [flat_map]. apply detach_delete_nil.
Qed.

(** X9: Deleting a user right after creating it takes the store back: the
    nodes and relationships are those from before the creation; only the
    identities handed out meanwhile are not reused. *)
Theorem delete_user_undoes_create_user
    (rnd : entropy) (org_id user_name : string) (now : datetime) (w : world)
    (o : nat) :
  wf_graph (db w) ->
  match_org (db w) org_id = [o] ->
  match_user (db w) org_id (shortuuid_uuid rnd) = [] ->
  let w1 := fst (create_user rnd org_id user_name now w) in
  let r := delete_user org_id (shortuuid_uuid rnd) w1 in
  snd r = Ok tt
  /\ nodes (db (fst r)) = nodes (db w)
  /\ rels (db (fst r)) = rels (db w)
  /\ next_id (db (fst r)) = (next_id (db w) + 6)%nat.
Proof.
  intros Hwf Horg Hnew w1 r.
  assert (Hw1 : db w1 = with_user (db w) org_id (shortuuid_uuid rnd)
                          user_name now o).
  { unfold w1, create_user.
    now rewrite (create_user_query_one _ _ _ _ _ _ Hwf Horg). }
  set (n := next_id (db w)).
  assert (Hdead : flat_map (fun row => flat_map opt_list row)
                    (delete_user_rows (db w1) org_id (shortuuid_uuid rnd))
                  = [n; n + 2; n + 3]%nat).
  { unfold delete_user_rows. rewrite Hw1.
    rewrite match_user_with_user, Hnew. cbn [app flat_map].
    rewrite !(targets_with_user_new _ _ _ _ _ _ Hwf) by lia.
    cbn [filter r_src r_ty r_dst]. rewrite Nat.eqb_refl.
    cbn [reltype_eqb andb map r_dst app optional flat_map optional_from].
    rewrite !(targets_with_user_new _ _ _ _ _ _ Hwf) by lia.
    cbn [filter r_src r_ty r_dst]. fold n.
    replace (Nat.eqb n (n + 2)) with false
      by (symmetry; apply Nat.eqb_neq; lia).
    replace (Nat.eqb n (n + 3)) with false
      by (symmetry; apply Nat.eqb_neq; lia).
    cbn [andb map optional flat_map optional_from app opt_list].
    reflexivity. }
  assert (Hn : nodes (db (fst r)) = nodes (db w)).
  { subst r. unfold delete_user, execute_write, tx_run.
    cbn [fst db]. unfold delete_user_query. rewrite Hdead.
    unfold detach_delete. cbn [nodes]. rewrite Hw1. unfold with_user.
    cbn [nodes]. fold n. rewrite !filter_app.
    cbn [filter n_id mem_nat existsb].
    rewrite !Nat.eqb_refl. cbn [orb negb].
    replace (Nat.eqb (n + 2) n) with false
      by (symmetry; apply Nat.eqb_neq; lia).
    replace (Nat.eqb (n + 3) n) with false
      by (symmetry; apply Nat.eqb_neq; lia).
    replace (Nat.eqb (n + 3) (n + 2)) with false
      by (symmetry; apply Nat.eqb_neq; lia).
    cbn [orb negb]. rewrite !app_nil_r.
    apply filter_all. intros a Ha. pose proof (wf_nodes _ Hwf a Ha) as Hlt.
    fold n in Hlt.
    replace (Nat.eqb (n_id a) n) with false
      by (symmetry; apply Nat.eqb_neq; lia).
    replace (Nat.eqb (n_id a) (n + 2)) with false
      by (symmetry; apply Nat.eqb_neq; lia).
    replace (Nat.eqb (n_id a) (n + 3)) with false
      by (symmetry; apply Nat.eqb_neq; lia).
    reflexivity. }
  assert (Hr : rels (db (fst r)) = rels (db w)).
  { subst r. unfold delete_user, execute_write, tx_run.
    cbn [fst db]. unfold delete_user_query. rewrite Hdead.
    unfold detach_delete. cbn [rels]. rewrite Hw1. unfold with_user.
    cbn [rels]. fold n. rewrite !filter_app.
    cbn [filter r_src r_dst mem_nat existsb].
    rewrite !Nat.eqb_refl. cbn [orb negb andb]. rewrite !app_nil_r.
    apply filter_all. intros e He. pose proof (wf_rels _ Hwf e He) as Hlt.
    fold n in Hlt.
    replace (Nat.eqb (r_src e) n) with false
      by (symmetry; apply Nat.eqb_neq; lia).
    replace (Nat.eqb (r_src e) (n + 2)) with false
      by (symmetry; apply Nat.eqb_neq; lia).
    replace (Nat.eqb (r_src e) (n + 3)) with false
      by (symmetry; apply Nat.eqb_neq; lia).
    replace (Nat.eqb (r_dst e) n) with false
      by (symmetry; apply Nat.eqb_neq; lia).
    replace (Nat.eqb (r_dst e) (n + 2)) with false
      by (symmetry; apply Nat.eqb_neq; lia).
    replace (Nat.eqb (r_dst e) (n + 3)) with false
      by (symmetry; apply Nat.eqb_neq; lia).
    reflexivity. }
  split; [reflexivity|]. split; [exact Hn|]. split; [exact Hr|].
  subst r. unfold delete_user, execute_write, tx_run. cbn [fst db].
  unfold delete_user_query, detach_delete. cbn [next_id].
  now rewrite Hw1.
Qed.

(** * Memories and their sources *)

(** ** The clauses of the memory query, one by one *)

Lemma collect_by_key {K V} (eqb : K -> K -> bool) (k : K) (vs : list V) :
  eqb k k = true -> vs <> [] ->
  collect_by eqb (map (fun v => (k, v)) vs) = [(k, vs)].
Proof.
  intros Hk Hne. unfold collect_by. rewrite map_map. cbn [fst].
  assert (Hkeys : distinct eqb (map (fun _ : V => k) vs) = [k]).
  { destruct vs as [|v vs]; [congruence|]. clear Hne.
    induction vs as [|v' vs IH]; [reflexivity|].
    change (map (fun _ : V => k) (v :: v' :: vs))
      with (k :: map (fun _ : V => k) (v :: vs)).
    cbn [distinct]. rewrite IH. cbn [filter]. now rewrite Hk. }
  rewrite Hkeys. cbn [map]. do 2 f_equal.
  rewrite filter_all.
  - rewrite map_map. cbn [snd]. apply map_id.
  - intros p Hp. apply in_map_iff in Hp as (x & <- & _). exact Hk.
Qed.

Section MemoryClauses.

Variables (org_id user_id agent_id interaction_id : string) (date : datetime).
Variables (i mc : nat) (bs : list nat).

(** CREATE (memory:Memory {...}), once per tuple. *)
Lemma memories_created : forall tuples g,
  each_row (fun g '(i, mc, messages, (mid, txt, all_pos)) =>
      let '(g, mem) := create_node g
          (Memory org_id user_id agent_id interaction_id mid txt date) in
      (g, [(i, mc, messages, all_pos, mem)]))
    g (map (fun tuple : string * string * list Z => (i, mc, bs, tuple)) tuples)
  = ({| nodes := nodes g
                 ++ memory_nodes (next_id g) org_id user_id agent_id
                      interaction_id date tuples;
        rels := rels g;
        next_id := next_id g + List.length tuples |},
     map (fun '(mem, (_, _, all_pos)) => (i, mc, bs, all_pos, mem))
         (combine (seq (next_id g) (List.length tuples)) tuples)).
Proof.
  induction tuples as [|[[mid txt] all_pos] tuples IH]; intros g.
  - cbn. f_equal. symmetry. apply graph_eq; cbn;
      [apply app_nil_r | reflexivity | apply Nat.add_0_r].
  - cbn [map each_row create_node]. rewrite IH.
    cbn [nodes rels next_id memory_nodes List.length seq combine map app].
    f_equal. f_equal; [now rewrite <- app_assoc | lia].
Qed.

(** CREATE (interaction)<-[:INTERACTION_SOURCE]-(memory), once per row. *)
Lemma sources_linked : forall (l : list (nat * (string * string * list Z))) g,
  each_row (fun g '(i, mc, messages, all_pos, mem) =>
      (create_rel g mem INTERACTION_SOURCE i, [(mc, messages, all_pos, mem)]))
    g (map (fun '(mem, (_, _, all_pos)) => (i, mc, bs, all_pos, mem)) l)
  = ({| nodes := nodes g;
        rels := rels g
                ++ rels_from (next_id g) INTERACTION_SOURCE
                     (map (fun m => (m, i)) (map fst l));
        next_id := next_id g + List.length l |},
     map (fun '(mem, (_, _, all_pos)) => (mc, bs, all_pos, mem)) l).
Proof.
  induction l as [|[mem [[mid txt] all_pos]] l IH]; intros g.
  - cbn. f_equal. symmetry. apply graph_eq; cbn;
      [reflexivity | apply app_nil_r | apply Nat.add_0_r].
  - cbn [map each_row]. rewrite IH.
    cbn [create_rel nodes rels next_id rels_from List.length map fst app].
    f_equal. f_equal; [now rewrite <- app_assoc | lia].
Qed.

(** CREATE (mc)-[:INCLUDES]->(memory), once per row. *)
Lemma memories_included : forall (l : list (nat * (string * string * list Z))) g,
  each_row (fun g '(mc, messages, all_pos, mem) =>
      (create_rel g mc INCLUDES mem, [(mem, all_pos, messages)]))
    g (map (fun '(mem, (_, _, all_pos)) => (mc, bs, all_pos, mem)) l)
  = ({| nodes := nodes g;
        rels := rels g
                ++ rels_from (next_id g) INCLUDES
                     (map (fun m => (mc, m)) (map fst l));
        next_id := next_id g + List.length l |},
     map (fun '(mem, (_, _, all_pos)) => (mem, all_pos, bs)) l).
Proof.
  induction l as [|[mem [[mid txt] all_pos]] l IH]; intros g.
  - cbn. f_equal. symmetry. apply graph_eq; cbn;
      [reflexivity | apply app_nil_r | apply Nat.add_0_r].
  - cbn [map each_row]. rewrite IH.
    cbn [create_rel nodes rels next_id rels_from List.length map fst app].
    f_equal. f_equal; [now rewrite <- app_assoc | lia].
Qed.

(** UNWIND all_memory_source_msg_pos: the rows of the last clause. *)
Lemma source_rows_unwind (l : list (nat * (string * string * list Z))) :
  flat_map (fun '(mem, all_pos, messages) =>
              map (fun source_msg_pos : Z =>
                     (list_at messages source_msg_pos, mem)) all_pos)
           (map (fun '(mem, (_, _, all_pos)) => (mem, all_pos, bs)) l)
  = source_rows bs l.
Proof.
  unfold source_rows. rewrite flat_map_map. apply flat_map_ext_in.
  now intros [mem [[mid txt] all_pos]] _.
Qed.

(** CREATE (message_node)<-[:MESSAGE_SOURCE]-(memory): every message bound. *)
Lemma messages_linked : forall rows links g,
  bound_rows rows = Some links ->
  for_rows (fun g '(message_node, mem) =>
      (g' <- create_rel_opt g (Some mem) MESSAGE_SOURCE message_node ;;
       Ok (g', tt))%res) g rows
  = Ok ({| nodes := nodes g;
           rels := rels g ++ rels_from (next_id g) MESSAGE_SOURCE links;
           next_id := next_id g + List.length links |},
        map (fun _ => tt) rows).
Proof.
  induction rows as [|[[b|] mem] rows IH]; intros links g H.
  - cbn in H. inversion H; subst. cbn. do 2 f_equal. symmetry.
    apply graph_eq; cbn; [reflexivity | apply app_nil_r | apply Nat.add_0_r].
  - cbn [bound_rows] in H.
    destruct (bound_rows rows) as [links'|] eqn:E; [|discriminate].
    cbn [option_map] in H. inversion H; subst links. clear H.
    cbn [for_rows create_rel_opt res_bind]. rewrite (IH links' _ eq_refl).
    cbn [res_bind create_rel nodes rels next_id rels_from List.length map].
    do 2 f_equal. f_equal; [now rewrite <- app_assoc | lia].
  - discriminate.
Qed.

(** A null message makes the clause, and the query with it, fail. *)
Lemma messages_unbound : forall rows g,
  bound_rows rows = None ->
  for_rows (fun g '(message_node, mem) =>
      (g' <- create_rel_opt g (Some mem) MESSAGE_SOURCE message_node ;;
       Ok (g', tt))%res) g rows
  = Raise CypherError.
Proof.
  induction rows as [|[[b|] mem] rows IH]; intros g H.
  - discriminate.
  - cbn [bound_rows] in H.
    destruct (bound_rows rows) as [links'|] eqn:E; [discriminate|].
    cbn [for_rows create_rel_opt res_bind]. now rewrite IH.
  - reflexivity.
Qed.

End MemoryClauses.

Lemma pair_eqb_refl k : pair_eqb k k = true.
Proof. unfold pair_eqb. now rewrite !Nat.eqb_refl. Qed.

Lemma map_fst_combine_seq {A} (l : list A) s :
  map fst (combine (seq s (List.length l)) l) = seq s (List.length l).
Proof.
  revert s. induction l as [|a l IH]; intros s; [reflexivity|].
  cbn [List.length seq combine map fst]. now rewrite IH.
Qed.

Lemma length_combine_seq {A} (l : list A) s :
  List.length (combine (seq s (List.length l)) l) = List.length l.
Proof. rewrite length_combine, length_seq. apply Nat.min_id. Qed.

(** ** The memory query on an interaction with a chain *)

Section AddMemories.

Variables (g : graph) (org_id user_id agent_id interaction_id : string).
Variables (mi : MemoriesAndInteraction) (ids cids : list string).
Variables (i mc : nat) (bs : list nat) (blocks : list block).
Hypothesis Hwf : wf_graph g.
Hypothesis Hmatch : match_interaction g org_id user_id interaction_id = [i].
Hypothesis Hchain : chain g i bs blocks.
Hypothesis Hne : bs <> [].
Hypothesis Hmc :
  flat_map (fun u => targets g u HAS_MEMORIES) (match_user g org_id user_id)
  = [mc].

Let tuples := memories_and_source mi ids cids.
Let n0 := next_id g.
Let mems := combine (seq n0 (List.length tuples)) tuples.

Lemma memory_rows_collected :
  collect_by pair_eqb
    (flat_map (fun '(i, _, m) =>
         map (fun mc => ((i, mc), m))
             (flat_map (fun u => targets g u HAS_MEMORIES)
                       (match_user g org_id user_id)))
       (match_messages g org_id user_id interaction_id))
  = [((i, mc), bs)].
Proof.
  rewrite Hmc.
  rewrite (match_messages_chain g org_id user_id interaction_id i bs blocks
             (wf_rel_ids g Hwf) Hmatch Hchain).
  rewrite flat_map_map. cbn [map fst snd].
  rewrite (flat_map_combine_seq (fun m => [((i, mc), m)])).
  replace (flat_map (fun m => [((i, mc), m)]) bs)
    with (map (fun m => ((i, mc), m)) bs)
    by (clear; induction bs as [|b l IH]; cbn; congruence).
  apply collect_by_key; [apply pair_eqb_refl | exact Hne].
Qed.

(** The query creates one Memory per tuple, links each to the
    interaction and to the memory collection, and then to the messages at
    its source positions; a position out of range makes it fail. *)
Lemma add_memories_computes :
  _add_memories_with_their_source_links g org_id user_id agent_id
    interaction_id mi ids cids
  = match bound_rows (source_rows bs mems) with
    | Some links =>
        Ok (with_memories g org_id user_id agent_id interaction_id
              (interaction_date mi) i mc tuples links)
    | None => Raise CypherError
    end.
Proof.
  unfold _add_memories_with_their_source_links.
  rewrite memory_rows_collected. cbn [flat_map]. rewrite app_nil_r.
  fold tuples. rewrite memories_created. fold n0 mems.
  rewrite sources_linked. cbn [nodes rels next_id].
  rewrite memories_included. cbn [nodes rels next_id].
  rewrite source_rows_unwind.
  unfold mems at 1 2 3 4. rewrite !map_fst_combine_seq, !length_combine_seq.
  fold mems. unfold res_bind.
  destruct (bound_rows (source_rows bs mems)) as [links|] eqn:E.
  - rewrite (messages_linked _ _ _ E). cbn [nodes rels next_id].
    unfold with_memories. fold n0.
    unfold mems. now rewrite length_combine_seq.
  - now rewrite (messages_unbound _ _ E).
Qed.

End AddMemories.

(** ** The graph with the new memories *)

Lemma rels_from_type k t pairs e : In e (rels_from k t pairs) -> r_ty e = t.
Proof.
  revert k. induction pairs as [|[a b] pairs IH]; intros k H; [contradiction|].
  destruct H as [<-|H]; [reflexivity | now apply (IH (S k))].
Qed.

Lemma rels_from_ends t : forall pairs k,
  map (fun e => (r_src e, r_dst e)) (rels_from k t pairs) = pairs.
Proof.
  induction pairs as [|[a b] pairs IH]; intros k; [reflexivity|].
  cbn [rels_from map r_src r_dst]. now rewrite IH.
Qed.

Lemma rels_from_ids t : forall pairs k,
  map r_id (rels_from k t pairs) = seq k (List.length pairs).
Proof.
  induction pairs as [|[a b] pairs IH]; intros k; [reflexivity|].
  cbn [rels_from map r_id List.length seq]. now rewrite IH.
Qed.

Lemma memory_nodes_ids org_id user_id agent_id interaction_id date :
  forall tuples k,
    map n_id (memory_nodes k org_id user_id agent_id interaction_id date tuples)
    = seq k (List.length tuples).
Proof.
  induction tuples as [|[[mid txt] ps] tuples IH]; intros k; [reflexivity|].
  cbn [memory_nodes map n_id List.length seq]. now rewrite IH.
Qed.

Lemma memory_nodes_data org_id user_id agent_id interaction_id date :
  forall tuples k n,
    In n (memory_nodes k org_id user_id agent_id interaction_id date tuples) ->
    exists mid txt,
      n_data n = Memory org_id user_id agent_id interaction_id mid txt date.
Proof.
  induction tuples as [|[[mid txt] ps] tuples IH]; intros k n H; [contradiction|].
  destruct H as [<-|H]; [now exists mid, txt | now apply (IH (S k))].
Qed.


Section WithMemories.

Variables (g : graph) (org_id user_id agent_id interaction_id : string).
Variables (date : datetime) (i mc : nat).
Variables (tuples : list (string * string * list Z)) (links : list (nat * nat)).
Hypothesis Hwf : wf_graph g.

Let n0 := next_id g.
Let k := List.length tuples.
Let g' := with_memories g org_id user_id agent_id interaction_id date i mc
            tuples links.

Lemma node_of_with_memories_old x :
  (x < n0)%nat -> node_of g' x = node_of g x.
Proof.
  intros Hx. unfold node_of, g', with_memories. cbn [nodes]. f_equal.
  fold n0.
  destruct (find (fun a => Nat.eqb (n_id a) x) (nodes g)) as [a|] eqn:E.
  - now apply find_app_some.
  - rewrite find_app_none
      by (intros a Ha; exact (find_none _ _ E a Ha)).
    destruct (find _ (memory_nodes _ _ _ _ _ _ _)) as [a|] eqn:E';
      [|reflexivity].
    apply find_some in E' as [Ha Hid]. apply Nat.eqb_eq in Hid.
    assert (Hin : In (n_id a)
              (map n_id (memory_nodes n0 org_id user_id agent_id
                           interaction_id date tuples)))
      by now apply in_map.
    rewrite memory_nodes_ids in Hin. apply in_seq in Hin. lia.
Qed.

Lemma match_interaction_with_memories o u iid :
  match_interaction g' o u iid = match_interaction g o u iid.
Proof.
  unfold match_interaction, g', with_memories. cbn [nodes].
  rewrite filter_app, map_app.
  rewrite (filter_none _ (memory_nodes _ _ _ _ _ _ _)); [apply app_nil_r|].
  intros n Hn. apply memory_nodes_data in Hn as (mid & txt & ->).
  reflexivity.
Qed.

Lemma sources_with_memories x :
  sources g' x INTERACTION_SOURCE
  = sources g x INTERACTION_SOURCE
    ++ (if Nat.eqb i x then seq n0 k else []).
Proof.
  unfold sources, g', with_memories. cbn [rels]. fold n0 k.
  rewrite !filter_app, !map_app, <- app_assoc.
  rewrite (filter_none _ (rels_from _ INCLUDES _)).
  2:{ intros e He. now rewrite (rels_from_type _ _ _ _ He), andb_false_r. }
  rewrite (filter_none _ (rels_from _ MESSAGE_SOURCE _)).
  2:{ intros e He. now rewrite (rels_from_type _ _ _ _ He), andb_false_r. }
  cbn [map app]. rewrite app_nil_r. f_equal.
  generalize (n0 + k)%nat as k0. generalize (seq n0 k) as ms.
  induction ms as [|m ms IH]; intros k0.
  - now destruct (Nat.eqb i x).
  - cbn [map rels_from filter r_dst r_ty reltype_eqb].
    rewrite andb_true_r. specialize (IH (S k0)).
    destruct (Nat.eqb i x); cbn [map r_src]; now rewrite IH.
Qed.




End WithMemories.

(** ** Saving memories and reading them back *)

Lemma same_sources_sources g g' x :
  same_sources g g' ->
  sources g' x INTERACTION_SOURCE = sources g x INTERACTION_SOURCE.
Proof.
  intros H. unfold sources.
  rewrite <- (filter_filter_absorb _
                (fun e => reltype_eqb (r_ty e) INTERACTION_SOURCE) (rels g')).
  - rewrite <- (filter_filter_absorb _
                  (fun e => reltype_eqb (r_ty e) INTERACTION_SOURCE) (rels g)).
    + now rewrite H.
    + intros e _ He. now apply andb_true_iff in He as [_ He].
  - intros e _ He. now apply andb_true_iff in He as [_ He].
Qed.



(** The first two queries of a save write no INTERACTION_SOURCE. *)
Lemma same_sources_refl g : same_sources g g.
Proof. reflexivity. Qed.

Lemma same_sources_trans g1 g2 g3 :
  same_sources g1 g2 -> same_sources g2 g3 -> same_sources g1 g3.
Proof. unfold same_sources. congruence. Qed.

Lemma same_sources_create_rel g a t b :
  negb (reltype_eqb t INTERACTION_SOURCE) = true ->
  same_sources g (create_rel g a t b).
Proof.
  intros Ht. unfold same_sources, create_rel. cbn [rels]. rewrite filter_app.
  cbn [filter r_ty]. apply negb_true_iff in Ht. rewrite Ht. apply app_nil_r.
Qed.

Lemma same_sources_create_node g d : same_sources g (fst (create_node g d)).
Proof. reflexivity. Qed.

Lemma no_source_of_new g x :
  wf_graph g -> (next_id g <= x)%nat -> sources g x INTERACTION_SOURCE = [].
Proof.
  intros Hwf Hx. unfold sources. rewrite filter_none; [reflexivity|].
  intros e He. pose proof (wf_rels g Hwf e He).
  replace (Nat.eqb (r_dst e) x) with false; [reflexivity|].
  symmetry. apply Nat.eqb_neq. lia.
Qed.

Lemma sources_create_interaction g org_id user_id agent_id interaction_id date :
  same_sources g
    (create_interaction g org_id user_id agent_id interaction_id date).
Proof.
  apply (frame_create_interaction same_sources (fun _ => true)
           (fun t => negb (reltype_eqb t INTERACTION_SOURCE)));
    auto using same_sources_refl, same_sources_create_rel,
      same_sources_create_node.
  exact same_sources_trans.
Qed.

Lemma sources_from_top g g' org_id user_id interaction_id messages :
  _add_messages_to_interaction_from_top g org_id user_id interaction_id messages
  = Ok g' ->
  same_sources g g'.
Proof.
  apply (frame_from_top same_sources (fun _ => true)
           (fun t => negb (reltype_eqb t INTERACTION_SOURCE)));
    auto using same_sources_refl, same_sources_create_rel,
      same_sources_create_node.
  exact same_sources_trans.
Qed.

(** Cypher's list index is bound exactly on the positions in range. *)
Lemma list_at_in_range {A} (l : list A) p :
  in_range (List.length l) p -> exists x, list_at l p = Some x.
Proof.
  unfold in_range, list_at, SIZE. intros [Hlo Hhi].
  destruct (0 <=? p) eqn:E.
  - apply Z.leb_le in E.
    destruct (nth_error l (Z.to_nat p)) as [x|] eqn:En; [now exists x|].
    apply nth_error_None in En. lia.
  - apply Z.leb_gt in E.
    replace (0 <=? Z.of_nat (List.length l) + p) with true
      by (symmetry; apply Z.leb_le; lia).
    destruct (nth_error l (Z.to_nat (Z.of_nat (List.length l) + p)))
      as [x|] eqn:En; [now exists x|].
    apply nth_error_None in En. lia.
Qed.


Lemma bound_rows_app r1 r2 :
  bound_rows (r1 ++ r2)
  = match bound_rows r1, bound_rows r2 with
    | Some l1, Some l2 => Some (l1 ++ l2)
    | _, _ => None
    end.
Proof.
  induction r1 as [|[[b|] mem] r1 IH]; cbn [app bound_rows].
  - now destruct (bound_rows r2).
  - rewrite IH. destruct (bound_rows r1), (bound_rows r2); reflexivity.
  - reflexivity.
Qed.

Lemma bound_positions (bs : list nat) (mem : nat) : forall ps,
  (forall p, In p ps -> in_range (List.length bs) p) ->
  exists links, bound_rows (map (fun p => (list_at bs p, mem)) ps) = Some links.
Proof.
  induction ps as [|p ps IH]; intros H; [now exists []|].
  destruct (list_at_in_range bs p (H p (or_introl eq_refl))) as [b Hb].
  destruct IH as [links Hl]; [intros q Hq; apply H; now right|].
  exists ((mem, b) :: links). cbn [map bound_rows]. now rewrite Hb, Hl.
Qed.


Lemma bound_sources (bs : list nat) :
  forall (mems : list (nat * (string * string * list Z))),
    (forall m mid txt ps p, In (m, (mid, txt, ps)) mems -> In p ps ->
                            in_range (List.length bs) p) ->
    exists links, bound_rows (source_rows bs mems) = Some links.
Proof.
  induction mems as [|[m [[mid txt] ps]] mems IH]; intros H; [now exists []|].
  unfold source_rows in *. cbn [flat_map]. rewrite bound_rows_app.
  destruct (bound_positions bs m ps) as [l1 H1];
    [intros p Hp; apply (H m mid txt ps p); [now left | assumption]|].
  destruct IH as [l2 H2];
    [intros m' mid' txt' ps' p Hin Hp;
     apply (H m' mid' txt' ps' p); [now right | assumption]|].
  exists (l1 ++ l2). now rewrite H1, H2.
Qed.


(** The tuples of a call and the objects they come from. *)
Lemma tuple_object mi ids cids (m : nat) mid txt ps l :
  In (m, (mid, txt, ps)) (combine l (memories_and_source mi ids cids)) ->
  exists obj, In obj (memories mi ++ contrary_memories mi)
              /\ source_msg_block_pos obj = ps.
Proof.
  intros H. apply in_combine_r in H. unfold memories_and_source in H.
  apply in_map_iff in H as ([mid' obj] & E & Hin). inversion E; subst.
  apply in_combine_r in Hin. now exists obj.
Qed.

(** The graph a save has built when it comes to the memories. *)
Lemma save_before_memories
    (org_id agent_id user_id interaction_id : string)
    (mi : MemoriesAndInteraction) (g : graph) (u ic mc : nat) :
  wf_graph g ->
  flat_map (fun u => map (fun ic => (u, ic)) (targets g u INTERACTIONS_IN))
           (match_user g org_id user_id) = [(u, ic)] ->
  flat_map (fun u => targets g u HAS_MEMORIES) (match_user g org_id user_id)
  = [mc] ->
  match_interaction g org_id user_id interaction_id = [] ->
  interaction mi <> [] ->
  let g1 := create_interaction g org_id user_id agent_id interaction_id
              (interaction_date mi) in
  let g2 := built_from_top g1 (interaction mi) (next_id g) in
  _add_messages_to_interaction_from_top g1 org_id user_id interaction_id
    (interaction mi) = Ok g2
  /\ wf_graph g2
  /\ match_interaction g2 org_id user_id interaction_id = [next_id g]
  /\ (exists bs, chain g2 (next_id g) bs (stored (interaction mi))
                 /\ bs <> []
                 /\ List.length bs = List.length (interaction mi))
  /\ flat_map (fun u => targets g2 u HAS_MEMORIES) (match_user g2 org_id user_id)
     = [mc]
  /\ get_all_interaction_memories g2 org_id user_id interaction_id = []
  /\ get_interaction_messages g2 org_id user_id interaction_id
     = stored (interaction mi).
Proof.
  intros Hwf Huser Hmc Hfresh Hne g1 g2.
  destruct (create_interaction_spec g org_id user_id agent_id interaction_id
              (interaction_date mi) u ic Hwf Huser Hfresh)
    as (Hwf1 & Hm1 & Hfree1 & Hlt1).
  fold g1 in Hwf1, Hm1, Hfree1, Hlt1.
  pose proof (from_top_computes g1 org_id user_id interaction_id (next_id g)
                (interaction mi) Hm1) as Htop.
  fold g2 in Htop.
  pose proof (built_wf g1 (next_id g) (interaction mi) Hwf1 Hlt1) as Hwf2.
  pose proof (built_match g1 org_id user_id interaction_id (next_id g)
                (interaction mi) Hm1) as Hm2.
  pose proof (built_chain g1 (next_id g) (interaction mi) Hwf1 Hlt1 Hfree1 Hne)
    as Hchain.
  fold g2 in Hwf2, Hm2, Hchain.
  split; [exact Htop|]. split; [exact Hwf2|]. split; [exact Hm2|].
  split; [|split; [|split]].
  - eexists. split; [exact Hchain|]. split; [discriminate|].
    rewrite (chain_length _ _ _ _ Hchain). apply blocks_from_length.
  - assert (Hacc : same_accounts g g2).
    { eapply same_accounts_trans;
        [apply accounts_create_interaction | eapply accounts_from_top; eauto]. }
    destruct Hacc as (A & B & C & D). rewrite B.
    rewrite <- Hmc. apply flat_map_ext. intros x.
    now apply same_accounts_targets.
  - unfold get_all_interaction_memories. rewrite Hm2. cbn [flat_map].
    assert (Hs : same_sources g g2).
    { eapply same_sources_trans;
        [apply sources_create_interaction | eapply sources_from_top; eauto]. }
    rewrite (same_sources_sources g g2 _ Hs).
    now rewrite (no_source_of_new g (next_id g) Hwf (Nat.le_refl _)).
  - now apply built_reads.
Qed.

Lemma tx_run_ok {A} (q : graph -> res graph) (k : unit -> tx A) w g' :
  q (db w) = Ok g' ->
  tx_bind (tx_run q) k w = k tt {| db := g'; vector_calls := vector_calls w |}.
Proof. intros H. unfold tx_bind, tx_run. now rewrite H. Qed.

Lemma tx_run_raise {A} (q : graph -> res graph) (k : unit -> tx A) w e :
  q (db w) = Raise e -> tx_bind (tx_run q) k w = (w, Raise e).
Proof. intros H. unfold tx_bind, tx_run. now rewrite H. Qed.

Lemma tx_run_at {A} (q : graph -> res graph) (k : unit -> tx A) g calls g' :
  q g = Ok g' ->
  tx_bind (tx_run q) k {| db := g; vector_calls := calls |}
  = k tt {| db := g'; vector_calls := calls |}.
Proof. intros H. unfold tx_bind, tx_run. cbn [db]. now rewrite H. Qed.


Lemma tx_skip {A} (m : tx unit) (k : unit -> tx A) w :
  tx_bind (tx_when false m) k w = k tt w.
Proof. reflexivity. Qed.


Lemma minted_lengths (rnd : entropy) (mi : MemoriesAndInteraction) :
  List.length
    (map (uuid4 rnd) (seq 0 (List.length (memories mi)))
     ++ map (uuid4 rnd) (seq (List.length (memories mi))
                             (List.length (contrary_memories mi))))
  = List.length (memories mi ++ contrary_memories mi).
Proof. now rewrite !length_app, !length_map, !length_seq. Qed.




(** ** Where the memories come from *)

Lemma same_but_contrary_link g org_id user_id cids mi :
  same_but_contrary g
    (_link_update_contrary_memories_to_existing_memories g org_id user_id
       cids mi).
Proof.
  apply (frame_link same_but_contrary
           (fun t => reltype_eqb t CONTRARY_UPDATE)).
  - intros s. now split.
  - intros g1 g2 g3 [A1 B1] [A2 B2]. split; congruence.
  - intros s a t b Ht. split; [reflexivity|].
    unfold create_rel. cbn [rels]. rewrite filter_app.
    cbn [filter r_ty]. rewrite Ht. apply app_nil_r.
  - reflexivity.
Qed.

Lemma same_but_contrary_targets g g' x t :
  same_but_contrary g g' -> reltype_eqb t CONTRARY_UPDATE = false ->
  targets g' x t = targets g x t.
Proof.
  intros [_ H] Ht. unfold targets.
  rewrite <- (filter_filter_absorb _
                (fun e => negb (reltype_eqb (r_ty e) CONTRARY_UPDATE)) (rels g')).
  - rewrite <- (filter_filter_absorb _
                  (fun e => negb (reltype_eqb (r_ty e) CONTRARY_UPDATE)) (rels g)).
    + now rewrite H.
    + intros e _ He. apply andb_true_iff in He as [_ He].
      destruct (r_ty e), t; try discriminate; reflexivity.
  - intros e _ He. apply andb_true_iff in He as [_ He].
    destruct (r_ty e), t; try discriminate; reflexivity.
Qed.

Lemma same_but_contrary_sources g g' x t :
  same_but_contrary g g' -> reltype_eqb t CONTRARY_UPDATE = false ->
  sources g' x t = sources g x t.
Proof.
  intros [_ H] Ht. unfold sources.
  rewrite <- (filter_filter_absorb _
                (fun e => negb (reltype_eqb (r_ty e) CONTRARY_UPDATE)) (rels g')).
  - rewrite <- (filter_filter_absorb _
                  (fun e => negb (reltype_eqb (r_ty e) CONTRARY_UPDATE)) (rels g)).
    + now rewrite H.
    + intros e _ He. apply andb_true_iff in He as [_ He].
      destruct (r_ty e), t; try discriminate; reflexivity.
  - intros e _ He. apply andb_true_iff in He as [_ He].
    destruct (r_ty e), t; try discriminate; reflexivity.
Qed.

Lemma same_but_contrary_block g g' x :
  same_but_contrary g g' -> block_of g' x = block_of g x.
Proof. intros [H _]. unfold block_of, node_of. now rewrite H. Qed.

(** The relationships of one source among those created for [links]. *)
Lemma targets_rels_from t m : forall links k,
  map r_dst (filter (fun e => Nat.eqb (r_src e) m && reltype_eqb (r_ty e) t)
                    (rels_from k t links))
  = map snd (filter (fun l => Nat.eqb (fst l) m) links).
Proof.
  induction links as [|[a b] links IH]; intros k; [reflexivity|].
  cbn [rels_from filter r_src r_ty fst].
  replace (reltype_eqb t t) with true by now destruct t.
  rewrite andb_true_r. destruct (Nat.eqb a m); cbn [map r_dst snd];
    now rewrite IH.
Qed.

(** The pairs of one memory among the bound rows. *)
Lemma bound_positions_links (bs : list nat) (mem : nat) : forall ps links,
  bound_rows (map (fun p => (list_at bs p, mem)) ps) = Some links ->
  map fst links = map (fun _ => mem) links
  /\ map snd links = flat_map (fun p => opt_list (list_at bs p)) ps.
Proof.
  induction ps as [|p ps IH]; intros links H.
  - cbn in H. inversion H; subst. now split.
  - cbn [map bound_rows] in H. destruct (list_at bs p) as [b|] eqn:E;
      [|discriminate].
    destruct (bound_rows _) as [l|] eqn:El; [|discriminate].
    cbn [option_map] in H. inversion H; subst links. clear H.
    destruct (IH l eq_refl) as [H1 H2].
    cbn [map fst snd flat_map]. rewrite E. cbn [opt_list app].
    split; congruence.
Qed.

Lemma filter_fst_all (m : nat) (links : list (nat * nat)) :
  map fst links = map (fun _ => m) links ->
  filter (fun l => Nat.eqb (fst l) m) links = links.
Proof.
  intros H. apply filter_all. intros l Hl.
  assert (Hin : In (fst l) (map fst links)) by now apply in_map.
  rewrite H in Hin. apply in_map_iff in Hin as (x & <- & _).
  apply Nat.eqb_refl.
Qed.

Lemma filter_fst_none (m m' : nat) (links : list (nat * nat)) :
  map fst links = map (fun _ => m') links -> m' <> m ->
  filter (fun l => Nat.eqb (fst l) m) links = [].
Proof.
  intros H Hne. apply filter_none. intros l Hl.
  assert (Hin : In (fst l) (map fst links)) by now apply in_map.
  rewrite H in Hin. apply in_map_iff in Hin as (x & <- & _).
  now apply Nat.eqb_neq.
Qed.

Lemma bound_sources_links (bs : list nat) :
  forall (mems : list (nat * (string * string * list Z))) links,
    bound_rows (source_rows bs mems) = Some links ->
    (forall l, In l links -> In (fst l) (map fst mems))
    /\ (NoDup (map fst mems) ->
        forall m mid txt ps, In (m, (mid, txt, ps)) mems ->
          map snd (filter (fun l => Nat.eqb (fst l) m) links)
          = flat_map (fun p => opt_list (list_at bs p)) ps).
Proof.
  induction mems as [|[m' [[mid' txt'] ps']] mems IH]; intros links H.
  - cbn in H. inversion H; subst. split; [intros l []|intros _ m mid txt ps []].
  - unfold source_rows in H. cbn [flat_map] in H. rewrite bound_rows_app in H.
    destruct (bound_rows (map _ ps')) as [l1|] eqn:E1; [|discriminate].
    fold (source_rows bs mems) in H.
    destruct (bound_rows (source_rows bs mems)) as [l2|] eqn:E2; [|discriminate].
    inversion H; subst links. clear H.
    destruct (bound_positions_links bs m' ps' l1 E1) as [Hf Hs].
    destruct (IH l2 eq_refl) as [IH1 IH2].
    split.
    + intros l Hl. apply in_app_or in Hl as [Hl|Hl].
      * left. assert (Hin : In (fst l) (map fst l1)) by now apply in_map.
        rewrite Hf in Hin. now apply in_map_iff in Hin as (x & <- & _).
      * right. now apply IH1.
    + intros Hnd m mid txt ps Hin. cbn [map fst] in Hnd.
      apply NoDup_cons_iff in Hnd as [Hnot Hnd].
      rewrite filter_app, map_app. destruct Hin as [E|Hin].
      * inversion E; subst. rewrite (filter_fst_all m l1 Hf), Hs.
        rewrite (filter_none _ l2); [apply app_nil_r|].
        intros l Hl. apply Nat.eqb_neq. intros Heq.
        apply Hnot. rewrite <- Heq. now apply IH1.
      * assert (Hne : m' <> m).
        { intros ->. apply Hnot. apply in_map_iff. now exists (m, (mid, txt, ps)). }
        rewrite (filter_fst_none m m' l1 Hf Hne). cbn [map app].
        now apply (IH2 Hnd m mid txt ps).
Qed.

Lemma nth_error_map_both {A B C} (f : A -> C) (h : B -> C) :
  forall (l : list A) (l' : list B),
    map f l = map h l' ->
    forall n, match nth_error l n, nth_error l' n with
              | Some a, Some b => f a = h b
              | None, None => True
              | _, _ => False
              end.
Proof.
  induction l as [|a l IH]; intros [|b l'] H n; try discriminate.
  - now destruct n.
  - inversion H as [[Hab Hrest]]. destruct n as [|n]; [exact Hab|].
    cbn [nth_error]. now apply IH.
Qed.

(** On a chain, indexing the collected messages and reading the block is
    indexing the transcript. *)
Lemma chain_blocks_at g i bs blocks p :
  chain g i bs blocks ->
  flat_map (block_of g) (opt_list (list_at bs p)) = opt_list (list_at blocks p).
Proof.
  intros Hchain. pose proof (chain_length _ _ _ _ Hchain) as Hlen.
  destruct Hchain as [_ _ Hh].
  unfold list_at, SIZE. rewrite Hlen.
  assert (Hn : forall n,
            flat_map (block_of g) (opt_list (nth_error bs n))
            = opt_list (nth_error blocks n)).
  { intros n. pose proof (nth_error_map_both _ _ bs blocks Hh n) as H.
    destruct (nth_error bs n) as [b|], (nth_error blocks n) as [blk|];
      try contradiction; [|reflexivity].
    cbn [opt_list flat_map]. unfold block_of. rewrite H.
    destruct blk. reflexivity. }
  destruct (0 <=? p); [apply Hn|].
  destruct (0 <=? Z.of_nat (List.length blocks) + p); [apply Hn | reflexivity].
Qed.

Section Provenance.

Variables (g : graph) (org_id user_id agent_id interaction_id : string).
Variables (date : datetime) (i mc : nat).
Variables (tuples : list (string * string * list Z)) (links : list (nat * nat)).
Variables (bs : list nat) (blocks : list block).
Hypothesis Hwf : wf_graph g.
Hypothesis Hchain : chain g i bs blocks.
Hypothesis Hne : bs <> [].

Let n0 := next_id g.
Let k := List.length tuples.
Let mems := combine (seq n0 k) tuples.
Let g' := with_memories g org_id user_id agent_id interaction_id date i mc
            tuples links.

Hypothesis Hlinks : bound_rows (source_rows bs mems) = Some links.

Lemma targets_with_memories m :
  (n0 <= m)%nat ->
  targets g' m MESSAGE_SOURCE
  = map snd (filter (fun l => Nat.eqb (fst l) m) links).
Proof.
  intros Hm. unfold targets, g', with_memories. cbn [rels]. fold n0 k.
  rewrite !filter_app, !map_app.
  rewrite (filter_none _ (rels g)).
  2:{ intros e He. pose proof (wf_rels g Hwf e He). fold n0 in H.
      replace (Nat.eqb (r_src e) m) with false; [reflexivity|].
      symmetry. apply Nat.eqb_neq. lia. }
  rewrite (filter_none _ (rels_from _ INTERACTION_SOURCE _)).
  2:{ intros e He. now rewrite (rels_from_type _ _ _ _ He), andb_false_r. }
  rewrite (filter_none _ (rels_from _ INCLUDES _)).
  2:{ intros e He. now rewrite (rels_from_type _ _ _ _ He), andb_false_r. }
  cbn [map app]. apply targets_rels_from.
Qed.

Lemma linked_are_old b :
  In b (map snd links) -> (b < n0)%nat.
Proof.
  intros Hb. apply in_map_iff in Hb as (l & <- & Hl).
  assert (Hin : In (snd l) bs).
  { clear - Hlinks Hl. revert links Hlinks Hl. generalize mems as ms.
    induction ms as [|[m [[mid txt] ps]] ms IH]; intros links Hlinks Hl.
    - cbn in Hlinks. inversion Hlinks; subst. contradiction.
    - unfold source_rows in Hlinks. cbn [flat_map] in Hlinks.
      rewrite bound_rows_app in Hlinks.
      destruct (bound_rows (map _ ps)) as [l1|] eqn:E1; [|discriminate].
      fold (source_rows bs ms) in Hlinks.
      destruct (bound_rows (source_rows bs ms)) as [l2|] eqn:E2;
        [|discriminate].
      inversion Hlinks; subst links. clear Hlinks.
      apply in_app_or in Hl as [Hl|Hl]; [|now apply (IH l2)].
      destruct (bound_positions_links bs m ps l1 E1) as [_ Hs].
      assert (Hin : In (snd l) (map snd l1)) by now apply in_map.
      rewrite Hs in Hin. apply in_flat_map in Hin as (p & _ & Hin).
      destruct (list_at bs p) as [x|] eqn:Ex; [|contradiction].
      destruct Hin as [<-|[]]. eapply list_at_In; eauto. }
  apply (chain_nodes_old g i bs blocks Hwf Hchain Hne). now right.
Qed.

(** Each new memory is linked to the blocks at its source positions. *)
Lemma sources_of_memory m mid txt ps :
  In (m, (mid, txt, ps)) mems ->
  flat_map (block_of g') (targets g' m MESSAGE_SOURCE) = blocks_at blocks ps.
Proof.
  intros Hin.
  assert (Hm : (n0 <= m)%nat).
  { apply in_combine_l in Hin. apply in_seq in Hin. lia. }
  rewrite (targets_with_memories m Hm).
  destruct (bound_sources_links bs mems links Hlinks) as [_ Hsel].
  assert (Hnd : NoDup (map fst mems)).
  { unfold mems, k. rewrite map_fst_combine_seq. apply seq_NoDup. }
  pose proof (Hsel Hnd m mid txt ps Hin) as Hsnd.
  assert (Hold : flat_map (block_of g')
                   (map snd (filter (fun l => Nat.eqb (fst l) m) links))
                 = flat_map (block_of g)
                     (map snd (filter (fun l => Nat.eqb (fst l) m) links))).
  { apply flat_map_ext_in. intros b Hb. unfold block_of.
    unfold g'. rewrite node_of_with_memories_old; [reflexivity|]. fold n0.
    apply linked_are_old. apply in_map_iff in Hb as (l & <- & Hl).
    apply in_map. now apply filter_In in Hl as [Hl _]. }
  rewrite Hold, Hsnd. unfold blocks_at.
  clear - Hchain. induction ps as [|p ps IH]; [reflexivity|].
  cbn [flat_map]. rewrite flat_map_app, IH. f_equal.
  now apply (chain_blocks_at g i bs blocks p).
Qed.

End Provenance.

Lemma map_snd_combine_eq {A B} : forall (l : list A) (l' : list B),
  List.length l = List.length l' -> map snd (combine l l') = l'.
Proof.
  induction l as [|a l IH]; intros [|b l'] H; try discriminate; [reflexivity|].
  cbn [combine map snd]. rewrite IH; [reflexivity | now inversion H].
Qed.

Lemma with_no_memories g org_id user_id agent_id interaction_id date i mc :
  same_but_contrary
    (with_memories g org_id user_id agent_id interaction_id date i mc [] []) g.
Proof.
  unfold with_memories, same_but_contrary. cbn [nodes rels memory_nodes
    List.length seq map rels_from]. now rewrite !app_nil_r.
Qed.

Lemma same_but_contrary_sym g g' :
  same_but_contrary g g' -> same_but_contrary g' g.
Proof. intros [A B]. now split. Qed.

Lemma same_but_contrary_trans g1 g2 g3 :
  same_but_contrary g1 g2 -> same_but_contrary g2 g3 -> same_but_contrary g1 g3.
Proof. intros [A1 B1] [A2 B2]. split; congruence. Qed.

(** What a save with memories leaves: the graph built for the messages,
    with the memories, up to the CONTRARY_UPDATE relationships of the last
    query. *)
Lemma save_with_memories_result
    (org_id agent_id user_id : string) (rnd : entropy)
    (mi : MemoriesAndInteraction) (fn : callback) (w : world) (u ic mc : nat) :
  let ids := map (uuid4 rnd) (seq 0 (List.length (memories mi))) in
  let cids := map (uuid4 rnd) (seq (List.length (memories mi))
                                   (List.length (contrary_memories mi))) in
  let call := vector_db_add_memories org_id user_id agent_id (ids ++ cids)
                (map memory (memories mi ++ contrary_memories mi))
                (interaction_date mi) in
  let g2 := built_from_top
              (create_interaction (db w) org_id user_id agent_id
                 (shortuuid_uuid rnd) (interaction_date mi))
              (interaction mi) (next_id (db w)) in
  let tuples := memories_and_source mi ids cids in
  wf_graph (db w) ->
  flat_map (fun u => map (fun ic => (u, ic)) (targets (db w) u INTERACTIONS_IN))
           (match_user (db w) org_id user_id) = [(u, ic)] ->
  flat_map (fun u => targets (db w) u HAS_MEMORIES)
           (match_user (db w) org_id user_id) = [mc] ->
  match_interaction (db w) org_id user_id (shortuuid_uuid rnd) = [] ->
  interaction mi <> [] ->
  (forall obj p, In obj (memories mi ++ contrary_memories mi) ->
                 In p (source_msg_block_pos obj) ->
                 in_range (List.length (interaction mi)) p) ->
  fn call = None ->
  exists w' links bs,
    save_interaction_with_memories org_id agent_id user_id rnd mi fn w
    = (w', Ok (shortuuid_uuid rnd, interaction_date mi))
    /\ wf_graph g2
    /\ match_interaction g2 org_id user_id (shortuuid_uuid rnd)
       = [next_id (db w)]
    /\ sources g2 (next_id (db w)) INTERACTION_SOURCE = []
    /\ chain g2 (next_id (db w)) bs (stored (interaction mi))
    /\ bs <> []
    /\ bound_rows (source_rows bs
         (combine (seq (next_id g2) (List.length tuples)) tuples)) = Some links
    /\ same_but_contrary
         (with_memories g2 org_id user_id agent_id (shortuuid_uuid rnd)
            (interaction_date mi) (next_id (db w)) mc tuples links)
         (db w').
Proof.
  intros ids cids call g2 tuples Hwf Huser Hmc Hfresh Hne Hin Hfn.
  destruct (save_before_memories org_id agent_id user_id (shortuuid_uuid rnd)
              mi (db w) u ic mc Hwf Huser Hmc Hfresh Hne)
    as (Htop & Hwf2 & Hm2 & (bs & Hchain & Hbs & Hlen) & Hmc2 & Hmem2 & Hread2).
  set (g1 := create_interaction (db w) org_id user_id agent_id
               (shortuuid_uuid rnd) (interaction_date mi)) in *.
  fold g2 in Htop, Hwf2, Hm2, Hchain, Hmc2, Hmem2, Hread2.
  assert (Hsrc : sources g2 (next_id (db w)) INTERACTION_SOURCE = []).
  { assert (Hs : same_sources (db w) g2).
    { eapply same_sources_trans;
        [apply sources_create_interaction | eapply sources_from_top; eauto]. }
    rewrite (same_sources_sources (db w) g2 _ Hs).
    now rewrite (no_source_of_new (db w) (next_id (db w)) Hwf (Nat.le_refl _)). }
  destruct (bound_sources bs
              (combine (seq (next_id g2) (List.length tuples)) tuples))
    as [links Hl].
  { intros m mid txt ps p Ht Hp.
    apply tuple_object in Ht as (obj & Hobj & <-).
    rewrite Hlen. now apply (Hin obj). }
  pose proof (add_memories_computes g2 org_id user_id agent_id
                (shortuuid_uuid rnd) mi ids cids (next_id (db w)) mc bs _
                Hwf2 Hm2 Hchain Hbs Hmc2) as Hadd.
  fold tuples in Hadd. rewrite Hl in Hadd.
  unfold save_interaction_with_memories. fold ids cids.
  unfold execute_write, save_tx.
  erewrite tx_run_ok; [|reflexivity]. fold g1.
  erewrite tx_run_at; [|exact Htop].
  fold call.
  destruct (nonempty ids || nonempty cids) eqn:Eb.
  - cbn [tx_when]. erewrite tx_run_at; [|exact Hadd].
    destruct (nonempty cids) eqn:Ec; cbn [tx_when].
    + erewrite tx_run_at; [|reflexivity].
      unfold tx_bind, await, tx_ret. rewrite Hfn. cbn [db vector_calls].
      eexists. exists links, bs. split; [reflexivity|]. cbn [db].
      repeat (split; [assumption|]). apply same_but_contrary_link.
    + unfold tx_bind, await, tx_ret. rewrite Hfn. cbn [db vector_calls].
      eexists. exists links, bs. split; [reflexivity|]. cbn [db].
      repeat (split; [assumption|]). now split.
  - rewrite tx_skip.
    apply orb_false_iff in Eb as [Ei Ec]. rewrite Ec. rewrite !tx_skip.
    unfold tx_ret. eexists. exists links, bs. split; [reflexivity|]. cbn [db].
    repeat (split; [assumption|]).
    assert (Ht : tuples = []).
    { unfold tuples. destruct ids as [|? ?]; [|discriminate].
      destruct cids as [|? ?]; [|discriminate]. reflexivity. }
    rewrite Ht in Hl |- *. cbn in Hl. inversion Hl; subst links.
    apply with_no_memories.
Qed.

(** X12: Provenance.  After such a save every new memory is linked by
    INTERACTION_SOURCE to the interaction, in the order of the memories, and
    by MESSAGE_SOURCE to the blocks at its source positions and to no
    other: reading the blocks behind the MESSAGE_SOURCE relationships of the
    memories gives, memory by memory, the messages at the positions the
    memory names (a negative position counts from the end of the
    transcript). *)
Theorem saved_memories_point_at_their_sources
    (org_id agent_id user_id : string) (rnd : entropy)
    (mi : MemoriesAndInteraction) (fn : callback) (w : world) (u ic mc : nat) :
  let new_memory_ids := map (uuid4 rnd) (seq 0 (List.length (memories mi))) in
  let new_contrary_memory_ids :=
    map (uuid4 rnd) (seq (List.length (memories mi))
                         (List.length (contrary_memories mi))) in
  let call := vector_db_add_memories org_id user_id agent_id
                (new_memory_ids ++ new_contrary_memory_ids)
                (map memory (memories mi ++ contrary_memories mi))
                (interaction_date mi) in
  wf_graph (db w) ->
  flat_map (fun u => map (fun ic => (u, ic)) (targets (db w) u INTERACTIONS_IN))
           (match_user (db w) org_id user_id) = [(u, ic)] ->
  flat_map (fun u => targets (db w) u HAS_MEMORIES)
           (match_user (db w) org_id user_id) = [mc] ->
  match_interaction (db w) org_id user_id (shortuuid_uuid rnd) = [] ->
  interaction mi <> [] ->
  (forall obj p, In obj (memories mi ++ contrary_memories mi) ->
                 In p (source_msg_block_pos obj) ->
                 in_range (List.length (interaction mi)) p) ->
  fn call = None ->
  exists w',
    save_interaction_with_memories org_id agent_id user_id rnd mi fn w
    = (w', Ok (shortuuid_uuid rnd, interaction_date mi))
    /\ match_interaction (db w') org_id user_id (shortuuid_uuid rnd)
       = [next_id (db w)]
    /\ map (fun m => flat_map (block_of (db w'))
                              (targets (db w') m MESSAGE_SOURCE))
           (sources (db w') (next_id (db w)) INTERACTION_SOURCE)
       = map (fun obj => blocks_at (stored (interaction mi))
                                   (source_msg_block_pos obj))
             (memories mi ++ contrary_memories mi).
Proof.
  intros ids cids call Hwf Huser Hmc Hfresh Hne Hin Hfn.
  destruct (save_with_memories_result org_id agent_id user_id rnd mi fn w
              u ic mc Hwf Huser Hmc Hfresh Hne Hin Hfn)
    as (w' & links & bs & Hsave & Hwf2 & Hm2 & Hsrc & Hchain & Hbs & Hl & Hsame).
  fold ids cids in Hl, Hsame.
  set (g2 := built_from_top _ _ _) in *.
  set (tuples := memories_and_source mi ids cids) in *.
  set (g3 := with_memories g2 org_id user_id agent_id (shortuuid_uuid rnd)
               (interaction_date mi) (next_id (db w)) mc tuples links) in *.
  exists w'. split; [exact Hsave|]. split.
  - unfold match_interaction. rewrite (proj1 Hsame).
    fold (match_interaction g3 org_id user_id (shortuuid_uuid rnd)).
    unfold g3. now rewrite match_interaction_with_memories.
  - rewrite (same_but_contrary_sources g3 (db w') _ INTERACTION_SOURCE Hsame
               eq_refl).
    unfold g3 at 1. rewrite sources_with_memories, Hsrc, Nat.eqb_refl.
    cbn [app]. fold g3.
    rewrite <- (map_fst_combine_seq tuples (next_id g2)), map_map.
    transitivity (map (fun mt : nat * (string * string * list Z) =>
                         blocks_at (stored (interaction mi)) (snd (snd mt)))
                      (combine (seq (next_id g2) (List.length tuples)) tuples)).
    + apply map_ext_in. intros [m [[mid txt] ps]] Hmt. cbn [fst snd].
      rewrite (same_but_contrary_targets g3 (db w') m MESSAGE_SOURCE Hsame
                 eq_refl).
      erewrite flat_map_ext
        by (intros b; apply (same_but_contrary_block g3 (db w') b Hsame)).
      now apply (sources_of_memory g2 org_id user_id agent_id
                   (shortuuid_uuid rnd) (interaction_date mi) (next_id (db w))
                   mc tuples links bs (stored (interaction mi)) Hwf2 Hchain
                   Hbs Hl m mid txt ps).
    + rewrite <- (map_map snd
                    (fun t : string * string * list Z =>
                       blocks_at (stored (interaction mi)) (snd t))).
      rewrite map_snd_combine_seq. unfold tuples, memories_and_source.
      rewrite map_map.
      rewrite <- (map_snd_combine_eq (ids ++ cids)
                    (memories mi ++ contrary_memories mi)
                    (minted_lengths rnd mi)) at 2.
      rewrite map_map. apply map_ext. now intros [mid obj].
Qed.

(** * The schema is an invariant of the methods *)

(** ** Nodes and their labels *)

Lemma grows_refl g : grows g g.
Proof. intros x l H. exact H. Qed.

Lemma grows_trans g1 g2 g3 : grows g1 g2 -> grows g2 g3 -> grows g1 g3.
Proof. intros H1 H2 x l H. apply H2, H1, H. Qed.

Lemma has_label_node g x l :
  has_label g x l ->
  exists n, In n (nodes g) /\ n_id n = x /\ label_of (n_data n) = l.
Proof.
  unfold has_label, node_of. intros H.
  destruct (find _ (nodes g)) as [n|] eqn:E; [|discriminate].
  apply find_some in E as [Hn Hid]. apply Nat.eqb_eq in Hid.
  exists n. cbn in H. inversion H. auto.
Qed.

Lemma has_label_old g x l : wf_graph g -> has_label g x l -> (x < next_id g)%nat.
Proof.
  intros Hwf H. apply has_label_node in H as (n & Hn & <- & _).
  now apply (wf_nodes g Hwf).
Qed.

Lemma has_label_unique g x l l' : has_label g x l -> has_label g x l' -> l = l'.
Proof. unfold has_label. congruence. Qed.

(** With identities of their own, a node of the graph is the node its
    identity names. *)
Lemma find_own_id : forall (ns : list node) n,
  NoDup (map n_id ns) -> In n ns ->
  find (fun a => Nat.eqb (n_id a) (n_id n)) ns = Some n.
Proof.
  induction ns as [|a ns IH]; intros n Hnd Hin; [contradiction|].
  cbn [map] in Hnd. apply NoDup_cons_iff in Hnd as [Hnot Hnd].
  cbn [find]. destruct Hin as [->|Hin].
  - now rewrite Nat.eqb_refl.
  - destruct (Nat.eqb (n_id a) (n_id n)) eqn:E; [|now apply IH].
    apply Nat.eqb_eq in E. exfalso. apply Hnot. rewrite E. now apply in_map.
Qed.

Lemma node_of_own g n :
  schema g -> In n (nodes g) -> node_of g (n_id n) = Some (n_data n).
Proof.
  intros Hs Hin. unfold node_of.
  now rewrite (find_own_id _ n (schema_node_ids g Hs) Hin).
Qed.

Lemma matched_label g (p : node -> bool) l x :
  schema g -> (forall n, p n = true -> label_of (n_data n) = l) ->
  In x (map n_id (filter p (nodes g))) -> has_label g x l.
Proof.
  intros Hs Hp Hx. apply in_map_iff in Hx as (n & <- & Hn).
  apply filter_In in Hn as [Hn Hpn]. unfold has_label.
  rewrite (node_of_own g n Hs Hn). cbn. f_equal. now apply Hp.
Qed.

Lemma targets_label g x t y :
  schema g -> In y (targets g x t) -> has_label g y (target_label t).
Proof.
  intros Hs Hy. unfold targets in Hy.
  apply in_map_iff in Hy as (e & <- & He). apply filter_In in He as [He Hf].
  apply andb_true_iff in Hf as [_ Ht].
  destruct (schema_ends g Hs e He) as [_ Hd].
  replace t with (r_ty e); [exact Hd|].
  destruct (r_ty e), t; try discriminate; reflexivity.
Qed.

Lemma sources_label g x t y :
  schema g -> In y (sources g x t) -> has_label g y (source_label t).
Proof.
  intros Hs Hy. unfold sources in Hy.
  apply in_map_iff in Hy as (e & <- & He). apply filter_In in He as [He Hf].
  apply andb_true_iff in Hf as [_ Ht].
  destruct (schema_ends g Hs e He) as [Hd _].
  replace t with (r_ty e); [exact Hd|].
  destruct (r_ty e), t; try discriminate; reflexivity.
Qed.

Lemma var_length_label g tys x p l :
  schema g -> (forall t, In t tys -> target_label t = l) ->
  In p (var_length g tys x) -> has_label g (snd p) l.
Proof.
  intros Hs Hl Hp. unfold var_length in Hp.
  apply walk_ends in Hp as (e & He & <-). apply filter_In in He as [He Ht].
  destruct (schema_ends g Hs e He) as [_ Hd].
  rewrite <- (Hl (r_ty e)); [exact Hd|].
  unfold has_type in Ht. apply existsb_exists in Ht as (t & Hin & E).
  replace (r_ty e) with t; [exact Hin|].
  destruct (r_ty e), t; try discriminate; reflexivity.
Qed.

(** ** The writing primitives *)

Lemma node_of_create_node_old g d x :
  wf_graph g -> (x < next_id g)%nat ->
  node_of (fst (create_node g d)) x = node_of g x.
Proof.
  intros Hwf Hx. unfold node_of, create_node. cbn [fst nodes]. f_equal.
  destruct (find (fun a => Nat.eqb (n_id a) x) (nodes g)) as [a|] eqn:E.
  - now apply find_app_some.
  - rewrite find_app_none by (intros a Ha; exact (find_none _ _ E a Ha)).
    cbn [find n_id].
    replace (Nat.eqb (next_id g) x) with false; [reflexivity|].
    symmetry. apply Nat.eqb_neq. lia.
Qed.

Lemma node_of_create_node_new g d :
  wf_graph g -> node_of (fst (create_node g d)) (next_id g) = Some d.
Proof.
  intros Hwf. unfold node_of, create_node. cbn [fst nodes].
  rewrite find_app_none.
  - cbn [find n_id]. now rewrite Nat.eqb_refl.
  - intros a Ha. apply Nat.eqb_neq. pose proof (wf_nodes g Hwf a Ha). lia.
Qed.

Lemma grows_create_node g d :
  wf_graph g -> grows g (fst (create_node g d)).
Proof.
  intros Hwf x l H. unfold has_label in *.
  rewrite node_of_create_node_old; [exact H | exact Hwf |].
  now apply (has_label_old g x l).
Qed.

Lemma sound_create_node g d :
  sound g ->
  sound (fst (create_node g d))
  /\ grows g (fst (create_node g d))
  /\ has_label (fst (create_node g d)) (next_id g) (label_of d).
Proof.
  intros [Hwf Hs]. pose proof (grows_create_node g d Hwf) as Hg.
  split; [split|split].
  - now apply wf_create_node.
  - split.
    + unfold create_node. cbn [fst nodes]. rewrite map_app. cbn [map n_id].
      apply NoDup_app.
      * apply (schema_node_ids g Hs).
      * constructor; [intros [] | constructor].
      * intros k Hk [<-|[]]. apply in_map_iff in Hk as (a & E & Ha).
        pose proof (wf_nodes g Hwf a Ha). lia.
    + intros e He. unfold create_node in He. cbn [fst rels] in He.
      destruct (schema_ends g Hs e He). split; now apply Hg.
  - exact Hg.
  - unfold has_label. now rewrite node_of_create_node_new.
Qed.

Lemma sound_create_rel g a t b :
  sound g -> has_label g a (source_label t) -> has_label g b (target_label t) ->
  sound (create_rel g a t b) /\ grows g (create_rel g a t b).
Proof.
  intros [Hwf Hs] Ha Hb. split; [split|].
  - apply wf_create_rel; [assumption | |]; eapply has_label_old; eauto.
  - split.
    + exact (schema_node_ids g Hs).
    + intros e He. unfold create_rel in He. cbn [rels] in He.
      apply in_app_or in He as [He|[<-|[]]].
      * exact (schema_ends g Hs e He).
      * cbn [r_src r_dst r_ty]. now split.
  - intros x l H. exact H.
Qed.

Lemma sound_merge_rel g a t b :
  sound g -> has_label g a (source_label t) -> has_label g b (target_label t) ->
  sound (merge_rel g a t b) /\ grows g (merge_rel g a t b).
Proof.
  intros Hg Ha Hb. unfold merge_rel. destruct (has_rel g a t b).
  - split; [assumption | apply grows_refl].
  - now apply sound_create_rel.
Qed.

Lemma node_of_set_node g x f y :
  node_of (set_node g x f) y
  = if Nat.eqb y x then option_map f (node_of g y) else node_of g y.
Proof.
  unfold node_of, set_node. cbn [nodes].
  rewrite find_map_id by (intros n; now destruct (Nat.eqb (n_id n) x)).
  destruct (find _ (nodes g)) as [n|] eqn:E; cbn [option_map].
  - apply find_some in E as [_ E]. apply Nat.eqb_eq in E. subst y.
    now destruct (Nat.eqb (n_id n) x).
  - now destruct (Nat.eqb y x).
Qed.

Lemma sound_set_node g x f :
  (forall d, label_of (f d) = label_of d) ->
  sound g -> sound (set_node g x f) /\ grows g (set_node g x f).
Proof.
  intros Hf [Hwf Hs].
  assert (Hg : forall y l, has_label g y l -> has_label (set_node g x f) y l).
  { intros y l H. unfold has_label in *. rewrite node_of_set_node.
    destruct (Nat.eqb y x); [|exact H].
    destruct (node_of g y) as [d|]; [|discriminate].
    cbn in *. now rewrite Hf. }
  split; [split|exact Hg].
  - now apply wf_set_node.
  - split.
    + unfold set_node. cbn [nodes]. rewrite map_map.
      replace (map _ (nodes g)) with (map n_id (nodes g)).
      * exact (schema_node_ids g Hs).
      * apply map_ext. intros n. now destruct (Nat.eqb (n_id n) x).
    + intros e He. unfold set_node in He. cbn [rels] in He.
      destruct (schema_ends g Hs e He). split; now apply Hg.
Qed.

Lemma sound_merge_date g org_id user_id day :
  sound g ->
  sound (fst (merge_date g org_id user_id day))
  /\ grows g (fst (merge_date g org_id user_id day))
  /\ forall d, In d (snd (merge_date g org_id user_id day)) ->
               has_label (fst (merge_date g org_id user_id day)) d L_Date.
Proof.
  intros Hg. unfold merge_date.
  destruct (match_date g org_id user_id day) as [|d0 ds] eqn:E.
  - destruct (sound_create_node g (Date org_id user_id day) Hg)
      as (H1 & H2 & H3).
    cbn [create_node fst snd] in *. split; [exact H1|]. split; [exact H2|].
    intros d [<-|[]]. exact H3.
  - cbn [fst snd]. split; [assumption|]. split; [apply grows_refl|].
    intros d Hd. rewrite <- E in Hd. unfold match_date in Hd.
    refine (matched_label g _ L_Date d (proj2 Hg) _ Hd).
    intros n Hn. now destruct (n_data n).
Qed.

Lemma sound_detach_delete g dead :
  sound g -> sound (detach_delete g dead).
Proof.
  intros [Hwf Hs]. split; [now apply wf_detach_delete|]. split.
  - unfold detach_delete. cbn [nodes].
    generalize (schema_node_ids g Hs). generalize (nodes g).
    induction l as [|n l IH]; intros Hnd; [constructor|].
    cbn [map] in Hnd. apply NoDup_cons_iff in Hnd as [Hnot Hnd].
    cbn [filter]. destruct (negb _); [|now apply IH].
    cbn [map]. constructor; [|now apply IH].
    intros Hin. apply Hnot. apply in_map_iff in Hin as (a & E & Ha).
    apply filter_In in Ha as [Ha _]. rewrite <- E. now apply in_map.
  - intros e He. unfold detach_delete in He. cbn [rels] in He.
    apply filter_In in He as [He Halive].
    apply andb_true_iff in Halive as [H1 H2].
    apply negb_true_iff in H1, H2.
    apply mem_nat_not_In in H1, H2.
    destruct (schema_ends g Hs e He) as [Ha Hb]. unfold has_label in *.
    rewrite !node_of_detach_alive by assumption. now split.
Qed.

(** ** Tables of rows *)

Lemma Forall_stable {S} (ok : graph -> S -> Prop) g g' (l : list S) :
  stable ok -> grows g g' -> Forall (ok g) l -> Forall (ok g') l.
Proof.
  intros Hs Hg Hl. eapply Forall_impl; [|exact Hl]. intros s. now apply Hs.
Qed.

Lemma each_row_fit {R S} (okR : graph -> R -> Prop) (okS : graph -> S -> Prop)
    (f : graph -> R -> graph * list S) :
  stable okR -> stable okS ->
  (forall g r, sound g -> okR g r -> fit okS g (f g r)) ->
  forall rows g, sound g -> Forall (okR g) rows ->
    fit okS g (each_row f g rows).
Proof.
  intros HR HS Hf. induction rows as [|r rows IH]; intros g Hg Hrows.
  - unfold fit. cbn. split; [assumption | split; [apply grows_refl | constructor]].
  - inversion Hrows as [|? ? Hr Hrest]; subst. cbn [each_row].
    destruct (Hf g r Hg Hr) as (Hs1 & Hg1 & Hss).
    destruct (f g r) as [g1 ss]. cbn [fst snd] in *.
    destruct (IH g1 Hs1 (Forall_stable okR _ _ _ HR Hg1 Hrest))
      as (Hs2 & Hg2 & Hss').
    destruct (each_row f g1 rows) as [g2 ss']. cbn [fst snd] in *.
    unfold fit. cbn [fst snd].
    split; [assumption | split; [eapply grows_trans; eauto|]].
    apply Forall_app. split; [|assumption].
    now apply (Forall_stable okS g1 g2).
Qed.

Lemma for_rows_fit {R S} (okR : graph -> R -> Prop)
    (f : graph -> R -> res (graph * S)) :
  stable okR ->
  (forall g r g' s, sound g -> okR g r -> f g r = Ok (g', s) ->
     sound g' /\ grows g g') ->
  forall rows g g' ss, sound g -> Forall (okR g) rows ->
    for_rows f g rows = Ok (g', ss) -> sound g' /\ grows g g'.
Proof.
  intros HR Hf. induction rows as [|r rows IH]; intros g g' ss Hg Hrows H.
  - cbn in H. inversion H; subst. split; [assumption | apply grows_refl].
  - inversion Hrows as [|? ? Hr Hrest]; subst. cbn [for_rows] in H.
    unfold res_bind in H.
    destruct (f g r) as [[g1 s]|] eqn:E1; [|discriminate].
    destruct (for_rows f g1 rows) as [[g2 ss2]|] eqn:E2; [|discriminate].
    inversion H; subst. clear H.
    destruct (Hf g r g1 s Hg Hr E1) as (Hs1 & Hg1).
    destruct (IH g1 g' ss2 Hs1 (Forall_stable okR _ _ _ HR Hg1 Hrest) E2)
      as (Hs2 & Hg2).
    split; [assumption | eapply grows_trans; eauto].
Qed.

Lemma fold_fit {R} (okR : graph -> R -> Prop) (f : graph -> R -> graph) :
  stable okR ->
  (forall g r, sound g -> okR g r -> sound (f g r) /\ grows g (f g r)) ->
  forall rows g, sound g -> Forall (okR g) rows ->
    sound (fold_left f rows g) /\ grows g (fold_left f rows g).
Proof.
  intros HR Hf. induction rows as [|r rows IH]; intros g Hg Hrows.
  - cbn. split; [assumption | apply grows_refl].
  - inversion Hrows as [|? ? Hr Hrest]; subst. cbn [fold_left].
    destruct (Hf g r Hg Hr) as (Hs1 & Hg1).
    destruct (IH (f g r) Hs1 (Forall_stable okR _ _ _ HR Hg1 Hrest))
      as (Hs2 & Hg2).
    split; [assumption | eapply grows_trans; eauto].
Qed.

(** One writing clause of a query: the facts [each_row_fit] gives for the
    clause the goal runs next, with its graph and table named. *)
Ltac clause_fit okR okS g1 rows1 Hs1 Hg1 Hrows1 :=
  match goal with
  | |- context [each_row ?f ?g ?rows] =>
      let H := fresh "Hclause" in
      assert (H : fit okS g (each_row f g rows));
      [ apply (each_row_fit okR okS f)
      | destruct (each_row f g rows) as [g1 rows1];
        destruct H as (Hs1 & Hg1 & Hrows1); cbn [fst snd] in Hs1, Hg1, Hrows1 ]
  end.

Lemma stable_is_a l : stable (is_a l).
Proof. intros g g' x Hg H. now apply Hg. Qed.

Lemma stable_are_a l : stable (are_a l).
Proof.
  intros g g' xs Hg H. unfold are_a in *.
  eapply Forall_impl; [|exact H]. intros x. apply Hg.
Qed.

Lemma stable_maybe_a l : stable (maybe_a l).
Proof. intros g g' [x|] Hg H; [now apply Hg | exact I]. Qed.

(** ** The queries that write message chains *)

Lemma create_blocks_fit g messages rows :
  sound g -> Forall (fun r => has_label g (fst r) L_MessageBlock) rows ->
  fit (fun g (p : nat * nat) =>
         has_label g (fst p) L_MessageBlock /\ has_label g (snd p) L_MessageBlock)
      g (create_blocks g messages rows).
Proof.
  intros Hg Hrows. unfold create_blocks.
  apply (each_row_fit (fun g (r : nat * Z) => has_label g (fst r) L_MessageBlock)
           (fun g (p : nat * nat) =>
              has_label g (fst p) L_MessageBlock
              /\ has_label g (snd p) L_MessageBlock));
    try assumption.
  - intros s s' r Hgr H. now apply Hgr.
  - intros s s' p Hgr [H1 H2]. split; now apply Hgr.
  - intros s [key idx] Hs Hkey. cbn [fst] in Hkey.
    destruct (sound_create_node s
                (MessageBlock idx (msg_role messages idx)
                   (msg_content messages idx)) Hs) as (H1 & H2 & H3).
    cbn [create_node fst snd] in *. unfold fit. cbn [fst snd].
    split; [exact H1|]. split; [exact H2|].
    constructor; [|constructor]. cbn [fst snd]. split; [now apply H2 | exact H3].
Qed.

Lemma link_consecutive_sound g g' rows :
  sound g -> Forall (are_a L_MessageBlock g) rows ->
  link_consecutive g rows = Ok g' -> sound g' /\ grows g g'.
Proof.
  intros Hg Hrows. unfold link_consecutive, res_bind.
  set (pairs := flat_map _ rows).
  destruct (for_rows _ g pairs) as [[g1 u]|] eqn:E; [|discriminate].
  intros H. inversion H; subst g'. clear H.
  assert (Hpairs : Forall (fun p => maybe_a L_MessageBlock g (fst p)
                                    /\ maybe_a L_MessageBlock g (snd p)) pairs).
  { apply Forall_forall. intros [c p] Hin. unfold pairs in Hin.
    apply in_flat_map in Hin as (l & Hl & Hin).
    apply in_map_iff in Hin as (idx & Heq & _). inversion Heq; subst. clear Heq.
    rewrite Forall_forall in Hrows. specialize (Hrows l Hl).
    unfold are_a in Hrows. rewrite Forall_forall in Hrows.
    cbn [fst snd]. split.
    - destruct (list_at l idx) as [x|] eqn:Ex; [|exact I].
      apply (Hrows x). eapply list_at_In; eauto.
    - destruct (list_at l (idx - 1)) as [x|] eqn:Ex; [|exact I].
      apply (Hrows x). eapply list_at_In; eauto. }
  refine (for_rows_fit
            (fun s (p : option nat * option nat) =>
               maybe_a L_MessageBlock s (fst p) /\ maybe_a L_MessageBlock s (snd p))
            _ _ _ pairs g g1 u Hg Hpairs E).
  - intros s s' [a b] Hgr [Ha Hb]. cbn [fst snd] in *.
    split; eapply stable_maybe_a; eauto.
  - intros s [[c|] [p|]] s' t Hs [Hc Hp] Hstep; cbn in Hstep; try discriminate.
    inversion Hstep; subst. cbn in Hc, Hp.
    now apply sound_create_rel.
Qed.

Lemma blocks_then_links_sound g g' messages (rows : list (nat * Z)) :
  sound g -> Forall (fun r => has_label g (fst r) L_MessageBlock) rows ->
  (let '(g1, made) := create_blocks g messages rows in
   link_consecutive g1
     (map (fun '(key, nodeList) => [key] ++ nodeList)
          (collect_by Nat.eqb made))) = Ok g' ->
  sound g' /\ grows g g'.
Proof.
  intros Hg Hrows.
  pose proof (create_blocks_fit g messages rows Hg Hrows) as Hfit.
  destruct (create_blocks g messages rows) as [g1 made].
  destruct Hfit as (Hs1 & Hg1 & Hmade). cbn [fst snd] in *.
  intros Hlink. apply link_consecutive_sound in Hlink; [| assumption |].
  - destruct Hlink as [Hs Hgr]. split; [assumption | eapply grows_trans; eauto].
  - pose proof (collect_by_fit Nat.eqb
                  (fun x => has_label g1 x L_MessageBlock)
                  (fun x => has_label g1 x L_MessageBlock) made Hmade) as Hc.
    apply Forall_forall. intros l Hl.
    apply in_map_iff in Hl as ([key nodeList] & <- & Hin).
    rewrite Forall_forall in Hc. destruct (Hc _ Hin) as [Hk Hv].
    cbn [fst snd] in *. unfold are_a. cbn [app]. constructor; assumption.
Qed.

Lemma match_interaction_label g org_id user_id interaction_id i :
  schema g -> In i (match_interaction g org_id user_id interaction_id) ->
  has_label g i L_Interaction.
Proof.
  intros Hs Hi. unfold match_interaction in Hi.
  refine (matched_label g _ L_Interaction i Hs _ Hi).
  intros n Hn. now destruct (n_data n).
Qed.

Lemma match_user_label g org_id user_id u :
  schema g -> In u (match_user g org_id user_id) -> has_label g u L_User.
Proof.
  intros Hs Hu. unfold match_user in Hu.
  refine (matched_label g _ L_User u Hs _ Hu).
  intros n Hn. now destruct (n_data n).
Qed.

Lemma match_memory_label g org_id user_id mid m :
  schema g -> In m (match_memory g org_id user_id mid) -> has_label g m L_Memory.
Proof.
  intros Hs Hm. unfold match_memory in Hm.
  refine (matched_label g _ L_Memory m Hs _ Hm).
  intros n Hn. now destruct (n_data n).
Qed.

Lemma match_org_label g org_id o :
  schema g -> In o (match_org g org_id) -> has_label g o L_Org.
Proof.
  intros Hs Ho. unfold match_org in Ho.
  refine (matched_label g _ L_Org o Hs _ Ho).
  intros n Hn. now destruct (n_data n).
Qed.

Lemma match_messages_label g org_id user_id interaction_id :
  schema g ->
  Forall (fun '(i, _, m) => has_label g i L_Interaction
                            /\ has_label g m L_MessageBlock)
         (match_messages g org_id user_id interaction_id).
Proof.
  intros Hs. apply Forall_forall. intros [[i h] m] Hin.
  unfold match_messages in Hin. apply in_flat_map in Hin as (i' & Hi & Hin).
  apply in_map_iff in Hin as ([h' m'] & E & Hin). inversion E; subst.
  apply filter_In in Hin as [Hin _]. split.
  - now apply (match_interaction_label g org_id user_id interaction_id).
  - apply (var_length_label g [FIRST_MESSAGE; IS_NEXT] i (h, m) L_MessageBlock Hs);
      [|exact Hin].
    intros t [<-|[<-|[]]]; reflexivity.
Qed.

Lemma from_top_sound g g' org_id user_id interaction_id messages :
  sound g ->
  _add_messages_to_interaction_from_top g org_id user_id interaction_id messages
    = Ok g' ->
  sound g' /\ grows g g'.
Proof.
  intros Hg. unfold _add_messages_to_interaction_from_top.
  set (ok2 := fun s (p : nat * nat) =>
                has_label s (fst p) L_Interaction
                /\ has_label s (snd p) L_MessageBlock).
  assert (S2 : stable ok2).
  { intros s s' p Hgr [H1 H2]. split; now apply Hgr. }
  clause_fit (is_a L_Interaction) ok2 g1 rows1 Hs1 Hg1 Hrows1;
    try assumption; try apply stable_is_a.
  { intros s i Hs Hi.
    destruct (sound_create_node s
                (MessageBlock 0 (msg_role messages 0) (msg_content messages 0))
                Hs) as (H1 & H2 & H3).
    cbn [create_node fst snd] in *. unfold fit. cbn [fst snd].
    split; [exact H1|]. split; [exact H2|].
    constructor; [|constructor]. split; [now apply H2 | exact H3]. }
  { apply Forall_forall. intros i Hi.
    now apply (match_interaction_label g org_id user_id interaction_id i
                 (proj2 Hg)). }
  clause_fit ok2 (is_a L_MessageBlock) g2 rows2 Hs2 Hg2 Hrows2;
    try assumption; try apply stable_is_a.
  { intros s [i m] Hs [Hi Hm]. cbn [fst snd] in *.
    destruct (sound_create_rel s i FIRST_MESSAGE m Hs Hi Hm) as [H1 H2].
    unfold fit. cbn [fst snd]. split; [exact H1|]. split; [exact H2|].
    constructor; [|constructor]. now apply H2. }
  intros Hrest. apply blocks_then_links_sound in Hrest; [| assumption |].
  - destruct Hrest as [Hs Hgr]. split; [assumption|].
    eapply grows_trans; [exact Hg1|]. eapply grows_trans; eauto.
  - apply Forall_forall. intros [k idx] Hin.
    apply in_flat_map in Hin as (m & Hm & Hin).
    apply in_map_iff in Hin as (j & E & _). inversion E; subst.
    rewrite Forall_forall in Hrows2. now apply Hrows2.
Qed.

Lemma append_sound g g' org_id user_id interaction_id messages :
  sound g ->
  _append_messages_to_interaction g org_id user_id interaction_id messages
    = Ok g' ->
  sound g' /\ grows g g'.
Proof.
  intros Hg. unfold _append_messages_to_interaction.
  intros Hrest. apply blocks_then_links_sound in Hrest; [assumption.. |].
  apply Forall_forall. intros [k idx] Hin.
  apply in_flat_map in Hin as ([[i h] m] & Hm & Hin).
  apply filter_In in Hm as [Hm _].
  destruct (position_of g m); [|contradiction].
  apply in_map_iff in Hin as (j & E & _). inversion E; subst.
  pose proof (match_messages_label g org_id user_id interaction_id (proj2 Hg))
    as Hall.
  rewrite Forall_forall in Hall. now destruct (Hall _ Hm).
Qed.

Lemma truncate_sound g org_id user_id interaction_id k :
  sound g -> sound (truncate_messages g org_id user_id interaction_id k).
Proof. intros Hg. now apply sound_detach_delete. Qed.

(** ** The queries that write memories *)

Lemma add_memories_sound g g' org_id user_id agent_id interaction_id mi ids cids :
  sound g ->
  _add_memories_with_their_source_links g org_id user_id agent_id
    interaction_id mi ids cids = Ok g' ->
  sound g' /\ grows g g'.
Proof.
  intros Hg. unfold _add_memories_with_their_source_links.
  set (ok0 := fun s (r : nat * nat * list nat * (string * string * list Z)) =>
                let '(i, mc, messages, _) := r in
                has_label s i L_Interaction /\ has_label s mc L_MemoryCollection
                /\ are_a L_MessageBlock s messages).
  set (ok1 := fun s (r : nat * nat * list nat * list Z * nat) =>
                let '(i, mc, messages, _, mem) := r in
                has_label s i L_Interaction /\ has_label s mc L_MemoryCollection
                /\ are_a L_MessageBlock s messages /\ has_label s mem L_Memory).
  set (ok2 := fun s (r : nat * list nat * list Z * nat) =>
                let '(mc, messages, _, mem) := r in
                has_label s mc L_MemoryCollection
                /\ are_a L_MessageBlock s messages /\ has_label s mem L_Memory).
  set (ok3 := fun s (r : nat * list Z * list nat) =>
                let '(mem, _, messages) := r in
                has_label s mem L_Memory /\ are_a L_MessageBlock s messages).
  assert (S0 : stable ok0).
  { intros s s' [[[i mc] ms] t] Hgr (Hi & Hmc & Hms). unfold ok0.
    repeat split; try (now apply Hgr). eapply stable_are_a; eauto. }
  assert (S1 : stable ok1).
  { intros s s' [[[[i mc] ms] t] mem] Hgr (Hi & Hmc & Hms & Hmem). unfold ok1.
    repeat split; try (now apply Hgr). eapply stable_are_a; eauto. }
  assert (S2 : stable ok2).
  { intros s s' [[[mc ms] t] mem] Hgr (Hmc & Hms & Hmem). unfold ok2.
    repeat split; try (now apply Hgr). eapply stable_are_a; eauto. }
  assert (S3 : stable ok3).
  { intros s s' [[mem t] ms] Hgr (Hmem & Hms). unfold ok3.
    repeat split; try (now apply Hgr). eapply stable_are_a; eauto. }
  clause_fit ok0 ok1 g1 rows1 Hs1 Hg1 Hrows1; try assumption.
  { intros s [[[i mc] ms] [[mid txt] all_pos]] Hs (Hi & Hmc & Hms).
    destruct (sound_create_node s
                (Memory org_id user_id agent_id interaction_id mid txt
                   (interaction_date mi)) Hs) as (H1 & H2 & H3).
    cbn [create_node fst snd] in *. unfold fit. cbn [fst snd].
    split; [exact H1|]. split; [exact H2|].
    constructor; [|constructor]. unfold ok1.
    repeat split; try (now apply H2); [|exact H3].
    eapply stable_are_a; eauto. }
  { apply Forall_forall. intros [[[i mc] ms] t] Hin.
    apply in_flat_map in Hin as ([[i' mc'] ms'] & Hc & Hin).
    apply in_map_iff in Hin as (t' & E & _). inversion E; subst. clear E.
    pose proof (collect_by_fit pair_eqb
                  (fun k : nat * nat => has_label g (fst k) L_Interaction
                                        /\ has_label g (snd k) L_MemoryCollection)
                  (fun m => has_label g m L_MessageBlock)) as Hfit.
    match type of Hc with In _ (collect_by _ ?rows) =>
      specialize (Hfit rows) end.
    assert (Hfit' := Hfit ltac:(
      apply Forall_forall; intros [[a b] c] Hr;
      apply in_flat_map in Hr as ([[i0 h0] m0] & Hm0 & Hr);
      apply in_map_iff in Hr as (mc0 & E0 & Hmc0); inversion E0; subst;
      pose proof (match_messages_label g org_id user_id interaction_id
                    (proj2 Hg)) as Hall;
      rewrite Forall_forall in Hall; destruct (Hall _ Hm0) as [Hi0 Hm0'];
      apply in_flat_map in Hmc0 as (u & _ & Hmc0);
      apply (targets_label g u HAS_MEMORIES _ (proj2 Hg)) in Hmc0;
      cbn [fst snd]; repeat split; assumption)).
    rewrite Forall_forall in Hfit'.
    destruct (Hfit' _ Hc) as [[Hi Hmc] Hms]. cbn [fst snd] in *.
    unfold ok0. repeat split; assumption. }
  clause_fit ok1 ok2 g2 rows2 Hs2 Hg2 Hrows2; try assumption.
  { intros s [[[[i mc] ms] all_pos] mem] Hs (Hi & Hmc & Hms & Hmem).
    destruct (sound_create_rel s mem INTERACTION_SOURCE i Hs Hmem Hi)
      as [H1 H2].
    unfold fit. cbn [fst snd]. split; [exact H1|]. split; [exact H2|].
    constructor; [|constructor]. unfold ok2.
    repeat split; try (now apply H2). eapply stable_are_a; eauto. }
  clause_fit ok2 ok3 g3 rows3 Hs3 Hg3 Hrows3; try assumption.
  { intros s [[[mc ms] all_pos] mem] Hs (Hmc & Hms & Hmem).
    destruct (sound_create_rel s mc INCLUDES mem Hs Hmc Hmem) as [H1 H2].
    unfold fit. cbn [fst snd]. split; [exact H1|]. split; [exact H2|].
    constructor; [|constructor]. unfold ok3.
    repeat split; try (now apply H2). eapply stable_are_a; eauto. }
  unfold res_bind.
  match goal with
  | |- context [for_rows ?f ?g ?rows] =>
      destruct (for_rows f g rows) as [[g4 u]|] eqn:E; [|discriminate];
      assert (Hfit : sound g4 /\ grows g3 g4);
      [ refine (for_rows_fit
                  (fun s (p : option nat * nat) =>
                     maybe_a L_MessageBlock s (fst p)
                     /\ has_label s (snd p) L_Memory)
                  f _ _ rows g3 g4 u Hs3 _ E) |]
  end.
  - intros s s' [a b] Hgr [Ha Hb]. cbn [fst snd] in *.
    split; [eapply stable_maybe_a; eauto | now apply Hgr].
  - intros s [[c|] mem] s' t Hs [Hc Hm] Hstep; cbn in Hstep; try discriminate.
    inversion Hstep; subst. cbn in Hc, Hm.
    now apply sound_create_rel.
  - apply Forall_forall. intros [c mem] Hin.
    apply in_flat_map in Hin as ([[mem' all_pos] ms] & Hr & Hin).
    apply in_map_iff in Hin as (pos & E' & _). inversion E'; subst. clear E'.
    rewrite Forall_forall in Hrows3. destruct (Hrows3 _ Hr) as [Hmem Hms].
    cbn [fst snd]. split; [|assumption].
    destruct (list_at ms pos) as [x|] eqn:Ex; [|exact I].
    unfold are_a in Hms. rewrite Forall_forall in Hms.
    apply (Hms x). eapply list_at_In; eauto.
  - intros H. inversion H; subst g'. destruct Hfit as [Hs4 Hg4].
    split; [assumption|].
    eapply grows_trans; [exact Hg1|]. eapply grows_trans; [exact Hg2|].
    eapply grows_trans; eauto.
Qed.

Lemma link_contrary_sound g org_id user_id cids mi :
  sound g ->
  sound (_link_update_contrary_memories_to_existing_memories
           g org_id user_id cids mi)
  /\ grows g (_link_update_contrary_memories_to_existing_memories
                g org_id user_id cids mi).
Proof.
  intros Hg.
  unfold _link_update_contrary_memories_to_existing_memories, merge_contrary.
  apply (fold_fit (fun s (p : nat * nat) =>
                     has_label s (fst p) L_Memory /\ has_label s (snd p) L_Memory)
           (fun g '(new_contrary_memory, old_memory) =>
              merge_rel g old_memory CONTRARY_UPDATE new_contrary_memory));
    [| | assumption |].
  - intros s s' p Hgr [H1 H2]. split; now apply Hgr.
  - intros s [a b] Hs [Ha Hb]. cbn [fst snd] in *.
    now apply sound_merge_rel.
  - apply Forall_forall. intros [a b] Hin. unfold contrary_rows in Hin.
    apply in_flat_map in Hin as ([cid eid] & _ & Hin).
    apply in_flat_map in Hin as (a' & Ha & Hin).
    apply in_map_iff in Hin as (b' & E & Hb). inversion E; subst. clear E.
    split; cbn [fst snd]; eapply match_memory_label; eauto; apply Hg.
Qed.

(** ** The queries on the interaction node *)

Lemma merge_date_fit g org_id user_id day (i : nat) :
  sound g -> has_label g i L_Interaction ->
  fit (fun s (p : nat * nat) =>
         has_label s (fst p) L_Interaction /\ has_label s (snd p) L_Date)
      g (let '(g1, ds) := merge_date g org_id user_id day in
         (g1, map (fun d => (i, d)) ds)).
Proof.
  intros Hg Hi. destruct (sound_merge_date g org_id user_id day Hg)
    as (Hs & Hgr & Hds).
  destruct (merge_date g org_id user_id day) as [g1 ds]. cbn [fst snd] in *.
  unfold fit. cbn [fst snd]. split; [assumption | split; [assumption|]].
  apply Forall_forall. intros [i' d] Hin.
  apply in_map_iff in Hin as (d' & E & Hd). inversion E; subst.
  cbn [fst snd]. split; [now apply Hgr | now apply Hds].
Qed.

Lemma create_interaction_sound g org_id user_id agent_id interaction_id date :
  sound g ->
  sound (create_interaction g org_id user_id agent_id interaction_id date)
  /\ grows g (create_interaction g org_id user_id agent_id interaction_id date).
Proof.
  intros Hg. unfold create_interaction.
  set (ok0 := fun s (r : nat * nat) =>
                has_label s (fst r) L_User
                /\ has_label s (snd r) L_InteractionCollection).
  set (ok1 := fun s (r : nat * nat * nat) =>
                let '(u, ic, i) := r in
                has_label s u L_User /\ has_label s ic L_InteractionCollection
                /\ has_label s i L_Interaction).
  set (ok2 := fun s (r : nat * nat) =>
                has_label s (fst r) L_Interaction /\ has_label s (snd r) L_User).
  set (ok3 := fun s (p : nat * nat) =>
                has_label s (fst p) L_Interaction /\ has_label s (snd p) L_Date).
  assert (S0 : stable ok0).
  { intros s s' p Hgr [H1 H2]. split; now apply Hgr. }
  assert (S1 : stable ok1).
  { intros s s' [[u ic] i] Hgr (H1 & H2 & H3). unfold ok1.
    repeat split; now apply Hgr. }
  assert (S2 : stable ok2).
  { intros s s' p Hgr [H1 H2]. split; now apply Hgr. }
  assert (S3 : stable ok3).
  { intros s s' p Hgr [H1 H2]. split; now apply Hgr. }
  clause_fit ok0 ok1 g1 rows1 Hs1 Hg1 Hrows1; try assumption.
  { intros s [u ic] Hs [Hu Hic]. cbn [fst snd] in *.
    destruct (sound_create_node s
                (Interaction org_id user_id agent_id interaction_id date date)
                Hs) as (H1 & H2 & H3).
    cbn [create_node fst snd] in *. unfold fit. cbn [fst snd].
    split; [exact H1|]. split; [exact H2|].
    constructor; [|constructor]. unfold ok1.
    repeat split; try (now apply H2). exact H3. }
  { apply Forall_forall. intros [u ic] Hin.
    apply in_flat_map in Hin as (u' & Hu & Hin).
    apply in_map_iff in Hin as (ic' & E & Hic). inversion E; subst. clear E.
    split; cbn [fst snd].
    - eapply match_user_label; eauto. apply Hg.
    - apply (targets_label g u INTERACTIONS_IN ic (proj2 Hg) Hic). }
  clause_fit ok1 ok2 g2 rows2 Hs2 Hg2 Hrows2; try assumption.
  { intros s [[u ic] i] Hs (Hu & Hic & Hi).
    destruct (sound_create_rel s ic HAD_INTERACTION i Hs Hic Hi) as [H1 H2].
    unfold fit. cbn [fst snd]. split; [exact H1|]. split; [exact H2|].
    constructor; [|constructor]. split; cbn [fst snd]; now apply H2. }
  clause_fit ok2 ok3 g3 rows3 Hs3 Hg3 Hrows3; try assumption.
  { intros s [i u] Hs [Hi Hu]. cbn [fst snd] in *.
    now apply merge_date_fit. }
  match goal with
  | |- context [fold_left ?f rows3 g3] =>
      destruct (fold_fit ok3 f S3) with (rows := rows3) (g := g3)
        as [Hs4 Hg4]; try assumption
  end.
  { intros s [i d] Hs [Hi Hd]. cbn [fst snd] in *.
    now apply sound_create_rel. }
  split; [assumption|].
  eapply grows_trans; [exact Hg1|]. eapply grows_trans; [exact Hg2|].
  eapply grows_trans; eauto.
Qed.

Lemma touch_interaction_sound g org_id user_id agent_id interaction_id date :
  sound g ->
  sound (touch_interaction g org_id user_id agent_id interaction_id date)
  /\ grows g (touch_interaction g org_id user_id agent_id interaction_id date).
Proof.
  intros Hg. unfold touch_interaction.
  set (ok3 := fun s (p : nat * nat) =>
                has_label s (fst p) L_Interaction /\ has_label s (snd p) L_Date).
  assert (S3 : stable ok3).
  { intros s s' p Hgr [H1 H2]. split; now apply Hgr. }
  clause_fit (is_a L_Interaction) (is_a L_Interaction) g1 rows1 Hs1 Hg1 Hrows1;
    try assumption; try apply stable_is_a.
  { intros s i Hs Hi.
    match goal with
    | |- context [set_node s i ?f] =>
        destruct (sound_set_node s i f) as [H1 H2];
          [intros d; now destruct d | assumption |]
    end.
    unfold fit. cbn [fst snd]. split; [exact H1|]. split; [exact H2|].
    constructor; [|constructor]. now apply H2. }
  { apply Forall_forall. intros i Hi.
    eapply match_interaction_label; eauto. apply Hg. }
  clause_fit (is_a L_Interaction) ok3 g2 rows2 Hs2 Hg2 Hrows2;
    try assumption; try apply stable_is_a.
  { intros s i Hs Hi. now apply merge_date_fit. }
  match goal with
  | |- context [fold_left ?f rows2 g2] =>
      destruct (fold_fit ok3 f S3) with (rows := rows2) (g := g2)
        as [Hs4 Hg4]; try assumption
  end.
  { intros s [i d] Hs [Hi Hd]. cbn [fst snd] in *.
    now apply sound_merge_rel. }
  split; [assumption|].
  eapply grows_trans; [exact Hg1|]. eapply grows_trans; eauto.
Qed.

Lemma create_user_tx_sound g org_id user_id user_name now :
  sound g ->
  sound (create_user_tx g org_id user_id user_name now)
  /\ grows g (create_user_tx g org_id user_id user_name now).
Proof.
  intros Hg. unfold create_user_tx.
  set (ok1 := fun s (r : nat * nat) =>
                has_label s (fst r) L_Org /\ has_label s (snd r) L_User).
  set (ok3 := fun s (r : nat * nat) =>
                has_label s (fst r) L_User
                /\ has_label s (snd r) L_InteractionCollection).
  set (ok4 := fun s (r : nat * nat * nat) =>
                let '(u, ic, mc) := r in
                has_label s u L_User /\ has_label s ic L_InteractionCollection
                /\ has_label s mc L_MemoryCollection).
  set (ok5 := fun s (r : nat * nat) =>
                has_label s (fst r) L_User
                /\ has_label s (snd r) L_MemoryCollection).
  assert (S1 : stable ok1).
  { intros s s' p Hgr [H1 H2]. split; now apply Hgr. }
  assert (S3 : stable ok3).
  { intros s s' p Hgr [H1 H2]. split; now apply Hgr. }
  assert (S4 : stable ok4).
  { intros s s' [[u ic] mc] Hgr (H1 & H2 & H3). unfold ok4.
    repeat split; now apply Hgr. }
  assert (S5 : stable ok5).
  { intros s s' p Hgr [H1 H2]. split; now apply Hgr. }
  clause_fit (is_a L_Org) ok1 g1 rows1 Hs1 Hg1 Hrows1;
    try assumption; try apply stable_is_a.
  { intros s o Hs Ho.
    destruct (sound_create_node s (User org_id user_id user_name now) Hs)
      as (H1 & H2 & H3).
    cbn [create_node fst snd] in *. unfold fit. cbn [fst snd].
    split; [exact H1|]. split; [exact H2|].
    constructor; [|constructor]. split; cbn [fst snd];
      [now apply H2 | exact H3]. }
  { apply Forall_forall. intros o Ho.
    refine (matched_label g _ L_Org o (proj2 Hg) _ Ho).
    intros n Hn. now destruct (n_data n). }
  clause_fit ok1 (is_a L_User) g2 rows2 Hs2 Hg2 Hrows2;
    try assumption; try apply stable_is_a.
  { intros s [o u] Hs [Ho Hu]. cbn [fst snd] in *.
    destruct (sound_create_rel s u BELONGS_TO o Hs Hu Ho) as [H1 H2].
    unfold fit. cbn [fst snd]. split; [exact H1|]. split; [exact H2|].
    constructor; [|constructor]. now apply H2. }
  clause_fit (is_a L_User) ok3 g3 rows3 Hs3 Hg3 Hrows3;
    try assumption; try apply stable_is_a.
  { intros s u Hs Hu.
    destruct (sound_create_node s (InteractionCollection org_id user_id) Hs)
      as (H1 & H2 & H3).
    cbn [create_node fst snd] in *. unfold fit. cbn [fst snd].
    split; [exact H1|]. split; [exact H2|].
    constructor; [|constructor]. split; cbn [fst snd];
      [now apply H2 | exact H3]. }
  clause_fit ok3 ok4 g4 rows4 Hs4 Hg4 Hrows4; try assumption.
  { intros s [u ic] Hs [Hu Hic]. cbn [fst snd] in *.
    destruct (sound_create_node s (MemoryCollection org_id user_id) Hs)
      as (H1 & H2 & H3).
    cbn [create_node fst snd] in *. unfold fit. cbn [fst snd].
    split; [exact H1|]. split; [exact H2|].
    constructor; [|constructor]. unfold ok4.
    repeat split; try (now apply H2). exact H3. }
  clause_fit ok4 ok5 g5 rows5 Hs5 Hg5 Hrows5; try assumption.
  { intros s [[u ic] mc] Hs (Hu & Hic & Hmc).
    destruct (sound_create_rel s u INTERACTIONS_IN ic Hs Hu Hic) as [H1 H2].
    unfold fit. cbn [fst snd]. split; [exact H1|]. split; [exact H2|].
    constructor; [|constructor]. split; cbn [fst snd]; now apply H2. }
  match goal with
  | |- context [fold_left ?f rows5 g5] =>
      destruct (fold_fit ok5 f S5) with (rows := rows5) (g := g5)
        as [Hs6 Hg6]; try assumption
  end.
  { intros s [u mc] Hs [Hu Hmc]. cbn [fst snd] in *.
    now apply sound_create_rel. }
  split; [assumption|].
  eapply grows_trans; [exact Hg1|]. eapply grows_trans; [exact Hg2|].
  eapply grows_trans; [exact Hg3|]. eapply grows_trans; [exact Hg4|].
  eapply grows_trans; eauto.
Qed.

(** * What the methods leave of a sound store *)

Lemma sound_empty_graph : sound empty_graph.
Proof.
  split; [apply wf_empty_graph|]. split; [constructor | intros e []].
Qed.

Section Steady.

Variable R : graph -> graph -> Prop.
Hypothesis R_refl : forall g, R g g.
Hypothesis R_trans : forall g1 g2 g3, R g1 g2 -> R g2 g3 -> R g1 g3.

Lemma steady_ret {A} (a : A) : steady R (tx_ret a).
Proof. intros w Hw. split; [exact Hw | apply R_refl]. Qed.

Lemma steady_bind {A B} (m : tx A) (k : A -> tx B) :
  steady R m -> (forall a, steady R (k a)) -> steady R (tx_bind m k).
Proof.
  intros Hm Hk w Hw. unfold tx_bind. destruct (Hm w Hw) as [H1 H2].
  destruct (m w) as [w1 [a|e]]; cbn [fst] in *; [|now split].
  destruct (Hk a w1 H1) as [H3 H4]. split; [assumption|].
  eapply R_trans; eauto.
Qed.

Lemma steady_run (q : graph -> res graph) :
  (forall g g', sound g -> q g = Ok g' -> sound g' /\ R g g') ->
  steady R (tx_run q).
Proof.
  intros Hq w Hw. unfold tx_run. destruct (q (db w)) as [g'|e] eqn:E; cbn.
  - now apply (Hq (db w)).
  - split; [assumption | apply R_refl].
Qed.

Lemma steady_run_total (q : graph -> graph) :
  (forall g, sound g -> sound (q g) /\ R g (q g)) ->
  steady R (tx_run (fun g => Ok (q g))).
Proof.
  intros Hq. apply steady_run. intros g g' Hg E. inversion E; subst.
  now apply Hq.
Qed.

Lemma steady_await fn c : steady R (await fn c).
Proof. intros w Hw. split; [exact Hw | apply R_refl]. Qed.

Lemma steady_when b m : steady R m -> steady R (tx_when b m).
Proof. intros Hm. destruct b; [exact Hm | apply steady_ret]. Qed.

Lemma steady_execute_write {A} (work : tx A) :
  steady R work -> steady R (execute_write work).
Proof.
  intros Hm w Hw. unfold execute_write. destruct (Hm w Hw) as [H1 H2].
  destruct (work w) as [w1 [a|e]]; cbn [fst db] in *.
  - now split.
  - split; [assumption | apply R_refl].
Qed.

(** What the queries of the two writing methods do, one by one. *)
Hypothesis R_create_interaction :
  forall g org_id user_id agent_id interaction_id date, sound g ->
    R g (create_interaction g org_id user_id agent_id interaction_id date).
Hypothesis R_from_top :
  forall g g' org_id user_id interaction_id messages, sound g ->
    _add_messages_to_interaction_from_top g org_id user_id interaction_id
      messages = Ok g' -> R g g'.
Hypothesis R_append :
  forall g g' org_id user_id interaction_id messages, sound g ->
    _append_messages_to_interaction g org_id user_id interaction_id messages
    = Ok g' -> R g g'.
Hypothesis R_truncate :
  forall g org_id user_id interaction_id k, sound g ->
    R g (truncate_messages g org_id user_id interaction_id k).
Hypothesis R_add_memories :
  forall g g' org_id user_id agent_id interaction_id mi ids cids, sound g ->
    _add_memories_with_their_source_links g org_id user_id agent_id
      interaction_id mi ids cids = Ok g' -> R g g'.
Hypothesis R_link :
  forall g org_id user_id cids mi, sound g ->
    R g (_link_update_contrary_memories_to_existing_memories g org_id user_id
           cids mi).
Hypothesis R_touch :
  forall g org_id user_id agent_id interaction_id date, sound g ->
    R g (touch_interaction g org_id user_id agent_id interaction_id date).

Lemma update_chain_steady org_id user_id interaction_id incoming k g g' :
  sound g ->
  update_chain org_id user_id interaction_id incoming k g = Ok g' ->
  sound g' /\ R g g'.
Proof.
  intros Hg. unfold update_chain.
  destruct (k =? -1).
  { intros H. split; [now apply append_sound in H as [H _] | eauto]. }
  destruct (k =? 0).
  { intros H. split; [now apply from_top_sound in H as [H _] | eauto]. }
  destruct (k >? 0).
  - intros H.
    pose proof (truncate_sound g org_id user_id interaction_id k Hg) as Ht.
    split; [now apply append_sound in H as [H _]|].
    eapply R_trans; [apply R_truncate; assumption|]. eauto.
  - intros H. inversion H; subst. split; [assumption | apply R_refl].
Qed.

Lemma save_steady org_id agent_id user_id rnd mi fn :
  steady R (save_interaction_with_memories org_id agent_id user_id rnd mi fn).
Proof.
  unfold save_interaction_with_memories.
  apply steady_execute_write. unfold save_tx.
  apply steady_bind; [|intros _].
  { apply steady_run_total. intros g Hg.
    split; [now apply create_interaction_sound | now apply R_create_interaction]. }
  apply steady_bind; [|intros _].
  { apply steady_run. intros g g' Hg H.
    split; [now apply from_top_sound in H as [H _] | eauto]. }
  apply steady_bind; [|intros _].
  { apply steady_when, steady_run. intros g g' Hg H.
    split; [now apply add_memories_sound in H as [H _] | eauto]. }
  apply steady_bind; [|intros _].
  { apply steady_when, steady_run_total. intros g Hg.
    split; [now apply link_contrary_sound | now apply R_link]. }
  apply steady_bind; [|intros _].
  { apply steady_when, steady_await. }
  apply steady_ret.
Qed.

Lemma update_steady org_id agent_id user_id rnd interaction_id mi fn :
  steady R (update_interaction_and_memories org_id agent_id user_id rnd
              interaction_id mi fn).
Proof.
  intros w Hw. unfold update_interaction_and_memories.
  destruct (compute_truncate_from _ _) as [k|e];
    [|split; [exact Hw | apply R_refl]].
  apply steady_execute_write; [|exact Hw]. unfold update_tx.
  apply steady_bind; [|intros _].
  { apply steady_run. intros g g' Hg H. now apply update_chain_steady in H. }
  apply steady_bind; [|intros _].
  { apply steady_when, steady_run. intros g g' Hg H.
    split; [now apply add_memories_sound in H as [H _] | eauto]. }
  apply steady_bind; [|intros _].
  { apply steady_when, steady_run_total. intros g Hg.
    split; [now apply link_contrary_sound | now apply R_link]. }
  apply steady_bind; [|intros _].
  { apply steady_run_total. intros g Hg.
    split; [now apply touch_interaction_sound | now apply R_touch]. }
  apply steady_bind; [|intros _].
  { apply steady_when, steady_await. }
  apply steady_ret.
Qed.

(** The two deleting methods, from what their one query does. *)
Lemma delete_steady org_id user_id interaction_id fn :
  (forall g, sound g -> R g (delete_interaction g org_id user_id interaction_id)) ->
  steady R (delete_user_interaction_and_its_memories org_id user_id
              interaction_id fn).
Proof.
  intros HR. unfold delete_user_interaction_and_its_memories.
  intros w. apply steady_execute_write. unfold delete_tx.
  apply steady_bind; [|intros _; apply steady_await].
  apply steady_run_total. intros g Hg.
  split; [now apply sound_detach_delete | now apply HR].
Qed.

Lemma delete_all_steady org_id user_id fn :
  (forall g, sound g -> R g (delete_all_interactions g org_id user_id)) ->
  steady R (delete_all_user_interactions_and_their_memories org_id user_id fn).
Proof.
  intros HR. unfold delete_all_user_interactions_and_their_memories.
  apply steady_execute_write.
  apply steady_bind; [|intros _; apply steady_await].
  apply steady_run_total. intros g Hg.
  split; [now apply sound_detach_delete | now apply HR].
Qed.

End Steady.

Lemma create_user_sound rnd org_id user_name now w :
  sound (db w) -> sound (db (fst (create_user rnd org_id user_name now w))).
Proof.
  intros Hw. unfold create_user.
  pose proof (create_user_query_graph (db w) org_id (shortuuid_uuid rnd)
                user_name now) as Hq.
  destruct (create_user_query (db w) org_id (shortuuid_uuid rnd) user_name now)
    as [g records]. cbn [fst] in Hq.
  destruct (single records); cbn [fst db]; [|exact Hw].
  subst g. now apply create_user_tx_sound.
Qed.

Lemma delete_user_sound org_id user_id w :
  sound (db w) -> sound (db (fst (delete_user org_id user_id w))).
Proof.
  intros Hw. unfold delete_user, execute_write, tx_run. cbn [fst db].
  now apply sound_detach_delete.
Qed.

(** X13: The methods of both classes keep the schema of the graph.  In a
    store where node identities are unique and every relationship joins two
    existing nodes that carry the labels of its type (a User to its Org and
    its collections, a collection to its interactions or memories, an
    interaction to its first message and its dates, a message to the next,
    a memory to its interaction, its messages and the memory it
    contradicts), every call of a method leaves such a store again,
    whatever its arguments and callbacks and whether it returns or raises.
    The empty graph is such a store ([sound_empty_graph]). *)
Theorem methods_keep_schema (org_id agent_id user_id : string) (w : world) :
  sound (db w) ->
  (forall rnd mi fn,
     sound (db (fst (save_interaction_with_memories org_id agent_id user_id
                       rnd mi fn w))))
  /\ (forall rnd interaction_id mi fn,
        sound (db (fst (update_interaction_and_memories org_id agent_id user_id
                          rnd interaction_id mi fn w))))
  /\ (forall interaction_id fn,
        sound (db (fst (delete_user_interaction_and_its_memories org_id user_id
                          interaction_id fn w))))
  /\ (forall fn,
        sound (db (fst (delete_all_user_interactions_and_their_memories
                          org_id user_id fn w))))
  /\ (forall rnd user_name now,
        sound (db (fst (create_user rnd org_id user_name now w))))
  /\ sound (db (fst (delete_user org_id user_id w))).
Proof.
  intros Hw.
  set (R := fun _ _ : graph => True).
  split; [|split; [|split; [|split; [|split]]]].
  - intros rnd mi fn.
    now apply (save_steady R); unfold R; auto.
  - intros rnd interaction_id mi fn.
    now apply (update_steady R); unfold R; auto.
  - intros interaction_id fn.
    now apply (delete_steady R); unfold R; auto.
  - intros fn.
    now apply (delete_all_steady R); unfold R; auto.
  - intros rnd user_name now. now apply create_user_sound.
  - now apply delete_user_sound.
Qed.

(** * What DETACH DELETE leaves *)

Lemma in_optional {A} (l : list A) a : In (Some a) (optional l) -> In a l.
Proof.
  destruct l as [|b l]; cbn [optional].
  - intros [H|[]]. discriminate.
  - intros H. apply in_map_iff in H as (x & E & Hx). now inversion E; subst.
Qed.

Lemma in_optional_from x next a :
  In (Some a) (optional_from x next) -> exists y, x = Some y /\ In a (next y).
Proof.
  destruct x as [y|]; cbn [optional_from].
  - intros H. exists y. split; [reflexivity | now apply in_optional].
  - intros [H|[]]. discriminate.
Qed.

Lemma labelled_in_incl ls ls' g dead :
  incl ls ls' -> labelled_in ls g dead -> labelled_in ls' g dead.
Proof.
  intros Hi Hd x Hx. destruct (Hd x Hx) as (l & Hl & Hin).
  exists l. split; [assumption | now apply Hi].
Qed.

Lemma spared_alive ls g dead x :
  labelled_in ls g dead -> spared ls g x -> ~ In x dead.
Proof.
  intros Hd (l & Hl & Hn) Hx. destruct (Hd x Hx) as (l' & Hl' & Hin).
  apply Hn. now rewrite (has_label_unique g x l l' Hl Hl').
Qed.

Lemma has_label_own g n :
  schema g -> In n (nodes g) -> has_label g (n_id n) (label_of (n_data n)).
Proof.
  intros Hs Hn. unfold has_label. now rewrite (node_of_own g n Hs Hn).
Qed.

Lemma node_alive ls g dead n :
  schema g -> labelled_in ls g dead -> In n (nodes g) ->
  ~ In (label_of (n_data n)) ls -> mem_nat (n_id n) dead = false.
Proof.
  intros Hs Hd Hn Hl. apply mem_nat_not_In. apply (spared_alive ls g); [assumption|].
  exists (label_of (n_data n)). split; [now apply has_label_own | assumption].
Qed.

Lemma rel_alive ls g dead e :
  schema g -> labelled_in ls g dead -> In e (rels g) ->
  ~ In (source_label (r_ty e)) ls -> ~ In (target_label (r_ty e)) ls ->
  negb (mem_nat (r_src e) dead) && negb (mem_nat (r_dst e) dead) = true.
Proof.
  intros Hs Hd He Hsrc Hdst. destruct (schema_ends g Hs e He) as [Ha Hb].
  assert (Ea : mem_nat (r_src e) dead = false).
  { apply mem_nat_not_In, (spared_alive ls g); [assumption|].
    now exists (source_label (r_ty e)). }
  assert (Eb : mem_nat (r_dst e) dead = false).
  { apply mem_nat_not_In, (spared_alive ls g); [assumption|].
    now exists (target_label (r_ty e)). }
  now rewrite Ea, Eb.
Qed.

Lemma deletes_only_refl ls g : deletes_only ls g g.
Proof. repeat split; auto. Qed.

Lemma detach_deletes_only ls g dead :
  labelled_in ls g dead -> deletes_only ls g (detach_delete g dead).
Proof.
  intros Hd. split; [|split; [|split]].
  - intros x Hx. apply node_of_detach_alive. now apply (spared_alive ls g).
  - intros e He Ha Hb. unfold detach_delete. cbn [rels].
    apply filter_In. split; [assumption|].
    apply (spared_alive ls g dead) in Ha, Hb; try assumption.
    apply mem_nat_not_In in Ha, Hb. now rewrite Ha, Hb.
  - intros e He. unfold detach_delete in He. cbn [rels] in He.
    now apply filter_In in He as [He _].
  - intros x d Hx. destruct (in_dec Nat.eq_dec x dead) as [Hin|Hout].
    + rewrite (node_of_detach_dead g dead x Hin) in Hx. discriminate.
    + now rewrite (node_of_detach_alive g dead x Hout) in Hx.
Qed.

(** ** The nodes each deleting query lists *)

Lemma is_MessageBlock_label g x :
  is_MessageBlock g x = true -> has_label g x L_MessageBlock.
Proof.
  unfold is_MessageBlock, has_label.
  destruct (node_of g x) as [[]|]; try discriminate. reflexivity.
Qed.

Lemma is_Memory_label g x : is_Memory g x = true -> has_label g x L_Memory.
Proof.
  unfold is_Memory, has_label.
  destruct (node_of g x) as [[]|]; try discriminate. reflexivity.
Qed.

Lemma is_Date_label g x : is_Date g x = true -> has_label g x L_Date.
Proof.
  unfold is_Date, has_label.
  destruct (node_of g x) as [[]|]; try discriminate. reflexivity.
Qed.

Lemma is_Interaction_label g x :
  is_Interaction g x = true -> has_label g x L_Interaction.
Proof.
  unfold is_Interaction, has_label.
  destruct (node_of g x) as [[]|]; try discriminate. reflexivity.
Qed.

Lemma sources_end_label g x t y :
  schema g -> In y (sources g x t) -> has_label g x (target_label t).
Proof.
  intros Hs Hy. unfold sources in Hy.
  apply in_map_iff in Hy as (e & _ & He). apply filter_In in He as [He Hf].
  apply andb_true_iff in Hf as [Hx Ht].
  apply Nat.eqb_eq in Hx. subst x.
  destruct (schema_ends g Hs e He) as [_ Hd].
  destruct (r_ty e), t; try discriminate; exact Hd.
Qed.

Lemma targets_start_label g x t y :
  schema g -> In y (targets g x t) -> has_label g x (source_label t).
Proof.
  intros Hs Hy. unfold targets in Hy.
  apply in_map_iff in Hy as (e & _ & He). apply filter_In in He as [He Hf].
  apply andb_true_iff in Hf as [Hx Ht].
  apply Nat.eqb_eq in Hx. subst x.
  destruct (schema_ends g Hs e He) as [Hd _].
  destruct (r_ty e), t; try discriminate; exact Hd.
Qed.

(** In a sound store no memory is ever bound by the OPTIONAL MATCH of the
    delete query: a MESSAGE_SOURCE relationship ends at a MessageBlock, not
    at the interaction. *)
Lemma delete_rows_no_memory g org_id user_id interaction_id i m mem date :
  schema g ->
  In (i, m, mem, date) (delete_rows g org_id user_id interaction_id) ->
  mem = None.
Proof.
  intros Hs H. unfold delete_rows in H.
  apply in_flat_map in H as ([[i' h] m'] & Hm & H).
  apply in_flat_map in H as (mem' & Hmem & H).
  apply in_map_iff in H as (d & E & _). inversion E; subst. clear E.
  destruct mem as [x|]; [|reflexivity]. exfalso.
  apply in_optional in Hmem.
  apply (sources_end_label g i MESSAGE_SOURCE x Hs) in Hmem.
  pose proof (match_messages_label g org_id user_id interaction_id Hs) as Hall.
  rewrite Forall_forall in Hall. destruct (Hall _ Hm) as [Hi _].
  pose proof (has_label_unique g i _ _ Hi Hmem) as E. discriminate.
Qed.

Lemma delete_interaction_dead g org_id user_id interaction_id :
  schema g ->
  labelled_in [L_Interaction; L_MessageBlock] g
    (flat_map (fun '(i, message, mem, date) =>
                 [i; message] ++ opt_list mem ++ opt_list date)
       (delete_rows g org_id user_id interaction_id)).
Proof.
  intros Hs x Hx. apply in_flat_map in Hx as ([[[i m] mem] date] & Hrow & Hx).
  pose proof (delete_rows_no_memory g _ _ _ i m mem date Hs Hrow) as Em.
  pose proof (delete_rows_no_date g _ _ _ _ Hrow) as Ed. cbn [snd] in Ed.
  subst mem date. cbn [opt_list app] in Hx.
  unfold delete_rows in Hrow.
  apply in_flat_map in Hrow as ([[i' h] m'] & Hm & Hrow).
  apply in_flat_map in Hrow as (mem' & _ & Hrow).
  apply in_map_iff in Hrow as (d & E & _). inversion E; subst. clear E.
  pose proof (match_messages_label g org_id user_id interaction_id Hs) as Hall.
  rewrite Forall_forall in Hall. destruct (Hall _ Hm) as [Hi Hb].
  destruct Hx as [<-|[<-|[]]].
  - exists L_Interaction. split; [assumption | now left].
  - exists L_MessageBlock. split; [assumption | right; now left].
Qed.

Lemma truncate_dead g org_id user_id interaction_id k :
  schema g ->
  labelled_in [L_MessageBlock] g
    (flat_map (fun '(_, _, m) => map snd (var_length g [IS_NEXT] m))
       (filter (fun '(_, hops, _) => Z.of_nat hops =? k)
               (match_messages g org_id user_id interaction_id))).
Proof.
  intros Hs x Hx. apply in_flat_map in Hx as ([[i h] m] & _ & Hx).
  apply in_map_iff in Hx as (p & <- & Hp).
  exists L_MessageBlock. split; [|now left].
  apply (var_length_label g [IS_NEXT] m p L_MessageBlock Hs); [|exact Hp].
  intros t [<-|[]]. reflexivity.
Qed.

Lemma delete_all_dead g org_id user_id :
  exists dead,
    delete_all_interactions g org_id user_id = detach_delete g dead
    /\ labelled_in content_labels g dead.
Proof.
  eexists. split; [reflexivity|].
  intros x Hx. apply in_concat in Hx as (row & Hrow & Hx).
  apply in_flat_map in Hrow as (i & Hi & Hrow).
  apply in_flat_map in Hrow as (mem & Hmem & Hrow).
  apply in_flat_map in Hrow as (date & Hdate & Hrow).
  apply in_map_iff in Hrow as (msg & <- & Hmsg).
  apply in_flat_map in Hi as (u & _ & Hi).
  apply in_flat_map in Hi as (ic & _ & Hi).
  apply filter_In in Hi as [_ Hi]. apply is_Interaction_label in Hi.
  unfold content_labels.
  apply in_app_or in Hx as [[<-|[]]|Hx].
  { exists L_Interaction. split; [assumption | now left]. }
  apply in_app_or in Hx as [Hx|Hx].
  { destruct mem as [y|]; [|contradiction]. destruct Hx as [<-|[]].
    apply in_optional, filter_In in Hmem as [_ Hy].
    apply is_Memory_label in Hy.
    exists L_Memory. split; [assumption | cbn; auto]. }
  apply in_app_or in Hx as [Hx|Hx].
  { destruct date as [y|]; [|contradiction]. destruct Hx as [<-|[]].
    apply in_optional, filter_In in Hdate as [_ Hy].
    apply is_Date_label in Hy.
    exists L_Date. split; [assumption | cbn; auto]. }
  destruct msg as [y|]; [|contradiction]. destruct Hx as [<-|[]].
  apply in_optional in Hmsg. apply in_map_iff in Hmsg as (p & <- & Hp).
  apply filter_In in Hp as [_ Hy]. apply is_MessageBlock_label in Hy.
  exists L_MessageBlock. split; [assumption | cbn; auto].
Qed.

Lemma delete_user_dead g org_id user_id :
  schema g ->
  labelled_in [L_User; L_InteractionCollection; L_Interaction; L_MessageBlock;
               L_MemoryCollection; L_Memory; L_Date] g
    (flat_map (fun row => flat_map opt_list row)
              (delete_user_rows g org_id user_id)).
Proof.
  intros Hs x Hx. apply in_flat_map in Hx as (row & Hrow & Hx).
  apply in_flat_map in Hx as (o & Ho & Hx).
  unfold delete_user_rows in Hrow.
  apply in_flat_map in Hrow as (u & Hu & Hrow).
  apply in_flat_map in Hrow as (ic & Hic & Hrow).
  apply in_flat_map in Hrow as (i & Hi & Hrow).
  apply in_flat_map in Hrow as (m & Hm & Hrow).
  apply in_flat_map in Hrow as (mc & Hmc & Hrow).
  apply in_flat_map in Hrow as (mem & Hmem & Hrow).
  apply in_map_iff in Hrow as (d & <- & Hd).
  destruct Ho as [<-|[<-|[<-|[<-|[<-|[<-|[<-|[]]]]]]]].
  - destruct Hx as [<-|[]].
    exists L_User. split; [|cbn; auto 10].
    now apply (match_user_label g org_id user_id).
  - destruct ic as [y|]; [|contradiction]. destruct Hx as [<-|[]].
    exists L_InteractionCollection. split; [|cbn; auto 10].
    apply in_optional in Hic.
    apply (targets_label g u INTERACTIONS_IN y Hs Hic).
  - destruct i as [y|]; [|contradiction]. destruct Hx as [<-|[]].
    exists L_Interaction. split; [|cbn; auto 10].
    apply in_optional_from in Hi as (c & _ & Hi).
    apply (targets_label g c HAD_INTERACTION y Hs Hi).
  - destruct m as [y|]; [|contradiction]. destruct Hx as [<-|[]].
    exists L_MessageBlock. split; [|cbn; auto 10].
    apply in_optional_from in Hm as (c & _ & Hm).
    apply in_map_iff in Hm as (p & <- & Hp).
    apply (var_length_label g [FIRST_MESSAGE; IS_NEXT] c p L_MessageBlock Hs);
      [|exact Hp].
    intros t [<-|[<-|[]]]; reflexivity.
  - destruct mc as [y|]; [|contradiction]. destruct Hx as [<-|[]].
    exists L_MemoryCollection. split; [|cbn; auto 10].
    apply in_optional in Hmc.
    apply (targets_label g u HAS_MEMORIES y Hs Hmc).
  - destruct mem as [y|]; [|contradiction]. destruct Hx as [<-|[]].
    exists L_Memory. split; [|cbn; auto 10].
    apply in_optional_from in Hmem as (c & _ & Hmem).
    apply (targets_label g c INCLUDES y Hs Hmem).
  - destruct d as [y|]; [|contradiction]. destruct Hx as [<-|[]].
    exists L_Date. split; [|cbn; auto 10].
    apply in_optional_from in Hd as (c & _ & Hd).
    apply (targets_label g c HAS_OCCURRENCE_ON y Hs Hd).
Qed.

(** ** The accounts across a deletion of content nodes *)

Lemma same_accounts_detach g dead :
  schema g -> labelled_in content_labels g dead ->
  same_accounts g (detach_delete g dead).
Proof.
  intros Hs Hd. unfold same_accounts. split; [|split; [|split]].
  - intros o. unfold match_org, detach_delete. cbn [nodes]. f_equal.
    apply filter_filter_absorb. intros n Hn Hp.
    rewrite (node_alive content_labels g dead n Hs Hd Hn); [reflexivity|].
    destruct (n_data n); try discriminate. cbn. intuition discriminate.
  - intros o u. unfold match_user, detach_delete. cbn [nodes]. f_equal.
    apply filter_filter_absorb. intros n Hn Hp.
    rewrite (node_alive content_labels g dead n Hs Hd Hn); [reflexivity|].
    destruct (n_data n); try discriminate. cbn. intuition discriminate.
  - unfold detach_delete. cbn [rels].
    apply filter_filter_absorb. intros e He Hp.
    apply (rel_alive content_labels g dead e Hs Hd He);
      destruct (r_ty e); try discriminate; cbn; intuition discriminate.
  - intros x. unfold user_row_of.
    destruct (in_dec Nat.eq_dec x dead) as [Hin|Hout].
    + rewrite (node_of_detach_dead g dead x Hin).
      destruct (Hd x Hin) as (l & Hl & Hc). unfold has_label in Hl.
      destruct (node_of g x) as [d|]; [|reflexivity].
      cbn in Hl. inversion Hl; subst.
      destruct d; try reflexivity. cbn in Hc. intuition discriminate.
    + now rewrite (node_of_detach_alive g dead x Hout).
Qed.

Lemma accounts_truncate g org_id user_id interaction_id k :
  schema g ->
  same_accounts g (truncate_messages g org_id user_id interaction_id k).
Proof.
  intros Hs. unfold truncate_messages. apply same_accounts_detach; [assumption|].
  eapply labelled_in_incl; [|now apply truncate_dead].
  intros l [<-|[]]. cbn. auto.
Qed.

Lemma accounts_delete_interaction g org_id user_id interaction_id :
  schema g ->
  same_accounts g (delete_interaction g org_id user_id interaction_id).
Proof.
  intros Hs. unfold delete_interaction. apply same_accounts_detach; [assumption|].
  eapply labelled_in_incl; [|now apply delete_interaction_dead].
  intros l [<-|[<-|[]]]; cbn; auto.
Qed.

Lemma accounts_delete_all g org_id user_id :
  schema g -> same_accounts g (delete_all_interactions g org_id user_id).
Proof.
  intros Hs. destruct (delete_all_dead g org_id user_id) as (dead & -> & Hd).
  now apply same_accounts_detach.
Qed.

(** X14: No method of [Neo4jInteraction] touches the accounts.  After a
    call of any of the four writing methods on a sound store, whether it
    returns or raises, the organisations and users matched under every key,
    the relationships between users, organisations and collections, and
    the user records are those from before. *)
Theorem interaction_methods_leave_accounts
    (org_id agent_id user_id : string) (w : world) :
  sound (db w) ->
  (forall rnd mi fn,
     same_accounts (db w)
       (db (fst (save_interaction_with_memories org_id agent_id user_id
                   rnd mi fn w))))
  /\ (forall rnd interaction_id mi fn,
        same_accounts (db w)
          (db (fst (update_interaction_and_memories org_id agent_id user_id
                      rnd interaction_id mi fn w))))
  /\ (forall interaction_id fn,
        same_accounts (db w)
          (db (fst (delete_user_interaction_and_its_memories org_id user_id
                      interaction_id fn w))))
  /\ (forall fn,
        same_accounts (db w)
          (db (fst (delete_all_user_interactions_and_their_memories
                      org_id user_id fn w)))).
Proof.
  intros Hw.
  split; [|split; [|split]].
  - intros rnd mi fn.
    apply (save_steady same_accounts same_accounts_refl same_accounts_trans);
      try assumption; intros.
    + apply accounts_create_interaction.
    + eapply accounts_from_top; eauto.
    + eapply accounts_add_memories; eauto.
    + apply accounts_link.
  - intros rnd interaction_id mi fn.
    apply (update_steady same_accounts same_accounts_refl same_accounts_trans);
      try assumption; intros.
    + eapply accounts_from_top; eauto.
    + eapply accounts_append; eauto.
    + apply accounts_truncate. now destruct H.
    + eapply accounts_add_memories; eauto.
    + apply accounts_link.
    + apply accounts_touch.
  - intros interaction_id fn.
    apply (delete_steady same_accounts same_accounts_refl same_accounts_trans);
      try assumption.
    intros g Hg. apply accounts_delete_interaction, Hg.
  - intros fn.
    apply (delete_all_steady same_accounts same_accounts_refl same_accounts_trans);
      try assumption.
    intros g Hg. apply accounts_delete_all, Hg.
Qed.

(** X15: What deleting one interaction deletes.  In a sound store
    [delete_user_interaction_and_its_memories] removes Interaction and
    MessageBlock nodes only: every Memory, Date, User, Org and collection
    node is afterwards what it was, with every relationship between two
    such nodes, and the store holds nothing it did not hold before.  The
    OPTIONAL MATCH for the memories follows MESSAGE_SOURCE from the
    interaction, where no such relationship ends, and the one for the date
    excludes every date the interaction occurs on. *)
Theorem delete_interaction_deletes_only
    (org_id user_id interaction_id : string) (fn : callback) (w : world) :
  sound (db w) ->
  deletes_only [L_Interaction; L_MessageBlock] (db w)
    (db (fst (delete_user_interaction_and_its_memories org_id user_id
                interaction_id fn w))).
Proof.
  intros Hw. unfold delete_user_interaction_and_its_memories, execute_write.
  match goal with
  | |- context [delete_tx ?a ?b ?c ?d ?e ?f] =>
      destruct (delete_tx a b c d e f) as [w1 [u|e']] eqn:E
  end; cbn [fst db]; [|apply deletes_only_refl].
  unfold delete_tx, tx_bind, tx_run in E. cbn in E.
  unfold await in E.
  match type of E with
  | context [fn ?c] => destruct (fn c)
  end; inversion E; subst; cbn [db].
  apply detach_deletes_only, delete_interaction_dead, Hw.
Qed.

(** * Deleting a user and the other users *)

Lemma map_filter_filter {A B} (f : A -> B) (p q : A -> bool) (r : B -> bool)
    (l : list A) :
  (forall a, In a l -> p a = true -> q a = r (f a)) ->
  map f (filter p (filter q l)) = filter r (map f (filter p l)).
Proof.
  induction l as [|a l IH]; intros H; [reflexivity|]. cbn [filter].
  assert (IH' := IH (fun b Hb => H b (or_intror Hb))).
  destruct (p a) eqn:P.
  - rewrite (H a (or_introl eq_refl) P). cbn [map filter].
    destruct (r (f a)); cbn [filter map]; rewrite ?P; cbn [map]; now rewrite IH'.
  - destruct (q a); cbn [filter]; rewrite ?P; exact IH'.
Qed.

(** A node the query of [delete_user] lists is the matched user or a node
    of another label. *)
Lemma delete_user_dead_cases g org_id user_id x :
  schema g ->
  In x (flat_map (fun row => flat_map opt_list row)
                 (delete_user_rows g org_id user_id)) ->
  In x (match_user g org_id user_id)
  \/ exists l, has_label g x l /\ l <> L_User.
Proof.
  intros Hs Hx.
  destruct (in_dec Nat.eq_dec x (match_user g org_id user_id)) as [Hin|Hout];
    [now left | right].
  apply in_flat_map in Hx as (row & Hrow & Hx).
  apply in_flat_map in Hx as (o & Ho & Hx).
  unfold delete_user_rows in Hrow.
  apply in_flat_map in Hrow as (u & Hu & Hrow).
  apply in_flat_map in Hrow as (ic & Hic & Hrow).
  apply in_flat_map in Hrow as (i & Hi & Hrow).
  apply in_flat_map in Hrow as (m & Hm & Hrow).
  apply in_flat_map in Hrow as (mc & Hmc & Hrow).
  apply in_flat_map in Hrow as (mem & Hmem & Hrow).
  apply in_map_iff in Hrow as (d & <- & Hd).
  destruct Ho as [<-|[<-|[<-|[<-|[<-|[<-|[<-|[]]]]]]]].
  - destruct Hx as [<-|[]]. contradiction.
  - destruct ic as [y|]; [|contradiction]. destruct Hx as [<-|[]].
    exists L_InteractionCollection. split; [|discriminate].
    apply in_optional in Hic.
    apply (targets_label g u INTERACTIONS_IN y Hs Hic).
  - destruct i as [y|]; [|contradiction]. destruct Hx as [<-|[]].
    exists L_Interaction. split; [|discriminate].
    apply in_optional_from in Hi as (c & _ & Hi).
    apply (targets_label g c HAD_INTERACTION y Hs Hi).
  - destruct m as [y|]; [|contradiction]. destruct Hx as [<-|[]].
    exists L_MessageBlock. split; [|discriminate].
    apply in_optional_from in Hm as (c & _ & Hm).
    apply in_map_iff in Hm as (p & <- & Hp).
    apply (var_length_label g [FIRST_MESSAGE; IS_NEXT] c p L_MessageBlock Hs);
      [|exact Hp].
    intros t [<-|[<-|[]]]; reflexivity.
  - destruct mc as [y|]; [|contradiction]. destruct Hx as [<-|[]].
    exists L_MemoryCollection. split; [|discriminate].
    apply in_optional in Hmc.
    apply (targets_label g u HAS_MEMORIES y Hs Hmc).
  - destruct mem as [y|]; [|contradiction]. destruct Hx as [<-|[]].
    exists L_Memory. split; [|discriminate].
    apply in_optional_from in Hmem as (c & _ & Hmem).
    apply (targets_label g c INCLUDES y Hs Hmem).
  - destruct d as [y|]; [|contradiction]. destruct Hx as [<-|[]].
    exists L_Date. split; [|discriminate].
    apply in_optional_from in Hd as (c & _ & Hd).
    apply (targets_label g c HAS_OCCURRENCE_ON y Hs Hd).
Qed.

(** X16: [delete_user] leaves the other users.  In a sound store every
    Org node and every User node other than those matched by the keys is
    afterwards what it was, every BELONGS_TO relationship of such a user
    stays, and under any keys the users matched afterwards are those
    matched before other than the deleted ones. *)
Theorem delete_user_leaves_other_users
    (org_id user_id : string) (w : world) :
  sound (db w) ->
  let g := db w in
  let g' := db (fst (delete_user org_id user_id w)) in
  (forall org, match_org g' org = match_org g org)
  /\ (forall u d, node_of g u = Some d -> label_of d = L_User ->
                  ~ In u (match_user g org_id user_id) ->
                  node_of g' u = Some d)
  /\ (forall e, In e (rels g) -> r_ty e = BELONGS_TO ->
                ~ In (r_src e) (match_user g org_id user_id) ->
                In e (rels g'))
  /\ (forall org user,
        match_user g' org user
        = filter (fun u => negb (mem_nat u (match_user g org_id user_id)))
                 (match_user g org user)).
Proof.
  intros [Hwf Hs] g g'. subst g'. unfold delete_user, execute_write, tx_run.
  cbn [fst db]. unfold delete_user_query. fold g.
  set (dead := flat_map (fun row => flat_map opt_list row)
                        (delete_user_rows g org_id user_id)).
  pose proof (delete_user_dead g org_id user_id Hs) as Hd. fold dead in Hd.
  assert (Huser : forall u, has_label g u L_User ->
                    ~ In u (match_user g org_id user_id) -> ~ In u dead).
  { intros u Hlab Hout Hin.
    destruct (delete_user_dead_cases g org_id user_id u Hs Hin)
      as [Hm|(l & Hl & Hne)]; [contradiction|].
    apply Hne. exact (has_label_unique g u _ _ Hl Hlab). }
  split; [|split; [|split]].
  - intros org. unfold match_org, detach_delete. cbn [nodes]. f_equal.
    apply filter_filter_absorb. intros n Hn Hp.
    rewrite (node_alive _ g dead n Hs Hd Hn); [reflexivity|].
    destruct (n_data n); try discriminate. cbn. intuition discriminate.
  - intros u d Hu Hlab Hout.
    rewrite (node_of_detach_alive g dead u); [exact Hu|].
    apply Huser; [|exact Hout]. unfold has_label. rewrite Hu. cbn.
    now rewrite Hlab.
  - intros e He Ht Hout. unfold detach_delete. cbn [rels].
    apply filter_In. split; [assumption|].
    destruct (schema_ends g Hs e He) as [Ha Hb]. rewrite Ht in Ha, Hb.
    cbn [source_label target_label] in Ha, Hb.
    assert (Ea : mem_nat (r_src e) dead = false)
      by (apply mem_nat_not_In; now apply Huser).
    assert (Eb : mem_nat (r_dst e) dead = false).
    { apply mem_nat_not_In. refine (spared_alive _ g dead _ Hd _).
      exists L_Org. split; [assumption|]. cbn. intuition discriminate. }
    now rewrite Ea, Eb.
  - intros org user. unfold match_user at 1 3, detach_delete. cbn [nodes].
    apply map_filter_filter. intros n Hn Hp. f_equal.
    assert (Hlab : has_label g (n_id n) L_User).
    { pose proof (has_label_own g n Hs Hn) as H.
      destruct (n_data n); try discriminate. exact H. }
    destruct (mem_nat (n_id n) (match_user g org_id user_id)) eqn:Em.
    + apply mem_nat_In. apply mem_nat_In in Em.
      apply (reached_is_dead g org_id user_id (n_id n) (n_id n) Em).
      apply reached_user.
    + apply mem_nat_not_In. apply mem_nat_not_In in Em. now apply Huser.
Qed.

(** * The memories across save and update *)

Lemma keeps_memories_refl g : keeps_memories g g.
Proof. intros o u i row H. exact H. Qed.

Lemma keeps_memories_trans g1 g2 g3 :
  keeps_memories g1 g2 -> keeps_memories g2 g3 -> keeps_memories g1 g3.
Proof. intros H1 H2 o u i row H. now apply H2, H1. Qed.

(** A node-wise criterion: the interactions matched, the sources of
    INTERACTION_SOURCE and the memory rows of [g] are found in [g']. *)
Lemma keeps_memories_by g g' :
  (forall o u i x, In x (match_interaction g o u i) ->
                   In x (match_interaction g' o u i)) ->
  (forall x m row, In m (sources g x INTERACTION_SOURCE) ->
                   In row (memory_row_of g m) ->
                   In m (sources g' x INTERACTION_SOURCE)
                   /\ In row (memory_row_of g' m)) ->
  keeps_memories g g'.
Proof.
  intros Hi Hm o u i row H. unfold get_all_interaction_memories in *.
  apply in_flat_map in H as (x & Hx & H).
  apply in_flat_map in H as (m & Hsrc & Hrow).
  destruct (Hm x m row Hsrc Hrow) as [Hsrc' Hrow'].
  apply in_flat_map. exists x. split; [now apply Hi|].
  apply in_flat_map. now exists m.
Qed.

Lemma keeps_memories_create_node g d :
  keeps_memories g (fst (create_node g d)).
Proof.
  apply keeps_memories_by; unfold create_node; cbn [fst].
  - intros o u i x Hx. unfold match_interaction in *. cbn [nodes].
    rewrite filter_app, map_app. apply in_or_app. now left.
  - intros x m row Hm Hrow. split; [exact Hm|].
    unfold memory_row_of, node_of in *. cbn [nodes].
    destruct (find _ (nodes g)) as [n|] eqn:E; [|contradiction].
    now rewrite (find_app_some _ _ _ _ E).
Qed.

Lemma keeps_memories_create_rel g a t b :
  keeps_memories g (create_rel g a t b).
Proof.
  apply keeps_memories_by; unfold create_rel.
  - intros o u i x Hx. exact Hx.
  - intros x m row Hm Hrow. split; [|exact Hrow].
    unfold sources in *. cbn [rels].
    rewrite filter_app, map_app. apply in_or_app. now left.
Qed.

Lemma keeps_memories_set_node g x agent_id updated_date :
  keeps_memories g
    (set_node g x (fun d => match d with
                            | Interaction o u _ iid c _ =>
                                Interaction o u agent_id iid c updated_date
                            | other => other
                            end)).
Proof.
  apply keeps_memories_by.
  - intros o u i y Hy. unfold match_interaction, set_node in *. cbn [nodes].
    apply in_map_iff in Hy as (n & <- & Hn). apply filter_In in Hn as [Hn Hp].
    match goal with
    | |- In _ (map n_id (filter _ (map ?upd (nodes g)))) =>
        apply in_map_iff; exists (upd n); split;
          [ now destruct (Nat.eqb (n_id n) x)
          | apply filter_In; split; [exact (in_map upd _ _ Hn)|] ]
    end.
    destruct (Nat.eqb (n_id n) x); [|exact Hp]. cbn [n_data].
    now destruct (n_data n).
  - intros y m row Hm Hrow. split; [exact Hm|].
    unfold memory_row_of in *. rewrite node_of_set_node.
    destruct (Nat.eqb m x); [|exact Hrow].
    destruct (node_of g m) as [d|]; [|contradiction].
    now destruct d.
Qed.

Lemma keeps_memories_detach g dead :
  schema g -> labelled_in [L_MessageBlock] g dead ->
  keeps_memories g (detach_delete g dead).
Proof.
  intros Hs Hd. apply keeps_memories_by.
  - intros o u i y Hy. unfold match_interaction, detach_delete in *.
    cbn [nodes]. apply in_map_iff in Hy as (n & <- & Hn).
    apply filter_In in Hn as [Hn Hp]. apply in_map, filter_In. split; [|exact Hp].
    apply filter_In. split; [assumption|].
    rewrite (node_alive _ g dead n Hs Hd Hn); [reflexivity|].
    destruct (n_data n); try discriminate. cbn. intuition discriminate.
  - intros y m row Hm Hrow.
    assert (Hlab : has_label g m L_Memory)
      by apply (sources_label g y INTERACTION_SOURCE m Hs Hm).
    assert (Halive : ~ In m dead).
    { apply (spared_alive [L_MessageBlock] g); [assumption|].
      exists L_Memory. split; [assumption|]. cbn. intuition discriminate. }
    split.
    + unfold sources, detach_delete in *. cbn [rels].
      apply in_map_iff in Hm as (e & <- & He).
      apply filter_In in He as [He Hp]. apply in_map, filter_In.
      split; [|exact Hp]. apply filter_In. split; [assumption|].
      apply andb_true_iff in Hp as [_ Ht].
      apply (rel_alive [L_MessageBlock] g dead e Hs Hd He);
        destruct (r_ty e); try discriminate; cbn; intuition discriminate.
    + unfold memory_row_of in *.
      now rewrite (node_of_detach_alive g dead m Halive).
Qed.

(** X17: Saving and updating never take a memory away.  Every row that
    [get_all_interaction_memories] returns for any interaction before a
    call of [save_interaction_with_memories] or
    [update_interaction_and_memories] on a sound store, it returns
    afterwards, also when the update cuts the transcript the memory was
    drawn from and whether the call returns or raises. *)
Theorem save_and_update_keep_memories
    (org_id agent_id user_id : string) (w : world) :
  sound (db w) ->
  (forall rnd mi fn,
     keeps_memories (db w)
       (db (fst (save_interaction_with_memories org_id agent_id user_id
                   rnd mi fn w))))
  /\ (forall rnd interaction_id mi fn,
        keeps_memories (db w)
          (db (fst (update_interaction_and_memories org_id agent_id user_id
                      rnd interaction_id mi fn w)))).
Proof.
  intros Hw.
  set (okd := fun _ : node_data => true).
  set (okt := fun _ : reltype => true).
  assert (Hn : forall g d, okd d = true -> keeps_memories g (fst (create_node g d)))
    by (intros; apply keeps_memories_create_node).
  assert (Hr : forall g a t b, okt t = true -> keeps_memories g (create_rel g a t b))
    by (intros; apply keeps_memories_create_rel).
  pose proof keeps_memories_refl as Hrefl.
  pose proof keeps_memories_trans as Htrans.
  split.
  - intros rnd mi fn.
    apply (save_steady keeps_memories Hrefl Htrans); try assumption; intros.
    + now apply (frame_create_interaction keeps_memories okd okt Hrefl Htrans
                   Hn Hr).
    + refine (frame_from_top keeps_memories okd okt Hrefl Htrans Hn Hr
                _ _ _ _ _ _ _ _ _ H0); reflexivity.
    + refine (frame_add_memories keeps_memories okd okt Hrefl Htrans Hn Hr
                _ _ _ _ _ _ _ _ _ _ _ _ _ H0); reflexivity.
    + now apply (frame_link keeps_memories okt Hrefl Htrans Hr).
  - intros rnd interaction_id mi fn.
    apply (update_steady keeps_memories Hrefl Htrans); try assumption; intros.
    + refine (frame_from_top keeps_memories okd okt Hrefl Htrans Hn Hr
                _ _ _ _ _ _ _ _ _ H0); reflexivity.
    + refine (frame_append keeps_memories okd okt Hrefl Htrans Hn Hr
                _ _ _ _ _ _ _ _ H0); reflexivity.
    + unfold truncate_messages. apply keeps_memories_detach; [now destruct H|].
      apply truncate_dead. now destruct H.
    + refine (frame_add_memories keeps_memories okd okt Hrefl Htrans Hn Hr
                _ _ _ _ _ _ _ _ _ _ _ _ _ H0); reflexivity.
    + now apply (frame_link keeps_memories okt Hrefl Htrans Hr).
    + apply (frame_touch keeps_memories okd okt Hrefl Htrans Hn Hr);
        try reflexivity.
      intros s x. apply keeps_memories_set_node.
Qed.

(** * Reading after a delete *)

Lemma walk_first : forall fuel avail depth cur p,
  In p (walk fuel avail depth cur) ->
  exists e, In e avail /\ r_src e = cur.
Proof.
  intros [|fuel] avail depth cur p Hp; [contradiction|].
  cbn [walk] in Hp. apply in_flat_map in Hp as (e & He & _).
  apply filter_In in He as [He Hsrc]. apply Nat.eqb_eq in Hsrc.
  now exists e.
Qed.

Lemma walk_hop fuel avail depth e :
  In e avail -> In (S depth, r_dst e) (walk (S fuel) avail depth (r_src e)).
Proof.
  intros He. cbn [walk]. apply in_flat_map. exists e. split.
  - apply filter_In. split; [assumption | apply Nat.eqb_refl].
  - now left.
Qed.

(** A chain relationship out of an interaction node gives the query of the
    delete a row for that node. *)
Lemma chain_start_is_deleted g org_id user_id interaction_id i e :
  schema g ->
  In i (match_interaction g org_id user_id interaction_id) ->
  In e (rels g) -> has_type [FIRST_MESSAGE; IS_NEXT] e = true -> r_src e = i ->
  In i (flat_map (fun '(i, message, mem, date) =>
                    [i; message] ++ opt_list mem ++ opt_list date)
          (delete_rows g org_id user_id interaction_id)).
Proof.
  intros Hs Hi He Ht Hsrc.
  assert (Hm : In (i, 1%nat, r_dst e)
                  (match_messages g org_id user_id interaction_id)).
  { unfold match_messages. apply in_flat_map. exists i. split; [assumption|].
    apply in_map_iff. exists (1%nat, r_dst e). split; [reflexivity|].
    apply filter_In. split.
    - unfold var_length. subst i.
      assert (Hin : In e (filter (has_type [FIRST_MESSAGE; IS_NEXT]) (rels g)))
        by (apply filter_In; now split).
      destruct (filter (has_type [FIRST_MESSAGE; IS_NEXT]) (rels g))
        as [|e0 rs] eqn:E; [contradiction|].
      cbn [List.length]. now apply walk_hop.
    - cbn [snd]. destruct (schema_ends g Hs e He) as [_ Hd].
      unfold is_MessageBlock. unfold has_label in Hd.
      destruct (node_of g (r_dst e)) as [d|]; [|discriminate].
      cbn in Hd. unfold has_type in Ht. cbn in Ht.
      destruct (r_ty e); try discriminate; destruct d; try discriminate;
        reflexivity. }
  unfold delete_rows.
  destruct (optional_inhabited (sources g i MESSAGE_SOURCE)) as (mem & Hmem).
  destruct (optional_inhabited
              (filter (fun d => is_Date g d
                                && negb (has_incoming g d HAS_OCCURRENCE_ON))
                      (targets g i HAS_OCCURRENCE_ON))) as (date & Hdate).
  apply in_flat_map. exists (i, r_dst e, mem, date). split; [|now left].
  apply in_flat_map. exists (i, 1%nat, r_dst e). split; [assumption|].
  apply in_flat_map. exists mem. split; [assumption|].
  apply in_map_iff. now exists date.
Qed.

Lemma delete_interaction_no_messages g org_id user_id interaction_id :
  schema g ->
  match_messages (delete_interaction g org_id user_id interaction_id)
    org_id user_id interaction_id = [].
Proof.
  intros Hs.
  destruct (match_messages _ _ _ _) as [|[[i h] m] rest] eqn:E;
    [reflexivity | exfalso].
  assert (Hrow : In (i, h, m)
                   (match_messages
                      (delete_interaction g org_id user_id interaction_id)
                      org_id user_id interaction_id))
    by (rewrite E; now left).
  clear E. unfold match_messages in Hrow.
  apply in_flat_map in Hrow as (i' & Hi & Hrow).
  apply in_map_iff in Hrow as (p & E & Hp). inversion E; subst. clear E.
  apply filter_In in Hp as [Hp _]. unfold var_length in Hp.
  apply walk_first in Hp as (e & He & Hsrc).
  apply filter_In in He as [He Ht].
  unfold delete_interaction, detach_delete in He, Hi. cbn [rels] in He.
  apply filter_In in He as [He _].
  unfold match_interaction in Hi. cbn [nodes] in Hi.
  apply in_map_iff in Hi as (n & Hid & Hn). apply filter_In in Hn as [Hn Hp'].
  apply filter_In in Hn as [Hn Halive].
  assert (Hmatch : In i (match_interaction g org_id user_id interaction_id)).
  { unfold match_interaction. rewrite <- Hid. apply in_map, filter_In.
    now split. }
  pose proof (chain_start_is_deleted g org_id user_id interaction_id i e
                Hs Hmatch He Ht Hsrc) as Hdead.
  apply mem_nat_In in Hdead. rewrite Hid in Halive. rewrite Hdead in Halive.
  discriminate.
Qed.

(** X18: Reading after a delete.  When the callback returns, the method
    returns, the vector index has been asked to delete the memories read
    beforehand, and in a sound store [get_interaction_messages] then
    returns no message under the id: every interaction node of the id that
    had a message is gone with all its messages. *)
Theorem delete_then_read
    (org_id user_id interaction_id : string) (fn : callback) (w : world) :
  sound (db w) ->
  let ids := map memory_id
               (get_all_interaction_memories (db w) org_id user_id
                  interaction_id) in
  fn (vector_db_delete_memories_by_id ids) = None ->
  let r := delete_user_interaction_and_its_memories org_id user_id
             interaction_id fn w in
  snd r = Ok tt
  /\ get_interaction_messages (db (fst r)) org_id user_id interaction_id = []
  /\ vector_calls (fst r)
     = vector_calls w ++ [vector_db_delete_memories_by_id ids].
Proof.
  intros [Hwf Hs] ids Hfn r. subst r.
  unfold delete_user_interaction_and_its_memories, delete_tx, execute_write,
    tx_bind, tx_run, await.
  cbn [db vector_calls]. fold ids. rewrite Hfn. cbn [fst snd db vector_calls].
  split; [reflexivity|]. split; [|reflexivity].
  unfold get_interaction_messages.
  now rewrite (delete_interaction_no_messages _ _ _ _ Hs).
Qed.

(** * After the delete of all interactions *)

Lemma targets_detach g dead x t y :
  In y (targets (detach_delete g dead) x t) ->
  In y (targets g x t) /\ ~ In y dead.
Proof.
  unfold targets, detach_delete. cbn [rels]. intros H.
  apply in_map_iff in H as (e & <- & He). apply filter_In in He as [He Hp].
  apply filter_In in He as [He Halive].
  apply andb_true_iff in Halive as [_ Hd].
  split.
  - apply in_map, filter_In. now split.
  - apply mem_nat_not_In. now destruct (mem_nat (r_dst e) dead).
Qed.

Lemma match_user_detach g dead org_id user_id x :
  In x (match_user (detach_delete g dead) org_id user_id) ->
  In x (match_user g org_id user_id).
Proof.
  unfold match_user, detach_delete. cbn [nodes]. intros H.
  apply in_map_iff in H as (n & <- & Hn). apply filter_In in Hn as [Hn Hp].
  apply filter_In in Hn as [Hn _]. apply in_map, filter_In. now split.
Qed.

Lemma label_is_Interaction g x :
  has_label g x L_Interaction -> is_Interaction g x = true.
Proof.
  unfold has_label, is_Interaction.
  destruct (node_of g x) as [d|]; [|discriminate].
  destruct d; try discriminate; reflexivity.
Qed.

Lemma label_is_Memory g x : has_label g x L_Memory -> is_Memory g x = true.
Proof.
  unfold has_label, is_Memory.
  destruct (node_of g x) as [d|]; [|discriminate].
  destruct d; try discriminate; reflexivity.
Qed.

(** An interaction in a collection of the user is deleted, and a memory
    drawn from it with it. *)
Lemma delete_all_kills g org_id user_id u ic i :
  schema g ->
  In u (match_user g org_id user_id) ->
  In ic (targets g u INTERACTIONS_IN) ->
  In i (targets g ic HAD_INTERACTION) ->
  exists dead,
    delete_all_interactions g org_id user_id = detach_delete g dead
    /\ In i dead
    /\ forall m, In m (sources g i INTERACTION_SOURCE) -> In m dead.
Proof.
  intros Hs Hu Hic Hi. eexists. split; [reflexivity|].
  assert (Hrow : In i (flat_map (fun u =>
                    flat_map (fun ic => filter (is_Interaction g)
                                               (targets g ic HAD_INTERACTION))
                             (targets g u INTERACTIONS_IN))
                  (match_user g org_id user_id))).
  { apply in_flat_map. exists u. split; [assumption|].
    apply in_flat_map. exists ic. split; [assumption|].
    apply filter_In. split; [assumption|].
    apply label_is_Interaction.
    apply (targets_label g ic HAD_INTERACTION i Hs Hi). }
  destruct (optional_inhabited
              (filter (is_Date g) (targets g i HAS_OCCURRENCE_ON)))
    as (date & Hdate).
  destruct (optional_inhabited
              (map snd (filter (fun p => is_MessageBlock g (snd p))
                               (var_length g [FIRST_MESSAGE; IS_NEXT] i))))
    as (msg & Hmsg).
  assert (Hany : forall mem,
            In mem (optional (filter (is_Memory g)
                                (sources g i INTERACTION_SOURCE))) ->
            forall x, In x ([i] ++ opt_list mem) ->
            In x (List.concat (flat_map (fun i =>
               flat_map (fun mem =>
                 flat_map (fun date =>
                   map (fun messages => [i] ++ opt_list mem ++ opt_list date
                                            ++ opt_list messages)
                       (optional (map snd
                          (filter (fun p => is_MessageBlock g (snd p))
                                  (var_length g [FIRST_MESSAGE; IS_NEXT] i)))))
                   (optional (filter (is_Date g)
                                     (targets g i HAS_OCCURRENCE_ON))))
                 (optional (filter (is_Memory g)
                                   (sources g i INTERACTION_SOURCE))))
               (flat_map (fun u =>
                    flat_map (fun ic => filter (is_Interaction g)
                                               (targets g ic HAD_INTERACTION))
                             (targets g u INTERACTIONS_IN))
                  (match_user g org_id user_id))))).
  { intros mem Hmem x Hx. apply in_concat.
    exists ([i] ++ opt_list mem ++ opt_list date ++ opt_list msg). split.
    - apply in_flat_map. exists i. split; [assumption|].
      apply in_flat_map. exists mem. split; [assumption|].
      apply in_flat_map. exists date. split; [assumption|].
      apply in_map_iff. now exists msg.
    - rewrite app_assoc. apply in_or_app. now left. }
  split.
  - destruct (optional_inhabited
                (filter (is_Memory g) (sources g i INTERACTION_SOURCE)))
      as (mem & Hmem).
    apply (Hany mem Hmem). now left.
  - intros m Hm. apply (Hany (Some m)).
    + apply optional_some, filter_In. split; [assumption|].
      apply label_is_Memory.
      apply (sources_label g i INTERACTION_SOURCE m Hs Hm).
    + right. now left.
Qed.

(** X19: After the delete of all interactions.  When the callback returns,
    [delete_all_user_interactions_and_their_memories] returns after one
    call of the callback with the user's keys, and in a sound store the
    interaction collections of the user are then empty; every interaction
    they held is gone, and so is every memory drawn from one of them. *)
Theorem delete_all_empties_collections
    (org_id user_id : string) (fn : callback) (w : world) :
  sound (db w) ->
  fn (vector_db_delete_all_user_memories org_id user_id) = None ->
  let r := delete_all_user_interactions_and_their_memories org_id user_id
             fn w in
  snd r = Ok tt
  /\ vector_calls (fst r)
     = vector_calls w ++ [vector_db_delete_all_user_memories org_id user_id]
  /\ (forall u ic,
        In u (match_user (db (fst r)) org_id user_id) ->
        In ic (targets (db (fst r)) u INTERACTIONS_IN) ->
        targets (db (fst r)) ic HAD_INTERACTION = [])
  /\ (forall u ic i,
        In u (match_user (db w) org_id user_id) ->
        In ic (targets (db w) u INTERACTIONS_IN) ->
        In i (targets (db w) ic HAD_INTERACTION) ->
        node_of (db (fst r)) i = None
        /\ forall m, In m (sources (db w) i INTERACTION_SOURCE) ->
                     node_of (db (fst r)) m = None).
Proof.
  intros [Hwf Hs] Hfn r. subst r.
  unfold delete_all_user_interactions_and_their_memories, execute_write,
    tx_bind, tx_run, await.
  cbn [db vector_calls]. rewrite Hfn. cbn [fst snd db vector_calls].
  split; [reflexivity|]. split; [reflexivity|].
  set (g := db w) in *. split.
  - intros u ic Hu Hic.
    destruct (targets _ ic HAD_INTERACTION) as [|i rest] eqn:E;
      [reflexivity | exfalso].
    assert (Hi : In i (targets (delete_all_interactions g org_id user_id) ic
                         HAD_INTERACTION)) by (rewrite E; now left).
    clear E.
    destruct (delete_all_dead g org_id user_id) as (dead & Eq & _).
    rewrite Eq in Hu, Hic, Hi.
    apply match_user_detach in Hu.
    apply targets_detach in Hic as [Hic _].
    apply targets_detach in Hi as [Hi Halive].
    destruct (delete_all_kills g org_id user_id u ic i Hs Hu Hic Hi)
      as (dead' & Eq' & Hdead & _).
    assert (Hnone : node_of (detach_delete g dead) i = None).
    { rewrite <- Eq, Eq'. now apply node_of_detach_dead. }
    rewrite (node_of_detach_alive g dead i Halive) in Hnone.
    pose proof (targets_label g ic HAD_INTERACTION i Hs Hi) as Hlab.
    unfold has_label in Hlab. rewrite Hnone in Hlab. discriminate.
  - intros u ic i Hu Hic Hi.
    destruct (delete_all_kills g org_id user_id u ic i Hs Hu Hic Hi)
      as (dead & Eq & Hdead & Hmem).
    rewrite Eq. split; [now apply node_of_detach_dead|].
    intros m Hm. apply node_of_detach_dead. now apply Hmem.
Qed.

(** * The methods at work *)

Local Open Scope string_scope.

(** Well-formedness and the chain invariant of a concrete graph, by
    enumeration. *)
Ltac enumerate H :=
  repeat (destruct H as [<-|H]; [cbn; lia|]); contradiction.

Ltac concrete_nodup :=
  repeat (constructor; [cbn; intuition discriminate|]); constructor.

Ltac concrete_wf :=
  split;
  [ cbn; concrete_nodup
  | intros e He; cbn in He; enumerate He
  | intros n Hn; cbn in Hn; enumerate Hn ].

Ltac concrete_chain :=
  split;
  [ cbn; repeat split; try (eexists; reflexivity)
  | concrete_nodup
  | reflexivity ].

Lemma ex_saved_ABC_wf : wf_graph (db ex_saved_ABC).
Proof. concrete_wf. Qed.

Lemma ex_saved_ABC_chain :
  chain (db ex_saved_ABC) 7 [11; 13; 14]%nat (stored [msg_A; msg_B; msg_C]).
Proof. concrete_chain. Qed.

(** C1 (at an interaction with one message and one memory): The delete
    removes the interaction and its block and the method hands the id of
    the memory to the vector index, but the Memory node itself stays in the
    graph: the query looks for the memories behind MESSAGE_SOURCE, which
    never ends at an interaction, where the memories hang by
    INTERACTION_SOURCE.  The delete of all interactions of the user, which
    follows INTERACTION_SOURCE, does remove it. *)
Theorem delete_leaves_owned_memory :
  let r := delete_user_interaction_and_its_memories "org" "u1" "i1" returns
             ex_saved_A in
  map memory_id (get_all_interaction_memories (db ex_saved_A) "org" "u1" "i1")
  = ["m0"]
  /\ snd r = Ok tt
  /\ match_interaction (db (fst r)) "org" "u1" "i1" = []
  /\ filter (fun n => chain_label (n_data n)) (nodes (db (fst r))) = []
  /\ vector_calls (fst r)
     = (vector_calls ex_saved_A ++ [vector_db_delete_memories_by_id ["m0"]])%list
  /\ match_memory (db (fst r)) "org" "u1" "m0" = [13%nat]
  /\ match_memory
       (db (fst (delete_all_user_interactions_and_their_memories "org" "u1"
                   returns ex_saved_A))) "org" "u1" "m0" = [].
Proof. vm_compute. repeat split. Qed.

(** C2 (at a stored chain [A] updated with [B]): The first mismatch is at
    index 0, [truncate_from] is 0, and [update_tx] takes the branch written
    for an interaction without messages: it adds the incoming transcript
    from the top and leaves the stored block in place.  The interaction
    then has two FIRST_MESSAGE relationships and two blocks at position 0,
    and reads back as both. *)
Theorem update_at_first_message_forks_chain :
  let r := update_interaction_and_memories "org" "agent" "u1" ex_rnd "i1"
             (transcript [msg_B]) returns ex_saved_A in
  get_interaction_messages (db ex_saved_A) "org" "u1" "i1" = stored [msg_A]
  /\ compute_truncate_from (stored [msg_A]) [msg_B] = Ok 0
  /\ snd r = Ok ("i1", ex_day)
  /\ targets (db (fst r)) 7 FIRST_MESSAGE = [11; 17]%nat
  /\ get_interaction_messages (db (fst r)) "org" "u1" "i1"
     = (stored [msg_A] ++ stored [msg_B])%list
  /\ get_interaction_messages (db (fst r)) "org" "u1" "i1" <> stored [msg_B].
Proof. vm_compute. repeat split. discriminate. Qed.

(** C3 (at an interaction that alone occurs on its Date): After the delete
    no interaction refers to the Date and the Date is still there: the WHERE
    asks that no HAS_OCCURRENCE_ON reach the Date, and the one from the
    interaction being deleted always does.  With a second interaction on the
    Date the Date stays, as it should; the delete of all interactions of the
    user removes it. *)
Theorem delete_leaves_unshared_date :
  let r := delete_user_interaction_and_its_memories "org" "u1" "i1" returns
             ex_saved_A in
  let r2 := delete_user_interaction_and_its_memories "org" "u1" "i1" returns
              ex_saved_twice in
  sources (db ex_saved_A) 9 HAS_OCCURRENCE_ON = [7%nat]
  /\ snd r = Ok tt
  /\ match_interaction (db (fst r)) "org" "u1" "i1" = []
  /\ match_date (db (fst r)) "org" "u1" 19000 = [9%nat]
  /\ sources (db (fst r)) 9 HAS_OCCURRENCE_ON = []
  /\ sources (db ex_saved_twice) 9 HAS_OCCURRENCE_ON = [7; 17]%nat
  /\ match_date (db (fst r2)) "org" "u1" 19000 = [9%nat]
  /\ sources (db (fst r2)) 9 HAS_OCCURRENCE_ON = [17%nat]
  /\ match_date
       (db (fst (delete_all_user_interactions_and_their_memories "org" "u1"
                   returns ex_saved_A))) "org" "u1" 19000 = [].
Proof. vm_compute. repeat split. Qed.

(** C8 (at the empty transcript): Building from the top with no message
    still creates the first block: [$messages[0]] is null, so the block has
    position 0 and neither role nor content, and the read returns it.  The
    next update of that interaction then fails on the block: the scan looks
    up its "role". *)
Theorem empty_transcript_reads_back_a_block :
  let r := save_interaction_with_memories "org" "agent" "u1" ex_rnd
             (transcript []) returns ex_world in
  snd r = Ok ("i1", ex_day)
  /\ get_interaction_messages (db (fst r)) "org" "u1" "i1"
     = [{| msg_position := 0; b_role := None; b_content := None |}]
  /\ get_interaction_messages (db (fst r)) "org" "u1" "i1" <> stored []
  /\ snd (update_interaction_and_memories "org" "agent" "u1" ex_rnd "i1"
            (transcript [msg_A]) returns (fst r)) = Raise KeyError.
Proof. vm_compute. repeat split. discriminate. Qed.

(** C5 (at a stored chain [A] and the incoming transcript [B]): The first
    mismatch is at index 0 and the scan leaves 0 in [truncate_from], the
    value it leaves for an interaction without messages; [update_tx] cannot
    tell the two apart and takes the branch that builds from the top, with
    no truncation.  A first mismatch at index 1 leaves 1 and takes the
    branch that truncates there and appends. *)
Theorem first_mismatch_at_0_is_taken_for_empty :
  let existing := get_interaction_messages (db ex_saved_A) "org" "u1" "i1" in
  existing = stored [msg_A]
  /\ compute_truncate_from existing [msg_B] = Ok 0
  /\ compute_truncate_from [] [msg_B] = Ok 0
  /\ (forall g,
        update_chain "org" "u1" "i1" [msg_B] 0 g
        = _add_messages_to_interaction_from_top g "org" "u1" "i1" [msg_B])
  /\ compute_truncate_from (stored [msg_A; msg_B]) [msg_A; msg_C] = Ok 1
  /\ (forall g,
        update_chain "org" "u1" "i1" [msg_A; msg_C] 1 g
        = _append_messages_to_interaction
            (truncate_messages g "org" "u1" "i1" 1) "org" "u1" "i1"
            [msg_A; msg_C]).
Proof.
  cbv zeta. split; [reflexivity|]. split; [reflexivity|].
  split; [reflexivity|]. split; [intros g; reflexivity|].
  split; [reflexivity | intros g; reflexivity].
Qed.

(** C7 (at a stored chain [A; B; C] and the incoming transcript [A; B]):
    The scan runs over the stored positions and reads the incoming
    transcript at index 2, which it does not have: IndexError, raised
    before the write transaction is opened, so no directive is produced
    and the store stays as it was.  A shorter transcript that differs from
    the stored one, [A; D], is handled: the scan stops at index 1, the
    update truncates there and the interaction reads back as [A; D]. *)
Theorem shorter_matching_transcript_raises :
  let r := update_interaction_and_memories "org" "agent" "u1" ex_rnd "i1"
             (transcript [msg_A; msg_B]) returns ex_saved_ABC in
  let r2 := update_interaction_and_memories "org" "agent" "u1" ex_rnd "i1"
              (transcript [msg_A; msg_D]) returns ex_saved_ABC in
  get_interaction_messages (db ex_saved_ABC) "org" "u1" "i1"
  = stored [msg_A; msg_B; msg_C]
  /\ compute_truncate_from (stored [msg_A; msg_B; msg_C]) [msg_A; msg_B]
     = Raise IndexError
  /\ r = (ex_saved_ABC, Raise IndexError)
  /\ compute_truncate_from (stored [msg_A; msg_B; msg_C]) [msg_A; msg_D]
     = Ok 1
  /\ snd r2 = Ok ("i1", ex_day)
  /\ get_interaction_messages (db (fst r2)) "org" "u1" "i1"
     = stored [msg_A; msg_D].
Proof. vm_compute. repeat split. Qed.

Lemma update_with_shorter_transcript_raises_witness :
  compute_truncate_from (stored [msg_A; msg_B; msg_C]) [msg_A; msg_B]
  = Raise IndexError
  /\ update_interaction_and_memories "org" "agent" "u1" ex_rnd "i1"
       (transcript [msg_A; msg_B]) returns ex_saved_ABC
     = (ex_saved_ABC, Raise IndexError).
Proof.
  apply (update_with_shorter_transcript_raises "org" "agent" "u1" "i1" ex_rnd
           (transcript [msg_A; msg_B]) returns ex_saved_ABC
           [msg_A; msg_B; msg_C]).
  - reflexivity.
  - cbn; lia.
  - reflexivity.
Defined.

Lemma compute_truncate_from_directive_witness :
  compute_truncate_from (stored [msg_A; msg_B]) [msg_A; msg_B; msg_C] = Ok (-1)
  /\ compute_truncate_from (stored [msg_A; msg_B; msg_C])
       [msg_A; msg_B; msg_D; msg_E] = Ok 2.
Proof.
  split.
  - apply (proj1 (proj2 (compute_truncate_from_directive [msg_A; msg_B]
                           [msg_A; msg_B; msg_C] ltac:(cbn; lia))));
      [discriminate | reflexivity].
  - apply (proj1 (proj2 (proj2
             (compute_truncate_from_directive [msg_A; msg_B; msg_C]
                [msg_A; msg_B; msg_D; msg_E] ltac:(cbn; lia))))
           2%nat msg_C msg_D);
      [reflexivity | reflexivity | right; discriminate | reflexivity].
Defined.

(** Stored [A; B; C], incoming [A; B; D; E]: truncation at 2, result
    [A; B; D; E]. *)
Lemma update_truncate_and_replace_witness :
  compute_truncate_from
    (get_interaction_messages (db ex_saved_ABC) "org" "u1" "i1")
    [msg_A; msg_B; msg_D; msg_E] = Ok 2
  /\ exists w',
       update_interaction_and_memories "org" "agent" "u1" ex_rnd "i1"
         (transcript [msg_A; msg_B; msg_D; msg_E]) returns ex_saved_ABC
       = (w', Ok ("i1", ex_day))
       /\ get_interaction_messages (db w') "org" "u1" "i1"
          = stored [msg_A; msg_B; msg_D; msg_E].
Proof.
  destruct (update_truncate_and_replace "org" "agent" "u1" "i1" ex_rnd
              (transcript [msg_A; msg_B; msg_D; msg_E]) returns ex_saved_ABC
              7%nat [11; 13; 14]%nat [msg_A; msg_B; msg_C] 2%nat msg_C msg_D)
    as (Hscan & Hruns & Hafter).
  - exact ex_saved_ABC_wf.
  - reflexivity.
  - exact ex_saved_ABC_chain.
  - lia.
  - reflexivity.
  - reflexivity.
  - right. discriminate.
  - reflexivity.
  - split; [exact Hscan|].
    destruct (Hruns eq_refl eq_refl) as [w' Hw']. exists w'.
    split; [exact Hw'|]. exact (proj1 (Hafter w' _ Hw')).
Defined.

Lemma link_contrary_idempotent_witness :
  In (22, 13)%nat
     (contrary_rows (db ex_saved_twice) "org" "u1"
        (contrary_and_existing_ids (with_contrary [msg_B]) ["m2"]))
  /\ count_rel
       (Nat.iter 3
          (fun g => _link_update_contrary_memories_to_existing_memories g
                      "org" "u1" ["m2"] (with_contrary [msg_B]))
          (db ex_saved_twice))
       13 CONTRARY_UPDATE 22 = 1%nat.
Proof.
  assert (Hin : In (22, 13)%nat
                  (contrary_rows (db ex_saved_twice) "org" "u1"
                     (contrary_and_existing_ids (with_contrary [msg_B]) ["m2"])))
    by (cbn; now left).
  split; [exact Hin|].
  apply (proj2 (link_contrary_idempotent "org" "u1" ["m2"] (with_contrary [msg_B])
                  (db ex_saved_twice) 2) 22%nat 13%nat Hin).
  cbn. lia.
Defined.

Lemma delete_without_blocks_changes_nothing_witness :
  let r := delete_user_interaction_and_its_memories "org" "u1" "i1" returns
             ex_no_blocks in
  db (fst r) = db ex_no_blocks
  /\ vector_calls (fst r) = [vector_db_delete_memories_by_id ["m0"]]
  /\ snd r = Ok tt.
Proof.
  apply (delete_without_blocks_changes_nothing "org" "u1" "i1" returns
           ex_no_blocks 7%nat).
  - cbn. now left.
  - reflexivity.
Defined.


Local Close Scope string_scope.

(** * The methods at work, continued *)

Local Open Scope string_scope.

Lemma ex_world_wf : wf_graph (db ex_world).
Proof. concrete_wf. Qed.

Lemma ex_org_wf : wf_graph (db ex_org_world).
Proof. concrete_wf. Qed.

Lemma with_memories_ABC_in_range obj p :
  In obj (memories with_memories_ABC ++ contrary_memories with_memories_ABC) ->
  In p (source_msg_block_pos obj) ->
  in_range (List.length (interaction with_memories_ABC)) p.
Proof.
  intros [<-|[<-|[<-|[]]]] Hp; cbn in Hp;
    repeat (destruct Hp as [<-|Hp]; [unfold in_range; cbn; lia|]);
    contradiction.
Qed.

Lemma save_then_read_witness :
  exists w',
    save_interaction_with_memories "org" "agent" "u1" ex_rnd
      (transcript [msg_A; msg_B]) returns ex_world = (w', Ok ("i1", ex_day))
    /\ get_interaction_messages (db w') "org" "u1" "i1" = stored [msg_A; msg_B].
Proof.
  destruct (save_then_read "org" "agent" "u1" ex_rnd (transcript [msg_A; msg_B])
              returns ex_world 1%nat 3%nat) as (Hruns & Hafter).
  - exact ex_world_wf.
  - reflexivity.
  - reflexivity.
  - discriminate.
  - destruct (Hruns eq_refl eq_refl) as [w' Hw']. exists w'.
    split; [exact Hw'|]. exact (proj1 (Hafter w' _ Hw')).
Defined.

Lemma update_appends_witness :
  exists w',
    update_interaction_and_memories "org" "agent" "u1" ex_rnd "i1"
      (transcript [msg_A; msg_B; msg_C; msg_D]) returns ex_saved_ABC
    = (w', Ok ("i1", ex_day))
    /\ get_interaction_messages (db w') "org" "u1" "i1"
       = stored [msg_A; msg_B; msg_C; msg_D].
Proof.
  destruct (update_appends "org" "agent" "u1" "i1" ex_rnd
              (transcript [msg_A; msg_B; msg_C; msg_D]) returns ex_saved_ABC
              7%nat [11; 13; 14]%nat [msg_A; msg_B; msg_C])
    as (Hruns & Hafter).
  - exact ex_saved_ABC_wf.
  - reflexivity.
  - exact ex_saved_ABC_chain.
  - discriminate.
  - reflexivity.
  - destruct (Hruns eq_refl eq_refl) as [w' Hw']. exists w'.
    split; [exact Hw'|]. exact (proj1 (Hafter w' _ Hw')).
Defined.



Lemma delete_of_unknown_interaction_witness :
  let r := delete_user_interaction_and_its_memories "org" "u1" "nope" returns
             ex_saved_A in
  db (fst r) = db ex_saved_A
  /\ vector_calls (fst r)
     = (vector_calls ex_saved_A ++ [vector_db_delete_memories_by_id []])%list
  /\ snd r = Ok tt.
Proof.
  apply (delete_of_unknown_interaction "org" "u1" "nope" returns ex_saved_A).
  reflexivity.
Defined.

Lemma create_user_in_org_witness :
  let r := create_user ex_rnd "org" "Ada" ex_day ex_org_world in
  snd r = inl {| u_org_id := "org"; u_user_id := "i1"; u_user_name := "Ada";
                 u_created_at := ex_day |}
  /\ node_of (db (fst r)) 1 = Some (User "org" "i1" "Ada" ex_day)
  /\ (forall u, In u (sources (db (fst r)) 0 BELONGS_TO) <-> u = 1%nat).
Proof.
  destruct (create_user_in_org ex_rnd "org" "Ada" ex_day ex_org_world 0%nat)
    as (Hret & _ & _ & Hnode & Hbelongs & _).
  - exact ex_org_wf.
  - reflexivity.
  - split; [exact Hret|]. split; [exact Hnode|].
    intros u. rewrite (Hbelongs u). cbn. intuition.
Defined.

Lemma create_user_without_org_witness :
  create_user ex_rnd "nope" "Ada" ex_day ex_org_world
  = (ex_org_world, inr TypeError).
Proof.
  apply (create_user_without_org ex_rnd "nope" "Ada" ex_day ex_org_world).
  reflexivity.
Defined.

Lemma delete_user_undoes_create_user_witness :
  let w1 := fst (create_user ex_rnd "org" "Ada" ex_day ex_org_world) in
  let r := delete_user "org" "i1" w1 in
  snd r = Ok tt
  /\ nodes (db (fst r)) = nodes ex_org
  /\ rels (db (fst r)) = rels ex_org
  /\ next_id (db (fst r)) = 7%nat.
Proof.
  apply (delete_user_undoes_create_user ex_rnd "org" "Ada" ex_day ex_org_world
           0%nat).
  - exact ex_org_wf.
  - reflexivity.
  - reflexivity.
Defined.



Lemma saved_memories_point_at_their_sources_witness :
  exists w',
    save_interaction_with_memories "org" "agent" "u1" ex_rnd3
      with_memories_ABC returns ex_world = (w', Ok ("i3", ex_day))
    /\ match_interaction (db w') "org" "u1" "i3" = [7%nat]
    /\ map (fun m => flat_map (block_of (db w'))
                              (targets (db w') m MESSAGE_SOURCE))
           (sources (db w') 7 INTERACTION_SOURCE)
       = [blocks_at (stored [msg_A; msg_B; msg_C]) [0; -1];
          blocks_at (stored [msg_A; msg_B; msg_C]) [2];
          blocks_at (stored [msg_A; msg_B; msg_C]) [1]].
Proof.
  apply (saved_memories_point_at_their_sources "org" "agent" "u1" ex_rnd3
           with_memories_ABC returns ex_world 1%nat 3%nat 4%nat).
  - exact ex_world_wf.
  - reflexivity.
  - reflexivity.
  - reflexivity.
  - discriminate.
  - exact with_memories_ABC_in_range.
  - reflexivity.
Defined.

(** The schema of a concrete graph, by enumeration. *)
Ltac concrete_schema :=
  split;
  [ cbn; concrete_nodup
  | intros e He; cbn in He;
    repeat (destruct He as [<-|He]; [split; reflexivity|]); contradiction ].

Lemma ex_world_sound : sound (db ex_world).
Proof. split; [exact ex_world_wf | concrete_schema]. Qed.

Lemma ex_saved_A_sound : sound (db ex_saved_A).
Proof. split; [concrete_wf | concrete_schema]. Qed.

Lemma ex_saved_ABC_sound : sound (db ex_saved_ABC).
Proof. split; [exact ex_saved_ABC_wf | concrete_schema]. Qed.

Lemma methods_keep_schema_witness :
  sound (db ex_saved_A)
  /\ sound (db (fst (update_interaction_and_memories "org" "agent" "u1" ex_rnd2
                       "i1" (with_contrary [msg_B]) returns ex_saved_A)))
  /\ sound (db (fst (delete_user "org" "u1" ex_saved_A))).
Proof.
  split; [exact ex_saved_A_sound|].
  pose proof (methods_keep_schema "org" "agent" "u1" ex_saved_A
                ex_saved_A_sound) as (_ & Hupdate & _ & _ & _ & Hdelete).
  split; [apply Hupdate | exact Hdelete].
Defined.

Lemma interaction_methods_leave_accounts_witness :
  sound (db ex_saved_ABC)
  /\ same_accounts (db ex_saved_ABC)
       (db (fst (update_interaction_and_memories "org" "agent" "u1" ex_rnd
                   "i1" (transcript [msg_A; msg_D]) returns ex_saved_ABC))).
Proof.
  split; [exact ex_saved_ABC_sound|].
  apply (interaction_methods_leave_accounts "org" "agent" "u1" ex_saved_ABC
           ex_saved_ABC_sound).
Defined.

Lemma delete_interaction_deletes_only_witness :
  sound (db ex_saved_A)
  /\ deletes_only [L_Interaction; L_MessageBlock] (db ex_saved_A)
       (db (fst (delete_user_interaction_and_its_memories "org" "u1" "i1"
                   returns ex_saved_A))).
Proof.
  split; [exact ex_saved_A_sound|].
  apply (delete_interaction_deletes_only "org" "u1" "i1" returns ex_saved_A
           ex_saved_A_sound).
Defined.

Lemma ex_two_users_sound : sound (db ex_two_users).
Proof. split; [concrete_wf | concrete_schema]. Qed.

Lemma delete_user_leaves_other_users_witness :
  sound (db ex_two_users)
  /\ match_user (db (fst (delete_user "org" "u1" ex_two_users))) "org" "u2"
     = match_user (db ex_two_users) "org" "u2"
  /\ match_user (db (fst (delete_user "org" "u1" ex_two_users))) "org" "u1"
     = [].
Proof.
  split; [exact ex_two_users_sound|].
  destruct (delete_user_leaves_other_users "org" "u1" ex_two_users
              ex_two_users_sound) as (_ & _ & _ & H).
  split; [exact (H "org" "u2") | exact (H "org" "u1")].
Defined.

Lemma save_and_update_keep_memories_witness :
  sound (db ex_saved_A)
  /\ keeps_memories (db ex_saved_A)
       (db (fst (update_interaction_and_memories "org" "agent" "u1" ex_rnd2
                   "i1" (with_contrary [msg_B]) returns ex_saved_A))).
Proof.
  split; [exact ex_saved_A_sound|].
  apply (save_and_update_keep_memories "org" "agent" "u1" ex_saved_A
           ex_saved_A_sound).
Defined.

Lemma delete_then_read_witness :
  sound (db ex_saved_A)
  /\ get_interaction_messages
       (db (fst (delete_user_interaction_and_its_memories "org" "u1" "i1"
                   returns ex_saved_A))) "org" "u1" "i1" = [].
Proof.
  split; [exact ex_saved_A_sound|].
  apply (delete_then_read "org" "u1" "i1" returns ex_saved_A
           ex_saved_A_sound eq_refl).
Defined.

Lemma delete_all_empties_collections_witness :
  sound (db ex_saved_A)
  /\ node_of (db (fst (delete_all_user_interactions_and_their_memories
                         "org" "u1" returns ex_saved_A))) 7 = None.
Proof.
  split; [exact ex_saved_A_sound|].
  destruct (delete_all_empties_collections "org" "u1" returns ex_saved_A
              ex_saved_A_sound eq_refl) as (_ & _ & _ & H).
  refine (proj1 (H 1%nat 3%nat 7%nat _ _ _)); vm_compute; left; reflexivity.
Defined.

Local Close Scope string_scope.
